(** * PiggyList.h: the block-structured growable arrays of souffle

    A shallow embedding of [cbits/souffle/PiggyList.h] (the classes
    [RandomInsertPiggyList<T>] and [PiggyList<T>]) and the properties of
    its index mapping, growth, copy and clear operations.

    Conventions.
    - A [size_t] is a [Z] in [0, 2^64); every operation on it is written
      with its wrap-around ([wrap64]).
    - An [int] is a [Z] in [-2^31, 2^31).  The two [int] operations of the
      header, the shift [1 << blockNum] and the subtraction [... - 1] of
      [get], are given under an [int_model]: [Strict] is the C++ abstract
      machine, where a shift by 32 or more and signed overflow are
      undefined; [Wrap32] is what a two's-complement target computes for
      the same expression (shift count taken modulo 32, overflow wraps).
    - Undefined behaviour is [None].  Allocation never fails.
    - The free store is explicit: [new T[n]] returns an address that was
      never used before, [delete[]] removes the block, and a container
      holds addresses, so two containers on one store can be compared. *)

From Stdlib Require Import ZArith Lia List Bool.
From stdpp Require Import base option list gmap numbers.

Local Open Scope Z_scope.

(** ** Machine arithmetic *)

Definition wrap64 (z : Z) : Z := z mod 2 ^ 64.

(** The value of a 32-bit pattern read as a signed [int]. *)
Definition sint32 (z : Z) : Z := (z + 2 ^ 31) mod 2 ^ 32 - 2 ^ 31.

Inductive int_model : Set := Strict | Wrap32.

(** [a << k] where [a] has type [int] (the result has the type of the left
    operand, whatever the type of [k]).  C++17 [expr.shift]: undefined when
    [k] is at least the width of [int], when [a] is negative, or when
    [a * 2^k] does not fit the unsigned type. *)
Definition int_shl (im : int_model) (a k : Z) : option Z :=
  match im with
  | Strict =>
      if (0 <=? k) && (k <? 32) && (0 <=? a) && (a * 2 ^ k <? 2 ^ 32)
      then Some (sint32 (a * 2 ^ k)) else None
  | Wrap32 => Some (sint32 (a * 2 ^ (k mod 32)))
  end.

(** [a - b] on [int]: signed overflow is undefined. *)
Definition int_sub (im : int_model) (a b : Z) : option Z :=
  match im with
  | Strict =>
      if (- 2 ^ 31 <=? a - b) && (a - b <? 2 ^ 31) then Some (a - b) else None
  | Wrap32 => Some (sint32 (a - b))
  end.

(** [__builtin_clzll]: the number of leading zero bits of a 64-bit value;
    the result is undefined for 0. *)
Definition clzll (value : Z) : option Z :=
  if value =? 0 then None else Some (63 - Z.log2 value).

(** [_BitScanReverse64 (&msb, value)]: the position of the highest set bit
    of a 64-bit value, searched from bit 63 down.  There is none for 0, and
    the intrinsic then returns 0. *)
Definition BitScanReverse64 (value : Z) : option Z :=
  List.find (Z.testbit value) (List.rev (seqZ 0 64)).

(** The definition of [__builtin_clzll] that the header supplies for MSVC:
<<
    unsigned long msb = 0;
    if (_BitScanReverse64(&msb, value)) return 63 - msb;
    else return 64;
>> *)
Definition msvc_clzll (value : Z) : Z :=
  match BitScanReverse64 value with
  | Some msb => 63 - msb
  | None => 64
  end.

(** [1ul << bits], the initialiser of [BLOCKSIZE] and [INITIALBLOCKSIZE];
    undefined when [bits] is 64 or more. *)
Definition ul_shl1 (bits : Z) : option Z :=
  if (0 <=? bits) && (bits <? 64) then Some (wrap64 (2 ^ bits)) else None.

(** ** Index-to-location mapping

    The first three lines of [get], the same in both classes:
<<
    size_t nindex = index + BLOCKSIZE;
    size_t blockNum = (63 - __builtin_clzll(nindex));
    size_t blockInd = (nindex) & ((1 << blockNum) - 1);
    return this->getBlock(blockNum - BLOCKBITS)[blockInd];
>>
    [block_position] returns the pair [(blockNum - BLOCKBITS, blockInd)]. *)
Definition block_position (im : int_model) (BLOCKBITS BLOCKSIZE index : Z)
  : option (Z * Z) :=
  let nindex := wrap64 (index + BLOCKSIZE) in
  lz ← clzll nindex;
  let blockNum := wrap64 (63 - lz) in
  one ← int_shl im 1 blockNum;
  mask ← int_sub im one 1;
  let blockInd := Z.land nindex (wrap64 mask) in
  Some (wrap64 (blockNum - BLOCKBITS), blockInd).

(** The location the mapping algorithm of the specification prescribes:
    [n = idx + B], [rawBlock = floor (log2 n)], slot [rawBlock - BLOCKBITS],
    offset [n mod 2^rawBlock]. *)
Definition spec_position (BLOCKBITS idx : Z) : Z * Z :=
  let n := idx + 2 ^ BLOCKBITS in
  let rawBlock := Z.log2 n in
  (rawBlock - BLOCKBITS, n mod 2 ^ rawBlock).

(** The mapping contract of the specification: block 0 holds the indices
    [0 .. B), block [k] the next [B * 2^k] indices after those of the
    blocks before it. *)
Definition block_start (B k : Z) : Z := B * (2 ^ k - 1).

Definition contract_position (B idx slot offset : Z) : Prop :=
  0 <= slot /\
  block_start B slot <= idx < block_start B (slot + 1) /\
  offset = idx - block_start B slot.

(** ** The free store

    A block is the array made by [new T[n]]: its length and the elements
    written so far (an element never written has an indeterminate value and
    is absent from [blk_data]). *)

Record block (T : Type) : Type := Block {
  blk_len : Z;
  blk_data : gmap Z T
}.
Arguments Block {T} _ _.
Arguments blk_len {T} _.
Arguments blk_data {T} _.

Record heap (T : Type) : Type := Heap {
  h_blocks : gmap positive (block T);
  h_next : positive
}.
Arguments Heap {T} _ _.
Arguments h_blocks {T} _.
Arguments h_next {T} _.

Section FreeStore.
Context {T : Type}.

Definition empty_heap : heap T := Heap ∅ 1%positive.

(** [new T[n]]: a block of [n] indeterminate elements at a fresh address. *)
Definition new_array (n : Z) (h : heap T) : positive * heap T :=
  (h_next h, Heap (<[h_next h := Block n ∅]> (h_blocks h)) (h_next h + 1)%positive).

(** [delete[] p]: nothing for a null pointer, undefined for a pointer that
    is not a live block. *)
Definition delete_array (p : option positive) (h : heap T) : option (heap T) :=
  match p with
  | None => Some h
  | Some a =>
      match h_blocks h !! a with
      | Some _ => Some (Heap (delete a (h_blocks h)) (h_next h))
      | None => None
      end
  end.

(** A reference [T&] into a block: its address and the element's offset. *)
Definition load (h : heap T) (r : positive * Z) : option T :=
  blk ← h_blocks h !! r.1;
  if (0 <=? r.2) && (r.2 <? blk_len blk) then blk_data blk !! r.2 else None.

Definition store (h : heap T) (r : positive * Z) (v : T) : option (heap T) :=
  blk ← h_blocks h !! r.1;
  if (0 <=? r.2) && (r.2 <? blk_len blk)
  then Some (Heap (<[r.1 := Block (blk_len blk) (<[r.2 := v]> (blk_data blk))]> (h_blocks h))
                  (h_next h))
  else None.

(** The elements of a block after its first [n] were overwritten by those of
    [src]. *)
Definition copy_cells (n : Z) (src dst : gmap Z T) : gmap Z T :=
  filter (λ kv, kv.1 < n) src ∪ filter (λ kv, n <= kv.1) dst.

(** [std::memcpy (dst, src, n * sizeof (T))] between two distinct blocks. *)
Definition memcpy (h : heap T) (dst src : positive) (n : Z) : option (heap T) :=
  d ← h_blocks h !! dst;
  s ← h_blocks h !! src;
  if (0 <=? n) && (n <=? blk_len d) && (n <=? blk_len s) && negb (Pos.eqb dst src)
  then Some (Heap (<[dst := Block (blk_len d) (copy_cells n (blk_data s) (blk_data d))]>
                     (h_blocks h))
                  (h_next h))
  else None.

(** Every address handed out so far is below [h_next]. *)
Definition heap_wf (h : heap T) : Prop :=
  ∀ a blk, h_blocks h !! a = Some blk → (a < h_next h)%positive.

End FreeStore.

(** A [for] loop over the given indices whose body may be undefined. *)
Fixpoint for_each {S : Type} (body : Z → S → option S) (indices : list Z) (s : S)
  : option S :=
  match indices with
  | [] => Some s
  | i :: rest => s' ← body i s; for_each body rest s'
  end.

(** ** [PiggyList<T>] *)

Module PiggyList.

Record t : Type := mk {
  BLOCKBITS : Z;
  BLOCKSIZE : Z;
  num_containers : Z;
  allocsize : Z;
  container_size : Z;
  m_size : Z;
  blockLookupTable : gmap Z positive
}.

Definition max_conts : Z := 64.

(** [PiggyList(size_t initialbitsize)]; [BLOCKSIZE = (1ul << BLOCKBITS)] and
    [allocsize = BLOCKSIZE] are the default member initialisers. *)
Definition create (initialbitsize : Z) : option t :=
  bs ← ul_shl1 initialbitsize;
  Some (mk initialbitsize bs 0 bs 0 0 ∅).

(** [PiggyList()]: [BLOCKBITS = 16ul]. *)
Definition create_default : option t := create 16.

Definition size (l : t) : Z := m_size l.

(** [blockLookupTable[blocknum]] on a [std::array] of 64 pointers: out of
    bounds from 64 on; the result is [None] for a null pointer. *)
Definition getBlock (l : t) (blocknum : Z) : option (option positive) :=
  if (0 <=? blocknum) && (blocknum <? max_conts)
  then Some (blockLookupTable l !! blocknum) else None.

Section Elements.
Context {T : Type}.

(** [get(index)] returns a reference to the element. *)
Definition get (im : int_model) (h : heap T) (l : t) (index : Z)
  : option (positive * Z) :=
  '(slot, blockInd) ← block_position im (BLOCKBITS l) (BLOCKSIZE l) index;
  p ← getBlock l slot;
  a ← p;
  blk ← h_blocks h !! a;
  if (0 <=? blockInd) && (blockInd <? blk_len blk) then Some (a, blockInd) else None.

(** The test [container_size < new_index + 1] of [append] and
    [createNode]. *)
Definition must_grow (l : t) (new_index : Z) : bool :=
  container_size l <? wrap64 (new_index + 1).

(** The body of the [while] loop:
<<
    blockLookupTable[num_containers] = new T[allocsize];
    num_containers += 1;
    container_size += allocsize;
    allocsize <<= 1;
>> *)
Definition grow_step (h : heap T) (l : t) : option (heap T * t) :=
  if (0 <=? num_containers l) && (num_containers l <? max_conts) then
    let '(p, h') := new_array (allocsize l) h in
    Some (h', mk (BLOCKBITS l) (BLOCKSIZE l)
                 (wrap64 (num_containers l + 1))
                 (wrap64 (allocsize l * 2))
                 (wrap64 (container_size l + allocsize l))
                 (m_size l)
                 (<[num_containers l := p]> (blockLookupTable l)))
  else None.

(** The [while] loop.  Each iteration stores through
    [blockLookupTable[num_containers]], which is out of bounds from 64 on,
    so [fuel] is the number of free slots. *)
Fixpoint grow_loop (fuel : nat) (h : heap T) (l : t) (new_index : Z)
  : option (heap T * t) :=
  if must_grow l new_index then
    match fuel with
    | O => None
    | S fuel' =>
        '(h', l') ← grow_step h l;
        grow_loop fuel' h' l' new_index
    end
  else Some (h, l).

(** The part common to [append] and [createNode]: reserve the index, then
    grow under the lock while the capacity does not cover it. *)
Definition reserve (l : t) : t * Z :=
  (mk (BLOCKBITS l) (BLOCKSIZE l) (num_containers l) (allocsize l)
      (container_size l) (wrap64 (m_size l + 1)) (blockLookupTable l),
   m_size l).

Definition ensure (h : heap T) (l : t) (new_index : Z) : option (heap T * t) :=
  if must_grow l new_index
  then grow_loop (Z.to_nat (max_conts - num_containers l)) h l new_index
  else Some (h, l).

Definition createNode (h : heap T) (l : t) : option (heap T * t * Z) :=
  let '(l1, new_index) := reserve l in
  '(h2, l2) ← ensure h l1 new_index;
  Some (h2, l2, new_index).

Definition append (im : int_model) (h : heap T) (l : t) (element : T)
  : option (heap T * t * Z) :=
  let '(l1, new_index) := reserve l in
  '(h2, l2) ← ensure h l1 new_index;
  r ← get im h2 l2 new_index;
  h3 ← store h2 r element;
  Some (h3, l2, new_index).

(** [freeList]: [delete[] blockLookupTable[i]] for [i < num_containers]. *)
Definition freeList (h : heap T) (l : t) : option (heap T) :=
  for_each (λ i h, p ← getBlock l i; delete_array p h)
           (seqZ 0 (num_containers l)) h.

Definition clear (h : heap T) (l : t) : option (heap T * t) :=
  h' ← freeList h l;
  Some (h', mk (BLOCKBITS l) (BLOCKSIZE l) 0 (BLOCKSIZE l) 0 0 (blockLookupTable l)).

(** The copy constructor.  The loop state is the store, the new table and
    [cSize]. *)
Definition copy_block (other : t) (i : Z) (s : heap T * gmap Z positive * Z)
  : option (heap T * gmap Z positive * Z) :=
  let '(h, table, cSize) := s in
  if (0 <=? i) && (i <? max_conts) then
    let '(p, h1) := new_array cSize h in
    src ← blockLookupTable other !! i;
    h2 ← memcpy h1 p src cSize;
    Some (h2, <[i := p]> table, wrap64 (cSize * 2))
  else None.

Inductive copy_result : Type :=
  | Copied (h : heap T) (l : t)
  | AssertionFailed
  | Undefined.

(** [assertions] is false when the header is compiled with [NDEBUG], where
    [assert] expands to nothing. *)
Definition copy (assertions : bool) (h : heap T) (other : t) : copy_result :=
  match ul_shl1 (BLOCKBITS other) with
  | None => Undefined
  | Some bs =>
      match for_each (copy_block other) (seqZ 0 (num_containers other)) (h, ∅, bs) with
      | None => Undefined
      | Some (h', table, cSize) =>
          if assertions && negb (Z.shiftr cSize 1 =? container_size other)
          then AssertionFailed
          else Copied h' (mk (BLOCKBITS other) bs (num_containers other) bs
                             (container_size other) (m_size other) table)
      end
  end.

(** A run of calls on one list. *)
Inductive call : Type :=
  | Append (element : T)
  | CreateNode
  | Clear.

Definition run_call (im : int_model) (c : call) (s : heap T * t) : option (heap T * t) :=
  match c with
  | Append v => '(h, l, _) ← append im s.1 s.2 v; Some (h, l)
  | CreateNode => '(h, l, _) ← createNode s.1 s.2; Some (h, l)
  | Clear => clear s.1 s.2
  end.

Fixpoint run (im : int_model) (cs : list call) (s : heap T * t) : option (heap T * t) :=
  match cs with
  | [] => Some s
  | c :: rest => s' ← run_call im c s; run im rest s'
  end.

(** [T x = list.get (index)]: the value read through the reference that
    [get] returns.  An element that was never written has no value. *)
Definition value_at (im : int_model) (h : heap T) (l : t) (index : Z) : option T :=
  r ← get im h l index; load h r.

(** [~PiggyList()]. *)
Definition destructor (h : heap T) (l : t) : option (heap T) := freeList h l.

(** *** [PiggyList<T>::iterator]

    An iterator holds an index and a pointer [bl] to its list.  The list
    objects live at addresses of their own; [lists] gives the state of the
    list at each address. *)
Record iterator : Type := Iterator {
  cIndex : Z;
  bl : positive
}.

(** [begin()] is [iterator(this)], [end()] is [iterator(this, size())]. *)
Definition begin (this : positive) : iterator := Iterator 0 this.

Definition end_ (lists : gmap positive t) (this : positive) : option iterator :=
  l ← lists !! this; Some (Iterator (size l) this).

(** [T operator*()]: [return bl->get(cIndex);], by value. *)
Definition iterator_deref (im : int_model) (h : heap T) (lists : gmap positive t)
    (it : iterator) : option T :=
  l ← lists !! bl it; r ← get im h l (cIndex it); load h r.

(** The two increment operators; each returns the iterator after the call
    and the result of the call.
<<
    iterator& operator++(int) { ++cIndex; return *this; }
    iterator operator++() { iterator ret( *this); ++cIndex; return ret; }
>> *)
Definition iterator_postfix_incr (it : iterator) : iterator * iterator :=
  let it' := Iterator (wrap64 (cIndex it + 1)) (bl it) in (it', it').

Definition iterator_prefix_incr (it : iterator) : iterator * iterator :=
  let ret := it in (Iterator (wrap64 (cIndex it + 1)) (bl it), ret).

(** [operator==]: [x.cIndex == this->cIndex && x.bl == this->bl];
    [operator!=]: [!(x == *this)]. *)
Definition iterator_eq (this x : iterator) : bool :=
  (cIndex x =? cIndex this) && Pos.eqb (bl x) (bl this).

Definition iterator_ne (this x : iterator) : bool := negb (iterator_eq x this).

(** The range-based [for] statement over a list, collecting the elements it
    visits: the language defines [for (T x : list) body] as
<<
    for (auto it = list.begin(), e = list.end(); it != e; ++it) { T x = *it; body }
>>
    [fuel] bounds the number of iterations. *)
Fixpoint range_for (im : int_model) (h : heap T) (lists : gmap positive t)
    (fuel : nat) (it e : iterator) : option (list T) :=
  if iterator_ne it e then
    match fuel with
    | O => None
    | S fuel' =>
        x ← iterator_deref im h lists it;
        xs ← range_for im h lists fuel' (iterator_prefix_incr it).1 e;
        Some (x :: xs)
    end
  else Some [].

Definition elements (im : int_model) (h : heap T) (lists : gmap positive t)
    (this : positive) (fuel : nat) : option (list T) :=
  e ← end_ lists this; range_for im h lists fuel (begin this) e.

(** *** The sequence a run of calls denotes

    [append] adds its element at the end, [createNode] adds an element
    without a value, [clear] removes every element. *)
Definition sequence_step (s : list (option T)) (c : call) : list (option T) :=
  match c with
  | Append v => s ++ [Some v]
  | CreateNode => s ++ [None]
  | Clear => []
  end.

Definition sequence_of (calls : list call) : list (option T) :=
  foldl sequence_step [] calls.

(** *** Invariants *)

(** The block stored in a slot of the table, when there is one. *)
Definition block_at (h : heap T) (l : t) (i : Z) : option (block T) :=
  a ← blockLookupTable l !! i; h_blocks h !! a.

(** The slots below [num_containers] hold distinct live blocks. *)
Definition owns (h : heap T) (l : t) : Prop :=
  heap_wf h ∧
  0 <= BLOCKBITS l < 64 ∧ BLOCKSIZE l = 2 ^ BLOCKBITS l ∧
  0 <= num_containers l <= max_conts ∧
  (∀ i, 0 <= i < num_containers l → is_Some (block_at h l i)) ∧
  (∀ i j a, 0 <= i < num_containers l → 0 <= j < num_containers l →
            blockLookupTable l !! i = Some a → blockLookupTable l !! j = Some a →
            i = j).

(** The shape that the constructor makes and that the growth loop keeps:
    block [i] has [BLOCKSIZE * 2^i] elements, the next allocation doubles
    the last one, and the capacity counter is the sum. *)
Definition shape (h : heap T) (l : t) : Prop :=
  owns h l ∧
  BLOCKBITS l + num_containers l <= 64 ∧
  allocsize l = wrap64 (BLOCKSIZE l * 2 ^ num_containers l) ∧
  container_size l = BLOCKSIZE l * (2 ^ num_containers l - 1) ∧
  (∀ i blk, 0 <= i < num_containers l → block_at h l i = Some blk →
            blk_len blk = BLOCKSIZE l * 2 ^ i).

(** Between two calls the capacity also covers every reserved index. *)
Definition regular (h : heap T) (l : t) : Prop :=
  shape h l ∧ 0 <= m_size l <= container_size l.

(** What the growth loop and the final store keep of the state [(h0, l0)]
    they start from: the constants, the reserved size, the slots already
    filled, and the blocks already allocated with their lengths. *)
Definition grown_from (h0 : heap T) (l0 : t) (h : heap T) (l : t) : Prop :=
  BLOCKBITS l = BLOCKBITS l0 ∧ BLOCKSIZE l = BLOCKSIZE l0 ∧
  m_size l = m_size l0 ∧
  num_containers l0 <= num_containers l ∧
  (∀ i, 0 <= i < num_containers l0 →
        blockLookupTable l !! i = blockLookupTable l0 !! i) ∧
  (∀ a blk, h_blocks h0 !! a = Some blk →
            ∃ blk', h_blocks h !! a = Some blk' ∧ blk_len blk' = blk_len blk) ∧
  Z.pos (h_next h) - Z.pos (h_next h0) = num_containers l - num_containers l0.

(** The last block was needed: without it the capacity would not cover the
    reserved indices. *)
Definition tight (l : t) : Prop :=
  num_containers l = 0 ∨
  BLOCKSIZE l * (2 ^ (num_containers l - 1) - 1) < m_size l.

(** The loop can make no progress: the next allocation has no elements. *)
Definition stuck (l : t) (new_index : Z) : Prop :=
  allocsize l = 0 ∧ must_grow l new_index = true ∧ 0 <= container_size l < 2 ^ 64.

(** The total number of elements of the blocks in the slots below
    [num_containers]. *)
Definition total_capacity (h : heap T) (l : t) : Z :=
  foldr (λ i acc, from_option blk_len 0 (block_at h l i) + acc) 0
        (seqZ 0 (num_containers l)).

(** The state of the copy constructor's loop after the blocks below [i] of
    [other] were copied from the store [h]: the store [h] is untouched,
    the new table holds one new block per slot, each with the elements of
    the block it was copied from. *)
Definition copied (h : heap T) (other : t) (bs : Z) (i : Z)
    (s : heap T * gmap Z positive * Z) : Prop :=
  let '(hh, table, cSize) := s in
  heap_wf hh ∧
  cSize = wrap64 (bs * 2 ^ i) ∧
  (∀ a blk, h_blocks h !! a = Some blk → h_blocks hh !! a = Some blk) ∧
  (∀ k, 0 <= k < i → is_Some (table !! k)) ∧
  (∀ k k' a, table !! k = Some a → table !! k' = Some a → k = k') ∧
  (∀ k a, table !! k = Some a →
          0 <= k < i ∧ h_blocks h !! a = None ∧
          ∃ src blk sblk,
            blockLookupTable other !! k = Some src ∧
            h_blocks hh !! a = Some blk ∧ h_blocks h !! src = Some sblk ∧
            blk_len blk = wrap64 (bs * 2 ^ k) ∧ blk_len blk <= blk_len sblk ∧
            ∀ off, 0 <= off < blk_len blk → blk_data blk !! off = blk_data sblk !! off).

(** The blocks a list owns. *)
Definition footprint (l : t) (a : positive) : Prop :=
  ∃ k, 0 <= k < num_containers l ∧ blockLookupTable l !! k = Some a.

(** Every pointer in the table was handed out by [new], and one that is
    not of a slot below [num_containers] is dangling: its block was
    deleted. *)
Definition no_stale (h : heap T) (l : t) : Prop :=
  ∀ k a, blockLookupTable l !! k = Some a →
         (a < h_next h)%positive ∧
         (0 <= k < num_containers l ∨ h_blocks h !! a = None).

(** What a call on the list [l] may change in the store: it allocates at
    new addresses only, and it leaves alone every block that [l] does not
    own. *)
Definition frame (h : heap T) (l : t) (h' : heap T) (l' : t) : Prop :=
  (h_next h <= h_next h')%positive ∧
  (∀ a, (a < h_next h)%positive → h_blocks h !! a = None → h_blocks h' !! a = None) ∧
  (∀ a blk, h_blocks h !! a = Some blk → ¬ footprint l a →
            h_blocks h' !! a = Some blk ∧ ¬ footprint l' a).

(** Against the store [h0] in which a list was constructed: every block of
    [h0] is still there and is not a block of the list, and every other
    block of the store is one that the list owns. *)
Definition accounted (h0 h : heap T) (l : t) : Prop :=
  (∀ a blk, h_blocks h0 !! a = Some blk → h_blocks h !! a = Some blk ∧ ¬ footprint l a) ∧
  (∀ a, is_Some (h_blocks h !! a) → footprint l a ∨ is_Some (h_blocks h0 !! a)).

(** What the sequence [s] says about a list: its size, and the value of
    every index whose position [get] computes exactly. *)
Definition models (im : int_model) (h : heap T) (l : t) (s : list (option T)) : Prop :=
  m_size l = Z.of_nat (length s) ∧
  ∀ i, 0 <= i → i + BLOCKSIZE l < 2 ^ 32 →
       value_at im h l i = mjoin (s !! Z.to_nat i).

(** The states a list can be in: made by a constructor (in a store where
    other objects may live), by the copy constructor from such a list, or
    by a call on such a list. *)
Inductive reachable (im : int_model) : heap T → t → Prop :=
  | reach_create h initialbitsize l :
      heap_wf h → create initialbitsize = Some l → reachable im h l
  | reach_copy assertions h other h' l :
      reachable im h other → copy assertions h other = Copied h' l →
      reachable im h' l
  | reach_call c h l h' l' :
      reachable im h l → run_call im c (h, l) = Some (h', l') →
      reachable im h' l'.

End Elements.

Global Arguments call : clear implicits.
Global Arguments copy_result : clear implicits.

End PiggyList.

(** ** [RandomInsertPiggyList<T>] *)

Module RandomInsertPiggyList.

Record t : Type := mk {
  BLOCKBITS : Z;
  INITIALBLOCKSIZE : Z;
  numElements : Z;
  blockLookupTable : gmap Z positive
}.

Definition maxContainers : Z := 64.

(** [RandomInsertPiggyList(size_t initialbitsize)]. *)
Definition create (initialbitsize : Z) : option t :=
  bs ← ul_shl1 initialbitsize;
  Some (mk initialbitsize bs 0 ∅).

Definition create_default : option t := create 16.

Definition size (l : t) : Z := numElements l.

Definition getBlock (l : t) (blockNum : Z) : option (option positive) :=
  if (0 <=? blockNum) && (blockNum <? maxContainers)
  then Some (blockLookupTable l !! blockNum) else None.

Section Elements.
Context {T : Type}.

Definition get (im : int_model) (h : heap T) (l : t) (index : Z)
  : option (positive * Z) :=
  '(slot, blockInd) ← block_position im (BLOCKBITS l) (INITIALBLOCKSIZE l) index;
  p ← getBlock l slot;
  a ← p;
  blk ← h_blocks h !! a;
  if (0 <=? blockInd) && (blockInd <? blk_len blk) then Some (a, blockInd) else None.

(** [insertAt(index, value)]:
<<
    size_t blockNum = (63 - __builtin_clzll(index + INITIALBLOCKSIZE)) - BLOCKBITS;
    if (blockLookupTable[blockNum].load() == nullptr) {
        ... blockLookupTable[blockNum].store(new T[INITIALBLOCKSIZE << blockNum]);
    }
    this->get(index) = value;
    ++numElements;
>> *)
Definition insertAt (im : int_model) (h : heap T) (l : t) (index : Z) (value : T)
  : option (heap T * t) :=
  lz ← clzll (wrap64 (index + INITIALBLOCKSIZE l));
  let blockNum := wrap64 (wrap64 (63 - lz) - BLOCKBITS l) in
  p ← getBlock l blockNum;
  let '(h1, table) :=
    match p with
    | None =>
        let '(a, h') := new_array (wrap64 (INITIALBLOCKSIZE l * 2 ^ blockNum)) h in
        (h', <[blockNum := a]> (blockLookupTable l))
    | Some _ => (h, blockLookupTable l)
    end in
  let l1 := mk (BLOCKBITS l) (INITIALBLOCKSIZE l) (numElements l) table in
  r ← get im h1 l1 index;
  h2 ← store h1 r value;
  Some (h2, mk (BLOCKBITS l) (INITIALBLOCKSIZE l) (wrap64 (numElements l + 1)) table).

(** [freeList]: every slot is deleted and reset to null. *)
Definition freeList (h : heap T) (l : t) : option (heap T * t) :=
  for_each (λ i s,
              p ← getBlock s.2 i;
              h' ← delete_array p s.1;
              Some (h', mk (BLOCKBITS s.2) (INITIALBLOCKSIZE s.2) (numElements s.2)
                           (delete i (blockLookupTable s.2))))
           (seqZ 0 maxContainers) (h, l).

Definition clear (h : heap T) (l : t) : option (heap T * t) :=
  '(h', l') ← freeList h l;
  Some (h', mk (BLOCKBITS l') (INITIALBLOCKSIZE l') 0 (blockLookupTable l')).

(** The copy constructor: every allocated block of [other] is duplicated
    into a new block of [INITIALBLOCKSIZE << i] elements. *)
Definition copy_block (other : t) (bs : Z) (i : Z) (s : heap T * gmap Z positive)
  : option (heap T * gmap Z positive) :=
  let '(h, table) := s in
  p ← getBlock other i;
  match p with
  | None => Some (h, table)
  | Some src =>
      let blockSize := wrap64 (bs * 2 ^ i) in
      let '(a, h1) := new_array blockSize h in
      h2 ← memcpy h1 a src blockSize;
      Some (h2, <[i := a]> table)
  end.

Definition copy (h : heap T) (other : t) : option (heap T * t) :=
  bs ← ul_shl1 (BLOCKBITS other);
  '(h', table) ← for_each (copy_block other bs) (seqZ 0 maxContainers) (h, ∅);
  Some (h', mk (BLOCKBITS other) bs (numElements other) table).

(** [T x = list.get (index)]. *)
Definition value_at (im : int_model) (h : heap T) (l : t) (index : Z) : option T :=
  r ← get im h l index; load h r.

(** [~RandomInsertPiggyList()]. *)
Definition destructor (h : heap T) (l : t) : option (heap T) :=
  s ← freeList h l; Some s.1.

(** A run of [insertAt] calls. *)
Fixpoint insert_all (im : int_model) (calls : list (Z * T)) (s : heap T * t)
  : option (heap T * t) :=
  match calls with
  | [] => Some s
  | (index, value) :: rest =>
      s' ← insertAt im s.1 s.2 index value; insert_all im rest s'
  end.

(** The finite map a run of [insertAt] calls denotes: each index holds the
    value of the last call for it. *)
Definition map_of (calls : list (Z * T)) : gmap Z T :=
  foldl (λ m c, <[c.1 := c.2]> m) ∅ calls.

(** The blocks a list owns. *)
Definition footprint (l : t) (a : positive) : Prop :=
  ∃ k, blockLookupTable l !! k = Some a.

(** Every allocated slot holds a live block of [INITIALBLOCKSIZE << i]
    elements, and no block is in two slots. *)
Definition wf (h : heap T) (l : t) : Prop :=
  heap_wf h ∧
  0 <= BLOCKBITS l < 64 ∧ INITIALBLOCKSIZE l = 2 ^ BLOCKBITS l ∧
  (∀ i a, blockLookupTable l !! i = Some a →
          0 <= i < maxContainers ∧
          ∃ blk, h_blocks h !! a = Some blk ∧
                 blk_len blk = wrap64 (INITIALBLOCKSIZE l * 2 ^ i)) ∧
  (∀ i j a, blockLookupTable l !! i = Some a → blockLookupTable l !! j = Some a →
            i = j).

End Elements.
End RandomInsertPiggyList.

(** ** Where the [int] arithmetic of [get] is defined

    [blockNum] is the position of the highest set bit of
    [index + BLOCKSIZE].  On the abstract machine [(1 << blockNum) - 1] is
    defined up to [blockNum = 30]; a wrapping target computes some value
    for every [blockNum]. *)
Definition mask_defined (im : int_model) (blockNum : Z) : Prop :=
  match im with
  | Strict => blockNum <= 30
  | Wrap32 => True
  end.

(** ** Concurrent calls

    The calls [append] and [createNode] of several threads on one list,
    interleaved at their atomic operations: the [fetch_add] on [m_size],
    the loads of [container_size], taking and releasing the spin lock, one
    iteration of the loop under the lock, and the final store. *)

Module Concurrent.
Import PiggyList.

Section Threads.
Context {T : Type}.

Inductive op : Type :=
  | OpAppend (element : T)
  | OpCreateNode.

(** Where a thread is in its call. *)
Inductive thread : Type :=
  | Ready (o : op)
  | Reserved (o : op) (new_index : Z)
  | Spinning (o : op) (new_index : Z)
  | Growing (o : op) (new_index : Z)
  | Ensured (o : op) (new_index : Z)
  | Returned (new_index : Z).

Record shared : Type := Shared {
  sh_heap : heap T;
  sh_list : t;
  sl_locked : bool
}.

(** The next atomic step of a thread.  A thread that waits for the lock
    spins; a thread whose step is undefined has no next step, and neither
    has a call that returned. *)
Definition thread_next (im : int_model) (sh : shared) (th : thread)
  : option (shared * thread) :=
  match th with
  | Ready o =>
      let '(l', new_index) := reserve (sh_list sh) in
      Some (Shared (sh_heap sh) l' (sl_locked sh), Reserved o new_index)
  | Reserved o i =>
      Some (sh, if must_grow (sh_list sh) i then Spinning o i else Ensured o i)
  | Spinning o i =>
      if sl_locked sh then Some (sh, Spinning o i)
      else Some (Shared (sh_heap sh) (sh_list sh) true, Growing o i)
  | Growing o i =>
      if must_grow (sh_list sh) i then
        '(h', l') ← grow_step (sh_heap sh) (sh_list sh);
        Some (Shared h' l' (sl_locked sh), Growing o i)
      else Some (Shared (sh_heap sh) (sh_list sh) false, Ensured o i)
  | Ensured (OpAppend element) i =>
      r ← get im (sh_heap sh) (sh_list sh) i;
      h' ← store (sh_heap sh) r element;
      Some (Shared h' (sh_list sh) (sl_locked sh), Returned i)
  | Ensured OpCreateNode i => Some (sh, Returned i)
  | Returned _ => None
  end.

(** One step of the program: some thread takes its next step. *)
Inductive step (im : int_model) : shared * list thread → shared * list thread → Prop :=
  | step_thread sh ths (k : nat) th sh' th' :
      ths !! k = Some th →
      thread_next im sh th = Some (sh', th') →
      step im (sh, ths) (sh', <[k := th']> ths).

(** The program run under a given schedule: the list names the thread that
    takes each step. *)
Fixpoint run_schedule (im : int_model) (schedule : list nat) (c : shared * list thread)
  : option (shared * list thread) :=
  match schedule with
  | [] => Some c
  | k :: rest =>
      th ← c.2 !! k;
      '(sh', th') ← thread_next im c.1 th;
      run_schedule im rest (sh', <[k := th']> c.2)
  end.

(** The index a thread has been given, once it is past the [fetch_add]. *)
Definition reserved_index (th : thread) : option Z :=
  match th with
  | Ready _ => None
  | Reserved _ i | Spinning _ i | Growing _ i | Ensured _ i | Returned i => Some i
  end.

(** The value a call has returned. *)
Definition returned_index (th : thread) : option Z :=
  match th with
  | Returned i => Some i
  | _ => None
  end.

(** Whether a thread is between [sl.lock()] and [sl.unlock()]. *)
Definition holds_lock (th : thread) : bool :=
  match th with
  | Growing _ _ => true
  | _ => false
  end.

(** The number of threads that hold the lock. *)
Definition lock_holders (ths : list thread) : nat :=
  length (List.filter holds_lock ths).

(** The call a thread has not returned from yet. *)
Definition pending_op (th : thread) : option op :=
  match th with
  | Ready o | Reserved o _ | Spinning o _ | Growing o _ | Ensured o _ => Some o
  | Returned _ => None
  end.

(** The steps a thread has left in its call, a wait for the lock and the
    growth of the table apart. *)
Definition steps_left (th : thread) : nat :=
  match th with
  | Ready _ => 5
  | Reserved _ _ => 4
  | Spinning _ _ => 3
  | Growing _ _ => 2
  | Ensured _ _ => 1
  | Returned _ => 0
  end.

(** A bound on the steps that a run can still take without counting the
    waits for the lock: the blocks that can still be allocated, and the
    steps left of every thread. *)
Definition work_left (c : shared * list thread) : nat :=
  (Z.to_nat (max_conts - num_containers (sh_list c.1))
   + foldr (λ th n, steps_left th + n) 0 c.2)%nat.

(** What holds at every moment of a run of the calls [ops], one per
    thread, on a list of base block size [2^bits]: the list has the shape
    that the growth loop keeps, every thread is still running its call,
    the capacity covers the index of every thread that is past the growth
    check, and every [append] that returned has its element at the index
    it returned. *)
Definition coherent (im : int_model) (bits : Z) (ops : list op)
    (c : shared * list thread) : Prop :=
  shape (sh_heap c.1) (sh_list c.1) ∧ no_stale (sh_heap c.1) (sh_list c.1) ∧
  BLOCKBITS (sh_list c.1) = bits ∧
  (∀ k th o, c.2 !! k = Some th → pending_op th = Some o → ops !! k = Some o) ∧
  (∀ k o i, c.2 !! k = Some (Ensured o i) →
            wrap64 (i + 1) <= container_size (sh_list c.1)) ∧
  (∀ k i v, c.2 !! k = Some (Returned i) → ops !! k = Some (OpAppend v) →
            value_at im (sh_heap c.1) (sh_list c.1) i = Some v).

End Threads.

Global Arguments op : clear implicits.
Global Arguments thread : clear implicits.
Global Arguments shared : clear implicits.

End Concurrent.

(** ** Concurrent calls of [insertAt]

    The calls [insertAt] of several threads on one
    [RandomInsertPiggyList], interleaved at their atomic operations: the
    first load of the block pointer, taking the spin lock, the second load
    with the allocation and the store of the new pointer that it guards,
    releasing the lock, the assignment through [get], and the increment of
    [numElements]. *)

Module ConcurrentInsert.
Import RandomInsertPiggyList.

Section Threads.
Context {T : Type}.

(** Where a thread is in its call [insertAt (index, value)]. *)
Inductive thread : Type :=
  | Ready (index : Z) (value : T)
  | Waiting (index : Z) (value : T) (blockNum : Z)
  | Locked (index : Z) (value : T) (blockNum : Z)
  | Unlocking (index : Z) (value : T)
  | Present (index : Z) (value : T)
  | Assigned (index : Z) (value : T)
  | Returned.

Record shared : Type := Shared {
  sh_heap : heap T;
  sh_list : t;
  sl_locked : bool
}.

(** The next atomic step of a thread:
<<
    size_t blockNum = (63 - __builtin_clzll(index + INITIALBLOCKSIZE)) - BLOCKBITS;
    if (blockLookupTable[blockNum].load() == nullptr) {
        slock.lock();
        if (blockLookupTable[blockNum].load() == nullptr) {
            blockLookupTable[blockNum].store(new T[INITIALBLOCKSIZE << blockNum]);
        }
        slock.unlock();
    }
    this->get(index) = value;
    ++numElements;
>>
    A thread that waits for the lock spins; a thread whose step is
    undefined has no next step, and neither has a call that returned. *)
Definition thread_next (im : int_model) (sh : shared) (th : thread)
  : option (shared * thread) :=
  let l := sh_list sh in
  match th with
  | Ready index value =>
      lz ← clzll (wrap64 (index + INITIALBLOCKSIZE l));
      let blockNum := wrap64 (wrap64 (63 - lz) - BLOCKBITS l) in
      p ← getBlock l blockNum;
      Some (sh, match p with
                | None => Waiting index value blockNum
                | Some _ => Present index value
                end)
  | Waiting index value blockNum =>
      if sl_locked sh then Some (sh, Waiting index value blockNum)
      else Some (Shared (sh_heap sh) l true, Locked index value blockNum)
  | Locked index value blockNum =>
      p ← getBlock l blockNum;
      match p with
      | None =>
          let '(a, h') :=
            new_array (wrap64 (INITIALBLOCKSIZE l * 2 ^ blockNum)) (sh_heap sh) in
          Some (Shared h' (mk (BLOCKBITS l) (INITIALBLOCKSIZE l) (numElements l)
                              (<[blockNum := a]> (blockLookupTable l)))
                       (sl_locked sh),
                Unlocking index value)
      | Some _ => Some (sh, Unlocking index value)
      end
  | Unlocking index value =>
      Some (Shared (sh_heap sh) l false, Present index value)
  | Present index value =>
      r ← get im (sh_heap sh) l index;
      h' ← store (sh_heap sh) r value;
      Some (Shared h' l (sl_locked sh), Assigned index value)
  | Assigned index value =>
      Some (Shared (sh_heap sh)
                   (mk (BLOCKBITS l) (INITIALBLOCKSIZE l) (wrap64 (numElements l + 1))
                       (blockLookupTable l))
                   (sl_locked sh),
            Returned)
  | Returned => None
  end.

(** One step of the program: some thread takes its next step. *)
Inductive step (im : int_model) : shared * list thread → shared * list thread → Prop :=
  | step_thread sh ths (k : nat) th sh' th' :
      ths !! k = Some th →
      thread_next im sh th = Some (sh', th') →
      step im (sh, ths) (sh', <[k := th']> ths).

(** The program run under a given schedule: the list names the thread that
    takes each step. *)
Fixpoint run_schedule (im : int_model) (schedule : list nat) (c : shared * list thread)
  : option (shared * list thread) :=
  match schedule with
  | [] => Some c
  | k :: rest =>
      th ← c.2 !! k;
      '(sh', th') ← thread_next im c.1 th;
      run_schedule im rest (sh', <[k := th']> c.2)
  end.

(** The threads at the start of their calls. *)
Definition start (calls : list (Z * T)) : list thread :=
  (λ c, Ready c.1 c.2) <$> calls.

(** The call a thread has not returned from yet. *)
Definition call_of (th : thread) : option (Z * T) :=
  match th with
  | Ready i v | Waiting i v _ | Locked i v _ | Unlocking i v | Present i v
  | Assigned i v => Some (i, v)
  | Returned => None
  end.

Definition has_returned (th : thread) : bool :=
  match th with
  | Returned => true
  | _ => false
  end.

(** Whether a thread has made its assignment [get(index) = value]. *)
Definition has_assigned (th : thread) : bool :=
  match th with
  | Assigned _ _ | Returned => true
  | _ => false
  end.

(** Whether a thread is between [slock.lock()] and [slock.unlock()]. *)
Definition holds_lock (th : thread) : bool :=
  match th with
  | Locked _ _ _ | Unlocking _ _ => true
  | _ => false
  end.

Definition lock_holders (ths : list thread) : nat :=
  length (List.filter holds_lock ths).

(** The block that [insertAt] finds for an index. *)
Definition slot_of (bits index : Z) : Z := Z.log2 (index + 2 ^ bits) - bits.

(** The block number a thread has computed. *)
Definition computed_slot (th : thread) : option (Z * Z) :=
  match th with
  | Waiting i _ blockNum | Locked i _ blockNum => Some (i, blockNum)
  | _ => None
  end.

(** Whether a thread is past the allocation of its block. *)
Definition past_allocation (th : thread) : bool :=
  match th with
  | Unlocking _ _ | Present _ _ | Assigned _ _ => true
  | _ => false
  end.

(** The steps a thread has left in its call, a wait for the lock apart. *)
Definition steps_left (th : thread) : nat :=
  match th with
  | Ready _ _ => 6
  | Waiting _ _ _ => 5
  | Locked _ _ _ => 4
  | Unlocking _ _ => 3
  | Present _ _ => 2
  | Assigned _ _ => 1
  | Returned => 0
  end.

Definition work_left (ths : list thread) : nat :=
  foldr (λ th n, (steps_left th + n)%nat) 0%nat ths.

(** What a run of the calls [calls] keeps of the list and of the store
    [h0] in which it was constructed: the list is in order, with initial
    block size [2^bits]; the blocks of [h0] are untouched; every other block
    is one of the table, allocated once, for the block number of some
    call. *)
Definition store_ok (bits : Z) (h0 : heap T) (calls : list (Z * T)) (sh : shared) : Prop :=
  wf (sh_heap sh) (sh_list sh) ∧ BLOCKBITS (sh_list sh) = bits ∧
  (∀ a blk, h_blocks h0 !! a = Some blk →
            h_blocks (sh_heap sh) !! a = Some blk ∧ ¬ footprint (sh_list sh) a) ∧
  (∀ a, is_Some (h_blocks (sh_heap sh) !! a) →
        footprint (sh_list sh) a ∨ is_Some (h_blocks h0 !! a)) ∧
  Z.pos (h_next (sh_heap sh)) - Z.pos (h_next h0)
  = Z.of_nat (base.size (blockLookupTable (sh_list sh))) ∧
  (∀ slot, is_Some (blockLookupTable (sh_list sh) !! slot) →
           ∃ i v, (i, v) ∈ calls ∧ slot = slot_of bits i).

(** What holds of thread [k] at every moment: it is running call [k], with
    the block number of its index; once past the allocation its block is
    there; once past its assignment its value is at its index. *)
Definition thread_ok (im : int_model) (bits : Z) (calls : list (Z * T)) (sh : shared)
    (k : nat) (th : thread) : Prop :=
  (∀ c, call_of th = Some c → calls !! k = Some c) ∧
  (∀ i blockNum, computed_slot th = Some (i, blockNum) → blockNum = slot_of bits i) ∧
  (∀ i v, past_allocation th = true → calls !! k = Some (i, v) →
          is_Some (blockLookupTable (sh_list sh) !! slot_of bits i)) ∧
  (∀ i v, has_assigned th = true → calls !! k = Some (i, v) →
          value_at im (sh_heap sh) (sh_list sh) i = Some v).

(** The invariant of a run; [numElements] counts the calls that
    returned. *)
Definition consistent (im : int_model) (bits : Z) (h0 : heap T) (calls : list (Z * T))
    (c : shared * list thread) : Prop :=
  store_ok bits h0 calls c.1 ∧
  (∀ k th, c.2 !! k = Some th → thread_ok im bits calls c.1 k th) ∧
  numElements (sh_list c.1) = Z.of_nat (length (List.filter has_returned c.2)).

End Threads.

Global Arguments thread : clear implicits.
Global Arguments shared : clear implicits.

End ConcurrentInsert.


(** *** Arithmetic facts *)

(** Closes a goal [(lo <=? x) && (x <? hi) = true] from the bounds in the
    context. *)
Ltac in_range :=
  apply andb_true_intro; split; [apply Z.leb_le | apply Z.ltb_lt]; lia.

Lemma sint32_small z : - 2 ^ 31 <= z < 2 ^ 31 -> sint32 z = z.
Proof.
  intros Hz. unfold sint32.
  rewrite Z.mod_small by lia. lia.
Qed.

Lemma wrap64_small z : 0 <= z < 2 ^ 64 -> wrap64 z = z.
Proof. intros Hz. unfold wrap64. apply Z.mod_small. exact Hz. Qed.

Lemma wrap64_range z : 0 <= wrap64 z < 2 ^ 64.
Proof. unfold wrap64. apply Z.mod_pos_bound. lia. Qed.

Lemma pow2_pos k : 0 <= k -> 0 < 2 ^ k.
Proof. intros Hk. apply Z.pow_pos_nonneg; lia. Qed.

Lemma pow2_le_mono a b : 0 <= a <= b -> 2 ^ a <= 2 ^ b.
Proof. intros H. apply Z.pow_le_mono_r; lia. Qed.

Lemma pow2_lt_mono a b : 0 <= a < b -> 2 ^ a < 2 ^ b.
Proof. intros H. apply Z.pow_lt_mono_r; lia. Qed.

(** A power of two below [2^64] is a [size_t]. *)
Lemma pow2_range k : 0 <= k < 64 -> 0 <= 2 ^ k < 2 ^ 64.
Proof.
  intros Hk. split; [apply Z.lt_le_incl, pow2_pos; lia | apply pow2_lt_mono; lia].
Qed.

Lemma log2_bounds n : 0 < n -> 2 ^ Z.log2 n <= n < 2 ^ (Z.log2 n + 1).
Proof.
  intros Hn. pose proof (Z.log2_spec n Hn) as H.
  rewrite <- Z.add_1_r in H. exact H.
Qed.

Lemma log2_lt_pow2_bound n k : 0 < n -> 0 <= k -> n < 2 ^ k -> Z.log2 n < k.
Proof. intros Hn Hk H. apply Z.log2_lt_pow2; assumption. Qed.

Lemma land_ones_mod n k : 0 <= k -> Z.land n (2 ^ k - 1) = n mod 2 ^ k.
Proof.
  intros Hk.
  replace (2 ^ k - 1) with (Z.ones k) by (rewrite Z.ones_equiv; lia).
  apply Z.land_ones. exact Hk.
Qed.

(** *** The mask of [get] *)

Lemma mask_value im k :
  0 <= k <= 63 → mask_defined im k →
  ∃ j one mask,
    int_shl im 1 k = Some one ∧ int_sub im one 1 = Some mask ∧
    wrap64 mask = 2 ^ j - 1 ∧ 0 <= j <= k ∧ (k <= 31 → j = k) ∧
    (im = Strict → j = k).
Proof.
  intros Hk Hdef. destruct im; simpl in Hdef.
  - assert (H1 : 1 <= 2 ^ k <= 2 ^ 30).
    { split; [pose proof (pow2_pos k); lia | apply pow2_le_mono; lia]. }
    exists k, (2 ^ k), (2 ^ k - 1). unfold int_shl, int_sub.
    rewrite Z.mul_1_l, sint32_small by lia.
    assert (Hc : (0 <=? k) && (k <? 32) && (0 <=? 1) && (2 ^ k <? 2 ^ 32) = true).
    { repeat (apply andb_true_intro; split); try (apply Z.leb_le; lia);
        apply Z.ltb_lt; lia. }
    rewrite Hc.
    assert (Hs : (- 2 ^ 31 <=? 2 ^ k - 1) && (2 ^ k - 1 <? 2 ^ 31) = true).
    { apply andb_true_intro; split; [apply Z.leb_le | apply Z.ltb_lt]; lia. }
    rewrite Hs. repeat split; try lia; try reflexivity.
    apply wrap64_small. lia.
  - set (j := k mod 32).
    assert (Hj : 0 <= j < 32) by (apply Z.mod_pos_bound; lia).
    assert (Hjk : j <= k) by (apply Z.mod_le; lia).
    assert (Hsmall : k <= 31 → j = k).
    { intros Hle. unfold j. apply Z.mod_small. lia. }
    exists j, (sint32 (2 ^ j)), (sint32 (sint32 (2 ^ j) - 1)).
    unfold int_shl, int_sub. rewrite Z.mul_1_l. fold j.
    repeat split; try lia; try discriminate.
    destruct (Z.eq_dec j 31) as [-> | Hne].
    + vm_compute. reflexivity.
    + assert (H1 : 1 <= 2 ^ j <= 2 ^ 30).
      { split; [pose proof (pow2_pos j); lia | apply pow2_le_mono; lia]. }
      rewrite (sint32_small (2 ^ j)) by lia.
      rewrite sint32_small by lia. apply wrap64_small. lia.
Qed.

(** Under either model, where the mask is defined [get] finds the slot of
    the specification and an offset inside that block; up to
    [blockNum = 31] (and wherever the abstract machine defines it) the
    offset is the one of the specification too. *)
Lemma block_position_defined im bits idx :
  0 <= bits → 0 <= idx → idx + 2 ^ bits < 2 ^ 64 →
  mask_defined im (Z.log2 (idx + 2 ^ bits)) →
  ∃ j, block_position im bits (2 ^ bits) idx
       = Some (Z.log2 (idx + 2 ^ bits) - bits, (idx + 2 ^ bits) mod 2 ^ j) ∧
       0 <= j <= Z.log2 (idx + 2 ^ bits) ∧
       (Z.log2 (idx + 2 ^ bits) <= 31 → j = Z.log2 (idx + 2 ^ bits)) ∧
       (im = Strict → j = Z.log2 (idx + 2 ^ bits)).
Proof.
  intros Hbits Hidx Hlt Hdef.
  set (n := idx + 2 ^ bits) in *.
  assert (HB : 0 < 2 ^ bits) by (apply pow2_pos; lia).
  assert (Hn : 0 < n) by (unfold n; lia).
  assert (Hlog : bits <= Z.log2 n < 64).
  { split.
    - apply Z.log2_le_pow2; [lia | unfold n; lia].
    - apply Z.log2_lt_pow2; lia. }
  destruct (mask_value im (Z.log2 n)) as (j & one & mask & H1 & H2 & H3 & Hj & Hj' & Hj'');
    [lia | exact Hdef |].
  exists j. unfold block_position. fold n.
  rewrite (wrap64_small n) by lia.
  unfold clzll. destruct (Z.eqb_spec n 0) as [? | _]; [lia |]. simpl.
  replace (63 - (63 - Z.log2 n)) with (Z.log2 n) by lia.
  rewrite (wrap64_small (Z.log2 n)) by lia.
  rewrite H1. simpl. rewrite H2. simpl. rewrite H3.
  rewrite land_ones_mod by lia.
  rewrite wrap64_small by lia.
  repeat split; try lia; assumption.
Qed.

(** The offset that [get] computes lies inside the block of its slot. *)
Lemma mod_pow2_below n j k : 0 <= j <= k → 0 <= n mod 2 ^ j < 2 ^ k.
Proof.
  intros Hjk.
  pose proof (Z.mod_pos_bound n (2 ^ j) (pow2_pos j ltac:(lia))).
  pose proof (pow2_le_mono j k ltac:(lia)). lia.
Qed.

(** The location of the mapping algorithm satisfies the mapping contract. *)
Lemma spec_position_contract bits idx :
  0 <= bits → 0 <= idx →
  contract_position (2 ^ bits) idx (spec_position bits idx).1 (spec_position bits idx).2.
Proof.
  intros Hbits Hidx. unfold spec_position, contract_position, block_start. simpl.
  set (n := idx + 2 ^ bits).
  assert (HB : 0 < 2 ^ bits) by (apply pow2_pos; lia).
  assert (Hn : 0 < n) by (unfold n; lia).
  assert (Hlog : bits <= Z.log2 n).
  { apply Z.log2_le_pow2; [lia | unfold n; lia]. }
  pose proof (log2_bounds n Hn) as [Hlo Hhi].
  set (k := Z.log2 n - bits).
  assert (Hk : 0 <= k) by (unfold k; lia).
  assert (E1 : 2 ^ Z.log2 n = 2 ^ bits * 2 ^ k).
  { rewrite <- Z.pow_add_r by lia. f_equal. unfold k. lia. }
  assert (E2 : 2 ^ (Z.log2 n + 1) = 2 ^ bits * 2 ^ (k + 1)).
  { rewrite <- Z.pow_add_r by lia. f_equal. unfold k. lia. }
  assert (Hmod : n mod 2 ^ Z.log2 n = n - 2 ^ Z.log2 n).
  { symmetry. apply Z.mod_unique with (q := 1); [left | ]; try lia.
    assert (2 ^ (Z.log2 n + 1) = 2 * 2 ^ Z.log2 n).
    { rewrite Z.pow_add_r by lia. lia. }
    lia. }
  rewrite Hmod. unfold n in *. lia.
Qed.

(** On the abstract machine [get] is undefined from [index + B = 2^31]
    on. *)
Lemma block_position_strict_undefined bits idx :
  0 <= bits → 0 <= idx → 2 ^ 31 <= idx + 2 ^ bits < 2 ^ 64 →
  block_position Strict bits (2 ^ bits) idx = None.
Proof.
  intros Hbits Hidx Hn. unfold block_position.
  set (n := idx + 2 ^ bits) in *.
  rewrite (wrap64_small n) by lia.
  unfold clzll. destruct (Z.eqb_spec n 0) as [? | _]; [lia |]. simpl.
  assert (Hlog : 31 <= Z.log2 n < 64).
  { split; [apply Z.log2_le_pow2; lia | apply Z.log2_lt_pow2; lia]. }
  replace (63 - (63 - Z.log2 n)) with (Z.log2 n) by lia.
  rewrite (wrap64_small (Z.log2 n)) by lia.
  unfold int_shl. rewrite Z.mul_1_l.
  destruct (Z_lt_le_dec (Z.log2 n) 32) as [Hlt | Hge].
  - assert (E : Z.log2 n = 31) by lia. rewrite E. reflexivity.
  - assert (Hc : (0 <=? Z.log2 n) && (Z.log2 n <? 32) = false).
    { apply andb_false_iff. right. apply Z.ltb_ge. lia. }
    rewrite Hc. reflexivity.
Qed.

(** *** The free store *)

Section FreeStoreFacts.
Context {T : Type}.
Implicit Types (h : heap T) (blk : block T).

Lemma heap_wf_next_free h : heap_wf h → h_blocks h !! h_next h = None.
Proof.
  intros Hwf. destruct (h_blocks h !! h_next h) as [blk |] eqn:E; [| reflexivity].
  apply Hwf in E. lia.
Qed.

Lemma new_array_wf n h : heap_wf h → heap_wf (new_array n h).2.
Proof.
  intros Hwf a blk. simpl. intros Hlook.
  destruct (decide (a = h_next h)) as [-> | Hne]; [lia |].
  rewrite lookup_insert_ne in Hlook by congruence.
  apply Hwf in Hlook. lia.
Qed.

Lemma new_array_lookup n h :
  h_blocks (new_array n h).2 !! (new_array n h).1 = Some (Block n ∅).
Proof. simpl. apply lookup_insert_eq. Qed.

Lemma new_array_other n h a blk :
  heap_wf h → h_blocks h !! a = Some blk →
  a ≠ (new_array n h).1 ∧ h_blocks (new_array n h).2 !! a = Some blk.
Proof.
  intros Hwf Hlook. simpl.
  assert (a ≠ h_next h) by (intros ->; rewrite heap_wf_next_free in Hlook by assumption; congruence).
  split; [assumption |]. rewrite lookup_insert_ne by congruence. exact Hlook.
Qed.

Lemma store_Some h r v h' :
  store h r v = Some h' →
  ∃ blk, h_blocks h !! r.1 = Some blk ∧ 0 <= r.2 < blk_len blk ∧
         h' = Heap (<[r.1 := Block (blk_len blk) (<[r.2 := v]> (blk_data blk))]> (h_blocks h))
                   (h_next h).
Proof.
  unfold store. intros H.
  destruct (h_blocks h !! r.1) as [blk |] eqn:E; simpl in H; [| discriminate].
  destruct ((0 <=? r.2) && (r.2 <? blk_len blk)) eqn:Hc; [| discriminate].
  apply andb_prop in Hc as [H1 H2]. apply Z.leb_le in H1. apply Z.ltb_lt in H2.
  exists blk. split; [reflexivity |]. split; [lia |]. congruence.
Qed.

Lemma store_defined h r v blk :
  h_blocks h !! r.1 = Some blk → 0 <= r.2 < blk_len blk →
  store h r v
  = Some (Heap (<[r.1 := Block (blk_len blk) (<[r.2 := v]> (blk_data blk))]> (h_blocks h))
               (h_next h)).
Proof.
  intros E Hr. unfold store. rewrite E. simpl.
  assert (Hc : (0 <=? r.2) && (r.2 <? blk_len blk) = true).
  { in_range. }
  rewrite Hc. reflexivity.
Qed.

Lemma store_wf h r v h' : heap_wf h → store h r v = Some h' → heap_wf h'.
Proof.
  intros Hwf Hst. apply store_Some in Hst as (blk & E & _ & ->).
  intros a b. simpl. intros Hlook.
  destruct (decide (a = r.1)) as [-> | Hne].
  - apply (Hwf _ _ E).
  - rewrite lookup_insert_ne in Hlook by congruence. apply (Hwf _ _ Hlook).
Qed.

(** A store keeps every block alive, with its length. *)
Lemma store_block h r v h' a blk :
  store h r v = Some h' → h_blocks h !! a = Some blk →
  ∃ blk', h_blocks h' !! a = Some blk' ∧ blk_len blk' = blk_len blk.
Proof.
  intros Hst Hlook. apply store_Some in Hst as (b0 & E & _ & ->). simpl.
  destruct (decide (a = r.1)) as [-> | Hne].
  - rewrite lookup_insert_eq. rewrite E in Hlook. inversion Hlook; subst.
    eexists. split; [reflexivity | reflexivity].
  - rewrite lookup_insert_ne by congruence. eauto.
Qed.

Lemma store_block_inv h r v h' a blk' :
  store h r v = Some h' → h_blocks h' !! a = Some blk' →
  ∃ blk, h_blocks h !! a = Some blk ∧ blk_len blk' = blk_len blk.
Proof.
  intros Hst Hlook. apply store_Some in Hst as (b0 & E & _ & ->). simpl in Hlook.
  destruct (decide (a = r.1)) as [-> | Hne].
  - rewrite lookup_insert_eq in Hlook. inversion Hlook; subst. simpl. eauto.
  - rewrite lookup_insert_ne in Hlook by congruence. eauto.
Qed.

Lemma load_store_same h r v h' : store h r v = Some h' → load h' r = Some v.
Proof.
  intros Hst. apply store_Some in Hst as (blk & E & Hr & ->).
  unfold load. simpl. rewrite lookup_insert_eq. simpl.
  assert (Hc : (0 <=? r.2) && (r.2 <? blk_len blk) = true).
  { in_range. }
  rewrite Hc. apply lookup_insert_eq.
Qed.

Lemma load_store_other h r v h' r' : store h r v = Some h' → r' ≠ r → load h' r' = load h r'.
Proof.
  intros Hst Hne. apply store_Some in Hst as (blk & E & Hr & ->).
  unfold load. simpl. destruct r as [a i], r' as [a' i']. simpl in *.
  destruct (decide (a' = a)) as [-> | Ha].
  - rewrite lookup_insert_eq, E. simpl.
    destruct ((0 <=? i') && (i' <? blk_len blk)); [| reflexivity].
    apply lookup_insert_ne. congruence.
  - rewrite lookup_insert_ne by congruence. reflexivity.
Qed.

Lemma load_new_array n h r :
  heap_wf h → is_Some (h_blocks h !! r.1) → load (new_array n h).2 r = load h r.
Proof.
  intros Hwf [blk E]. unfold load.
  destruct (new_array_other n h _ _ Hwf E) as [_ E']. rewrite E', E. reflexivity.
Qed.

Lemma memcpy_Some h dst src n h' :
  memcpy h dst src n = Some h' →
  ∃ d s, h_blocks h !! dst = Some d ∧ h_blocks h !! src = Some s ∧
         0 <= n <= blk_len d ∧ n <= blk_len s ∧ dst ≠ src ∧
         h' = Heap (<[dst := Block (blk_len d) (copy_cells n (blk_data s) (blk_data d))]>
                      (h_blocks h))
                   (h_next h).
Proof.
  unfold memcpy. intros H.
  destruct (h_blocks h !! dst) as [d |] eqn:Ed; simpl in H; [| discriminate].
  destruct (h_blocks h !! src) as [s |] eqn:Es; simpl in H; [| discriminate].
  destruct ((0 <=? n) && (n <=? blk_len d) && (n <=? blk_len s) && negb (dst =? src)%positive)
    eqn:Hc; [| discriminate].
  apply andb_prop in Hc as [Hc H4]. apply andb_prop in Hc as [Hc H3].
  apply andb_prop in Hc as [H1 H2].
  apply Z.leb_le in H1, H2, H3. apply negb_true_iff, Pos.eqb_neq in H4.
  exists d, s. repeat split; try assumption; try lia. congruence.
Qed.

Lemma memcpy_defined h dst src n d s :
  h_blocks h !! dst = Some d → h_blocks h !! src = Some s →
  0 <= n <= blk_len d → n <= blk_len s → dst ≠ src →
  memcpy h dst src n
  = Some (Heap (<[dst := Block (blk_len d) (copy_cells n (blk_data s) (blk_data d))]>
                  (h_blocks h))
               (h_next h)).
Proof.
  intros Ed Es Hn Hs Hne. unfold memcpy. rewrite Ed. simpl. rewrite Es. simpl.
  assert (Hc : (0 <=? n) && (n <=? blk_len d) && (n <=? blk_len s)
               && negb (dst =? src)%positive = true).
  { repeat (apply andb_true_intro; split); try (apply Z.leb_le; lia).
    apply negb_true_iff, Pos.eqb_neq. exact Hne. }
  rewrite Hc. reflexivity.
Qed.

Lemma memcpy_wf h dst src n h' : heap_wf h → memcpy h dst src n = Some h' → heap_wf h'.
Proof.
  intros Hwf Hcp. apply memcpy_Some in Hcp as (d & s & Ed & _ & _ & _ & _ & ->).
  intros a b. simpl. intros Hlook.
  destruct (decide (a = dst)) as [-> | Hne].
  - apply (Hwf _ _ Ed).
  - rewrite lookup_insert_ne in Hlook by congruence. apply (Hwf _ _ Hlook).
Qed.

(** [memcpy] writes into the destination block only. *)
Lemma memcpy_other h dst src n h' a :
  memcpy h dst src n = Some h' → a ≠ dst → h_blocks h' !! a = h_blocks h !! a.
Proof.
  intros Hcp Hne. apply memcpy_Some in Hcp as (d & s & _ & _ & _ & _ & _ & ->).
  simpl. apply lookup_insert_ne. congruence.
Qed.

Lemma memcpy_block h dst src n h' a blk :
  memcpy h dst src n = Some h' → h_blocks h !! a = Some blk →
  ∃ blk', h_blocks h' !! a = Some blk' ∧ blk_len blk' = blk_len blk.
Proof.
  intros Hcp Hlook. destruct (decide (a = dst)) as [-> | Hne].
  - apply memcpy_Some in Hcp as (d & s & Ed & _ & _ & _ & _ & ->). simpl.
    rewrite lookup_insert_eq. rewrite Ed in Hlook. inversion Hlook; subst.
    eexists. split; reflexivity.
  - rewrite <- (memcpy_other h dst src n h' a Hcp Hne) in Hlook. eauto.
Qed.

Lemma copy_cells_lookup n (src dst : gmap Z T) k :
  copy_cells n src dst !! k = if k <? n then src !! k else dst !! k.
Proof.
  unfold copy_cells. rewrite lookup_union, !map_lookup_filter.
  destruct (Z.ltb_spec k n) as [Hlt | Hge].
  - destruct (src !! k) as [x |] eqn:Es; simpl.
    + rewrite option_guard_True by (simpl; lia). simpl.
      destruct (dst !! k) as [y |]; simpl; [| reflexivity].
      rewrite option_guard_False by (simpl; lia). reflexivity.
    + destruct (dst !! k) as [y |]; simpl; [| reflexivity].
      rewrite option_guard_False by (simpl; lia). reflexivity.
  - destruct (src !! k) as [x |] eqn:Es; simpl.
    + rewrite option_guard_False by (simpl; lia). simpl.
      destruct (dst !! k) as [y |]; simpl; [| reflexivity].
      rewrite option_guard_True by (simpl; lia). reflexivity.
    + destruct (dst !! k) as [y |]; simpl; [| reflexivity].
      rewrite option_guard_True by (simpl; lia). reflexivity.
Qed.

(** After [memcpy], the first [n] elements of the destination read as
    those of the source. *)
Lemma load_memcpy h dst src n h' k :
  memcpy h dst src n = Some h' → 0 <= k < n → load h' (dst, k) = load h (src, k).
Proof.
  intros Hcp Hk. apply memcpy_Some in Hcp as (d & s & Ed & Es & Hn & Hs & Hne & ->).
  unfold load. simpl. rewrite lookup_insert_eq, Es. simpl.
  assert (Hc1 : (0 <=? k) && (k <? blk_len d) = true).
  { in_range. }
  assert (Hc2 : (0 <=? k) && (k <? blk_len s) = true).
  { in_range. }
  rewrite Hc1, Hc2, copy_cells_lookup.
  destruct (Z.ltb_spec k n); [reflexivity | lia].
Qed.

Lemma load_memcpy_other h dst src n h' r :
  memcpy h dst src n = Some h' → r.1 ≠ dst → load h' r = load h r.
Proof.
  intros Hcp Hne. unfold load. rewrite (memcpy_other h dst src n h' r.1 Hcp Hne).
  reflexivity.
Qed.

End FreeStoreFacts.

(** *** Loops *)

Lemma seqZ_one m : seqZ m 1 = [m].
Proof. reflexivity. Qed.

Lemma for_each_app {S : Type} (body : Z → S → option S) xs ys s :
  for_each body (xs ++ ys) s = s' ← for_each body xs s; for_each body ys s'.
Proof.
  revert s. induction xs as [| x xs IH]; intros s; simpl; [reflexivity |].
  destruct (body x s) as [s1 |]; simpl; [apply IH | reflexivity].
Qed.

(** A property kept by every defined iteration holds after the loop. *)
Lemma for_each_invariant {S : Type} (P : Z → S → Prop) (body : Z → S → option S) n :
  0 <= n →
  (∀ i s s', 0 <= i < n → P i s → body i s = Some s' → P (i + 1) s') →
  ∀ s s', P 0 s → for_each body (seqZ 0 n) s = Some s' → P n s'.
Proof.
  intros Hn Hstep.
  assert (G : ∀ (k : nat) s s', Z.of_nat k <= n → P 0 s →
              for_each body (seqZ 0 (Z.of_nat k)) s = Some s' → P (Z.of_nat k) s').
  { induction k as [| k IH]; intros s s' Hk HP Hrun.
    - simpl in Hrun. inversion Hrun; subst. exact HP.
    - rewrite Nat2Z.inj_succ, <- Z.add_1_r in Hrun.
      rewrite seqZ_app in Hrun by lia. rewrite for_each_app in Hrun.
      destruct (for_each body (seqZ 0 (Z.of_nat k)) s) as [s1 |] eqn:E1;
        simpl in Hrun; [| discriminate].
      change (Z.of_nat 0 + (0 + Z.of_nat k)) with (Z.of_nat k) in Hrun.
      destruct (body (Z.of_nat k) s1) as [s2 |] eqn:E2; simpl in Hrun; [| discriminate].
      inversion Hrun; subst.
      rewrite Nat2Z.inj_succ, <- Z.add_1_r.
      apply (Hstep (Z.of_nat k) s1); [lia | | exact E2].
      apply (IH s); [lia | exact HP | exact E1]. }
  intros s s' HP Hrun. specialize (G (Z.to_nat n) s s').
  rewrite Z2Nat.id in G by lia. apply G; [lia | exact HP | exact Hrun].
Qed.

(** A loop whose iterations are all defined is defined. *)
Lemma for_each_defined {S : Type} (P : Z → S → Prop) (body : Z → S → option S) n :
  0 <= n →
  (∀ i s, 0 <= i < n → P i s → ∃ s', body i s = Some s' ∧ P (i + 1) s') →
  ∀ s, P 0 s → ∃ s', for_each body (seqZ 0 n) s = Some s' ∧ P n s'.
Proof.
  intros Hn Hstep.
  assert (G : ∀ (k : nat) s, Z.of_nat k <= n → P 0 s →
              ∃ s', for_each body (seqZ 0 (Z.of_nat k)) s = Some s' ∧ P (Z.of_nat k) s').
  { induction k as [| k IH]; intros s Hk HP.
    - exists s. split; [reflexivity | exact HP].
    - destruct (IH s) as (s1 & E1 & HP1); [lia | exact HP |].
      destruct (Hstep (Z.of_nat k) s1) as (s2 & E2 & HP2); [lia | exact HP1 |].
      exists s2. rewrite Nat2Z.inj_succ, <- Z.add_1_r.
      rewrite seqZ_app by lia. rewrite for_each_app, E1.
      rewrite seqZ_one, Z.add_0_l. simpl.
      rewrite E2. simpl. split; [reflexivity | exact HP2]. }
  intros s HP. specialize (G (Z.to_nat n) s).
  rewrite Z2Nat.id in G by lia. apply G; [lia | exact HP].
Qed.

(** *** [PiggyList]: growth *)

Module PiggyListFacts.
Import PiggyList.

Section Growth.
Context {T : Type}.
Implicit Types (h : heap T) (l : t) (blk : block T).

Lemma block_at_Some h l i blk :
  block_at h l i = Some blk ↔
  ∃ a, blockLookupTable l !! i = Some a ∧ h_blocks h !! a = Some blk.
Proof.
  unfold block_at. destruct (blockLookupTable l !! i) as [a |]; simpl; split.
  - intros H. exists a. split; [reflexivity | exact H].
  - intros (a' & E & H). inversion E; subst. exact H.
  - discriminate.
  - intros (a' & E & _). discriminate.
Qed.

Lemma must_grow_false l i : must_grow l i = false ↔ wrap64 (i + 1) <= container_size l.
Proof. unfold must_grow. rewrite Z.ltb_ge. reflexivity. Qed.

Lemma must_grow_true l i : must_grow l i = true ↔ container_size l < wrap64 (i + 1).
Proof. unfold must_grow. rewrite Z.ltb_lt. reflexivity. Qed.

Lemma grow_step_Some h l h' l' :
  grow_step h l = Some (h', l') →
  0 <= num_containers l < max_conts ∧
  h' = (new_array (allocsize l) h).2 ∧
  l' = mk (BLOCKBITS l) (BLOCKSIZE l) (num_containers l + 1)
          (wrap64 (allocsize l * 2)) (wrap64 (container_size l + allocsize l))
          (m_size l) (<[num_containers l := h_next h]> (blockLookupTable l)).
Proof.
  unfold grow_step. intros H.
  destruct ((0 <=? num_containers l) && (num_containers l <? max_conts)) eqn:Hc;
    [| discriminate].
  apply andb_prop in Hc as [H1 H2]. apply Z.leb_le in H1. apply Z.ltb_lt in H2.
  simpl in H. inversion H; subst. unfold max_conts in *.
  rewrite (wrap64_small (num_containers l + 1)) by lia.
  repeat split; lia.
Qed.

Lemma grow_step_defined h l :
  0 <= num_containers l < max_conts → is_Some (grow_step h l).
Proof.
  intros Hnc. unfold grow_step.
  assert (Hc : (0 <=? num_containers l) && (num_containers l <? max_conts) = true).
  { in_range. }
  rewrite Hc. simpl. eexists. reflexivity.
Qed.

Lemma grow_step_owns h l h' l' :
  owns h l → grow_step h l = Some (h', l') → owns h' l'.
Proof.
  intros (Hwf & Hbits & HB & Hnc & Hlive & Hinj) Hstep.
  apply grow_step_Some in Hstep as (Hlt & -> & ->).
  unfold owns. simpl. unfold max_conts in *.
  split; [apply new_array_wf; exact Hwf |].
  split; [exact Hbits |]. split; [exact HB |]. split; [lia |]. split.
  - intros i Hi. destruct (decide (i = num_containers l)) as [-> | Hne].
    + exists (Block (allocsize l) ∅). apply block_at_Some. simpl.
      exists (h_next h). rewrite !lookup_insert_eq. split; reflexivity.
    + destruct (Hlive i) as [blk Hblk]; [lia |].
      apply block_at_Some in Hblk as (a & Ha & Hblk).
      exists blk. apply block_at_Some. simpl. exists a.
      rewrite lookup_insert_ne by congruence. split; [exact Ha |].
      apply (new_array_other (allocsize l) h a blk Hwf Hblk).
  - intros i j a Hi Hj Ei Ej.
    assert (Hold : ∀ k, 0 <= k < num_containers l →
                        blockLookupTable l !! k = Some a → a ≠ h_next h).
    { intros k Hk Ek. destruct (Hlive k Hk) as [blk Hblk].
      apply block_at_Some in Hblk as (a' & Ha' & Hblk).
      rewrite Ek in Ha'. inversion Ha'; subst.
      apply (new_array_other 0 h a' blk Hwf Hblk). }
    destruct (decide (i = num_containers l)) as [-> | Hi'];
      destruct (decide (j = num_containers l)) as [-> | Hj']; [reflexivity | | |].
    + rewrite lookup_insert_eq in Ei. rewrite lookup_insert_ne in Ej by congruence.
      inversion Ei; subst. exfalso. apply (Hold j); [lia | exact Ej | reflexivity].
    + rewrite lookup_insert_eq in Ej. rewrite lookup_insert_ne in Ei by congruence.
      inversion Ej; subst. exfalso. apply (Hold i); [lia | exact Ei | reflexivity].
    + rewrite lookup_insert_ne in Ei by congruence.
      rewrite lookup_insert_ne in Ej by congruence.
      apply (Hinj i j a); [lia | lia | exact Ei | exact Ej].
Qed.

Lemma grown_from_refl h l : grown_from h l h l.
Proof.
  unfold grown_from. repeat split; try reflexivity; try lia.
  intros a blk E. exists blk. split; [exact E | reflexivity].
Qed.

Lemma grown_from_trans h0 l0 h1 l1 h2 l2 :
  grown_from h0 l0 h1 l1 → grown_from h1 l1 h2 l2 → grown_from h0 l0 h2 l2.
Proof.
  intros (A1 & A2 & A3 & A4 & A5 & A6 & A7) (B1 & B2 & B3 & B4 & B5 & B6 & B7).
  unfold grown_from. repeat split; try congruence; try lia.
  - intros i Hi. rewrite B5 by lia. apply A5. exact Hi.
  - intros a blk E. destruct (A6 a blk E) as (b1 & E1 & L1).
    destruct (B6 a b1 E1) as (b2 & E2 & L2). exists b2. split; [exact E2 | congruence].
Qed.

Lemma grow_step_grown_from h l h' l' :
  heap_wf h → grow_step h l = Some (h', l') → grown_from h l h' l'.
Proof.
  intros Hwf Hstep. apply grow_step_Some in Hstep as (Hlt & -> & ->).
  unfold grown_from. simpl. repeat split; try reflexivity; try lia.
  - intros i Hi. apply lookup_insert_ne. lia.
  - intros a blk E. exists blk. split; [| reflexivity].
    apply (new_array_other (allocsize l) h a blk Hwf E).
Qed.

Lemma store_grown_from h l r v h' :
  store h r v = Some h' → grown_from h l h' l.
Proof.
  intros Hst. pose proof (store_Some h r v h' Hst) as (b0 & _ & _ & Hh').
  unfold grown_from. repeat split; try reflexivity; try lia.
  - intros a blk E. apply (store_block h r v h' a blk Hst E).
  - rewrite Hh'. simpl. lia.
Qed.

Lemma pow2_succ k : 0 <= k → 2 ^ (k + 1) = 2 * 2 ^ k.
Proof. intros Hk. rewrite Z.pow_add_r by lia. lia. Qed.

Lemma shape_bounds h l :
  shape h l →
  0 < BLOCKSIZE l ∧ BLOCKSIZE l * 2 ^ num_containers l = 2 ^ (BLOCKBITS l + num_containers l) ∧
  BLOCKSIZE l * 2 ^ num_containers l <= 2 ^ 64.
Proof.
  intros ((_ & Hbits & HB & Hnc & _) & Hsum & _).
  rewrite HB. split; [apply pow2_pos; lia |].
  rewrite <- Z.pow_add_r by lia. split; [reflexivity |].
  apply pow2_le_mono. lia.
Qed.

(** One iteration keeps the shape as long as the doubled size fits. *)
Lemma grow_step_shape h l h' l' :
  shape h l → BLOCKBITS l + num_containers l < 64 →
  grow_step h l = Some (h', l') → shape h' l'.
Proof.
  intros Hshape Hroom Hstep.
  pose proof (shape_bounds h l Hshape) as (HBpos & Hpow & _).
  pose proof (grow_step_owns h l h' l' (proj1 Hshape) Hstep) as Howns'.
  destruct Hshape as (Howns & Hsum & Halloc & Hcs & Hlen).
  destruct Howns as (Hwf & Hbits & HB & Hnc & Hlive & Hinj).
  apply grow_step_Some in Hstep as (Hlt & -> & ->).
  assert (Hlt64 : BLOCKSIZE l * 2 ^ num_containers l < 2 ^ 64).
  { rewrite Hpow. apply pow2_lt_mono. lia. }
  assert (Hnext : BLOCKSIZE l * 2 ^ (num_containers l + 1)
                  = 2 * (BLOCKSIZE l * 2 ^ num_containers l)).
  { rewrite pow2_succ by lia. lia. }
  assert (Hnext64 : BLOCKSIZE l * 2 ^ (num_containers l + 1) <= 2 ^ 64).
  { rewrite HB, <- Z.pow_add_r by lia. apply pow2_le_mono. lia. }
  assert (Hp1 : 1 <= 2 ^ num_containers l).
  { pose proof (pow2_pos (num_containers l)). lia. }
  assert (Ha : allocsize l = BLOCKSIZE l * 2 ^ num_containers l).
  { rewrite Halloc. apply wrap64_small. nia. }
  unfold shape. simpl. split; [exact Howns' |]. split; [lia |]. split; [| split].
  - rewrite Ha, Hnext. f_equal. lia.
  - rewrite Ha, Hcs. rewrite pow2_succ in * by lia.
    assert (0 <= BLOCKSIZE l * (2 ^ num_containers l - 1))
      by (apply Z.mul_nonneg_nonneg; lia).
    rewrite wrap64_small by lia. lia.
  - intros i blk Hi Hblk. apply block_at_Some in Hblk as (a & Ea & Eblk).
    simpl in Ea, Eblk.
    destruct (decide (i = num_containers l)) as [-> | Hne].
    + rewrite lookup_insert_eq in Ea. inversion Ea; subst.
      rewrite lookup_insert_eq in Eblk. inversion Eblk; subst. simpl. exact Ha.
    + rewrite lookup_insert_ne in Ea by congruence.
      destruct (Hlive i) as [blk0 Hblk0]; [lia |].
      pose proof Hblk0 as Hblk0'.
      apply block_at_Some in Hblk0 as (a0 & Ea0 & Eblk0).
      rewrite Ea in Ea0. inversion Ea0; subst.
      destruct (new_array_other (allocsize l) h a0 blk0 Hwf Eblk0) as [_ E'].
      simpl in E'. rewrite E' in Eblk. inversion Eblk; subst.
      apply Hlen; [lia | exact Hblk0'].
Qed.

Lemma shape_capacity_range h l : shape h l → 0 <= container_size l < 2 ^ 64.
Proof.
  intros Hshape. pose proof (shape_bounds h l Hshape) as (HBpos & _ & Hle).
  destruct Hshape as ((_ & _ & _ & Hnc & _) & _ & _ & Hcs & _).
  pose proof (pow2_pos (num_containers l)).
  assert (0 <= BLOCKSIZE l * (2 ^ num_containers l - 1))
    by (apply Z.mul_nonneg_nonneg; lia).
  lia.
Qed.

(** A property kept by every iteration holds when the loop is left. *)
Lemma grow_loop_invariant (P : heap T → t → Prop) i :
  (∀ h l h' l', P h l → must_grow l i = true → grow_step h l = Some (h', l') →
                P h' l') →
  ∀ fuel h l h' l',
    P h l → grow_loop fuel h l i = Some (h', l') → P h' l' ∧ must_grow l' i = false.
Proof.
  intros Hstep. induction fuel as [| fuel IH]; intros h l h' l' HP Hrun;
    simpl in Hrun; destruct (must_grow l i) eqn:Hg;
    try discriminate; try (inversion Hrun; subst; split; assumption).
  destruct (grow_step h l) as [[h1 l1] |] eqn:E1; simpl in Hrun; [| discriminate].
  apply (IH h1 l1); [| exact Hrun].
  apply (Hstep h l); assumption.
Qed.

Lemma grow_loop_owns fuel h l i h' l' :
  owns h l → grow_loop fuel h l i = Some (h', l') →
  owns h' l' ∧ grown_from h l h' l' ∧ must_grow l' i = false.
Proof.
  intros Howns Hrun.
  destruct (grow_loop_invariant (λ h1 l1, owns h1 l1 ∧ grown_from h l h1 l1) i)
    with (fuel := fuel) (h := h) (l := l) (h' := h') (l' := l')
    as [[H1 H2] H3].
  - intros h1 l1 h2 l2 [Ho Hg] _ Hstep. split.
    + apply (grow_step_owns h1 l1); assumption.
    + apply (grown_from_trans _ _ h1 l1); [exact Hg |].
      apply grow_step_grown_from; [apply Ho | exact Hstep].
  - split; [exact Howns | apply grown_from_refl].
  - exact Hrun.
  - split; [exact H1 | split; [exact H2 | exact H3]].
Qed.

Lemma stuck_step h l i h' l' :
  stuck l i → grow_step h l = Some (h', l') → stuck l' i.
Proof.
  intros (Ha & Hg & Hcs) Hstep. apply grow_step_Some in Hstep as (_ & _ & ->).
  unfold stuck, must_grow in *. simpl. rewrite Ha, Z.add_0_r.
  rewrite (wrap64_small (container_size l)) by lia.
  split; [reflexivity | split; [exact Hg | lia]].
Qed.

Lemma grow_loop_shape fuel h l i h' l' :
  shape h l → grow_loop fuel h l i = Some (h', l') → shape h' l'.
Proof.
  intros Hshape Hrun.
  destruct (grow_loop_invariant (λ h1 l1, shape h1 l1 ∨ stuck l1 i) i)
    with (fuel := fuel) (h := h) (l := l) (h' := h') (l' := l')
    as [[H1 | (_ & H1 & _)] H2].
  - intros h1 l1 h2 l2 [Hs | Hs] Hg Hstep.
    + destruct (Z_lt_le_dec (BLOCKBITS l1 + num_containers l1) 64) as [Hroom | Hfull].
      * left. apply (grow_step_shape h1 l1); assumption.
      * right. apply (stuck_step h1 l1 i h2 l2); [| exact Hstep].
        pose proof (shape_capacity_range h1 l1 Hs) as Hrange.
        pose proof (shape_bounds h1 l1 Hs) as (_ & Hpow & _).
        destruct Hs as (_ & Hsum & Halloc & _).
        unfold stuck. split; [| split; assumption].
        rewrite Halloc, Hpow.
        replace (BLOCKBITS l1 + num_containers l1) with 64 by lia.
        reflexivity.
    + right. apply (stuck_step h1 l1 i h2 l2); assumption.
  - left. exact Hshape.
  - exact Hrun.
  - exact H1.
  - congruence.
Qed.

(** The loop is defined when the blocks that fit the table cover the
    index. *)
Lemma grow_loop_defined i : ∀ fuel h l,
  shape h l → Z.of_nat fuel = max_conts - num_containers l →
  wrap64 (i + 1) <= 2 ^ 64 - BLOCKSIZE l →
  is_Some (grow_loop fuel h l i).
Proof.
  induction fuel as [| fuel IH]; intros h l Hshape Hfuel Hfit.
  - pose proof (shape_bounds h l Hshape) as (HBpos & Hpow & _).
    pose proof Hshape as ((_ & Hbits & HB & Hnc & _) & Hsum & _ & Hcs & _).
    unfold max_conts in *. assert (Hnc64 : num_containers l = 64) by lia.
    assert (BLOCKBITS l = 0) by lia.
    simpl. destruct (must_grow l i) eqn:Hg; [| eexists; reflexivity].
    apply must_grow_true in Hg. exfalso.
    rewrite Hcs, HB, Hnc64 in Hg. rewrite HB in Hfit.
    replace (BLOCKBITS l) with 0 in * by lia. simpl in *. lia.
  - simpl. destruct (must_grow l i) eqn:Hg; [| eexists; reflexivity].
    apply must_grow_true in Hg.
    pose proof (shape_bounds h l Hshape) as (HBpos & Hpow & _).
    pose proof Hshape as ((_ & Hbits & HB & Hnc & _) & Hsum & _ & Hcs & _).
    assert (Hroom : BLOCKBITS l + num_containers l < 64).
    { destruct (Z_lt_le_dec (BLOCKBITS l + num_containers l) 64) as [? | Hfull];
        [assumption | exfalso].
      assert (E64 : BLOCKBITS l + num_containers l = 64) by lia.
      rewrite E64 in Hpow. lia. }
    unfold max_conts in *.
    destruct (grow_step_defined h l) as [[h1 l1] E1]; [unfold max_conts; lia |].
    rewrite E1. simpl. apply IH.
    + apply (grow_step_shape h l); assumption.
    + apply grow_step_Some in E1 as (_ & _ & ->). simpl. lia.
    + apply grow_step_Some in E1 as (_ & _ & ->). simpl. exact Hfit.
Qed.

(** *** What [ensure] guarantees *)

Lemma ensure_owns h l i h' l' :
  owns h l → ensure h l i = Some (h', l') →
  owns h' l' ∧ grown_from h l h' l' ∧ must_grow l' i = false.
Proof.
  unfold ensure. intros Howns Hrun. destruct (must_grow l i) eqn:Hg.
  - eapply grow_loop_owns; eassumption.
  - inversion Hrun; subst.
    split; [exact Howns | split; [apply grown_from_refl | exact Hg]].
Qed.

Lemma ensure_shape h l i h' l' :
  shape h l → ensure h l i = Some (h', l') → shape h' l'.
Proof.
  unfold ensure. intros Hshape Hrun. destruct (must_grow l i) eqn:Hg.
  - eapply grow_loop_shape; eassumption.
  - inversion Hrun; subst. exact Hshape.
Qed.

Lemma ensure_defined h l i :
  shape h l → wrap64 (i + 1) <= 2 ^ 64 - BLOCKSIZE l → is_Some (ensure h l i).
Proof.
  intros Hshape Hfit. unfold ensure. destruct (must_grow l i); [| eexists; reflexivity].
  apply grow_loop_defined; [exact Hshape | | exact Hfit].
  destruct Hshape as ((_ & _ & _ & Hnc & _) & _). unfold max_conts in *.
  rewrite Z2Nat.id; lia.
Qed.

End Growth.

(** *** [get], [append], [createNode] and [clear] *)

Section Calls.
Context {T : Type}.
Implicit Types (h : heap T) (l : t) (blk : block T).

Lemma get_Some im h l i a off :
  get im h l i = Some (a, off) ↔
  ∃ slot blk,
    block_position im (BLOCKBITS l) (BLOCKSIZE l) i = Some (slot, off) ∧
    0 <= slot < max_conts ∧ blockLookupTable l !! slot = Some a ∧
    h_blocks h !! a = Some blk ∧ 0 <= off < blk_len blk.
Proof.
  unfold get, getBlock.
  destruct (block_position im (BLOCKBITS l) (BLOCKSIZE l) i) as [[slot ind] |];
    simpl; [| split; [discriminate | intros (? & ? & ? & _); discriminate]].
  destruct ((0 <=? slot) && (slot <? max_conts)) eqn:Hc; simpl.
  - apply andb_prop in Hc as [H1 H2]. apply Z.leb_le in H1. apply Z.ltb_lt in H2.
    destruct (blockLookupTable l !! slot) as [a' |] eqn:Ea; simpl.
    + destruct (h_blocks h !! a') as [blk |] eqn:Eb; simpl.
      * destruct ((0 <=? ind) && (ind <? blk_len blk)) eqn:Hi.
        -- apply andb_prop in Hi as [H3 H4]. apply Z.leb_le in H3. apply Z.ltb_lt in H4.
           split.
           ++ intros E. inversion E; subst. exists slot, blk.
              repeat split; try assumption; try lia.
           ++ intros (s' & b' & E1 & _ & E2 & _). inversion E1; subst.
              rewrite Ea in E2. inversion E2; subst. reflexivity.
        -- split; [discriminate |].
           intros (s' & b' & E1 & _ & E2 & E3 & Hoff). inversion E1; subst.
           rewrite Ea in E2. inversion E2; subst. rewrite Eb in E3. inversion E3; subst.
           apply andb_false_iff in Hi as [Hi | Hi];
             [apply Z.leb_gt in Hi | apply Z.ltb_ge in Hi]; lia.
      * split; [discriminate |].
        intros (s' & b' & E1 & _ & E2 & E3 & _). inversion E1; subst.
        rewrite Ea in E2. inversion E2; subst. rewrite Eb in E3. discriminate.
    + split; [discriminate |].
      intros (s' & b' & E1 & _ & E2 & _). inversion E1; subst.
      rewrite Ea in E2. discriminate.
  - split; [discriminate |].
    intros (s' & b' & E1 & Hs & _). inversion E1; subst.
    apply andb_false_iff in Hc as [Hc | Hc];
      [apply Z.leb_gt in Hc | apply Z.ltb_ge in Hc]; lia.
Qed.

(** Two indices that [get] maps to the same position are the same
    element. *)
Lemma get_same_position im h l i i' :
  block_position im (BLOCKBITS l) (BLOCKSIZE l) i
  = block_position im (BLOCKBITS l) (BLOCKSIZE l) i' →
  get im h l i = get im h l i'.
Proof. unfold get. intros ->. reflexivity. Qed.

(** Inside the capacity of a list of regular shape, [get] is defined
    wherever its mask is. *)
Lemma get_defined im h l i :
  shape h l → 0 <= i < container_size l →
  mask_defined im (Z.log2 (i + BLOCKSIZE l)) →
  ∃ a blk off,
    get im h l i = Some (a, off) ∧
    block_position im (BLOCKBITS l) (BLOCKSIZE l) i
    = Some (Z.log2 (i + BLOCKSIZE l) - BLOCKBITS l, off) ∧
    0 <= Z.log2 (i + BLOCKSIZE l) - BLOCKBITS l < num_containers l ∧
    blockLookupTable l !! (Z.log2 (i + BLOCKSIZE l) - BLOCKBITS l) = Some a ∧
    h_blocks h !! a = Some blk ∧ 0 <= off < blk_len blk.
Proof.
  intros Hshape Hi Hmask.
  pose proof (shape_bounds h l Hshape) as (HBpos & Hpow & Hle64).
  pose proof Hshape as ((_ & Hbits & HB & Hnc & Hlive & _) & Hsum & _ & Hcs & Hlen).
  set (n := i + BLOCKSIZE l) in *.
  assert (Hn : 0 < n < 2 ^ (BLOCKBITS l + num_containers l)).
  { rewrite <- Hpow. unfold n. lia. }
  assert (Hlog : BLOCKBITS l <= Z.log2 n < BLOCKBITS l + num_containers l).
  { split.
    - apply Z.log2_le_pow2; [lia | rewrite <- HB; unfold n; lia].
    - apply Z.log2_lt_pow2; lia. }
  destruct (block_position_defined im (BLOCKBITS l) i) as (j & Hpos & Hj & _);
    [lia | lia | rewrite <- HB; fold n; lia | rewrite <- HB; exact Hmask |].
  rewrite <- HB in Hpos, Hj. fold n in Hpos, Hj.
  set (slot := Z.log2 n - BLOCKBITS l) in *.
  destruct (Hlive slot) as [blk Hblk]; [unfold slot; lia |].
  pose proof (Hlen slot blk ltac:(unfold slot; lia) Hblk) as Hblen.
  apply block_at_Some in Hblk as (a & Ea & Eb).
  assert (Hsize : blk_len blk = 2 ^ Z.log2 n).
  { rewrite Hblen, HB, <- Z.pow_add_r by (unfold slot; lia).
    f_equal. unfold slot. lia. }
  pose proof (mod_pow2_below n j (Z.log2 n) Hj) as Hoff.
  exists a, blk, (n mod 2 ^ j).
  split; [| repeat split; try assumption; unfold slot; lia].
  apply get_Some. exists slot, blk. unfold max_conts.
  repeat split; try assumption; unfold slot; lia.
Qed.

Lemma store_owns h l r v h' : owns h l → store h r v = Some h' → owns h' l.
Proof.
  intros (Hwf & Hbits & HB & Hnc & Hlive & Hinj) Hst.
  unfold owns. split; [apply (store_wf h r v); assumption |].
  repeat split; try assumption; try lia.
  intros i Hi. destruct (Hlive i Hi) as [blk Hblk].
  apply block_at_Some in Hblk as (a & Ea & Eb).
  destruct (store_block h r v h' a blk Hst Eb) as (blk' & Eb' & _).
  exists blk'. apply block_at_Some. exists a. split; assumption.
Qed.

Lemma store_shape h l r v h' : shape h l → store h r v = Some h' → shape h' l.
Proof.
  intros (Howns & Hsum & Halloc & Hcs & Hlen) Hst.
  unfold shape. split; [apply (store_owns h l r v); assumption |].
  repeat split; try assumption.
  intros i blk' Hi Hblk'. apply block_at_Some in Hblk' as (a & Ea & Eb').
  destruct (store_block_inv h r v h' a blk' Hst Eb') as (blk & Eb & Hl).
  rewrite Hl. apply Hlen; [exact Hi |]. apply block_at_Some. exists a. split; assumption.
Qed.

Lemma reserve_owns h l : owns h l → owns h (reserve l).1.
Proof. intros H. exact H. Qed.

Lemma reserve_shape h l : shape h l → shape h (reserve l).1.
Proof. intros H. exact H. Qed.

(** What a defined [createNode] did. *)
Lemma createNode_Some h l h' l' i :
  createNode h l = Some (h', l', i) →
  i = m_size l ∧ ensure h (reserve l).1 (m_size l) = Some (h', l').
Proof.
  unfold createNode. simpl. intros H.
  destruct (ensure h _ (m_size l)) as [[h2 l2] |] eqn:E; simpl in H; [| discriminate].
  inversion H; subst. split; reflexivity.
Qed.

(** What a defined [append] did. *)
Lemma append_Some im h l v h' l' i :
  append im h l v = Some (h', l', i) →
  i = m_size l ∧
  ∃ h2 r, ensure h (reserve l).1 (m_size l) = Some (h2, l') ∧
          get im h2 l' (m_size l) = Some r ∧ store h2 r v = Some h'.
Proof.
  unfold append. simpl. intros H.
  destruct (ensure h _ (m_size l)) as [[h2 l2] |] eqn:E; simpl in H; [| discriminate].
  destruct (get im h2 l2 (m_size l)) as [r |] eqn:Eg; simpl in H; [| discriminate].
  destruct (store h2 r v) as [h3 |] eqn:Es; simpl in H; [| discriminate].
  inversion H; subst. split; [reflexivity |]. exists h2, r. repeat split; assumption.
Qed.

Lemma regular_after_ensure h l h' l' :
  shape h' l' → m_size l' = wrap64 (m_size l + 1) →
  must_grow l' (m_size l) = false → regular h' l'.
Proof.
  intros Hshape Hm Hg. split; [exact Hshape |].
  apply must_grow_false in Hg. rewrite Hm.
  pose proof (wrap64_range (m_size l + 1)). lia.
Qed.

Lemma createNode_regular h l h' l' i :
  regular h l → createNode h l = Some (h', l', i) →
  regular h' l' ∧ i = m_size l ∧ m_size l' = wrap64 (m_size l + 1) ∧
  grown_from h (reserve l).1 h' l'.
Proof.
  intros [Hshape Hm] Hrun. apply createNode_Some in Hrun as (-> & Hens).
  pose proof (ensure_shape _ _ _ _ _ (reserve_shape h l Hshape) Hens) as Hshape'.
  destruct (ensure_owns _ _ _ _ _ (reserve_owns h l (proj1 Hshape)) Hens)
    as (_ & Hfrom & Hg).
  assert (Hm' : m_size l' = wrap64 (m_size l + 1)) by apply Hfrom.
  split; [apply (regular_after_ensure h l); assumption |].
  repeat split; try assumption; apply Hfrom.
Qed.

Lemma append_regular im h l v h' l' i :
  regular h l → append im h l v = Some (h', l', i) →
  regular h' l' ∧ i = m_size l ∧ m_size l' = wrap64 (m_size l + 1) ∧
  grown_from h (reserve l).1 h' l'.
Proof.
  intros [Hshape Hm] Hrun.
  apply append_Some in Hrun as (-> & h2 & r & Hens & Hget & Hst).
  pose proof (ensure_shape _ _ _ _ _ (reserve_shape h l Hshape) Hens) as Hshape2.
  destruct (ensure_owns _ _ _ _ _ (reserve_owns h l (proj1 Hshape)) Hens)
    as (_ & Hfrom & Hg).
  assert (Hm' : m_size l' = wrap64 (m_size l + 1)) by apply Hfrom.
  pose proof (store_shape h2 l' r v h' Hshape2 Hst) as Hshape'.
  split; [apply (regular_after_ensure h l); assumption |].
  split; [reflexivity |]. split; [exact Hm' |].
  apply (grown_from_trans _ _ h2 l'); [exact Hfrom |].
  apply (store_grown_from h2 l' r v h' Hst).
Qed.

(** [append] is defined while the blocks that fit the table cover the new
    index and the mask of [get] is defined for it; the element is then
    where [get] finds it. *)
Lemma append_defined im h l v :
  regular h l → m_size l + 1 + BLOCKSIZE l <= 2 ^ 64 →
  mask_defined im (Z.log2 (m_size l + BLOCKSIZE l)) →
  ∃ h' l' r,
    append im h l v = Some (h', l', m_size l) ∧
    m_size l' = m_size l + 1 ∧
    get im h' l' (m_size l) = Some r ∧ load h' r = Some v.
Proof.
  intros [Hshape Hm] Hfit Hmask.
  pose proof (shape_bounds h l Hshape) as (HBpos & _).
  assert (Hw : wrap64 (m_size l + 1) = m_size l + 1) by (apply wrap64_small; lia).
  destruct (ensure_defined h (reserve l).1 (m_size l)) as [[h2 l2] Hens].
  { apply reserve_shape. exact Hshape. }
  { simpl. rewrite Hw. lia. }
  pose proof (ensure_shape _ _ _ _ _ (reserve_shape h l Hshape) Hens) as Hshape2.
  destruct (ensure_owns _ _ _ _ _ (reserve_owns h l (proj1 Hshape)) Hens)
    as (_ & (Hb1 & Hb2 & Hm2 & _) & Hg).
  simpl in Hb1, Hb2, Hm2. apply must_grow_false in Hg. rewrite Hw in Hg.
  destruct (get_defined im h2 l2 (m_size l)) as (a & blk & off & Hget & _ & _ & _ & Eb & Hoff).
  { exact Hshape2. }
  { lia. }
  { rewrite Hb2. exact Hmask. }
  destruct (store h2 (a, off) v) as [h3 |] eqn:Hst.
  2: { rewrite (store_defined h2 (a, off) v blk Eb Hoff) in Hst. discriminate. }
  exists h3, l2, (a, off).
  split; [| split; [lia | split]].
  - unfold append. simpl. simpl in Hens. rewrite Hens. simpl. rewrite Hget. simpl.
    rewrite Hst. reflexivity.
  - apply get_Some in Hget as (slot & blk0 & E1 & E2 & E3 & E4 & E5).
    destruct (store_block h2 (a, off) v h3 a blk0 Hst E4) as (blk' & E4' & Hl).
    apply get_Some. exists slot, blk'. repeat split; try assumption; lia.
  - apply (load_store_same h2 (a, off) v h3 Hst).
Qed.

Lemma createNode_defined h l :
  regular h l → m_size l + 1 + BLOCKSIZE l <= 2 ^ 64 →
  ∃ h' l', createNode h l = Some (h', l', m_size l) ∧ m_size l' = m_size l + 1.
Proof.
  intros [Hshape Hm] Hfit.
  pose proof (shape_bounds h l Hshape) as (HBpos & _).
  assert (Hw : wrap64 (m_size l + 1) = m_size l + 1) by (apply wrap64_small; lia).
  destruct (ensure_defined h (reserve l).1 (m_size l)) as [[h2 l2] Hens].
  { apply reserve_shape. exact Hshape. }
  { simpl. rewrite Hw. lia. }
  destruct (ensure_owns _ _ _ _ _ (reserve_owns h l (proj1 Hshape)) Hens)
    as (_ & (_ & _ & Hm2 & _) & _).
  simpl in Hm2. exists h2, l2. split; [| lia].
  unfold createNode. simpl. simpl in Hens. rewrite Hens. reflexivity.
Qed.

End Calls.

(** *** Construction, [clear] and runs of calls *)

Section Runs.
Context {T : Type}.
Implicit Types (h : heap T) (l : t) (blk : block T).

Lemma ul_shl1_Some bits bs :
  ul_shl1 bits = Some bs → 0 <= bits < 64 ∧ bs = 2 ^ bits.
Proof.
  unfold ul_shl1. intros H.
  destruct ((0 <=? bits) && (bits <? 64)) eqn:Hc; [| discriminate].
  apply andb_prop in Hc as [H1 H2]. apply Z.leb_le in H1. apply Z.ltb_lt in H2.
  inversion H; subst. split; [lia |]. apply wrap64_small.
  apply pow2_range; lia.
Qed.

Lemma fresh_regular h bits bs tbl :
  heap_wf h → 0 <= bits < 64 → bs = 2 ^ bits →
  regular h (mk bits bs 0 bs 0 0 tbl).
Proof.
  intros Hwf Hbits ->. unfold regular, shape, owns, max_conts. simpl.
  assert (0 < 2 ^ bits < 2 ^ 64).
  { split; [apply pow2_pos; lia | apply pow2_lt_mono; lia]. }
  repeat split; try assumption; try lia.
  - rewrite Z.mul_1_r. symmetry. apply wrap64_small. lia.
Qed.

Lemma create_regular h bits l :
  heap_wf h → create bits = Some l →
  regular h l ∧ BLOCKBITS l = bits ∧ BLOCKSIZE l = 2 ^ bits ∧
  num_containers l = 0 ∧ m_size l = 0.
Proof.
  intros Hwf Hc. unfold create in Hc.
  destruct (ul_shl1 bits) as [bs |] eqn:E; simpl in Hc; [| discriminate].
  inversion Hc; subst. apply ul_shl1_Some in E as [Hbits ->]. simpl.
  split; [apply fresh_regular; auto |]. repeat split; reflexivity.
Qed.

Lemma delete_array_wf h a h' :
  heap_wf h → delete_array (Some a) h = Some h' → heap_wf h'.
Proof.
  unfold delete_array. intros Hwf H.
  destruct (h_blocks h !! a); [| discriminate]. inversion H; subst.
  intros a' blk. simpl. intros Hl. apply lookup_delete_Some in Hl as [_ Hl].
  apply (Hwf _ _ Hl).
Qed.

(** [freeList] is defined on every list that owns its blocks. *)
Lemma freeList_defined h l :
  owns h l → ∃ h', freeList h l = Some h' ∧ heap_wf h'.
Proof.
  intros (Hwf & _ & _ & Hnc & Hlive & Hinj). unfold freeList, max_conts in *.
  destruct (for_each_defined
              (λ i (hh : heap T),
                 heap_wf hh ∧
                 ∀ k a, i <= k < num_containers l → blockLookupTable l !! k = Some a →
                        is_Some (h_blocks hh !! a))
              (λ i hh, p ← getBlock l i; delete_array p hh)
              (num_containers l)) with (s := h) as (h' & Hrun & Hwf' & _).
  - lia.
  - intros i hh Hi [Hwfh Hk].
    destruct (Hlive i Hi) as [blk Hblk]. apply block_at_Some in Hblk as (a & Ea & _).
    destruct (Hk i a ltac:(lia) Ea) as [blk' Eb'].
    unfold getBlock, max_conts.
    assert (Hc : (0 <=? i) && (i <? 64) = true).
    { in_range. }
    rewrite Hc. simpl. rewrite Ea. unfold delete_array. rewrite Eb'.
    eexists. split; [reflexivity |]. split.
    + intros a' b'. simpl. intros Hl. apply lookup_delete_Some in Hl as [_ Hl].
      apply (Hwfh _ _ Hl).
    + intros k a' Hk' Ea'. simpl.
      assert (a' ≠ a).
      { intros ->. assert (k = i) by (apply (Hinj k i a); (lia || assumption)). lia. }
      rewrite lookup_delete_ne by congruence. apply (Hk k a'); [lia | exact Ea'].
  - split; [exact Hwf |]. intros k a Hk Ea.
    destruct (Hlive k Hk) as [blk Hblk]. apply block_at_Some in Hblk as (a' & Ea' & Eb).
    rewrite Ea in Ea'. inversion Ea'; subst. eauto.
  - exists h'. split; assumption.
Qed.

(** [clear] is defined on every list that owns its blocks, and leaves the
    list as the constructor makes it. *)
Lemma clear_defined h l :
  owns h l →
  ∃ h', clear h l
        = Some (h', mk (BLOCKBITS l) (BLOCKSIZE l) 0 (BLOCKSIZE l) 0 0 (blockLookupTable l)) ∧
        regular h' (mk (BLOCKBITS l) (BLOCKSIZE l) 0 (BLOCKSIZE l) 0 0 (blockLookupTable l)).
Proof.
  intros Howns. destruct (freeList_defined h l Howns) as (h' & Hfree & Hwf').
  exists h'. unfold clear. rewrite Hfree. simpl. split; [reflexivity |].
  destruct Howns as (_ & Hbits & HB & _).
  apply fresh_regular; assumption.
Qed.

Lemma clear_regular h l h' l' :
  owns h l → clear h l = Some (h', l') →
  regular h' l' ∧ l' = mk (BLOCKBITS l) (BLOCKSIZE l) 0 (BLOCKSIZE l) 0 0 (blockLookupTable l).
Proof.
  intros Howns Hc. destruct (clear_defined h l Howns) as (h1 & E & Hreg).
  rewrite E in Hc. inversion Hc; subst. split; [exact Hreg | reflexivity].
Qed.

Lemma run_call_regular im c h l h' l' :
  regular h l → run_call im c (h, l) = Some (h', l') →
  regular h' l' ∧ BLOCKBITS l' = BLOCKBITS l ∧ BLOCKSIZE l' = BLOCKSIZE l.
Proof.
  intros Hreg Hrun. destruct c as [v | |]; simpl in Hrun.
  - destruct (append im h l v) as [[[h1 l1] i] |] eqn:E; simpl in Hrun; [| discriminate].
    inversion Hrun; subst.
    destruct (append_regular im h l v h' l' i Hreg E) as (H1 & _ & _ & H2 & H3 & _).
    split; [exact H1 | split; assumption].
  - destruct (createNode h l) as [[[h1 l1] i] |] eqn:E; simpl in Hrun; [| discriminate].
    inversion Hrun; subst.
    destruct (createNode_regular h l h' l' i Hreg E) as (H1 & _ & _ & H2 & H3 & _).
    split; [exact H1 | split; assumption].
  - destruct (clear_regular h l h' l' (proj1 (proj1 Hreg)) Hrun) as [H1 ->].
    split; [exact H1 | split; reflexivity].
Qed.

Lemma run_regular im calls : ∀ h l h' l',
  regular h l → run im calls (h, l) = Some (h', l') →
  regular h' l' ∧ BLOCKBITS l' = BLOCKBITS l ∧ BLOCKSIZE l' = BLOCKSIZE l.
Proof.
  induction calls as [| c calls IH]; intros h l h' l' Hreg Hrun; simpl in Hrun.
  - inversion Hrun; subst. split; [exact Hreg | split; reflexivity].
  - destruct (run_call im c (h, l)) as [[h1 l1] |] eqn:E; simpl in Hrun; [| discriminate].
    destruct (run_call_regular im c h l h1 l1 Hreg E) as (H1 & H2 & H3).
    destruct (IH h1 l1 h' l' H1 Hrun) as (H4 & H5 & H6).
    split; [exact H4 | split; congruence].
Qed.

(** The capacity of a list of regular shape. *)
Lemma total_capacity_regular h l :
  shape h l → total_capacity h l = BLOCKSIZE l * (2 ^ num_containers l - 1).
Proof.
  intros ((_ & _ & _ & Hnc & Hlive & _) & _ & _ & _ & Hlen). unfold total_capacity.
  assert (G : ∀ k : nat, Z.of_nat k <= num_containers l →
              foldr (λ i acc, from_option blk_len 0 (block_at h l i) + acc) 0
                    (seqZ 0 (Z.of_nat k))
              = BLOCKSIZE l * (2 ^ Z.of_nat k - 1)).
  { induction k as [| k IH]; intros Hk.
    - simpl. lia.
    - rewrite Nat2Z.inj_succ, <- Z.add_1_r.
      rewrite seqZ_app, foldr_app, seqZ_one, Z.add_0_l by lia. simpl.
      destruct (Hlive (Z.of_nat k)) as [blk Hblk]; [lia |].
      rewrite Hblk. simpl. rewrite (Hlen (Z.of_nat k) blk) by (lia || assumption).
      rewrite Z.add_0_r.
      assert (Hshift : ∀ (xs : list Z) c,
                foldr (λ i acc, from_option blk_len 0 (block_at h l i) + acc) c xs
                = foldr (λ i acc, from_option blk_len 0 (block_at h l i) + acc) 0 xs + c).
      { induction xs as [| x xs IHxs]; intros c; simpl; [lia |]. rewrite IHxs. lia. }
      rewrite Hshift, IH by lia. rewrite pow2_succ by lia. lia. }
  specialize (G (Z.to_nat (num_containers l))).
  rewrite Z2Nat.id in G by lia. apply G. lia.
Qed.

(** Growth stops at the first block that covers the index. *)
Lemma grow_loop_tight fuel h l i h' l' :
  shape h l → grow_loop fuel h l i = Some (h', l') →
  l' = l ∨ BLOCKSIZE l' * (2 ^ (num_containers l' - 1) - 1) < wrap64 (i + 1).
Proof.
  intros Hshape Hrun.
  destruct (grow_loop_invariant
              (λ h1 l1, stuck l1 i ∨
                        (shape h1 l1 ∧
                         (l1 = l ∨ BLOCKSIZE l1 * (2 ^ (num_containers l1 - 1) - 1)
                                   < wrap64 (i + 1)))) i)
    with (fuel := fuel) (h := h) (l := l) (h' := h') (l' := l')
    as [[(_ & H1 & _) | [_ H1]] H2].
  - intros h1 l1 h2 l2 [Hs | [Hs _]] Hg Hstep.
    + left. apply (stuck_step h1 l1 i h2 l2); assumption.
    + destruct (Z_lt_le_dec (BLOCKBITS l1 + num_containers l1) 64) as [Hroom | Hfull].
      * right. split; [apply (grow_step_shape h1 l1); assumption |]. right.
        apply must_grow_true in Hg.
        destruct Hs as (_ & _ & _ & Hcs & _).
        apply grow_step_Some in Hstep as (_ & _ & ->). simpl.
        replace (num_containers l1 + 1 - 1) with (num_containers l1) by lia. lia.
      * left. apply (stuck_step h1 l1 i h2 l2); [| exact Hstep].
        pose proof (shape_capacity_range h1 l1 Hs) as Hrange.
        pose proof (shape_bounds h1 l1 Hs) as (_ & Hpow & _).
        destruct Hs as (_ & Hsum & Halloc & _).
        unfold stuck. split; [| split; assumption].
        rewrite Halloc, Hpow.
        replace (BLOCKBITS l1 + num_containers l1) with 64 by lia.
        reflexivity.
  - right. split; [exact Hshape | left; reflexivity].
  - exact Hrun.
  - congruence.
  - exact H1.
Qed.

Lemma ensure_tight h l i h' l' :
  shape h l → m_size l = i + 1 → wrap64 (i + 1) = i + 1 →
  num_containers l = 0 ∨ BLOCKSIZE l * (2 ^ (num_containers l - 1) - 1) < i →
  ensure h l i = Some (h', l') → tight l'.
Proof.
  intros Hshape Hm Hw Htight Hrun.
  destruct (ensure_owns h l i h' l' (proj1 Hshape) Hrun) as (_ & (_ & _ & Hm' & _) & _).
  unfold ensure in Hrun. unfold tight. rewrite Hm', Hm.
  destruct (must_grow l i) eqn:Hg.
  - destruct (grow_loop_tight _ h l i h' l' Hshape Hrun) as [-> | Hlt].
    + destruct Htight; [left; assumption | right; lia].
    + right. lia.
  - inversion Hrun; subst. destruct Htight; [left; assumption | right; lia].
Qed.

(** One more [append] on a list built by the constructor and calls. *)
Lemma append_next im h l v :
  regular h l → tight l → m_size l + 1 + BLOCKSIZE l <= 2 ^ 64 →
  mask_defined im (Z.log2 (m_size l + BLOCKSIZE l)) →
  ∃ h' l' r,
    append im h l v = Some (h', l', m_size l) ∧
    regular h' l' ∧ tight l' ∧ m_size l' = m_size l + 1 ∧
    grown_from h (reserve l).1 h' l' ∧
    get im h' l' (m_size l) = Some r ∧ load h' r = Some v.
Proof.
  intros Hreg Htight Hfit Hmask.
  destruct (append_defined im h l v Hreg Hfit Hmask) as (h' & l' & r & Happ & Hm' & Hget & Hload).
  destruct (append_regular im h l v h' l' _ Hreg Happ) as (Hreg' & _ & _ & Hfrom).
  assert (Htight' : tight l').
  { pose proof Happ as Happ'.
    apply append_Some in Happ' as (_ & h2 & r2 & Hens & _ & _).
    pose proof (shape_bounds h l (proj1 Hreg)) as (HBpos & _).
    destruct Hreg as [Hshape Hm].
    apply (ensure_tight h (reserve l).1 (m_size l) h2 l').
    - apply reserve_shape. exact Hshape.
    - simpl. apply wrap64_small. lia.
    - apply wrap64_small. lia.
    - exact Htight.
    - exact Hens. }
  exists h', l', r.
  split; [exact Happ |]. split; [exact Hreg' |]. split; [exact Htight' |].
  split; [exact Hm' |]. split; [exact Hfrom |]. split; assumption.
Qed.

Lemma mask_defined_mono im k k' : mask_defined im k → k' <= k → mask_defined im k'.
Proof. destruct im; simpl; [lia | trivial]. Qed.

(** A run of [append]s is defined as long as every new index is inside the
    table's range and the mask of [get] is defined for it. *)
Lemma appends_defined im (vs : list T) : ∀ h l,
  regular h l → tight l →
  m_size l + Z.of_nat (length vs) + BLOCKSIZE l <= 2 ^ 64 →
  (∀ m, m_size l <= m < m_size l + Z.of_nat (length vs) →
        mask_defined im (Z.log2 (m + BLOCKSIZE l))) →
  ∃ h' l',
    run im (Append <$> vs) (h, l) = Some (h', l') ∧
    regular h' l' ∧ tight l' ∧
    m_size l' = m_size l + Z.of_nat (length vs) ∧
    BLOCKBITS l' = BLOCKBITS l ∧ BLOCKSIZE l' = BLOCKSIZE l ∧
    Z.pos (h_next h') - Z.pos (h_next h) = num_containers l' - num_containers l.
Proof.
  induction vs as [| v vs IH]; intros h l Hreg Htight Hfit Hmask.
  - exists h, l. simpl.
    split; [reflexivity |]. split; [exact Hreg |]. split; [exact Htight |].
    repeat split; lia.
  - simpl length in *. rewrite Nat2Z.inj_succ in *.
    destruct (append_next im h l v Hreg Htight) as
      (h1 & l1 & r & Happ & Hreg1 & Htight1 & Hm1 & Hfrom & _).
    { lia. }
    { apply Hmask. lia. }
    destruct Hfrom as (Hb1 & Hb2 & _ & _ & _ & _ & Hnext). simpl in Hb1, Hb2, Hnext.
    destruct (IH h1 l1 Hreg1 Htight1) as (h' & l' & Hrun & Hreg' & Htight' & Hm' & Hb1' & Hb2' & Hnext').
    { rewrite Hm1, Hb2. lia. }
    { intros m Hm. rewrite Hb2. apply Hmask. lia. }
    exists h', l'. simpl. rewrite Happ. simpl.
    split; [exact Hrun |]. split; [exact Hreg' |]. split; [exact Htight' |].
    repeat split; try congruence; lia.
Qed.

End Runs.

(** *** The copy constructor *)

Section Copy.
Context {T : Type}.
Implicit Types (h : heap T) (l : t) (blk : block T).

Lemma copy_block_Some other i hh tbl cS s' :
  copy_block other i (hh, tbl, cS) = Some s' →
  0 <= i < max_conts ∧
  ∃ src h2,
    blockLookupTable other !! i = Some src ∧
    memcpy (new_array cS hh).2 (h_next hh) src cS = Some h2 ∧
    s' = (h2, <[i := h_next hh]> tbl, wrap64 (cS * 2)).
Proof.
  unfold copy_block. intros H.
  destruct ((0 <=? i) && (i <? max_conts)) eqn:Hc; [| discriminate].
  apply andb_prop in Hc as [H1 H2]. apply Z.leb_le in H1. apply Z.ltb_lt in H2.
  split; [lia |]. simpl in H.
  destruct (blockLookupTable other !! i) as [src |] eqn:Es; simpl in H; [| discriminate].
  destruct (memcpy _ (h_next hh) src cS) as [h2 |] eqn:Ecp; simpl in H; [| discriminate].
  inversion H; subst. exists src, h2. repeat split; assumption.
Qed.

Lemma wrap64_double x : wrap64 (wrap64 x * 2) = wrap64 (x * 2).
Proof. unfold wrap64. apply Zmult_mod_idemp_l. Qed.

(** One iteration of the copy loop. *)
Lemma copy_block_copied h other bs i s s' :
  owns h other → 0 <= i < num_containers other →
  copied h other bs i s → copy_block other i s = Some s' →
  copied h other bs (i + 1) s'.
Proof.
  intros Howns Hi Hinv Hstep. destruct s as [[hh tbl] cS].
  destruct Hinv as (Hwf & HcS & Hkeep & Hfull & Hinj & Hnew).
  apply copy_block_Some in Hstep as (Hi64 & src & h2 & Esrc & Hcp & ->).
  pose proof (memcpy_Some _ _ _ _ _ Hcp) as (d & sb & Ed & Es & Hn & Hs & Hne & Hh2).
  simpl in Ed. rewrite lookup_insert_eq in Ed. inversion Ed; subst d. simpl in *.
  rewrite lookup_insert_ne in Es by congruence.
  assert (Hfreshh : h_blocks hh !! h_next hh = None) by (apply heap_wf_next_free; exact Hwf).
  assert (Hfresh : h_blocks h !! h_next hh = None).
  { destruct (h_blocks h !! h_next hh) as [b |] eqn:E; [| reflexivity].
    apply Hkeep in E. congruence. }
  assert (Hwf2 : heap_wf h2).
  { apply (memcpy_wf _ _ _ _ _ (new_array_wf cS hh Hwf) Hcp). }
  assert (Hold : ∀ a blk, h_blocks hh !! a = Some blk → h_blocks h2 !! a = Some blk).
  { intros a blk E. assert (a ≠ h_next hh) by congruence.
    rewrite (memcpy_other _ _ _ _ _ a Hcp) by assumption.
    simpl. rewrite lookup_insert_ne by congruence. exact E. }
  assert (Hsrc : h_blocks h !! src = Some sb).
  { destruct Howns as (_ & _ & _ & _ & Hlive & _).
    destruct (Hlive i Hi) as [b0 Hb0]. apply block_at_Some in Hb0 as (a0 & Ea0 & Eb0).
    rewrite Esrc in Ea0. inversion Ea0; subst a0.
    pose proof (Hkeep _ _ Eb0). congruence. }
  assert (Hp : h_blocks h2 !! h_next hh
               = Some (Block cS (copy_cells cS (blk_data sb) ∅))).
  { rewrite Hh2. simpl. apply lookup_insert_eq. }
  unfold copied. split; [exact Hwf2 |]. split.
  { rewrite HcS, wrap64_double, pow2_succ by lia. f_equal. lia. }
  split; [intros a blk E; apply Hold, Hkeep, E |]. split.
  { intros k Hk. destruct (decide (k = i)) as [-> | Hki].
    - rewrite lookup_insert_eq. eauto.
    - rewrite lookup_insert_ne by congruence. apply Hfull. lia. }
  assert (Hnotp : ∀ k, tbl !! k = Some (h_next hh) → False).
  { intros k Ek. destruct (Hnew k _ Ek) as (_ & _ & _ & blk & _ & _ & Eblk & _). congruence. }
  split.
  { intros k k' a Ek Ek'.
    destruct (decide (k = i)) as [-> | Hki]; destruct (decide (k' = i)) as [-> | Hki'];
      [reflexivity | | |].
    - rewrite lookup_insert_eq in Ek. rewrite lookup_insert_ne in Ek' by congruence.
      inversion Ek; subst. exfalso. apply (Hnotp k' Ek').
    - rewrite lookup_insert_eq in Ek'. rewrite lookup_insert_ne in Ek by congruence.
      inversion Ek'; subst. exfalso. apply (Hnotp k Ek).
    - rewrite lookup_insert_ne in Ek by congruence.
      rewrite lookup_insert_ne in Ek' by congruence. apply (Hinj k k' a Ek Ek'). }
  intros k a Ek. destruct (decide (k = i)) as [-> | Hki].
  - rewrite lookup_insert_eq in Ek. inversion Ek; subst a.
    split; [lia |]. split; [exact Hfresh |].
    exists src, (Block cS (copy_cells cS (blk_data sb) ∅)), sb. simpl.
    split; [exact Esrc |]. split; [exact Hp |]. split; [exact Hsrc |].
    split; [exact HcS |]. split; [lia |].
    intros off Hoff. rewrite copy_cells_lookup.
    destruct (Z.ltb_spec off cS); [reflexivity | lia].
  - rewrite lookup_insert_ne in Ek by congruence.
    destruct (Hnew k a Ek) as (Hk & Hfr & src' & blk & sblk & E1 & E2 & E3 & E4 & E5 & E6).
    split; [lia |]. split; [exact Hfr |].
    exists src', blk, sblk. repeat split; try assumption; try lia.
    apply Hold, E2.
Qed.

(** What a completed copy constructor made. *)
Lemma copy_copied assertions h other h' l :
  owns h other → copy assertions h other = Copied h' l →
  ∃ tbl cS,
    copied h other (BLOCKSIZE other) (num_containers other) (h', tbl, cS) ∧
    l = mk (BLOCKBITS other) (BLOCKSIZE other) (num_containers other) (BLOCKSIZE other)
           (container_size other) (m_size other) tbl ∧
    (assertions = true → Z.shiftr cS 1 = container_size other).
Proof.
  intros Howns Hcopy. unfold copy in Hcopy.
  pose proof Howns as (Hwf & Hbits & HB & Hnc & _).
  destruct (ul_shl1 (BLOCKBITS other)) as [bs |] eqn:Ebs; [| discriminate].
  apply ul_shl1_Some in Ebs as [_ ->]. rewrite <- HB in Hcopy.
  destruct (for_each (copy_block other) (seqZ 0 (num_containers other))
              (h, ∅, BLOCKSIZE other)) as [[[hh tbl] cS] |] eqn:Eloop; [| discriminate].
  assert (Hinv : copied h other (BLOCKSIZE other) (num_containers other) (hh, tbl, cS)).
  { apply (for_each_invariant (copied h other (BLOCKSIZE other)) (copy_block other)
             (num_containers other)) with (s := (h, ∅, BLOCKSIZE other));
      [lia | | | exact Eloop].
    - intros i s s' Hi. apply copy_block_copied; assumption.
    - unfold copied. split; [exact Hwf |]. split.
      { rewrite Z.mul_1_r. symmetry. apply wrap64_small. rewrite HB.
        apply pow2_range; lia. }
      split; [auto |]. split; [intros k Hk; lia |].
      split; intros k; intros; rewrite lookup_empty in *; discriminate. }
  destruct (assertions && negb (Z.shiftr cS 1 =? container_size other)) eqn:Ha;
    [discriminate |].
  inversion Hcopy; subst. exists tbl, cS. split; [exact Hinv |]. split; [reflexivity |].
  intros ->. simpl in Ha. apply negb_false_iff, Z.eqb_eq in Ha. exact Ha.
Qed.

Lemma copy_owns assertions h other h' l :
  owns h other → copy assertions h other = Copied h' l → owns h' l.
Proof.
  intros Howns Hcopy.
  destruct (copy_copied assertions h other h' l Howns Hcopy)
    as (tbl & cS & (Hwf' & _ & _ & Hfull & Hinj & Hnew) & -> & _).
  destruct Howns as (_ & Hbits & HB & Hnc & _).
  unfold owns. simpl. repeat split; try assumption; try lia.
  - intros i Hi. destruct (Hfull i Hi) as [a Ea].
    destruct (Hnew i a Ea) as (_ & _ & _ & blk & _ & _ & Eblk & _).
    exists blk. apply block_at_Some. exists a. split; assumption.
  - intros i j a _ _ Ei Ej. apply (Hinj i j a Ei Ej).
Qed.

(** On a regular list the copy loop is defined. *)
Lemma copy_loop_defined h other :
  regular h other →
  ∃ h' tbl,
    for_each (copy_block other) (seqZ 0 (num_containers other)) (h, ∅, BLOCKSIZE other)
    = Some (h', tbl, wrap64 (BLOCKSIZE other * 2 ^ num_containers other)) ∧
    copied h other (BLOCKSIZE other) (num_containers other)
           (h', tbl, wrap64 (BLOCKSIZE other * 2 ^ num_containers other)).
Proof.
  intros [Hshape _].
  pose proof Hshape as (Howns & Hsum & _ & _ & Hlen).
  pose proof Howns as (Hwf & Hbits & HB & Hnc & Hlive & _).
  destruct (for_each_defined (copied h other (BLOCKSIZE other)) (copy_block other)
              (num_containers other)) with (s := (h, ∅ : gmap Z positive, BLOCKSIZE other))
    as ([[h' tbl] cS] & Hrun & Hinv).
  - lia.
  - intros i [[hh t0] cS] Hi Hinv.
    assert (Hstep : is_Some (copy_block other i (hh, t0, cS))).
    { destruct Hinv as (Hwfh & HcS & Hkeep & _).
      destruct (Hlive i Hi) as [sb Hsb]. pose proof (Hlen i sb Hi Hsb) as Hsl.
      apply block_at_Some in Hsb as (src & Esrc & Eb).
      unfold copy_block, max_conts in *.
      assert (Hc : (0 <=? i) && (i <? 64) = true).
      { in_range. }
      rewrite Hc. simpl. rewrite Esrc. simpl.
      destruct (new_array_other cS hh src sb Hwfh (Hkeep _ _ Eb)) as [Hne E1].
      simpl in Hne, E1.
      assert (Hsize : cS = BLOCKSIZE other * 2 ^ i).
      { rewrite HcS. apply wrap64_small. rewrite HB, <- Z.pow_add_r by lia.
        apply pow2_range; lia. }
      assert (0 <= cS).
      { rewrite Hsize, HB, <- Z.pow_add_r by lia. apply Z.lt_le_incl, pow2_pos. lia. }
      erewrite (memcpy_defined _ (h_next hh) src cS (Block cS ∅) sb);
        simpl; try (eexists; reflexivity); try lia; try congruence.
      apply lookup_insert_eq. }
    destruct Hstep as [s' Hs']. exists s'. split; [exact Hs' |].
    apply (copy_block_copied h other (BLOCKSIZE other) i (hh, t0, cS) s');
      assumption.
  - unfold copied. split; [exact Hwf |]. split.
    { rewrite Z.mul_1_r. symmetry. apply wrap64_small. rewrite HB.
      apply pow2_range; lia. }
    split; [auto |]. split; [intros k Hk; lia |].
    split; intros k; intros; rewrite lookup_empty in *; discriminate.
  - pose proof Hinv as (_ & HcS & _). subst cS. exists h', tbl. split; assumption.
Qed.

(** Without assertions, the copy constructor is defined on every regular
    list. *)
Lemma copy_defined h other :
  regular h other → ∃ h' l, copy false h other = Copied h' l.
Proof.
  intros Hreg. destruct (copy_loop_defined h other Hreg) as (h' & tbl & Hloop & _).
  destruct Hreg as [((_ & Hbits & HB & _) & _) _].
  unfold copy, ul_shl1.
  assert (Hc : (0 <=? BLOCKBITS other) && (BLOCKBITS other <? 64) = true).
  { in_range. }
  rewrite Hc, wrap64_small, <- HB, Hloop.
  - simpl. eauto.
  - apply pow2_range; lia.
Qed.

(** With assertions, the copy constructor stops at its assertion on every
    regular list of two or more blocks. *)
Lemma copy_asserts_on_two_blocks h other :
  regular h other → 2 <= num_containers other → copy true h other = AssertionFailed.
Proof.
  intros Hreg Hnc2. destruct (copy_loop_defined h other Hreg) as (h' & tbl & Hloop & _).
  pose proof (shape_bounds h other (proj1 Hreg)) as (HBpos & Hpow & Hle).
  destruct Hreg as [((_ & Hbits & HB & Hnc & _) & Hsum & _ & Hcs & _) _].
  unfold copy, ul_shl1.
  assert (Hc : (0 <=? BLOCKBITS other) && (BLOCKBITS other <? 64) = true).
  { in_range. }
  rewrite Hc, wrap64_small, <- HB, Hloop.
  2: { apply pow2_range; lia. }
  assert (Hne : Z.shiftr (wrap64 (BLOCKSIZE other * 2 ^ num_containers other)) 1
                ≠ container_size other).
  { rewrite Z.shiftr_div_pow2 by lia. change (2 ^ 1) with 2.
    assert (Hhalf : 2 ^ num_containers other = 2 * 2 ^ (num_containers other - 1)).
    { rewrite <- pow2_succ by lia. f_equal. lia. }
    assert (Hp : 2 <= 2 ^ (num_containers other - 1)).
    { change 2 with (2 ^ 1) at 1. apply pow2_le_mono. lia. }
    destruct (Z_lt_le_dec (BLOCKBITS other + num_containers other) 64) as [Hroom | Hfull].
    - rewrite wrap64_small.
      2: { rewrite Hpow. apply pow2_range; lia. }
      rewrite Hcs, Hhalf.
      replace (BLOCKSIZE other * (2 * 2 ^ (num_containers other - 1)))
        with (BLOCKSIZE other * 2 ^ (num_containers other - 1) * 2) by lia.
      rewrite Z.div_mul by lia. nia.
    - rewrite Hpow. replace (BLOCKBITS other + num_containers other) with 64 by lia.
      change (wrap64 (2 ^ 64) / 2) with 0. rewrite Hcs. nia. }
  apply Z.eqb_neq in Hne. rewrite Hne. reflexivity.
Qed.

(** What a completed copy holds: the size of the original and, at every
    stored index, an element that reads as the original's, in a block that
    did not exist before; the blocks that existed are untouched. *)
Lemma copy_fidelity assertions im h other h' l i :
  regular h other → copy assertions h other = Copied h' l →
  0 <= i < m_size other → mask_defined im (Z.log2 (i + BLOCKSIZE other)) →
  size l = size other ∧
  (∀ a blk, h_blocks h !! a = Some blk → h_blocks h' !! a = Some blk) ∧
  ∃ r r',
    get im h other i = Some r ∧ get im h' l i = Some r' ∧
    load h' r' = load h r ∧ h_blocks h !! r'.1 = None.
Proof.
  intros Hreg Hcopy Hi Hmask.
  destruct (copy_copied assertions h other h' l (proj1 (proj1 Hreg)) Hcopy)
    as (tbl & cS & (Hwf' & _ & Hkeep & Hfull & _ & Hnew) & -> & _).
  split; [reflexivity |]. split; [exact Hkeep |].
  destruct Hreg as [Hshape Hm].
  destruct (get_defined im h other i Hshape ltac:(lia) Hmask)
    as (a & blk & off & Hget & Hpos & Hslot & Ea & Eb & Hoff).
  pose proof Hshape as ((_ & Hbits & HB & _) & Hsum & _ & _ & Hlen).
  set (slot := Z.log2 (i + BLOCKSIZE other) - BLOCKBITS other) in *.
  destruct (Hfull slot Hslot) as [a' Ea'].
  destruct (Hnew slot a' Ea') as (_ & Hfresh & src & blk' & sblk & E1 & E2 & E3 & E4 & _ & E6).
  rewrite Ea in E1. inversion E1; subst src. rewrite Eb in E3. inversion E3; subst sblk.
  assert (Hl : blk_len blk = BLOCKSIZE other * 2 ^ slot).
  { apply Hlen; [exact Hslot |]. apply block_at_Some. exists a. split; assumption. }
  assert (Hl' : blk_len blk' = blk_len blk).
  { rewrite E4, Hl. apply wrap64_small. rewrite HB, <- Z.pow_add_r by lia.
    apply pow2_range; lia. }
  exists (a, off), (a', off). split; [exact Hget |]. split.
  - apply get_Some. exists slot, blk'. unfold max_conts. simpl.
    destruct Hshape as ((_ & _ & _ & Hnc & _) & _). unfold max_conts in Hnc.
    repeat split; try assumption; lia.
  - split; [| exact Hfresh].
    unfold load. simpl. rewrite E2, Eb. simpl. rewrite Hl'.
    destruct ((0 <=? off) && (off <? blk_len blk)); [| reflexivity].
    apply E6. lia.
Qed.

Lemma append_owns im h l v h' l' i :
  owns h l → append im h l v = Some (h', l', i) → owns h' l'.
Proof.
  intros Howns Happ. apply append_Some in Happ as (_ & h2 & r & Hens & _ & Hst).
  destruct (ensure_owns _ _ _ _ _ (reserve_owns h l Howns) Hens) as (Howns2 & _).
  apply (store_owns h2 l' r v h' Howns2 Hst).
Qed.

Lemma createNode_owns h l h' l' i :
  owns h l → createNode h l = Some (h', l', i) → owns h' l'.
Proof.
  intros Howns Hcn. apply createNode_Some in Hcn as (_ & Hens).
  apply (ensure_owns _ _ _ _ _ (reserve_owns h l Howns) Hens).
Qed.

Lemma run_call_owns im c h l h' l' :
  owns h l → run_call im c (h, l) = Some (h', l') →
  owns h' l' ∧ BLOCKBITS l' = BLOCKBITS l ∧ BLOCKSIZE l' = BLOCKSIZE l.
Proof.
  intros Howns Hrun. destruct c as [v | |]; simpl in Hrun.
  - destruct (append im h l v) as [[[h1 l1] i] |] eqn:E; simpl in Hrun; [| discriminate].
    inversion Hrun; subst. split; [apply (append_owns im h l v h' l' i); assumption |].
    apply append_Some in E as (_ & h2 & r & Hens & _ & _).
    destruct (ensure_owns _ _ _ _ _ (reserve_owns h l Howns) Hens) as (_ & (H1 & H2 & _) & _).
    split; assumption.
  - destruct (createNode h l) as [[[h1 l1] i] |] eqn:E; simpl in Hrun; [| discriminate].
    inversion Hrun; subst. split; [apply (createNode_owns h l h' l' i); assumption |].
    apply createNode_Some in E as (_ & Hens).
    destruct (ensure_owns _ _ _ _ _ (reserve_owns h l Howns) Hens) as (_ & (H1 & H2 & _) & _).
    split; assumption.
  - destruct (clear_regular h l h' l' Howns Hrun) as [H1 ->].
    split; [apply H1 | split; reflexivity].
Qed.

(** Every reachable list owns its blocks. *)
Lemma reachable_owns im h l : reachable im h l → owns h l.
Proof.
  induction 1 as [h bits l Hwf Hc | b h other h' l _ IH Hcopy | c h l h' l' _ IH Hrun].
  - apply (create_regular h bits l Hwf Hc).
  - apply (copy_owns b h other h' l IH Hcopy).
  - apply (run_call_owns im c h l h' l' IH Hrun).
Qed.

Lemma reachable_run im calls : ∀ h l h' l',
  reachable im h l → run im calls (h, l) = Some (h', l') → reachable im h' l'.
Proof.
  induction calls as [| c calls IH]; intros h l h' l' Hreach Hrun; simpl in Hrun.
  - inversion Hrun; subst. exact Hreach.
  - destruct (run_call im c (h, l)) as [[h1 l1] |] eqn:E; simpl in Hrun; [| discriminate].
    apply (IH h1 l1); [| exact Hrun]. apply (reach_call im c h l); assumption.
Qed.

End Copy.

(** *** Two lists in one store *)

Section Frame.
Context {T : Type}.
Implicit Types (h : heap T) (l : t) (blk : block T).

Lemma frame_refl h l : frame h l h l.
Proof. unfold frame. repeat split; auto. lia. Qed.

Lemma frame_trans h0 l0 h1 l1 h2 l2 :
  frame h0 l0 h1 l1 → frame h1 l1 h2 l2 → frame h0 l0 h2 l2.
Proof.
  intros (A1 & A2 & A3) (B1 & B2 & B3). unfold frame. split; [lia |]. split.
  - intros a Ha E. apply B2; [lia |]. apply A2; assumption.
  - intros a blk E Hfp. destruct (A3 a blk E Hfp) as [E1 Hfp1]. apply (B3 a blk E1 Hfp1).
Qed.

Lemma store_other_block h r (v : T) h' a :
  store h r v = Some h' → a ≠ r.1 → h_blocks h' !! a = h_blocks h !! a.
Proof.
  intros Hst Hne. apply store_Some in Hst as (b0 & _ & _ & ->). simpl.
  apply lookup_insert_ne. congruence.
Qed.

Lemma store_next h r (v : T) h' : store h r v = Some h' → h_next h' = h_next h.
Proof. intros Hst. apply store_Some in Hst as (b0 & _ & _ & ->). reflexivity. Qed.

Lemma grow_step_frame h l h' l' :
  owns h l → no_stale h l → grow_step h l = Some (h', l') →
  frame h l h' l' ∧ no_stale h' l'.
Proof.
  intros (Hwf & _) Hns Hstep. apply grow_step_Some in Hstep as (Hlt & -> & ->).
  split.
  - unfold frame. simpl. split; [lia |]. split.
    + intros a Ha E. rewrite lookup_insert_ne by lia. exact E.
    + intros a blk E Hfp.
      destruct (new_array_other (allocsize l) h a blk Hwf E) as [Hne E']. simpl in Hne, E'.
      split; [exact E' |]. intros (k & Hk & Ek). simpl in Hk, Ek.
      destruct (decide (k = num_containers l)) as [-> | Hkn].
      * rewrite lookup_insert_eq in Ek. congruence.
      * rewrite lookup_insert_ne in Ek by congruence. apply Hfp. exists k. split; [lia | exact Ek].
  - intros k a Ek. simpl in *.
    destruct (decide (k = num_containers l)) as [-> | Hkn].
    + rewrite lookup_insert_eq in Ek. inversion Ek; subst. split; [lia |]. left. lia.
    + rewrite lookup_insert_ne in Ek by congruence.
      destruct (Hns k a Ek) as [Ha Hor]. split; [lia |].
      destruct Hor as [Hin | Hdead]; [left; lia | right].
      rewrite lookup_insert_ne by lia. exact Hdead.
Qed.

Lemma ensure_frame h l i h' l' :
  owns h l → no_stale h l → ensure h l i = Some (h', l') →
  frame h l h' l' ∧ no_stale h' l'.
Proof.
  intros Howns Hns Hrun. unfold ensure in Hrun.
  destruct (must_grow l i); [| inversion Hrun; subst; split; [apply frame_refl | exact Hns]].
  destruct (grow_loop_invariant
              (λ h1 l1, owns h1 l1 ∧ frame h l h1 l1 ∧ no_stale h1 l1) i)
    with (fuel := Z.to_nat (max_conts - num_containers l))
         (h := h) (l := l) (h' := h') (l' := l') as [(_ & H1 & H2) _].
  - intros h1 l1 h2 l2 (Ho & Hf & Hn) _ Hstep.
    destruct (grow_step_frame h1 l1 h2 l2 Ho Hn Hstep) as [Hf' Hn'].
    split; [apply (grow_step_owns h1 l1); assumption |].
    split; [apply (frame_trans _ _ h1 l1); assumption | exact Hn'].
  - split; [exact Howns |]. split; [apply frame_refl | exact Hns].
  - exact Hrun.
  - split; assumption.
Qed.

Lemma store_frame h l r (v : T) h' :
  store h r v = Some h' → footprint l r.1 → no_stale h l →
  frame h l h' l ∧ no_stale h' l.
Proof.
  intros Hst Hfp Hns. pose proof (store_next h r v h' Hst) as Hnext.
  pose proof (store_Some h r v h' Hst) as (b0 & Eb0 & _ & _).
  split.
  - unfold frame. rewrite Hnext. split; [lia |]. split.
    + intros a _ E. rewrite (store_other_block h r v h' a Hst); [exact E | congruence].
    + intros a blk E Hnfp. split; [| exact Hnfp].
      rewrite (store_other_block h r v h' a Hst); [exact E |]. intros ->. contradiction.
  - intros k a Ek. destruct (Hns k a Ek) as [Ha Hor]. rewrite Hnext. split; [exact Ha |].
    destruct Hor as [Hin | Hdead]; [left; exact Hin | right].
    rewrite (store_other_block h r v h' a Hst); [exact Hdead | congruence].
Qed.

(** [freeList] deletes the blocks of the list and nothing else. *)
Lemma freeList_frame h l h' :
  owns h l → freeList h l = Some h' →
  h_next h' = h_next h ∧
  (∀ a, footprint l a → h_blocks h' !! a = None) ∧
  (∀ a, ¬ footprint l a → h_blocks h' !! a = h_blocks h !! a) ∧
  (∀ a, h_blocks h !! a = None → h_blocks h' !! a = None).
Proof.
  intros (_ & _ & _ & Hnc & _) Hrun. unfold freeList in Hrun.
  apply (for_each_invariant
           (λ i (hh : heap T),
              h_next hh = h_next h ∧
              (∀ a, (∃ k, 0 <= k < i ∧ blockLookupTable l !! k = Some a) →
                    h_blocks hh !! a = None) ∧
              (∀ a, ¬ footprint l a → h_blocks hh !! a = h_blocks h !! a) ∧
              (∀ a, h_blocks h !! a = None → h_blocks hh !! a = None))
           _ (num_containers l) ltac:(lia)) with (s := h) in Hrun.
  - exact Hrun.
  - intros i hh hh' Hi (Hnext & Hgone & Hkeep & Hdead) Hstep.
    unfold getBlock, max_conts in *.
    assert (Hc : (0 <=? i) && (i <? 64) = true).
    { in_range. }
    rewrite Hc in Hstep. simpl in Hstep.
    destruct (blockLookupTable l !! i) as [a0 |] eqn:Ei; simpl in Hstep.
    + destruct (h_blocks hh !! a0) eqn:E0; [| discriminate].
      inversion Hstep; subst hh'. simpl. split; [exact Hnext |]. split.
      * intros a (k & Hk & Ek). destruct (decide (a = a0)) as [-> | Hne].
        -- apply lookup_delete_eq.
        -- rewrite lookup_delete_ne by congruence. apply Hgone. exists k. split; [| exact Ek].
           destruct (decide (k = i)) as [-> | ?]; [congruence | lia].
      * split.
        -- intros a Hnfp. rewrite lookup_delete_ne; [apply Hkeep; exact Hnfp |].
           intros <-. apply Hnfp. exists i. split; [lia | exact Ei].
        -- intros a Ea. apply lookup_delete_None. right. apply Hdead. exact Ea.
    + inversion Hstep; subst hh'. split; [exact Hnext |].
      split; [| split; [exact Hkeep | exact Hdead]].
      intros a (k & Hk & Ek). apply Hgone. exists k. split; [| exact Ek].
      destruct (decide (k = i)) as [-> | ?]; [congruence | lia].
  - split; [reflexivity |]. split; [| auto]. intros a (k & Hk & _). lia.
Qed.

(** A call changes only the blocks of its list. *)
Lemma run_call_frame im c h l h' l' :
  owns h l → no_stale h l → run_call im c (h, l) = Some (h', l') →
  frame h l h' l' ∧ no_stale h' l'.
Proof.
  intros Howns Hns Hrun. destruct c as [v | |]; simpl in Hrun.
  - destruct (append im h l v) as [[[h1 l1] i] |] eqn:E; simpl in Hrun; [| discriminate].
    inversion Hrun; subst h1 l1.
    apply append_Some in E as (_ & h2 & r & Hens & Hget & Hst).
    destruct (ensure_frame h (reserve l).1 (m_size l) h2 l'
                (reserve_owns h l Howns) Hns Hens) as [Hf2 Hns2].
    assert (Hfp : footprint l' r.1).
    { destruct r as [a off]. apply get_Some in Hget as (slot & blk & _ & _ & Ea & Eb & _).
      destruct (Hns2 slot a Ea) as [_ [Hin | Hdead]]; [| congruence].
      exists slot. split; assumption. }
    destruct (store_frame h2 l' r v h' Hst Hfp Hns2) as [Hf3 Hns3].
    split; [| exact Hns3].
    apply (frame_trans h l h2 l'); [exact Hf2 | exact Hf3].
  - destruct (createNode h l) as [[[h1 l1] i] |] eqn:E; simpl in Hrun; [| discriminate].
    inversion Hrun; subst h1 l1.
    apply createNode_Some in E as (_ & Hens).
    apply (ensure_frame h (reserve l).1 (m_size l) h' l' (reserve_owns h l Howns) Hns Hens).
  - unfold clear in Hrun.
    destruct (freeList h l) as [h1 |] eqn:E; simpl in Hrun; [| discriminate].
    inversion Hrun; subst h1 l'.
    destruct (freeList_frame h l h' Howns E) as (Hnext & Hgone & Hkeep & Hdead).
    split.
    + unfold frame. rewrite Hnext. split; [lia |]. split.
      * intros a _ Ea. apply Hdead. exact Ea.
      * intros a blk Ea Hnfp. rewrite Hkeep by exact Hnfp. split; [exact Ea |].
        intros (k & Hk & _). simpl in Hk. lia.
    + intros k a Ek. simpl in *. destruct (Hns k a Ek) as [Ha Hor]. rewrite Hnext.
      split; [exact Ha |]. right.
      destruct Hor as [Hin | Hd].
      * apply Hgone. exists k. split; assumption.
      * apply Hdead. exact Hd.
Qed.

(** A call on one list leaves another list of the same store, whose
    blocks are not blocks of the first, exactly as it is: the same
    references and the same values. *)
Lemma frame_keeps_other im h l1 h' l1' l2 :
  frame h l1 h' l1' → heap_wf h' → owns h l2 → no_stale h l2 →
  (∀ a, footprint l2 a → ¬ footprint l1 a) →
  owns h' l2 ∧ no_stale h' l2 ∧
  (∀ a, footprint l2 a → ¬ footprint l1' a) ∧
  (∀ i, get im h' l2 i = get im h l2 i) ∧
  (∀ i r, get im h l2 i = Some r → load h' r = load h r).
Proof.
  intros (Hnext & Hdead & Hkeep) Hwf' Howns2 Hns2 Hdisj.
  pose proof Howns2 as (_ & Hbits & HB & Hnc & Hlive & Hinj).
  assert (Hlive' : ∀ k a, 0 <= k < num_containers l2 → blockLookupTable l2 !! k = Some a →
             ∃ blk, h_blocks h !! a = Some blk ∧ h_blocks h' !! a = Some blk ∧
                    ¬ footprint l1' a).
  { intros k a Hk Ek. destruct (Hlive k Hk) as [blk Hblk].
    apply block_at_Some in Hblk as (a' & Ea' & Eb). rewrite Ek in Ea'. inversion Ea'; subst a'.
    destruct (Hkeep a blk Eb) as [E' Hnfp].
    - apply Hdisj. exists k. split; assumption.
    - exists blk. repeat split; assumption. }
  assert (Hsame : ∀ k a, blockLookupTable l2 !! k = Some a →
            h_blocks h' !! a = h_blocks h !! a).
  { intros k a Ek. destruct (Hns2 k a Ek) as [Ha [Hin | Hd]].
    - destruct (Hlive' k a Hin Ek) as (blk & E1 & E2 & _). congruence.
    - rewrite Hd. apply Hdead; assumption. }
  split; [| split; [| split; [| split]]].
  - unfold owns. split; [exact Hwf' |]. repeat split; try assumption; try lia.
    intros k Hk. destruct (Hlive k Hk) as [blk Hblk]. exists blk.
    apply block_at_Some in Hblk as (a & Ea & Eb). apply block_at_Some. exists a.
    split; [exact Ea |]. rewrite (Hsame k a Ea). exact Eb.
  - intros k a Ek. destruct (Hns2 k a Ek) as [Ha Hor]. split; [lia |].
    destruct Hor as [Hin | Hd]; [left; exact Hin | right].
    rewrite (Hsame k a Ek). exact Hd.
  - intros a (k & Hk & Ek). destruct (Hlive' k a Hk Ek) as (_ & _ & _ & Hnfp). exact Hnfp.
  - intros i. unfold get.
    destruct (block_position im (BLOCKBITS l2) (BLOCKSIZE l2) i) as [[slot ind] |];
      simpl; [| reflexivity].
    destruct (getBlock l2 slot) as [p |] eqn:Eg; simpl; [| reflexivity].
    destruct p as [a |]; simpl; [| reflexivity].
    unfold getBlock in Eg.
    destruct ((0 <=? slot) && (slot <? max_conts)); [| discriminate].
    inversion Eg as [Ea]. rewrite (Hsame slot a Ea). reflexivity.
  - intros i [a off] Hget. apply get_Some in Hget as (slot & blk & _ & _ & Ea & _).
    unfold load. simpl. rewrite (Hsame slot a Ea). reflexivity.
Qed.

(** The copy loop allocates at new addresses only. *)
Lemma copy_loop_frame h other bs n s' :
  heap_wf h →
  for_each (copy_block other) (seqZ 0 n) (h, ∅, bs) = Some s' →
  0 <= n →
  (h_next h <= h_next s'.1.1)%positive ∧
  (∀ a, (a < h_next h)%positive → h_blocks h !! a = None → h_blocks s'.1.1 !! a = None).
Proof.
  intros Hwf Hrun Hn.
  apply (for_each_invariant
           (λ (i : Z) (s : heap T * gmap Z positive * Z),
              (h_next h <= h_next s.1.1)%positive ∧
              (∀ a, (a < h_next h)%positive → h_blocks h !! a = None →
                    h_blocks s.1.1 !! a = None))
           (copy_block other) n Hn) with (s := (h, ∅, bs)); [| | exact Hrun].
  - intros i [[hh tbl] cS] s2 _ [Hmono Hdead] Hstep.
    apply copy_block_Some in Hstep as (_ & src & h2 & _ & Hcp & ->). simpl in *.
    pose proof (memcpy_Some _ _ _ _ _ Hcp) as (d & sb & _ & _ & _ & _ & _ & Hh2).
    split; [rewrite Hh2; simpl; lia |].
    intros a Ha Ea. rewrite (memcpy_other _ _ _ _ _ a Hcp) by lia.
    simpl. rewrite lookup_insert_ne by lia. apply Hdead; assumption.
  - simpl. split; [lia | auto].
Qed.

(** After a completed copy the two lists own different blocks, and both
    are in order. *)
Lemma copy_separate assertions h other h' l :
  owns h other → no_stale h other → copy assertions h other = Copied h' l →
  owns h' other ∧ no_stale h' other ∧ owns h' l ∧ no_stale h' l ∧
  (∀ a, footprint l a → ¬ footprint other a) ∧
  (∀ a, footprint other a → ¬ footprint l a).
Proof.
  intros Howns Hns Hcopy.
  pose proof (copy_owns assertions h other h' l Howns Hcopy) as Howns'.
  destruct (copy_copied assertions h other h' l Howns Hcopy)
    as (tbl & cS & (Hwf' & _ & Hkeep & Hfull & _ & Hnew) & -> & _).
  assert (Hframe : (h_next h <= h_next h')%positive ∧
                   ∀ a, (a < h_next h)%positive → h_blocks h !! a = None →
                        h_blocks h' !! a = None).
  { unfold copy in Hcopy.
    destruct (ul_shl1 (BLOCKBITS other)) as [bs |]; [| discriminate].
    destruct (for_each (copy_block other) (seqZ 0 (num_containers other)) (h, ∅, bs))
      as [[[hh t0] c0] |] eqn:Eloop; [| discriminate].
    destruct (assertions && negb (Z.shiftr c0 1 =? container_size other)); [discriminate |].
    inversion Hcopy; subst hh t0.
    apply (copy_loop_frame h other bs (num_containers other) (h', tbl, c0));
      [apply Howns | exact Eloop | apply Howns]. }
  destruct Hframe as [Hmono Hdead].
  pose proof Howns as (Hwf & Hbits & HB & Hnc & Hlive & Hinj).
  assert (Hfresh : ∀ a, footprint (mk (BLOCKBITS other) (BLOCKSIZE other)
                                     (num_containers other) (BLOCKSIZE other)
                                     (container_size other) (m_size other) tbl) a →
                        h_blocks h !! a = None).
  { intros a (k & _ & Ek). simpl in Ek. apply (Hnew k a Ek). }
  assert (Hold : ∀ a, footprint other a → is_Some (h_blocks h !! a)).
  { intros a (k & Hk & Ek). destruct (Hlive k Hk) as [blk Hblk].
    apply block_at_Some in Hblk as (a' & Ea' & Eb). rewrite Ek in Ea'.
    inversion Ea'; subst. eauto. }
  split; [| split; [| split; [exact Howns' | split; [| split]]]].
  - unfold owns. split; [exact Hwf' |]. repeat split; try assumption; try lia.
    intros k Hk. destruct (Hlive k Hk) as [blk Hblk]. exists blk.
    apply block_at_Some in Hblk as (a & Ea & Eb). apply block_at_Some. exists a.
    split; [exact Ea | apply Hkeep; exact Eb].
  - intros k a Ek. destruct (Hns k a Ek) as [Ha Hor]. split; [lia |].
    destruct Hor as [Hin | Hd]; [left; exact Hin | right]. apply Hdead; assumption.
  - intros k a Ek. simpl in *. destruct (Hnew k a Ek) as (Hk & _ & _ & blk & _ & _ & Eb & _).
    split; [apply (Hwf' a blk Eb) | left; exact Hk].
  - intros a Hfl Hfo. destruct (Hold a Hfo) as [blk Eb]. rewrite (Hfresh a Hfl) in Eb.
    discriminate.
  - intros a Hfo Hfl. destruct (Hold a Hfo) as [blk Eb]. rewrite (Hfresh a Hfl) in Eb.
    discriminate.
Qed.

(** In every reachable state the pointers of the table are in order. *)
Lemma reachable_no_stale im h l : reachable im h l → no_stale h l.
Proof.
  induction 1 as [h bits l Hwf Hc | b h other h' l Hr IH Hcopy | c h l h' l' Hr IH Hrun].
  - unfold create in Hc. destruct (ul_shl1 bits); simpl in Hc; [| discriminate].
    inversion Hc; subst. intros k a Ek. simpl in Ek. rewrite lookup_empty in Ek. discriminate.
  - apply (copy_separate b h other h' l (reachable_owns im h other Hr) IH Hcopy).
  - apply (run_call_frame im c h l h' l' (reachable_owns im h l Hr) IH Hrun).
Qed.

(** Independence of a copy.  After a completed copy of a reachable list,
    a call on either list leaves every element of the other where it is
    and as it is, and the two lists still own different blocks. *)
Lemma copy_independent assertions im h other h' l c h2 :
  reachable im h other → copy assertions h other = Copied h' l →
  (∀ l2, run_call im c (h', l) = Some (h2, l2) →
         (∀ i, get im h2 other i = get im h' other i) ∧
         (∀ i r, get im h' other i = Some r → load h2 r = load h' r) ∧
         (∀ a, footprint other a → ¬ footprint l2 a)) ∧
  (∀ other2, run_call im c (h', other) = Some (h2, other2) →
             (∀ i, get im h2 l i = get im h' l i) ∧
             (∀ i r, get im h' l i = Some r → load h2 r = load h' r) ∧
             (∀ a, footprint l a → ¬ footprint other2 a)).
Proof.
  intros Hreach Hcopy.
  destruct (copy_separate assertions h other h' l (reachable_owns im h other Hreach)
              (reachable_no_stale im h other Hreach) Hcopy)
    as (Ho & Hn & Hol & Hnl & Hd1 & Hd2).
  split.
  - intros l2 Hrun.
    destruct (run_call_frame im c h' l h2 l2 Hol Hnl Hrun) as [Hf _].
    destruct (run_call_owns im c h' l h2 l2 Hol Hrun) as ((Hwf2 & _) & _).
    destruct (frame_keeps_other im h' l h2 l2 other Hf Hwf2 Ho Hn Hd2)
      as (_ & _ & H3 & H4 & H5).
    split; [exact H4 | split; [exact H5 | exact H3]].
  - intros other2 Hrun.
    destruct (run_call_frame im c h' other h2 other2 Ho Hn Hrun) as [Hf _].
    destruct (run_call_owns im c h' other h2 other2 Ho Hrun) as ((Hwf2 & _) & _).
    destruct (frame_keeps_other im h' other h2 other2 l Hf Hwf2 Hol Hnl Hd1)
      as (_ & _ & H3 & H4 & H5).
    split; [exact H4 | split; [exact H5 | exact H3]].
Qed.

End Frame.
End PiggyListFacts.

(** *** Stability of stored elements *)

Lemma spec_position_injective bits i i' :
  0 <= bits → 0 <= i → 0 <= i' →
  spec_position bits i = spec_position bits i' → i = i'.
Proof.
  intros Hbits Hi Hi' E.
  pose proof (spec_position_contract bits i Hbits Hi) as (_ & _ & H1).
  pose proof (spec_position_contract bits i' Hbits Hi') as (_ & _ & H2).
  rewrite E in H1. lia.
Qed.

(** Whatever the model, a position that [get] computes for an index with
    [index + B < 2^32] is the position of the specification. *)
Lemma block_position_exact im bits idx p :
  0 <= bits → 0 <= idx → idx + 2 ^ bits < 2 ^ 32 →
  block_position im bits (2 ^ bits) idx = Some p → p = spec_position bits idx.
Proof.
  intros Hbits Hidx Hlt Hpos.
  assert (HB : 0 < 2 ^ bits) by (apply pow2_pos; lia).
  assert (Hlog : Z.log2 (idx + 2 ^ bits) < 32) by (apply Z.log2_lt_pow2; lia).
  assert (Hmask : mask_defined im (Z.log2 (idx + 2 ^ bits))).
  { destruct im; simpl; [| trivial].
    destruct (Z_lt_le_dec (idx + 2 ^ bits) (2 ^ 31)) as [Hsmall | Hbig].
    - assert (Z.log2 (idx + 2 ^ bits) < 31) by (apply Z.log2_lt_pow2; lia). lia.
    - rewrite block_position_strict_undefined in Hpos by lia. discriminate. }
  destruct (block_position_defined im bits idx) as (j & Hpos' & _ & Hj & _);
    [lia | lia | lia | exact Hmask |].
  rewrite Hpos' in Hpos. inversion Hpos; subst. rewrite Hj by lia. reflexivity.
Qed.

Module StabilityFacts.
Import PiggyList PiggyListFacts.

Section Stability.
Context {T : Type}.
Implicit Types (h : heap T) (l : t) (blk : block T).

(** Growth leaves every block as it is. *)
Lemma ensure_blocks h l i h' l' :
  owns h l → ensure h l i = Some (h', l') →
  ∀ a blk, h_blocks h !! a = Some blk → h_blocks h' !! a = Some blk.
Proof.
  intros Howns Hrun. unfold ensure in Hrun.
  destruct (must_grow l i); [| inversion Hrun; subst; auto].
  destruct (grow_loop_invariant
              (λ h1 l1, heap_wf h1 ∧
                        ∀ a blk, h_blocks h !! a = Some blk → h_blocks h1 !! a = Some blk) i)
    with (fuel := Z.to_nat (max_conts - num_containers l))
         (h := h) (l := l) (h' := h') (l' := l') as [[_ H1] _].
  - intros h1 l1 h2 l2 [Hwf1 Hkeep] _ Hstep.
    apply grow_step_Some in Hstep as (_ & -> & _).
    split; [apply new_array_wf; exact Hwf1 |].
    intros a blk E. apply (new_array_other (allocsize l1) h1 a blk Hwf1 (Hkeep a blk E)).
  - split; [apply Howns | auto].
  - exact Hrun.
  - exact H1.
Qed.

(** Inside the reserved indices of a regular list, [get] finds a slot
    below [num_containers]. *)
Lemma get_slot_allocated im h l i a off :
  regular h l → 0 <= i < m_size l → m_size l + BLOCKSIZE l <= 2 ^ 32 →
  get im h l i = Some (a, off) →
  ∃ slot, (slot, off) = spec_position (BLOCKBITS l) i ∧
          0 <= slot < num_containers l ∧ blockLookupTable l !! slot = Some a.
Proof.
  intros [Hshape Hm] Hi Hfit Hget.
  apply get_Some in Hget as (slot & blk & Hpos & _ & Ea & _).
  pose proof Hshape as ((_ & Hbits & HB & _) & _).
  rewrite HB in Hpos.
  apply block_position_exact in Hpos; [| lia | lia | rewrite <- HB; lia].
  exists slot. split; [exact Hpos |]. split; [| exact Ea].
  destruct (get_defined Wrap32 h l i Hshape ltac:(lia) I) as (_ & _ & _ & _ & _ & Hs & _).
  unfold spec_position in Hpos. inversion Hpos; subst. rewrite <- HB. exact Hs.
Qed.

(** A later [append] or [createNode] leaves an element where it was. *)
Lemma later_call_keeps im h l c h' l' i r (v : T) :
  regular h l → c ≠ Clear → run_call im c (h, l) = Some (h', l') →
  0 <= i < m_size l → m_size l + 1 + BLOCKSIZE l <= 2 ^ 32 →
  get im h l i = Some r → load h r = Some v →
  get im h' l' i = Some r ∧ load h' r = Some v ∧ m_size l' = m_size l + 1.
Proof.
  intros Hreg Hc Hrun Hi Hfit Hget Hload. destruct r as [a off].
  destruct (get_slot_allocated im h l i a off Hreg Hi ltac:(lia) Hget)
    as (slot & Hspec & Hslot & Ea).
  pose proof Hreg as [Hshape Hm].
  pose proof Hshape as (Howns & _). pose proof Howns as (_ & Hbits & HB & _).
  assert (Hw : wrap64 (m_size l + 1) = m_size l + 1).
  { apply wrap64_small. pose proof (pow2_pos (BLOCKBITS l)). lia. }
  assert (Hkept : ∀ h2 l2, ensure h (reserve l).1 (m_size l) = Some (h2, l2) →
            get im h2 l2 i = Some (a, off) ∧ load h2 (a, off) = Some v ∧
            m_size l2 = m_size l + 1 ∧ owns h2 l2 ∧
            BLOCKBITS l2 = BLOCKBITS l ∧ BLOCKSIZE l2 = BLOCKSIZE l ∧
            blockLookupTable l2 !! slot = Some a ∧ slot < num_containers l2 ∧
            shape h2 l2 ∧ must_grow l2 (m_size l) = false).
  { intros h2 l2 Hens.
    destruct (ensure_owns _ _ _ _ _ (reserve_owns h l Howns) Hens)
      as (Howns2 & (Hb1 & Hb2 & Hm2 & Hnc2 & Htab & _) & Hg).
    pose proof (ensure_blocks _ _ _ _ _ (reserve_owns h l Howns) Hens) as Hblocks.
    pose proof (ensure_shape _ _ _ _ _ (reserve_shape h l Hshape) Hens) as Hshape2.
    simpl in Hb1, Hb2, Hm2, Hnc2, Htab.
    assert (Ea2 : blockLookupTable l2 !! slot = Some a) by (rewrite Htab by lia; exact Ea).
    apply get_Some in Hget as (slot' & blk & Hpos & Hs64 & Ea' & Eb & Hoff).
    split.
    { apply get_Some. exists slot', blk. rewrite Hb1, Hb2.
      repeat split; try assumption; try lia.
      - assert (slot' = slot).
        { rewrite HB in Hpos.
          apply block_position_exact in Hpos; [| lia | lia | rewrite <- HB; lia].
          congruence. }
        subst slot'. exact Ea2.
      - apply Hblocks. exact Eb. }
    split.
    { unfold load in *. simpl in *. rewrite Eb in Hload. rewrite (Hblocks a blk Eb).
      exact Hload. }
    split; [rewrite Hm2; exact Hw |]. split; [exact Howns2 |].
    split; [exact Hb1 |]. split; [exact Hb2 |]. split; [exact Ea2 |].
    split; [lia |]. split; [exact Hshape2 | exact Hg]. }
  destruct c as [v' | |]; simpl in Hrun; [| | congruence].
  - destruct (append im h l v') as [[[h1 l1] i1] |] eqn:E; simpl in Hrun; [| discriminate].
    inversion Hrun; subst h1 l1.
    apply append_Some in E as (-> & h2 & r' & Hens & Hget' & Hst).
    destruct (Hkept h2 l' Hens) as (Hg2 & Hl2 & Hm2 & Howns2 & Hb1 & Hb2 & Ea2 & Hs2 & Hshape2 & Hmg).
    destruct r' as [a' off'].
    assert (Hne : (a, off) ≠ (a', off')).
    { intros Heq. inversion Heq; subst a' off'.
      assert (Hreg2 : regular h2 l').
      { split; [exact Hshape2 |]. apply must_grow_false in Hmg. rewrite Hw in Hmg. lia. }
      destruct (get_slot_allocated im h2 l' (m_size l) a off Hreg2 ltac:(lia)
                  ltac:(rewrite Hb2; lia) Hget') as (slot' & Hspec' & Hslot' & Ea').
      assert (slot' = slot).
      { destruct Howns2 as (_ & _ & _ & _ & _ & Hinj).
        apply (Hinj slot' slot a); try lia; assumption. }
      subst slot'. rewrite Hb1 in Hspec'.
      assert (i = m_size l).
      { apply (spec_position_injective (BLOCKBITS l)); try lia. congruence. }
      lia. }
    split; [| split; [| exact Hm2]].
    + apply get_Some in Hg2 as (s2 & blk2 & P1 & P2 & P3 & P4 & P5).
      destruct (store_block h2 (a', off') v' h' a blk2 Hst P4) as (blk3 & P4' & Hl3).
      apply get_Some. exists s2, blk3. repeat split; try assumption; lia.
    + rewrite (load_store_other h2 (a', off') v' h' (a, off) Hst Hne). exact Hl2.
  - destruct (createNode h l) as [[[h1 l1] i1] |] eqn:E; simpl in Hrun; [| discriminate].
    inversion Hrun; subst h1 l1.
    apply createNode_Some in E as (-> & Hens).
    destruct (Hkept h' l' Hens) as (Hg2 & Hl2 & Hm2 & _).
    split; [exact Hg2 | split; [exact Hl2 | exact Hm2]].
Qed.

(** Stability where the [int] arithmetic of [get] is exact: as long as
    [size() + B] stays within [2^32], under either model, a value appended
    at index [i] stays at its location and is what [get(i)] finds after any
    defined run of later [append] and [createNode] calls. *)
Lemma stability_in_range im (calls : list (call T)) : ∀ h l i r (v : T) h' l',
  regular h l → Forall (λ c, c ≠ Clear) calls →
  run im calls (h, l) = Some (h', l') →
  0 <= i < m_size l → m_size l + Z.of_nat (length calls) + BLOCKSIZE l <= 2 ^ 32 →
  get im h l i = Some r → load h r = Some v →
  get im h' l' i = Some r ∧ load h' r = Some v.
Proof.
  induction calls as [| c calls IH]; intros h l i r v h' l' Hreg Hnc Hrun Hi Hfit Hget Hload;
    simpl in Hrun.
  - inversion Hrun; subst. split; assumption.
  - simpl length in Hfit. rewrite Nat2Z.inj_succ in Hfit.
    inversion Hnc as [| c0 calls0 Hc Hrest]; subst.
    destruct (run_call im c (h, l)) as [[h1 l1] |] eqn:E; simpl in Hrun; [| discriminate].
    destruct (later_call_keeps im h l c h1 l1 i r v Hreg Hc E Hi ltac:(lia) Hget Hload)
      as (Hget1 & Hload1 & Hm1).
    destruct (run_call_regular im c h l h1 l1 Hreg E) as (Hreg1 & _ & HB1).
    apply (IH h1 l1 i r v h' l' Hreg1 Hrest Hrun); try assumption; try rewrite HB1; lia.
Qed.

(** Without the position of its index, [append] is undefined. *)
Lemma append_undefined im h l (v : T) :
  regular h l → m_size l + 1 + BLOCKSIZE l <= 2 ^ 64 →
  block_position im (BLOCKBITS l) (BLOCKSIZE l) (m_size l) = None →
  append im h l v = None.
Proof.
  intros [Hshape Hm] Hfit Hpos.
  pose proof (shape_bounds h l Hshape) as (HBpos & _).
  assert (Hw : wrap64 (m_size l + 1) = m_size l + 1) by (apply wrap64_small; lia).
  destruct (ensure_defined h (reserve l).1 (m_size l)) as [[h2 l2] Hens].
  { apply reserve_shape. exact Hshape. }
  { simpl. rewrite Hw. lia. }
  destruct (ensure_owns _ _ _ _ _ (reserve_owns h l (proj1 Hshape)) Hens)
    as (_ & (Hb1 & Hb2 & _) & _).
  simpl in Hb1, Hb2, Hens.
  unfold append. simpl. rewrite Hens. simpl.
  unfold get. rewrite Hb1, Hb2, Hpos. reflexivity.
Qed.

End Stability.
End StabilityFacts.

(** *** [RandomInsertPiggyList] *)

Module RandomInsertFacts.
Import RandomInsertPiggyList.

Section Facts.
Context {T : Type}.
Implicit Types (h : heap T) (l : t) (blk : block T).

Lemma getBlock_in_range l i :
  0 <= i < maxContainers → getBlock l i = Some (blockLookupTable l !! i).
Proof.
  intros Hi. unfold getBlock.
  assert (Hc : (0 <=? i) && (i <? maxContainers) = true).
  { in_range. }
  rewrite Hc. reflexivity.
Qed.

(** [get] on an allocated slot, at an offset inside the block. *)
Lemma get_in_block im h l i slot off a blk :
  block_position im (BLOCKBITS l) (INITIALBLOCKSIZE l) i = Some (slot, off) →
  0 <= slot < maxContainers → blockLookupTable l !! slot = Some a →
  h_blocks h !! a = Some blk → 0 <= off < blk_len blk →
  get im h l i = Some (a, off).
Proof.
  intros Hpos Hslot Ea Eb Hoff. unfold get. rewrite Hpos. simpl.
  rewrite getBlock_in_range by exact Hslot. simpl. rewrite Ea. simpl. rewrite Eb. simpl.
  assert (Hc : (0 <=? off) && (off <? blk_len blk) = true).
  { in_range. }
  rewrite Hc. reflexivity.
Qed.

Lemma create_wf h bits l :
  heap_wf h → create bits = Some l →
  wf h l ∧ BLOCKBITS l = bits ∧ INITIALBLOCKSIZE l = 2 ^ bits ∧ numElements l = 0.
Proof.
  intros Hwf Hc. unfold create in Hc.
  destruct (ul_shl1 bits) as [bs |] eqn:E; simpl in Hc; [| discriminate].
  inversion Hc; subst. apply PiggyListFacts.ul_shl1_Some in E as [Hbits ->]. simpl.
  split; [| repeat split; reflexivity].
  unfold wf. simpl. repeat split; try assumption; try lia;
    intros; rewrite lookup_empty in *; discriminate.
Qed.

(** The slot and the block that [insertAt] works on. *)
Lemma insert_slot l index :
  0 <= BLOCKBITS l < 64 → INITIALBLOCKSIZE l = 2 ^ BLOCKBITS l →
  0 <= index → index + INITIALBLOCKSIZE l < 2 ^ 64 →
  let n := index + INITIALBLOCKSIZE l in
  clzll (wrap64 n) = Some (63 - Z.log2 n) ∧
  wrap64 (wrap64 (63 - (63 - Z.log2 n)) - BLOCKBITS l) = Z.log2 n - BLOCKBITS l ∧
  0 <= Z.log2 n - BLOCKBITS l < maxContainers ∧
  wrap64 (INITIALBLOCKSIZE l * 2 ^ (Z.log2 n - BLOCKBITS l)) = 2 ^ Z.log2 n.
Proof.
  intros Hbits HB Hidx Hlt n.
  assert (HBpos : 0 < INITIALBLOCKSIZE l) by (rewrite HB; apply pow2_pos; lia).
  assert (Hn : 0 < n < 2 ^ 64) by (unfold n; lia).
  assert (Hlog : BLOCKBITS l <= Z.log2 n < 64).
  { split; [apply Z.log2_le_pow2; [lia | rewrite <- HB; unfold n; lia]
           | apply Z.log2_lt_pow2; lia]. }
  rewrite (wrap64_small n) by lia. unfold clzll, maxContainers.
  destruct (Z.eqb_spec n 0) as [? | _]; [lia |].
  replace (63 - (63 - Z.log2 n)) with (Z.log2 n) by lia.
  rewrite (wrap64_small (Z.log2 n)) by lia.
  rewrite (wrap64_small (Z.log2 n - BLOCKBITS l)) by lia.
  repeat split; try lia.
  rewrite HB, <- Z.pow_add_r by lia.
  replace (BLOCKBITS l + (Z.log2 n - BLOCKBITS l)) with (Z.log2 n) by lia.
  apply wrap64_small. apply pow2_range; lia.
Qed.

(** [insertAt] is defined for every index inside the table's range for
    which the mask of [get] is defined; it counts the call and leaves the
    value where [get] finds it. *)
Lemma insertAt_defined im h l index (value : T) :
  wf h l → 0 <= index → index + INITIALBLOCKSIZE l < 2 ^ 64 →
  mask_defined im (Z.log2 (index + INITIALBLOCKSIZE l)) →
  ∃ h' l' r,
    insertAt im h l index value = Some (h', l') ∧ wf h' l' ∧
    numElements l' = wrap64 (numElements l + 1) ∧
    BLOCKBITS l' = BLOCKBITS l ∧ INITIALBLOCKSIZE l' = INITIALBLOCKSIZE l ∧
    get im h' l' index = Some r ∧ load h' r = Some value.
Proof.
  intros (Hwf & Hbits & HB & Hent & Hinj) Hidx Hlt Hmask.
  destruct (insert_slot l index Hbits HB Hidx Hlt) as (Hclz & Hslot & Hrange & Hsize).
  set (n := index + INITIALBLOCKSIZE l) in *.
  set (slot := Z.log2 n - BLOCKBITS l) in *.
  destruct (block_position_defined im (BLOCKBITS l) index) as (j & Hpos & Hj & _);
    [lia | lia | rewrite <- HB; fold n; lia | rewrite <- HB; exact Hmask |].
  rewrite <- HB in Hpos, Hj. fold n in Hpos, Hj. fold slot in Hpos.
  pose proof (mod_pow2_below n j (Z.log2 n) Hj) as Hoff.
  set (off := n mod 2 ^ j) in *.
  unfold insertAt. fold n. rewrite Hclz. simpl. rewrite Hslot.
  rewrite getBlock_in_range by exact Hrange. simpl.
  destruct (blockLookupTable l !! slot) as [a |] eqn:Ea.
  - (* the block is there *)
    destruct (Hent slot a Ea) as (_ & blk & Eb & Hlen). rewrite Hsize in Hlen.
    assert (Hget : get im h (mk (BLOCKBITS l) (INITIALBLOCKSIZE l) (numElements l)
                               (blockLookupTable l)) index = Some (a, off)).
    { apply (get_in_block im h _ index slot off a blk); simpl; try assumption. lia. }
    rewrite Hget. simpl.
    rewrite (store_defined h (a, off) value blk Eb) by (simpl; lia). simpl.
    eexists _, _, (a, off). split; [reflexivity |].
    set (h' := Heap _ _).
    assert (Hst : store h (a, off) value = Some h').
    { apply (store_defined h (a, off) value blk Eb). simpl. lia. }
    assert (Hent' : ∀ i a0, blockLookupTable l !! i = Some a0 →
              0 <= i < maxContainers ∧
              ∃ blk0, h_blocks h' !! a0 = Some blk0 ∧
                      blk_len blk0 = wrap64 (INITIALBLOCKSIZE l * 2 ^ i)).
    { intros i a0 Ei. destruct (Hent i a0 Ei) as (Hi & blk0 & Eb0 & Hl0).
      split; [exact Hi |].
      destruct (store_block h (a, off) value h' a0 blk0 Hst Eb0) as (blk' & Eb' & Hl').
      exists blk'. split; [exact Eb' | congruence]. }
    split.
    { unfold wf. simpl. split; [apply (store_wf h (a, off) value h' Hwf Hst) |].
      split; [exact Hbits |]. split; [exact HB |]. split; [exact Hent' | exact Hinj]. }
    simpl. repeat split; try reflexivity.
    + destruct (Hent' slot a Ea) as (_ & blk' & Eb' & Hl'). rewrite Hsize in Hl'.
      apply (get_in_block im h' _ index slot off a blk'); simpl; try assumption. lia.
    + apply (load_store_same h (a, off) value h' Hst).
  - (* the block is allocated first *)
    rewrite Hsize. simpl.
    set (a := h_next h). set (h1 := Heap _ _).
    assert (Ea1 : h_blocks h1 !! a = Some (Block (2 ^ Z.log2 n) ∅)).
    { unfold h1. simpl. apply lookup_insert_eq. }
    assert (Hwf1 : heap_wf h1) by (apply (new_array_wf (2 ^ Z.log2 n) h Hwf)).
    assert (Hget : get im h1 (mk (BLOCKBITS l) (INITIALBLOCKSIZE l) (numElements l)
                                 (<[slot := a]> (blockLookupTable l))) index
                   = Some (a, off)).
    { apply (get_in_block im h1 _ index slot off a (Block (2 ^ Z.log2 n) ∅));
        simpl; try assumption; try lia. apply lookup_insert_eq. }
    rewrite Hget. simpl.
    rewrite (store_defined h1 (a, off) value _ Ea1) by (simpl; lia). simpl.
    eexists _, _, (a, off). split; [reflexivity |].
    set (h' := Heap _ _).
    assert (Hst : store h1 (a, off) value = Some h').
    { apply (store_defined h1 (a, off) value _ Ea1). simpl. lia. }
    assert (Hold : ∀ a0 blk0, h_blocks h !! a0 = Some blk0 →
              a0 ≠ a ∧ ∃ blk', h_blocks h' !! a0 = Some blk' ∧ blk_len blk' = blk_len blk0).
    { intros a0 blk0 E0.
      destruct (new_array_other (2 ^ Z.log2 n) h a0 blk0 Hwf E0) as [Hne E1].
      split; [exact Hne |]. apply (store_block h1 (a, off) value h' a0 blk0 Hst E1). }
    assert (Hent' : ∀ i a0, <[slot := a]> (blockLookupTable l) !! i = Some a0 →
              0 <= i < maxContainers ∧
              ∃ blk0, h_blocks h' !! a0 = Some blk0 ∧
                      blk_len blk0 = wrap64 (INITIALBLOCKSIZE l * 2 ^ i)).
    { intros i a0 Ei. destruct (decide (i = slot)) as [-> | Hne].
      - rewrite lookup_insert_eq in Ei. inversion Ei; subst a0.
        split; [exact Hrange |].
        destruct (store_block h1 (a, off) value h' a _ Hst Ea1) as (blk' & Eb' & Hl').
        exists blk'. split; [exact Eb' |]. rewrite Hl', Hsize. reflexivity.
      - rewrite lookup_insert_ne in Ei by congruence.
        destruct (Hent i a0 Ei) as (Hi & blk0 & Eb0 & Hl0). split; [exact Hi |].
        destruct (Hold a0 blk0 Eb0) as (_ & blk' & Eb' & Hl').
        exists blk'. split; [exact Eb' | congruence]. }
    split.
    { unfold wf. simpl. split; [apply (store_wf h1 (a, off) value h' Hwf1 Hst) |].
      split; [exact Hbits |]. split; [exact HB |]. split; [exact Hent' |].
      intros i i' a0 Ei Ei'.
      assert (Hnot : ∀ k, blockLookupTable l !! k = Some a → False).
      { intros k Ek. destruct (Hent k a Ek) as (_ & blk0 & Eb0 & _).
        destruct (Hold a blk0 Eb0) as [Hne _]. congruence. }
      destruct (decide (i = slot)) as [-> | Hi]; destruct (decide (i' = slot)) as [-> | Hi'];
        [reflexivity | | |].
      - rewrite lookup_insert_eq in Ei. rewrite lookup_insert_ne in Ei' by congruence.
        inversion Ei; subst. exfalso. apply (Hnot i' Ei').
      - rewrite lookup_insert_eq in Ei'. rewrite lookup_insert_ne in Ei by congruence.
        inversion Ei'; subst. exfalso. apply (Hnot i Ei).
      - rewrite lookup_insert_ne in Ei by congruence.
        rewrite lookup_insert_ne in Ei' by congruence. apply (Hinj i i' a0 Ei Ei'). }
    simpl. repeat split; try reflexivity.
    + destruct (Hent' slot a (lookup_insert_eq _ _ _)) as (_ & blk' & Eb' & Hl').
      rewrite Hsize in Hl'.
      apply (get_in_block im h' _ index slot off a blk'); simpl; try assumption; try lia.
      apply lookup_insert_eq.
    + apply (load_store_same h1 (a, off) value h' Hst).
Qed.

(** A run of [insertAt] calls counts every call. *)
Lemma insert_all_defined im (calls : list (Z * T)) : ∀ h l,
  wf h l →
  (∀ index value, (index, value) ∈ calls →
     0 <= index ∧ index + INITIALBLOCKSIZE l < 2 ^ 64 ∧
     mask_defined im (Z.log2 (index + INITIALBLOCKSIZE l))) →
  0 <= numElements l → numElements l + Z.of_nat (length calls) < 2 ^ 64 →
  ∃ h' l',
    insert_all im calls (h, l) = Some (h', l') ∧ wf h' l' ∧
    numElements l' = numElements l + Z.of_nat (length calls) ∧
    INITIALBLOCKSIZE l' = INITIALBLOCKSIZE l.
Proof.
  induction calls as [| [index value] calls IH]; intros h l Hwf Hcalls Hn0 Hn.
  - exists h, l. simpl. split; [reflexivity |]. split; [exact Hwf |].
    split; [lia | reflexivity].
  - simpl length in Hn. rewrite Nat2Z.inj_succ in Hn.
    destruct (Hcalls index value) as (Hidx & Hlt & Hmask); [left |].
    destruct (insertAt_defined im h l index value Hwf Hidx Hlt Hmask)
      as (h1 & l1 & r & Hins & Hwf1 & Hn1 & Hb1 & HB1 & _).
    rewrite wrap64_small in Hn1 by lia.
    destruct (IH h1 l1 Hwf1) as (h' & l' & Hrun & Hwf' & Hn' & HB').
    { intros i v Hin. rewrite HB1. apply (Hcalls i v). right. exact Hin. }
    { lia. }
    { lia. }
    exists h', l'. simpl. rewrite Hins. simpl.
    split; [exact Hrun |]. split; [exact Hwf' |].
    split; [| congruence].
    simpl length. rewrite Nat2Z.inj_succ. lia.
Qed.

Lemma get_inversion im h l i a off :
  get im h l i = Some (a, off) →
  ∃ slot blk,
    block_position im (BLOCKBITS l) (INITIALBLOCKSIZE l) i = Some (slot, off) ∧
    0 <= slot < maxContainers ∧ blockLookupTable l !! slot = Some a ∧
    h_blocks h !! a = Some blk ∧ 0 <= off < blk_len blk.
Proof.
  unfold get, getBlock. intros H.
  destruct (block_position im (BLOCKBITS l) (INITIALBLOCKSIZE l) i) as [[slot ind] |];
    simpl in H; [| discriminate].
  destruct ((0 <=? slot) && (slot <? maxContainers)) eqn:Hc; simpl in H; [| discriminate].
  apply andb_prop in Hc as [H1 H2]. apply Z.leb_le in H1. apply Z.ltb_lt in H2.
  destruct (blockLookupTable l !! slot) as [a' |] eqn:Ea; simpl in H; [| discriminate].
  destruct (h_blocks h !! a') as [blk |] eqn:Eb; simpl in H; [| discriminate].
  destruct ((0 <=? ind) && (ind <? blk_len blk)) eqn:Hi; [| discriminate].
  apply andb_prop in Hi as [H3 H4]. apply Z.leb_le in H3. apply Z.ltb_lt in H4.
  inversion H; subst. exists slot, blk. repeat split; try assumption; lia.
Qed.

(** The copy constructor is defined on every well-formed list; the copy
    has the size of the original and, wherever [get] finds an element of
    the original, an element that reads the same, in a block that did not
    exist before; the blocks that existed are untouched. *)
Lemma copy_duplicates h other :
  wf h other →
  ∃ h' l,
    copy h other = Some (h', l) ∧ size l = size other ∧
    (∀ a blk, h_blocks h !! a = Some blk → h_blocks h' !! a = Some blk) ∧
    ∀ im i r, get im h other i = Some r →
              ∃ r', get im h' l i = Some r' ∧ load h' r' = load h r ∧
                    h_blocks h !! r'.1 = None.
Proof.
  intros (Hwf & Hbits & HB & Hent & Hinj).
  assert (Hbs : ul_shl1 (BLOCKBITS other) = Some (INITIALBLOCKSIZE other)).
  { unfold ul_shl1.
    assert (Hc : (0 <=? BLOCKBITS other) && (BLOCKBITS other <? 64) = true).
    { in_range. }
    rewrite Hc, HB. f_equal. apply wrap64_small.
    apply pow2_range; lia. }
  set (P := λ (i : Z) (s : heap T * gmap Z positive),
              heap_wf s.1 ∧
              (∀ a blk, h_blocks h !! a = Some blk → h_blocks s.1 !! a = Some blk) ∧
              (∀ k src, 0 <= k < i → blockLookupTable other !! k = Some src →
                        is_Some (s.2 !! k)) ∧
              (∀ k a, s.2 !! k = Some a →
                      h_blocks h !! a = None ∧
                      ∃ src blk sblk,
                        blockLookupTable other !! k = Some src ∧
                        h_blocks s.1 !! a = Some blk ∧ h_blocks h !! src = Some sblk ∧
                        blk_len blk = blk_len sblk ∧
                        ∀ off, 0 <= off < blk_len blk →
                               blk_data blk !! off = blk_data sblk !! off)).
  destruct (for_each_defined P (copy_block other (INITIALBLOCKSIZE other)) maxContainers)
    with (s := (h, ∅ : gmap Z positive)) as ([h' tbl] & Hrun & Hwf' & Hkeep & Hfull & Hnew).
  - unfold maxContainers. lia.
  - intros i [hh t0] Hi (Hwfh & Hkeeph & Hfullh & Hnewh). simpl in *.
    unfold copy_block. rewrite getBlock_in_range by exact Hi. simpl.
    destruct (blockLookupTable other !! i) as [src |] eqn:Esrc.
    + destruct (Hent i src Esrc) as (_ & sb & Eb & Hlen).
      set (n := wrap64 (INITIALBLOCKSIZE other * 2 ^ i)) in *.
      pose proof (wrap64_range (INITIALBLOCKSIZE other * 2 ^ i)) as Hn. fold n in Hn.
      destruct (new_array_other n hh src sb Hwfh (Hkeeph _ _ Eb)) as [Hne E1].
      simpl in Hne, E1.
      assert (Hfreshh : h_blocks hh !! h_next hh = None) by (apply heap_wf_next_free; exact Hwfh).
      assert (Hfresh : h_blocks h !! h_next hh = None).
      { destruct (h_blocks h !! h_next hh) as [b |] eqn:E; [| reflexivity].
        apply Hkeeph in E. congruence. }
      simpl.
      rewrite (memcpy_defined _ (h_next hh) src n (Block n ∅) sb);
        [| apply lookup_insert_eq | exact E1 | simpl; lia | lia | congruence].
      simpl. eexists. split; [reflexivity |]. unfold P. simpl.
      split.
      { intros a b. simpl. intros Hl. destruct (decide (a = h_next hh)) as [-> | Hna].
        - lia.
        - rewrite !lookup_insert_ne in Hl by congruence. apply Hwfh in Hl. lia. }
      split.
      { intros a b E. assert (a ≠ h_next hh) by (intros ->; congruence).
        rewrite !lookup_insert_ne by congruence. apply Hkeeph. exact E. }
      split.
      { intros k src' Hk Ek. destruct (decide (k = i)) as [-> | Hki].
        - rewrite lookup_insert_eq. eauto.
        - rewrite lookup_insert_ne by congruence. apply (Hfullh k src'); [lia | exact Ek]. }
      intros k a Ek. destruct (decide (k = i)) as [-> | Hki].
      * rewrite lookup_insert_eq in Ek. inversion Ek; subst a. split; [exact Hfresh |].
        exists src, (Block n (copy_cells n (blk_data sb) ∅)), sb. simpl.
        split; [exact Esrc |]. split; [apply lookup_insert_eq |].
        split; [exact Eb |]. split; [congruence |].
        intros off Hoff. rewrite copy_cells_lookup.
        destruct (Z.ltb_spec off n); [reflexivity | lia].
      * rewrite lookup_insert_ne in Ek by congruence.
        destruct (Hnewh k a Ek) as (Hfr & src' & blk & sblk & E2 & E3 & E4 & E5 & E6).
        split; [exact Hfr |]. exists src', blk, sblk.
        split; [exact E2 |]. split; [| split; [exact E4 | split; [exact E5 | exact E6]]].
        assert (a ≠ h_next hh) by (intros ->; congruence).
        rewrite !lookup_insert_ne by congruence. exact E3.
    + exists (hh, t0). split; [reflexivity |]. unfold P. simpl.
      split; [exact Hwfh |]. split; [exact Hkeeph |]. split; [| exact Hnewh].
      intros k src Hk Ek. destruct (decide (k = i)) as [-> | Hki]; [congruence |].
      apply (Hfullh k src); [lia | exact Ek].
  - unfold P. simpl. split; [exact Hwf |]. split; [auto |].
    split; [intros k src Hk; lia |]. intros k a Ek. rewrite lookup_empty in Ek. discriminate.
  - simpl in *. exists h', (mk (BLOCKBITS other) (INITIALBLOCKSIZE other) (numElements other) tbl).
    split; [unfold copy; rewrite Hbs; simpl; rewrite Hrun; reflexivity |].
    split; [reflexivity |]. split; [exact Hkeep |].
    intros im i [a off] Hget.
    apply get_inversion in Hget as (slot & blk & Hpos & Hslot & Ea & Eb & Hoff).
    destruct (Hfull slot a Hslot Ea) as [a' Ea'].
    destruct (Hnew slot a' Ea') as (Hfr & src & blk' & sblk & E2 & E3 & E4 & E5 & E6).
    rewrite Ea in E2. inversion E2; subst src. rewrite Eb in E4. inversion E4; subst sblk.
    exists (a', off). split; [| split; [| exact Hfr]].
    + apply (get_in_block im h' _ i slot off a' blk'); simpl; try assumption. lia.
    + unfold load. simpl. rewrite E3, Eb. simpl. rewrite E5.
      destruct ((0 <=? off) && (off <? blk_len blk)); [| reflexivity].
      apply E6. lia.
Qed.

End Facts.
End RandomInsertFacts.

(** * The properties of the specification *)

Lemma empty_heap_wf {T : Type} : heap_wf (@empty_heap T).
Proof. intros a blk H. simpl in H. rewrite lookup_empty in H. discriminate. Qed.

Section PiggyListClaims.
Import PiggyList PiggyListFacts.
Context {T : Type}.
Implicit Types (h : heap T) (l : PiggyList.t).

(** C9 (capacity invariant).  On a list made by a constructor, after every
    completed run of [append], [createNode] and [clear] calls, under
    either model of the [int] arithmetic: the capacity counter
    [container_size] is at least the logical size [m_size], it is the total
    number of elements of the [num_containers] allocated blocks, and that
    number is [B * (2^num_containers - 1)] for the base block size
    [B = 2^BLOCKBITS]. *)
Theorem capacity_invariant im initialbitsize h0 l0 (calls : list (call T)) h l :
  heap_wf h0 → create initialbitsize = Some l0 →
  run im calls (h0, l0) = Some (h, l) →
  m_size l <= container_size l ∧
  container_size l = total_capacity h l ∧
  container_size l = 2 ^ initialbitsize * (2 ^ num_containers l - 1).
Proof.
  intros Hwf Hcreate Hrun.
  destruct (create_regular h0 initialbitsize l0 Hwf Hcreate) as (Hreg0 & Hbits & HB & _).
  destruct (run_regular im calls h0 l0 h l Hreg0 Hrun) as ([Hshape Hm] & _ & HB').
  pose proof (total_capacity_regular h l Hshape) as Htotal.
  destruct Hshape as (_ & _ & _ & Hcs & _).
  split; [lia |]. split; [congruence |]. rewrite Hcs. congruence.
Qed.

(** C4 (growth).  From a freshly constructed list of base block size
    [B = 2^BLOCKBITS], appending exactly [B + 1] elements is defined
    (wherever the mask of [get] is, and [3 * B] fits a [size_t]) and
    leaves exactly two blocks: two allocations were made, block 0 has
    [B] elements, block 1 has [2 * B], and [size()] is [B + 1]. *)
Theorem growth_after_base_plus_one im initialbitsize h0 l0 (vs : list T) :
  heap_wf h0 → create initialbitsize = Some l0 →
  initialbitsize <= 62 → mask_defined im (initialbitsize + 1) →
  Z.of_nat (length vs) = 2 ^ initialbitsize + 1 →
  ∃ h l b0 b1,
    run im (Append <$> vs) (h0, l0) = Some (h, l) ∧
    size l = 2 ^ initialbitsize + 1 ∧
    num_containers l = 2 ∧
    Z.pos (h_next h) = Z.pos (h_next h0) + 2 ∧
    block_at h l 0 = Some b0 ∧ blk_len b0 = 2 ^ initialbitsize ∧
    block_at h l 1 = Some b1 ∧ blk_len b1 = 2 * 2 ^ initialbitsize.
Proof.
  intros Hwf Hcreate Hle Hmask Hlen.
  destruct (create_regular h0 initialbitsize l0 Hwf Hcreate)
    as (Hreg0 & Hbits & HB & Hnc0 & Hm0).
  pose proof (ul_shl1_Some initialbitsize (BLOCKSIZE l0)) as Hrange.
  assert (Hb : 0 <= initialbitsize < 64).
  { destruct Hreg0 as (((_ & Hb & _) & _) & _). rewrite <- Hbits. exact Hb. }
  assert (HBpos : 0 < 2 ^ initialbitsize) by (apply pow2_pos; lia).
  assert (H2B : 2 * 2 ^ initialbitsize <= 2 ^ 63).
  { rewrite <- pow2_succ by lia. apply pow2_le_mono. lia. }
  destruct (appends_defined im vs h0 l0 Hreg0) as
    (h & l & Hrun & Hreg & Htight & Hm & Hb' & HB' & Hnext).
  { left. exact Hnc0. }
  { rewrite Hm0, HB, Hlen. lia. }
  { intros m Hmr. rewrite HB. apply (mask_defined_mono im (initialbitsize + 1)); [exact Hmask |].
    rewrite <- (Z.log2_pow2 (initialbitsize + 1)) by lia.
    apply Z.log2_le_mono. rewrite pow2_succ by lia. lia. }
  rewrite Hm0, Hlen in Hm. rewrite HB in HB'. rewrite Hnc0 in Hnext.
  destruct Hreg as [Hshape Hmle].
  pose proof Hshape as ((_ & _ & _ & Hnc & Hlive & _) & _ & _ & Hcs & Hblen).
  assert (Hnc2 : num_containers l = 2).
  { rewrite Hcs, HB', Hm in Hmle. unfold tight in Htight. rewrite HB', Hm in Htight.
    destruct (Z_lt_le_dec (num_containers l) 2) as [Hlt | Hge].
    - exfalso. assert (Hc : num_containers l = 0 ∨ num_containers l = 1) by lia.
      destruct Hc as [Hc | Hc]; rewrite Hc in Hmle; simpl in Hmle; lia.
    - destruct (Z_lt_le_dec 2 (num_containers l)) as [Hgt | ?]; [exfalso | lia].
      destruct Htight as [? | Ht]; [lia |].
      pose proof (pow2_le_mono 2 (num_containers l - 1) ltac:(lia)) as Hp.
      change (2 ^ 2) with 4 in Hp. nia. }
  destruct (Hlive 0) as [b0 Hb0]; [lia |].
  destruct (Hlive 1) as [b1 Hb1]; [lia |].
  exists h, l, b0, b1.
  split; [exact Hrun |]. split; [unfold size; lia |]. split; [exact Hnc2 |].
  split; [lia |]. split; [exact Hb0 |].
  split; [rewrite (Hblen 0 b0) by (lia || assumption); rewrite HB'; simpl; lia |].
  split; [exact Hb1 |].
  rewrite (Hblen 1 b1) by (lia || assumption). rewrite HB'. simpl. lia.
Qed.

End PiggyListClaims.

Lemma capacity_invariant_witness :
  ∃ h l,
    PiggyList.run Strict
      [PiggyList.Append 7; PiggyList.CreateNode; PiggyList.Append 9;
       PiggyList.Clear; PiggyList.Append 1]
      (empty_heap, PiggyList.mk 1 2 0 2 0 0 ∅) = Some (h, l) ∧
    PiggyList.m_size l <= PiggyList.container_size l ∧
    PiggyList.container_size l = PiggyList.total_capacity h l ∧
    PiggyList.container_size l = 2 ^ 1 * (2 ^ PiggyList.num_containers l - 1).
Proof.
  destruct (PiggyList.run Strict _ _) as [[h l] |] eqn:Hrun.
  - exists h, l. split; [reflexivity |].
    apply (capacity_invariant Strict 1 empty_heap _ _ h l empty_heap_wf eq_refl Hrun).
  - vm_compute in Hrun. discriminate Hrun.
Defined.

Lemma growth_after_base_plus_one_witness :
  ∃ h l b0 b1,
    PiggyList.run Strict (PiggyList.Append <$> [10; 11; 12])
      (empty_heap, PiggyList.mk 1 2 0 2 0 0 ∅) = Some (h, l) ∧
    PiggyList.size l = 2 ^ 1 + 1 ∧
    PiggyList.num_containers l = 2 ∧
    Z.pos (h_next h) = Z.pos (h_next (@empty_heap Z)) + 2 ∧
    PiggyList.block_at h l 0 = Some b0 ∧ blk_len b0 = 2 ^ 1 ∧
    PiggyList.block_at h l 1 = Some b1 ∧ blk_len b1 = 2 * 2 ^ 1.
Proof.
  apply (growth_after_base_plus_one Strict 1 empty_heap).
  - apply empty_heap_wf.
  - reflexivity.
  - lia.
  - simpl. lia.
  - reflexivity.
Defined.

(** ** The index mapping *)

(** While [index + B] is below [2^31], under either model, [get] computes
    the location of the mapping algorithm. *)
Lemma block_position_in_range im bits idx :
  0 <= bits → 0 <= idx → idx + 2 ^ bits < 2 ^ 31 →
  block_position im bits (2 ^ bits) idx = Some (spec_position bits idx).
Proof.
  intros Hbits Hidx Hlt.
  assert (HB : 0 < 2 ^ bits) by (apply pow2_pos; lia).
  assert (Hlog : Z.log2 (idx + 2 ^ bits) < 31).
  { apply Z.log2_lt_pow2; lia. }
  destruct (block_position_defined im bits idx) as (j & Hpos & _ & Hj & _);
    [lia | lia | lia | destruct im; simpl; [lia | trivial] |].
  rewrite Hpos, Hj by lia. reflexivity.
Qed.

Lemma block_start_mono B k k' : 0 < B → 0 <= k <= k' → block_start B k <= block_start B k'.
Proof.
  intros HB Hk. unfold block_start.
  pose proof (pow2_le_mono k k' Hk). nia.
Qed.

(** The mapping contract names one location for each index. *)
Lemma contract_position_unique B idx slot offset slot' offset' :
  0 < B →
  contract_position B idx slot offset → contract_position B idx slot' offset' →
  slot = slot' ∧ offset = offset'.
Proof.
  intros HB (Hs & Hr & ->) (Hs' & Hr' & ->).
  assert (slot = slot').
  { destruct (Z.lt_trichotomy slot slot') as [Hlt | [Heq | Hgt]]; [exfalso | exact Heq | exfalso].
    - pose proof (block_start_mono B (slot + 1) slot' HB ltac:(lia)). lia.
    - pose proof (block_start_mono B (slot' + 1) slot HB ltac:(lia)). lia. }
  subst. split; reflexivity.
Qed.

(** In that range [get] meets the mapping contract. *)
Lemma block_position_meets_contract im bits idx :
  0 <= bits → 0 <= idx → idx + 2 ^ bits < 2 ^ 31 →
  ∃ slot offset,
    block_position im bits (2 ^ bits) idx = Some (slot, offset) ∧
    contract_position (2 ^ bits) idx slot offset.
Proof.
  intros Hbits Hidx Hlt.
  exists (spec_position bits idx).1, (spec_position bits idx).2.
  split; [| apply spec_position_contract; assumption].
  rewrite block_position_in_range by assumption.
  destruct (spec_position bits idx). reflexivity.
Qed.

(** The boundaries of the first three blocks, for every base block size up
    to [2^28]. *)
Lemma boundary_positions im bits :
  0 <= bits <= 28 →
  block_position im bits (2 ^ bits) 0 = Some (0, 0) ∧
  block_position im bits (2 ^ bits) (2 ^ bits - 1) = Some (0, 2 ^ bits - 1) ∧
  block_position im bits (2 ^ bits) (2 ^ bits) = Some (1, 0) ∧
  block_position im bits (2 ^ bits) (3 * 2 ^ bits - 1) = Some (1, 2 * 2 ^ bits - 1) ∧
  block_position im bits (2 ^ bits) (3 * 2 ^ bits) = Some (2, 0).
Proof.
  intros Hbits.
  assert (HB : 0 < 2 ^ bits) by (apply pow2_pos; lia).
  assert (H4B : 4 * 2 ^ bits <= 2 ^ 30).
  { change 4 with (2 ^ 2). rewrite <- Z.pow_add_r by lia. apply pow2_le_mono. lia. }
  assert (G : ∀ idx slot offset,
            0 <= idx <= 3 * 2 ^ bits → contract_position (2 ^ bits) idx slot offset →
            block_position im bits (2 ^ bits) idx = Some (slot, offset)).
  { intros idx slot offset Hidx Hc.
    destruct (block_position_meets_contract im bits idx) as (s & o & Hpos & Hc');
      [lia | lia | lia |].
    destruct (contract_position_unique _ _ _ _ _ _ HB Hc Hc') as [-> ->]. exact Hpos. }
  unfold contract_position, block_start in G.
  repeat split; apply G; simpl; lia.
Qed.

(** C1 (index-to-location mapping).  The mapping of the specification is
    the one [get] computes while [index + B] is below [2^31]
    ([block_position_in_range], [boundary_positions]), but not for every
    index: [1 << blockNum] is a shift of the [int] constant [1].  For the
    default base block size [B = 2^16], the last index of block 16,
    [2^33 - 2^16 - 1], has [blockNum = 32]: the specification places it at
    offset [2^32 - 1] of slot 16; on the abstract machine the shift is
    undefined, and a target that takes the shift count modulo 32 yields
    offset 0. *)
Theorem get_position_end_of_block_16 :
  spec_position 16 (2 ^ 33 - 2 ^ 16 - 1) = (16, 2 ^ 32 - 1) ∧
  block_position Strict 16 (2 ^ 16) (2 ^ 33 - 2 ^ 16 - 1) = None ∧
  block_position Wrap32 16 (2 ^ 16) (2 ^ 33 - 2 ^ 16 - 1) = Some (16, 0).
Proof. repeat split; vm_compute; reflexivity. Qed.

(** C5 (addressing range).  The index [2^33] is inside the range
    [idx + B <= 2^64 - 1] for the default [B = 2^16], and the mapping
    contract places it at offset [2^16] of slot 17 (and nowhere else).
    [get] does not: [blockNum] is 33, so the [int] shift [1 << blockNum] is
    undefined on the abstract machine, and taken modulo 32 it gives the mask
    1 and the offset 0. *)
Theorem get_position_outside_int_shift :
  2 ^ 33 + 2 ^ 16 <= 2 ^ 64 - 1 ∧
  contract_position (2 ^ 16) (2 ^ 33) 17 (2 ^ 16) ∧
  ¬ contract_position (2 ^ 16) (2 ^ 33) 17 0 ∧
  block_position Strict 16 (2 ^ 16) (2 ^ 33) = None ∧
  block_position Wrap32 16 (2 ^ 16) (2 ^ 33) = Some (17, 0).
Proof.
  split; [lia |]. split; [unfold contract_position, block_start; lia |].
  split; [unfold contract_position, block_start; lia |].
  split; vm_compute; reflexivity.
Qed.

(** ** The copy constructor of [PiggyList] *)

(** C10 (the assertion of the copy constructor).  Copying a freshly
    constructed list stops at the assertion: no block was copied, so
    [cSize] is still [BLOCKSIZE = 65536] and [cSize >> 1] is 32768, while
    [container_size] is 0. *)
Theorem copy_assertion_fails_on_fresh_list (T : Type) :
  ∃ l0, PiggyList.create_default = Some l0 ∧
        PiggyList.copy (T := T) true empty_heap l0 = PiggyList.AssertionFailed.
Proof. eexists. split; reflexivity. Qed.

(** C7 (duplication).  [PiggyList(1)] after three [append]s has two blocks
    (2 and 4 elements, capacity 6).  With assertions the copy constructor
    stops at its assertion ([cSize >> 1] is 4).  Without them it makes a
    copy whose [allocsize] is still the base size 2, where the original has
    8: six more [append]s are defined on the original and undefined on the
    copy, whose third block has 2 elements instead of 8. *)
Theorem copy_of_two_blocks :
  let original :=
    PiggyList.run Strict (PiggyList.Append <$> [10; 11; 12])
      (empty_heap, PiggyList.mk 1 2 0 2 0 0 ∅) in
  let more := PiggyList.Append <$> [13; 14; 15; 16; 17; 18] in
  (s ← original; Some (PiggyList.num_containers s.2, PiggyList.container_size s.2))
  = Some (2, 6) ∧
  (s ← original; Some (PiggyList.copy true s.1 s.2)) = Some PiggyList.AssertionFailed ∧
  (s ← original;
   match PiggyList.copy false s.1 s.2 with
   | PiggyList.Copied h c => Some (PiggyList.allocsize s.2, PiggyList.allocsize c)
   | _ => None
   end) = Some (8, 2) ∧
  (s ← original; s' ← PiggyList.run Strict more s; Some (PiggyList.size s'.2)) = Some 9 ∧
  (s ← original;
   match PiggyList.copy false s.1 s.2 with
   | PiggyList.Copied h c => Some (PiggyList.run Strict more (h, c))
   | _ => None
   end) = Some None.
Proof. repeat split; vm_compute; reflexivity. Qed.

(** ** [clear] *)

Section ClearClaims.
Import PiggyList PiggyListFacts.
Context {T : Type}.
Implicit Types (h : heap T) (l : PiggyList.t).

(** C8 ([clear] resets).  In every reachable state (after constructors,
    copies and calls), [clear] is defined; after it [size()] is 0 and the
    capacity, the block count and the next allocation size are those of a
    new list.  The next [append] (defined wherever the mask of [get] is
    defined for the base block) returns index 0 and allocates block 0 anew
    with [BLOCKSIZE] elements. *)
Theorem clear_resets im h l (v : T) :
  reachable im h l → mask_defined im (BLOCKBITS l) →
  ∃ h1 l1 h2 l2 b0,
    clear h l = Some (h1, l1) ∧
    size l1 = 0 ∧ container_size l1 = 0 ∧ num_containers l1 = 0 ∧
    allocsize l1 = BLOCKSIZE l ∧ BLOCKSIZE l1 = BLOCKSIZE l ∧
    append im h1 l1 v = Some (h2, l2, 0) ∧
    size l2 = 1 ∧ num_containers l2 = 1 ∧
    block_at h2 l2 0 = Some b0 ∧ blk_len b0 = BLOCKSIZE l.
Proof.
  intros Hreach Hmask. pose proof (reachable_owns im h l Hreach) as Howns.
  destruct (clear_defined h l Howns) as (h1 & Hclear & Hreg1).
  set (l1 := mk (BLOCKBITS l) (BLOCKSIZE l) 0 (BLOCKSIZE l) 0 0 (blockLookupTable l)) in *.
  destruct Howns as (_ & Hbits & HB & _).
  assert (HBpos : 0 < BLOCKSIZE l < 2 ^ 64).
  { rewrite HB. split; [apply pow2_pos; lia | apply pow2_lt_mono; lia]. }
  destruct (append_next im h1 l1 v Hreg1) as
    (h2 & l2 & r & Happ & Hreg2 & Htight2 & Hm2 & Hfrom & _).
  { left. reflexivity. }
  { simpl. lia. }
  { unfold l1. cbn [m_size BLOCKSIZE]. rewrite Z.add_0_l, HB, Z.log2_pow2 by lia.
    exact Hmask. }
  destruct Hfrom as (_ & HB2 & _). simpl in Happ, Hm2, HB2.
  destruct Hreg2 as [Hshape2 Hmle2].
  pose proof Hshape2 as ((_ & _ & _ & Hnc2 & Hlive2 & _) & _ & _ & Hcs2 & Hlen2).
  assert (Hone : num_containers l2 = 1).
  { rewrite Hcs2, HB2, Hm2 in Hmle2. unfold tight in Htight2. rewrite HB2, Hm2 in Htight2.
    destruct (Z_lt_le_dec (num_containers l2) 1) as [Hlt | Hge].
    - exfalso. assert (Hc : num_containers l2 = 0) by lia.
      rewrite Hc in Hmle2. simpl in Hmle2. lia.
    - destruct (Z_lt_le_dec 1 (num_containers l2)) as [Hgt | ?]; [exfalso | lia].
      destruct Htight2 as [? | Ht]; [lia |].
      pose proof (pow2_le_mono 1 (num_containers l2 - 1) ltac:(lia)) as Hp.
      change (2 ^ 1) with 2 in Hp. nia. }
  destruct (Hlive2 0) as [b0 Hb0]; [lia |].
  exists h1, l1, h2, l2, b0.
  split; [exact Hclear |]. repeat (split; [reflexivity |]).
  split; [exact Happ |]. split; [unfold size; lia |]. split; [exact Hone |].
  split; [exact Hb0 |].
  rewrite (Hlen2 0 b0) by (lia || assumption). rewrite HB2. simpl. lia.
Qed.

End ClearClaims.

Lemma clear_resets_witness :
  ∃ h l,
    PiggyList.run Strict (PiggyList.Append <$> [10; 11; 12])
      (empty_heap, PiggyList.mk 1 2 0 2 0 0 ∅) = Some (h, l) ∧
    ∃ h1 l1 h2 l2 b0,
      PiggyList.clear h l = Some (h1, l1) ∧
      PiggyList.size l1 = 0 ∧ PiggyList.container_size l1 = 0 ∧
      PiggyList.num_containers l1 = 0 ∧
      PiggyList.allocsize l1 = PiggyList.BLOCKSIZE l ∧
      PiggyList.BLOCKSIZE l1 = PiggyList.BLOCKSIZE l ∧
      PiggyList.append Strict h1 l1 13 = Some (h2, l2, 0) ∧
      PiggyList.size l2 = 1 ∧ PiggyList.num_containers l2 = 1 ∧
      PiggyList.block_at h2 l2 0 = Some b0 ∧ blk_len b0 = PiggyList.BLOCKSIZE l.
Proof.
  destruct (PiggyList.run Strict _ _) as [[h l] |] eqn:Hrun.
  - exists h, l. split; [reflexivity |].
    assert (Hreach : PiggyList.reachable Strict (T := Z) empty_heap (PiggyList.mk 1 2 0 2 0 0 ∅)).
    { apply (PiggyList.reach_create Strict empty_heap 1); [apply empty_heap_wf | reflexivity]. }
    pose proof (PiggyListFacts.reachable_run Strict _ _ _ _ _ Hreach Hrun) as Hreach'.
    apply (clear_resets Strict h l 13 Hreach').
    destruct (PiggyListFacts.run_regular Strict _ _ _ _ _
                (PiggyListFacts.fresh_regular empty_heap 1 2 ∅ empty_heap_wf
                   ltac:(lia) eq_refl) Hrun)
      as (_ & Hbits & _).
    rewrite Hbits. simpl. lia.
  - vm_compute in Hrun. discriminate Hrun.
Defined.

(** ** [insertAt] *)

Section InsertClaims.
Import RandomInsertPiggyList RandomInsertFacts.
Context {T : Type}.

(** C6 (insertion count).  On a [RandomInsertPiggyList], after any run of
    [insertAt] calls on a new list, a further run of [insertAt] calls, with
    indices repeated or not, is defined (for indices inside the table's
    range, where the mask of [get] is defined) and increments [size()] by
    the number of calls; so [size()] is the number of calls made. *)
Theorem insertion_count im initialbitsize (h0 : heap T) l0 (before calls : list (Z * T)) :
  heap_wf h0 → create initialbitsize = Some l0 →
  (∀ index value, (index, value) ∈ before ++ calls →
     0 <= index ∧ index + 2 ^ initialbitsize < 2 ^ 64 ∧
     mask_defined im (Z.log2 (index + 2 ^ initialbitsize))) →
  Z.of_nat (length (before ++ calls)) < 2 ^ 64 →
  ∃ h1 l1 h l,
    insert_all im before (h0, l0) = Some (h1, l1) ∧
    insert_all im calls (h1, l1) = Some (h, l) ∧
    size l1 = Z.of_nat (length before) ∧
    size l = size l1 + Z.of_nat (length calls).
Proof.
  intros Hwf Hcreate Hcalls Hlen. rewrite length_app, Nat2Z.inj_add in Hlen.
  destruct (create_wf h0 initialbitsize l0 Hwf Hcreate) as (Hwf0 & _ & HB & Hn0).
  destruct (insert_all_defined im before h0 l0 Hwf0) as (h1 & l1 & Hrun1 & Hwf1 & Hn1 & HB1).
  { intros index value Hin. rewrite HB. apply (Hcalls index value).
    apply elem_of_app. left. exact Hin. }
  { lia. }
  { lia. }
  destruct (insert_all_defined im calls h1 l1 Hwf1) as (h & l & Hrun & _ & Hn & _).
  { intros index value Hin. rewrite HB1, HB. apply (Hcalls index value).
    apply elem_of_app. right. exact Hin. }
  { lia. }
  { lia. }
  exists h1, l1, h, l. unfold size. repeat split; try assumption; lia.
Qed.

End InsertClaims.

Lemma insertion_count_witness :
  ∃ h1 l1 h l,
    RandomInsertPiggyList.insert_all Strict [(3, 0)]
      (empty_heap, RandomInsertPiggyList.mk 1 2 0 ∅) = Some (h1, l1) ∧
    RandomInsertPiggyList.insert_all Strict [(5, 1); (5, 2)] (h1, l1) = Some (h, l) ∧
    RandomInsertPiggyList.size l1 = Z.of_nat (length [(3, 0)]) ∧
    RandomInsertPiggyList.size l
    = RandomInsertPiggyList.size l1 + Z.of_nat (length [(5, 1); (5, 2)]).
Proof.
  apply (insertion_count Strict 1 empty_heap).
  - apply empty_heap_wf.
  - reflexivity.
  - intros index value Hin.
    assert (index = 3 ∨ index = 5) as Hcases.
    { apply list_elem_of_In in Hin. simpl in Hin.
      destruct Hin as [Hin | [Hin | [Hin | []]]]; inversion Hin; auto. }
    destruct Hcases as [-> | ->]; simpl; lia.
  - simpl. lia.
Defined.

(** ** Stability *)

Section StabilityClaims.
Import PiggyList PiggyListFacts StabilityFacts.
Context {T : Type}.
Implicit Types (h : heap T) (l : PiggyList.t).

(** On a target that wraps, the element of index [2^32 - 2^16] of a
    default list is overwritten by the next [append]: both indices have
    [blockNum = 32], the mask [(1 << 32) - 1] is 0, and both are stored at
    offset 0 of block 16. *)
Lemma overwritten_on_wrapping_target (vs : list T) (v1 v2 : T) l0 :
  create_default = Some l0 → Z.of_nat (length vs) = 2 ^ 32 - 2 ^ 16 →
  ∃ h l h1 l1 h2 l2 r,
    run Wrap32 (Append <$> vs) (empty_heap, l0) = Some (h, l) ∧
    append Wrap32 h l v1 = Some (h1, l1, 2 ^ 32 - 2 ^ 16) ∧
    append Wrap32 h1 l1 v2 = Some (h2, l2, 2 ^ 32 - 2 ^ 16 + 1) ∧
    get Wrap32 h2 l2 (2 ^ 32 - 2 ^ 16) = Some r ∧ load h2 r = Some v2.
Proof.
  intros Hcreate Hlen.
  destruct (create_regular (T := T) empty_heap 16 l0 empty_heap_wf Hcreate)
    as (Hreg0 & Hbits0 & HB0 & Hnc0 & Hm0).
  destruct (appends_defined Wrap32 vs empty_heap l0 Hreg0) as
    (h & l & Hrun & Hreg & Htight & Hm & Hb & HB & _).
  { left. exact Hnc0. }
  { rewrite Hm0, HB0, Hlen. lia. }
  { intros m _. exact I. }
  rewrite Hm0, Hlen in Hm. rewrite Hbits0 in Hb. rewrite HB0 in HB.
  destruct (append_next Wrap32 h l v1 Hreg Htight) as
    (h1 & l1 & r1 & Happ1 & Hreg1 & Htight1 & Hm1 & (Hb1 & HB1 & _) & _).
  { rewrite Hm, HB. lia. }
  { exact I. }
  simpl in Hb1, HB1.
  destruct (append_next Wrap32 h1 l1 v2 Hreg1 Htight1) as
    (h2 & l2 & r2 & Happ2 & _ & _ & _ & (Hb2 & HB2 & _) & Hget2 & Hload2).
  { rewrite Hm1, Hm, HB1, HB. lia. }
  { exact I. }
  simpl in Hb2, HB2.
  replace (m_size l) with (2 ^ 32 - 2 ^ 16) in * by lia.
  replace (m_size l1) with (2 ^ 32 - 2 ^ 16 + 1) in * by lia.
  exists h, l, h1, l1, h2, l2, r2.
  split; [exact Hrun |]. split; [exact Happ1 |]. split; [exact Happ2 |].
  split; [| exact Hload2].
  rewrite <- Hget2. apply get_same_position.
  rewrite Hb2, Hb1, Hb, HB2, HB1, HB. vm_compute. reflexivity.
Qed.

(** On the abstract machine, [append] on a default list is undefined from
    the index [2^31 - 2^16] on. *)
Lemma undefined_on_abstract_machine (vs : list T) (v : T) l0 :
  create_default = Some l0 → Z.of_nat (length vs) = 2 ^ 31 - 2 ^ 16 →
  ∃ h l,
    run Strict (Append <$> vs) (empty_heap, l0) = Some (h, l) ∧
    size l = 2 ^ 31 - 2 ^ 16 ∧ append Strict h l v = None.
Proof.
  intros Hcreate Hlen.
  destruct (create_regular (T := T) empty_heap 16 l0 empty_heap_wf Hcreate)
    as (Hreg0 & Hbits0 & HB0 & Hnc0 & Hm0).
  destruct (appends_defined Strict vs empty_heap l0 Hreg0) as
    (h & l & Hrun & Hreg & Htight & Hm & Hb & HB & _).
  { left. exact Hnc0. }
  { rewrite Hm0, HB0, Hlen. lia. }
  { intros m Hmr. rewrite Hm0, Hlen in Hmr. rewrite HB0. simpl.
    assert (Z.log2 (m + 2 ^ 16) < 31) by (apply Z.log2_lt_pow2; lia). lia. }
  rewrite Hm0, Hlen in Hm. rewrite Hbits0 in Hb. rewrite HB0 in HB.
  exists h, l. split; [exact Hrun |]. split; [unfold size; lia |].
  apply append_undefined; [exact Hreg | rewrite Hm, HB; lia |].
  rewrite Hb, HB. replace (m_size l) with (2 ^ 31 - 2 ^ 16) by lia.
  vm_compute. reflexivity.
Qed.

End StabilityClaims.

(** C2 (stability).  A value appended at index [i] stays where it is and
    is what [get(i)] returns while [size() + B] is within [2^32]
    ([StabilityFacts.stability_in_range]), but not for every run of
    [append] calls.  On a default list ([B = 2^16]), after
    [2^32 - 2^16] appends, on a target that wraps: [append(1)] returns
    index [2^32 - 2^16], the next [append(2)] stores at the same location,
    and [get(2^32 - 2^16)] then finds 2.  On the abstract machine the run
    is undefined earlier: after [2^31 - 2^16] appends the next [append]
    has no defined behaviour. *)
Theorem stability_lost_past_int_shift :
  ∃ l0,
    PiggyList.create_default = Some l0 ∧
    (∃ h l h1 l1 h2 l2 r,
       PiggyList.run Wrap32
         (PiggyList.Append <$> replicate (Z.to_nat (2 ^ 32 - 2 ^ 16)) 0)
         (empty_heap, l0) = Some (h, l) ∧
       PiggyList.append Wrap32 h l 1 = Some (h1, l1, 2 ^ 32 - 2 ^ 16) ∧
       PiggyList.append Wrap32 h1 l1 2 = Some (h2, l2, 2 ^ 32 - 2 ^ 16 + 1) ∧
       PiggyList.get Wrap32 h2 l2 (2 ^ 32 - 2 ^ 16) = Some r ∧
       load h2 r = Some 2) ∧
    (∃ h l,
       PiggyList.run Strict
         (PiggyList.Append <$> replicate (Z.to_nat (2 ^ 31 - 2 ^ 16)) 0)
         (empty_heap, l0) = Some (h, l) ∧
       PiggyList.size l = 2 ^ 31 - 2 ^ 16 ∧
       PiggyList.append Strict h l 1 = None).
Proof.
  eexists. split; [reflexivity |]. split.
  - apply overwritten_on_wrapping_target; [reflexivity |].
    rewrite length_replicate, Z2Nat.id; lia.
  - apply undefined_on_abstract_machine; [reflexivity |].
    rewrite length_replicate, Z2Nat.id; lia.
Qed.

(** ** Concurrent calls *)

Module ConcurrentFacts.
Import PiggyList PiggyListFacts Concurrent.

Section Facts.
Context {T : Type}.
Implicit Types (sh : shared T) (th : thread T) (ths : list (thread T)).

(** A step either is the [fetch_add] of a call, which gives the thread the
    old size and increments the size, or changes neither the size nor the
    index the thread holds. *)
Lemma thread_next_index im sh th sh' th' :
  thread_next im sh th = Some (sh', th') →
  (reserved_index th = None ∧
   reserved_index th' = Some (m_size (sh_list sh)) ∧
   m_size (sh_list sh') = wrap64 (m_size (sh_list sh) + 1)) ∨
  (reserved_index th' = reserved_index th ∧ is_Some (reserved_index th) ∧
   m_size (sh_list sh') = m_size (sh_list sh)).
Proof.
  intros H. destruct th as [o | o i | o i | o i | [v |] i | i]; simpl in H.
  - left. inversion H; subst. simpl. repeat split; reflexivity.
  - right. inversion H; subst. destruct (must_grow (sh_list sh') i); simpl; eauto.
  - right. destruct (sl_locked sh); inversion H; subst; simpl; eauto.
  - right. destruct (must_grow (sh_list sh) i).
    + destruct (grow_step (sh_heap sh) (sh_list sh)) as [[h1 l1] |] eqn:E; simpl in H;
        [| discriminate].
      inversion H; subst. apply grow_step_Some in E as (_ & _ & ->). simpl. eauto.
    + inversion H; subst. simpl. eauto.
  - right. destruct (get im (sh_heap sh) (sh_list sh) i) as [r |]; simpl in H; [| discriminate].
    destruct (store (sh_heap sh) r v) as [h1 |]; simpl in H; [| discriminate].
    inversion H; subst. simpl. eauto.
  - right. inversion H; subst. simpl. eauto.
  - discriminate.
Qed.

Lemma omap_insert_same {A B : Type} (f : A → option B) (l : list A) k x y :
  l !! k = Some x → f y = f x → omap f (<[k := y]> l) = omap f l.
Proof.
  unfold omap. revert k.
  induction l as [| a l IH]; intros [| k] Hk Hf; simpl in *; try discriminate.
  - inversion Hk; subst. rewrite Hf. reflexivity.
  - rewrite (IH k Hk Hf). reflexivity.
Qed.

Lemma omap_insert_new {A B : Type} (f : A → option B) (l : list A) k x y b :
  l !! k = Some x → f x = None → f y = Some b →
  omap f (<[k := y]> l) ≡ₚ b :: omap f l.
Proof.
  unfold omap. revert k.
  induction l as [| a l IH]; intros [| k] Hk Hx Hy; simpl in *; try discriminate.
  - inversion Hk; subst. rewrite Hx, Hy. reflexivity.
  - specialize (IH k Hk Hx Hy). destruct (f a) as [b0 |]; [| exact IH].
    rewrite IH. apply perm_swap.
Qed.

Lemma omap_length_le {A B : Type} (f : A → option B) (l : list A) :
  (length (omap f l) <= length l)%nat.
Proof.
  unfold omap. induction l as [| a l IH]; simpl; [lia |]. destruct (f a); simpl; lia.
Qed.

Lemma omap_length_lt {A B : Type} (f : A → option B) (l : list A) k x :
  l !! k = Some x → f x = None → (length (omap f l) < length l)%nat.
Proof.
  pose proof (omap_length_le f) as Hle. unfold omap in *. revert k.
  induction l as [| a l IH]; intros [| k] Hk Hx; simpl in *; try discriminate.
  - inversion Hk; subst. rewrite Hx. specialize (Hle l). lia.
  - specialize (IH k Hk Hx). destruct (f a); simpl; lia.
Qed.

Lemma omap_all_some {A B : Type} (f g : A → option B) (l : list A) :
  (∀ x b, g x = Some b → f x = Some b) →
  Forall (λ x, is_Some (g x)) l → omap g l = omap f l ∧ length (omap f l) = length l.
Proof.
  intros Hfg Hall. unfold omap.
  induction Hall as [| x l [b Hb] _ [IH1 IH2]]; simpl; [auto |].
  rewrite Hb, (Hfg x b Hb). simpl. rewrite IH1, IH2. auto.
Qed.

(** The indices handed out are [m], [m + 1], ... in some order, and the
    size counter is past the last of them. *)
Lemma indices_invariant im m (n : nat) (c c' : shared T * list (thread T)) :
  0 <= m → m + Z.of_nat n < 2 ^ 64 → length c.2 = n →
  m_size (sh_list c.1) = m + Z.of_nat (length (omap reserved_index c.2)) →
  omap reserved_index c.2 ≡ₚ seqZ m (Z.of_nat (length (omap reserved_index c.2))) →
  rtc (step im) c c' →
  length c'.2 = n ∧
  m_size (sh_list c'.1) = m + Z.of_nat (length (omap reserved_index c'.2)) ∧
  omap reserved_index c'.2 ≡ₚ seqZ m (Z.of_nat (length (omap reserved_index c'.2))).
Proof.
  intros Hm Hn Hlen Hsize Hperm Hrun. revert Hlen Hsize Hperm.
  induction Hrun as [c | c c1 c' Hstep _ IH]; intros Hlen Hsize Hperm; [auto |].
  destruct Hstep as [sh ths k th sh' th' Hk Hnext]. simpl in *.
  apply IH; simpl.
  - rewrite length_insert. exact Hlen.
  - destruct (thread_next_index im sh th sh' th' Hnext) as [(H1 & H2 & H3) | (H1 & _ & H3)].
    + pose proof (omap_insert_new reserved_index ths k th th' _ Hk H1 H2) as Hp.
      pose proof (omap_length_lt reserved_index ths k th Hk H1) as Hlt.
      rewrite H3, Hsize, (Permutation_length Hp). simpl length.
      rewrite Nat2Z.inj_succ. rewrite wrap64_small by lia. lia.
    + rewrite (omap_insert_same reserved_index ths k th th' Hk H1). congruence.
  - destruct (thread_next_index im sh th sh' th' Hnext) as [(H1 & H2 & H3) | (H1 & _ & H3)].
    + pose proof (omap_insert_new reserved_index ths k th th' _ Hk H1 H2) as Hp.
      rewrite (Permutation_length Hp). simpl length.
      etransitivity; [exact Hp |]. etransitivity; [apply perm_skip; exact Hperm |].
      rewrite Nat2Z.inj_succ, <- Z.add_1_r, seqZ_app by lia.
      rewrite seqZ_one, Hsize. apply Permutation_cons_append.
    + rewrite (omap_insert_same reserved_index ths k th th' Hk H1). exact Hperm.
Qed.

(** Every schedule is an interleaving. *)
Lemma run_schedule_steps im schedule : ∀ c c' : shared T * list (thread T),
  run_schedule im schedule c = Some c' → rtc (step im) c c'.
Proof.
  induction schedule as [| k rest IH]; intros [sh ths] c' Hrun; simpl in Hrun.
  - inversion Hrun; subst. apply rtc_refl.
  - destruct (ths !! k) as [th |] eqn:Ek; simpl in Hrun; [| discriminate].
    destruct (thread_next im sh th) as [[sh' th'] |] eqn:En; simpl in Hrun; [| discriminate].
    eapply rtc_l; [| apply IH; exact Hrun].
    apply (step_thread im sh ths k th sh' th' Ek En).
Qed.

End Facts.
End ConcurrentFacts.

Section ConcurrentClaims.
Import PiggyList Concurrent ConcurrentFacts.
Context {T : Type}.

(** C3 (uniqueness).  [N] calls of [append] and [createNode] run by [N]
    threads on a new list, interleaved in any way at their atomic steps:
    at every moment the indices given out so far are [0, 1, ...] without a
    gap and without a duplicate, and once every call has returned, the
    values returned are exactly [0 .. N-1], each once. *)
Theorem concurrent_indices_unique im initialbitsize (h : heap T) l (ops : list (op T))
    (sh : shared T) (ths : list (thread T)) :
  create initialbitsize = Some l →
  Z.of_nat (length ops) < 2 ^ 64 →
  rtc (step im) (Shared h l false, Ready <$> ops) (sh, ths) →
  omap reserved_index ths ≡ₚ seqZ 0 (Z.of_nat (length (omap reserved_index ths))) ∧
  NoDup (omap reserved_index ths) ∧
  (Forall (λ th, is_Some (returned_index th)) ths →
   omap returned_index ths ≡ₚ seqZ 0 (Z.of_nat (length ops))).
Proof.
  intros Hcreate Hlen Hrun.
  assert (Hm0 : m_size l = 0).
  { unfold create in Hcreate. destruct (ul_shl1 initialbitsize); simpl in Hcreate;
      [| discriminate]. inversion Hcreate; subst. reflexivity. }
  assert (Hnone : omap reserved_index (Ready <$> ops) = []).
  { clear. induction ops as [| o ops IH]; simpl; [reflexivity | exact IH]. }
  destruct (indices_invariant im 0 (length ops)
              (Shared h l false, Ready <$> ops) (sh, ths)) as (Hlen' & _ & Hperm).
  { lia. }
  { lia. }
  { simpl. apply length_fmap. }
  { simpl. rewrite Hnone. simpl. lia. }
  { simpl. rewrite Hnone. reflexivity. }
  { exact Hrun. }
  simpl in Hlen', Hperm.
  split; [exact Hperm |]. split.
  - rewrite Hperm. apply NoDup_seqZ.
  - intros Hall.
    destruct (omap_all_some reserved_index returned_index ths) as [E1 E2]; [| exact Hall |].
    { intros [] b Hb; simpl in *; try discriminate; exact Hb. }
    rewrite E1. rewrite E2, Hlen' in Hperm. exact Hperm.
Qed.

End ConcurrentClaims.

Lemma concurrent_indices_unique_witness :
  ∃ sh ths,
    Concurrent.run_schedule Strict [0; 1; 1; 0; 1; 0; 1; 1; 0; 0; 0; 1]%nat
      (Concurrent.Shared empty_heap (PiggyList.mk 1 2 0 2 0 0 ∅) false,
       Concurrent.Ready <$> [Concurrent.OpAppend 7; Concurrent.OpCreateNode])
    = Some (sh, ths) ∧
    ths = [Concurrent.Returned 0; Concurrent.Returned 1] ∧
    omap Concurrent.returned_index ths ≡ₚ seqZ 0 (Z.of_nat 2).
Proof.
  destruct (Concurrent.run_schedule Strict _ _) as [[sh ths] |] eqn:Hrun.
  - exists sh, ths. split; [reflexivity |].
    pose proof (ConcurrentFacts.run_schedule_steps Strict _ _ _ Hrun) as Hsteps.
    assert (Hths : ths = [Concurrent.Returned 0; Concurrent.Returned 1]).
    { vm_compute in Hrun. inversion Hrun. reflexivity. }
    split; [exact Hths |].
    destruct (concurrent_indices_unique Strict 1 empty_heap (PiggyList.mk 1 2 0 2 0 0 ∅)
                [Concurrent.OpAppend 7; Concurrent.OpCreateNode] sh ths
                eq_refl ltac:(simpl; lia) Hsteps) as (_ & _ & Hret).
    apply Hret. rewrite Hths. repeat constructor; simpl; eauto.
  - vm_compute in Hrun. discriminate Hrun.
Defined.

(** * Further properties of the code *)

(** ** The values of a [PiggyList] *)

Module SequenceFacts.
Import PiggyList PiggyListFacts.

Section Values.
Context {T : Type}.
Implicit Types (h : heap T) (l : t) (blk : block T).

(** A reference that [get] returns points into a block that the list
    owns. *)
Lemma get_owned im h l i a off :
  no_stale h l → get im h l i = Some (a, off) →
  ∃ slot, block_position im (BLOCKBITS l) (BLOCKSIZE l) i = Some (slot, off) ∧
          0 <= slot < num_containers l ∧ blockLookupTable l !! slot = Some a.
Proof.
  intros Hns Hget. apply get_Some in Hget as (slot & blk & Hpos & _ & Ea & Eb & _).
  exists slot. split; [exact Hpos |]. split; [| exact Ea].
  destruct (Hns slot a Ea) as [_ [Hin | Hdead]]; [exact Hin | congruence].
Qed.

(** A store moves no element. *)
Lemma store_get im h l r (v : T) h' i :
  store h r v = Some h' → get im h' l i = get im h l i.
Proof.
  intros Hst. apply store_Some in Hst as (b0 & Eb0 & _ & ->).
  unfold get.
  destruct (block_position im (BLOCKBITS l) (BLOCKSIZE l) i) as [[slot ind] |];
    simpl; [| reflexivity].
  destruct (getBlock l slot) as [[a |] |]; simpl; try reflexivity.
  destruct (decide (a = r.1)) as [-> | Hne].
  - rewrite lookup_insert_eq, Eb0. reflexivity.
  - rewrite lookup_insert_ne by congruence. reflexivity.
Qed.

(** One iteration of the growth loop changes the value of no index: an
    index of the new block had no block before and has no value now. *)
Lemma grow_step_value_at im h l h' l' i :
  no_stale h l → grow_step h l = Some (h', l') →
  value_at im h' l' i = value_at im h l i.
Proof.
  intros Hns Hstep. apply grow_step_Some in Hstep as (Hnc & -> & ->).
  unfold value_at, get, getBlock. simpl.
  destruct (block_position im (BLOCKBITS l) (BLOCKSIZE l) i) as [[slot ind] |];
    simpl; [| reflexivity].
  destruct ((0 <=? slot) && (slot <? max_conts)); simpl; [| reflexivity].
  destruct (decide (slot = num_containers l)) as [-> | Hne].
  - rewrite !lookup_insert_eq. simpl. rewrite lookup_insert_eq. simpl.
    assert (Hold : (a ← blockLookupTable l !! num_containers l;
                    blk ← h_blocks h !! a;
                    if (0 <=? ind) && (ind <? blk_len blk) then Some (a, ind) else None)
                   = None).
    { destruct (blockLookupTable l !! num_containers l) as [a |] eqn:Ea; [| reflexivity].
      simpl. destruct (Hns _ a Ea) as [_ [Hin | Hdead]]; [lia |].
      rewrite Hdead. reflexivity. }
    rewrite Hold. simpl.
    destruct ((0 <=? ind) && (ind <? allocsize l)); [| reflexivity].
    simpl. unfold load. simpl. rewrite lookup_insert_eq. simpl.
    destruct ((0 <=? ind) && (ind <? allocsize l)); [apply lookup_empty | reflexivity].
  - rewrite lookup_insert_ne by congruence.
    destruct (blockLookupTable l !! slot) as [a |] eqn:Ea; simpl; [| reflexivity].
    destruct (Hns slot a Ea) as [Ha _].
    rewrite lookup_insert_ne by lia.
    destruct (h_blocks h !! a) as [blk |] eqn:Eb; simpl; [| reflexivity].
    destruct ((0 <=? ind) && (ind <? blk_len blk)); [| reflexivity].
    simpl. unfold load. simpl. rewrite lookup_insert_ne by lia. reflexivity.
Qed.

(** Growth changes the value of no index. *)
Lemma ensure_value_at im h l n h' l' :
  owns h l → no_stale h l → ensure h l n = Some (h', l') →
  ∀ i, value_at im h' l' i = value_at im h l i.
Proof.
  intros Howns Hns Hrun. unfold ensure in Hrun.
  destruct (must_grow l n); [| inversion Hrun; subst; reflexivity].
  destruct (grow_loop_invariant
              (λ h1 l1, owns h1 l1 ∧ no_stale h1 l1 ∧
                        ∀ i, value_at im h1 l1 i = value_at im h l i) n)
    with (fuel := Z.to_nat (max_conts - num_containers l))
         (h := h) (l := l) (h' := h') (l' := l') as [(_ & _ & H1) _].
  - intros h1 l1 h2 l2 (Ho & Hn & Hv) _ Hstep.
    destruct (grow_step_frame h1 l1 h2 l2 Ho Hn Hstep) as [_ Hn2].
    split; [apply (grow_step_owns h1 l1); assumption |]. split; [exact Hn2 |].
    intros i. rewrite (grow_step_value_at im h1 l1 h2 l2 i Hn Hstep). apply Hv.
  - split; [exact Howns |]. split; [exact Hns | reflexivity].
  - exact Hrun.
  - exact H1.
Qed.

(** A store through the reference of index [m] gives [m] its value and
    changes the value of no index with another position. *)
Lemma store_value_at im h l m r (v : T) h' i :
  owns h l → no_stale h l → get im h l m = Some r → store h r v = Some h' →
  value_at im h' l i
  = if decide (block_position im (BLOCKBITS l) (BLOCKSIZE l) i
               = block_position im (BLOCKBITS l) (BLOCKSIZE l) m)
    then Some v else value_at im h l i.
Proof.
  intros Howns Hns Hget Hst. unfold value_at. rewrite (store_get im h l r v h' i Hst).
  destruct (decide _) as [Heq | Hne].
  - rewrite (get_same_position im h l i m Heq), Hget. simpl.
    apply (load_store_same h r v h' Hst).
  - destruct (get im h l i) as [r' |] eqn:Hget'; simpl; [| reflexivity].
    apply (load_store_other h r v h' r' Hst).
    intros ->. apply Hne. destruct r as [a off].
    destruct (get_owned im h l i a off Hns Hget') as (s1 & P1 & R1 & E1).
    destruct (get_owned im h l m a off Hns Hget) as (s2 & P2 & R2 & E2).
    destruct Howns as (_ & _ & _ & _ & _ & Hinj).
    rewrite (Hinj s1 s2 a R1 R2 E1 E2) in P1. congruence.
Qed.

(** Where [index + B] is below [2^32], two indices have the same position
    only if they are the same. *)
Lemma block_position_injective im bits i m :
  0 <= bits → 0 <= i → 0 <= m → i + 2 ^ bits < 2 ^ 32 → m + 2 ^ bits < 2 ^ 32 →
  is_Some (block_position im bits (2 ^ bits) m) →
  block_position im bits (2 ^ bits) i = block_position im bits (2 ^ bits) m → i = m.
Proof.
  intros Hbits Hi Hm Hil Hml [p Hp] Heq. rewrite Hp in Heq.
  apply block_position_exact in Hp; [| assumption ..].
  apply block_position_exact in Heq; [| assumption ..].
  apply (spec_position_injective bits); [assumption .. | congruence].
Qed.

Lemma value_at_reserve im h l i : value_at im h (reserve l).1 i = value_at im h l i.
Proof. reflexivity. Qed.

Lemma models_length im h l s : models im h l s → m_size l = Z.of_nat (length s).
Proof. intros [H _]. exact H. Qed.

Lemma lookup_snoc_join (s : list (option T)) (x : option T) (i : Z) :
  0 <= i →
  mjoin ((s ++ [x]) !! Z.to_nat i)
  = if decide (i = Z.of_nat (length s)) then x else mjoin (s !! Z.to_nat i).
Proof.
  intros Hi. destruct (decide (i = Z.of_nat (length s))) as [-> | Hne].
  - rewrite Nat2Z.id, list_lookup_middle by reflexivity. reflexivity.
  - destruct (Z_lt_le_dec i (Z.of_nat (length s))) as [Hlt | Hge].
    + rewrite lookup_app_l by lia. reflexivity.
    + rewrite (lookup_ge_None_2 s) by lia.
      rewrite lookup_ge_None_2; [reflexivity |]. rewrite length_app. simpl. lia.
Qed.

(** One call, against the sequence. *)
Lemma run_call_models im c h l h' l' (s : list (option T)) :
  regular h l → no_stale h l → models im h l s →
  m_size l + 1 + BLOCKSIZE l <= 2 ^ 32 →
  run_call im c (h, l) = Some (h', l') →
  models im h' l' (sequence_step s c).
Proof.
  intros Hreg Hns [Hlen Hval] Hfit Hrun.
  pose proof Hreg as [Hshape Hm].
  pose proof Hshape as (Howns & _). pose proof Howns as (_ & Hbits & HB & _).
  assert (HBpos : 0 < BLOCKSIZE l) by (rewrite HB; apply pow2_pos; lia).
  assert (Hw : wrap64 (m_size l + 1) = m_size l + 1) by (apply wrap64_small; lia).
  destruct c as [v | |]; simpl in Hrun.
  - destruct (append im h l v) as [[[h1 l1] i1] |] eqn:E; simpl in Hrun; [| discriminate].
    inversion Hrun; subst h1 l1.
    apply append_Some in E as (-> & h2 & r & Hens & Hget & Hst).
    destruct (ensure_owns _ _ _ _ _ (reserve_owns h l Howns) Hens)
      as (Howns2 & (Hb1 & Hb2 & Hm2 & _) & _).
    destruct (ensure_frame h (reserve l).1 (m_size l) h2 l'
                (reserve_owns h l Howns) Hns Hens) as [_ Hns2].
    simpl in Hb1, Hb2, Hm2.
    split.
    + simpl. rewrite Hm2, Hw, length_app, Hlen. simpl. lia.
    + intros i Hi Hil. rewrite Hb2 in Hil.
      rewrite (store_value_at im h2 l' (m_size l) r v h' i Howns2 Hns2 Hget Hst).
      simpl. rewrite lookup_snoc_join by exact Hi. rewrite <- Hlen.
      rewrite Hb1, Hb2, HB.
      destruct (decide (i = m_size l)) as [-> | Hne].
      * rewrite decide_True by reflexivity. reflexivity.
      * rewrite decide_False.
        -- rewrite (ensure_value_at im h (reserve l).1 (m_size l) h2 l'
                      (reserve_owns h l Howns) Hns Hens i).
           apply Hval; assumption.
        -- intros Heq. apply Hne.
           apply (block_position_injective im (BLOCKBITS l) i (m_size l));
             try lia; try (rewrite <- HB; lia); [| exact Heq].
           destruct r as [a off]. apply get_Some in Hget as (slot & _ & Hpos & _).
           rewrite Hb1, Hb2, HB in Hpos. rewrite Hpos. eauto.
  - destruct (createNode h l) as [[[h1 l1] i1] |] eqn:E; simpl in Hrun; [| discriminate].
    inversion Hrun; subst h1 l1.
    apply createNode_Some in E as (-> & Hens).
    destruct (ensure_owns _ _ _ _ _ (reserve_owns h l Howns) Hens)
      as (_ & (Hb1 & Hb2 & Hm2 & _) & _).
    simpl in Hb1, Hb2, Hm2.
    split.
    + simpl. rewrite Hm2, Hw, length_app, Hlen. simpl. lia.
    + intros i Hi Hil. rewrite Hb2 in Hil.
      rewrite (ensure_value_at im h (reserve l).1 (m_size l) h' l'
                 (reserve_owns h l Howns) Hns Hens i).
      rewrite value_at_reserve, (Hval i Hi Hil).
      simpl. rewrite lookup_snoc_join by exact Hi. rewrite <- Hlen.
      destruct (decide (i = m_size l)) as [-> | Hne]; [| reflexivity].
      rewrite lookup_ge_None_2 by lia. reflexivity.
  - destruct (run_call_frame im Clear h l h' l' Howns Hns Hrun) as [_ Hns'].
    destruct (clear_regular h l h' l' Howns Hrun) as [_ ->].
    split; [reflexivity |].
    intros i _ _. simpl. unfold value_at.
    destruct (get im h' _ i) as [[a off] |] eqn:Hget; [| reflexivity].
    apply get_owned in Hget as (slot & _ & Hslot & _); [| exact Hns'].
    simpl in Hslot. lia.
Qed.

Lemma sequence_step_length (s : list (option T)) c :
  (length (sequence_step s c) <= length s + 1)%nat.
Proof. destruct c; simpl; rewrite ?length_app; simpl; lia. Qed.

(** A run of calls, against the sequence. *)
Lemma run_models im calls : ∀ h l (s : list (option T)) h' l',
  regular h l → no_stale h l → models im h l s →
  m_size l + Z.of_nat (length calls) + BLOCKSIZE l <= 2 ^ 32 →
  run im calls (h, l) = Some (h', l') →
  regular h' l' ∧ no_stale h' l' ∧ models im h' l' (foldl sequence_step s calls).
Proof.
  induction calls as [| c calls IH]; intros h l s h' l' Hreg Hns Hmod Hfit Hrun;
    simpl in Hrun.
  - inversion Hrun; subst. simpl. auto.
  - simpl length in Hfit. rewrite Nat2Z.inj_succ in Hfit.
    destruct (run_call im c (h, l)) as [[h1 l1] |] eqn:E; simpl in Hrun; [| discriminate].
    destruct (run_call_regular im c h l h1 l1 Hreg E) as (Hreg1 & _ & HB1).
    destruct (run_call_frame im c h l h1 l1 (proj1 (proj1 Hreg)) Hns E) as [_ Hns1].
    pose proof (run_call_models im c h l h1 l1 s Hreg Hns Hmod ltac:(lia) E) as Hmod1.
    simpl. apply (IH h1 l1 _ h' l' Hreg1 Hns1 Hmod1); [| exact Hrun].
    rewrite (models_length im h1 l1 _ Hmod1), HB1.
    rewrite (models_length im h l s Hmod) in Hfit.
    pose proof (sequence_step_length s c). lia.
Qed.

(** A newly constructed list, against the empty sequence. *)
Lemma create_models im h bits l :
  heap_wf h → create bits = Some l →
  regular h l ∧ no_stale h l ∧ models im h l [] ∧ BLOCKSIZE l = 2 ^ bits ∧ 0 <= bits < 64.
Proof.
  intros Hwf Hc.
  destruct (create_regular h bits l Hwf Hc) as (Hreg & Hb & HB & Hnc & Hm).
  assert (Hns : no_stale h l).
  { apply (reachable_no_stale im). apply (reach_create im h bits); assumption. }
  split; [exact Hreg |]. split; [exact Hns |]. split; [| split; [exact HB |]].
  - split; [exact Hm |]. intros i _ _. simpl. unfold value_at.
    destruct (get im h l i) as [[a off] |] eqn:Hget; [| reflexivity].
    apply get_owned in Hget as (slot & _ & Hslot & _); [lia | exact Hns].
  - destruct Hreg as (((_ & Hbits & _) & _) & _). rewrite <- Hb. exact Hbits.
Qed.

End Values.
End SequenceFacts.

(** ** Runs of calls on a [PiggyList] *)

Module RunFacts.
Import PiggyList PiggyListFacts.

Section Runs.
Context {T : Type}.
Implicit Types (h : heap T) (l : t) (blk : block T).

(** A call is defined while the table's range covers the new index and the
    mask of [get] is defined for it. *)
Lemma run_call_defined im (c : call T) h l :
  regular h l → m_size l + 1 + BLOCKSIZE l <= 2 ^ 64 →
  mask_defined im (Z.log2 (m_size l + BLOCKSIZE l)) →
  ∃ h' l', run_call im c (h, l) = Some (h', l') ∧ 0 <= m_size l' <= m_size l + 1.
Proof.
  intros Hreg Hfit Hmask. pose proof Hreg as [_ Hm]. destruct c as [v | |]; simpl.
  - destruct (append_defined im h l v Hreg Hfit Hmask) as (h' & l' & r & E & Hm' & _).
    exists h', l'. rewrite E. simpl. split; [reflexivity | lia].
  - destruct (createNode_defined h l Hreg Hfit) as (h' & l' & E & Hm').
    exists h', l'. rewrite E. simpl. split; [reflexivity | lia].
  - destruct (clear_defined h l (proj1 (proj1 Hreg))) as (h' & E & _).
    eexists _, _. split; [exact E |]. simpl. lia.
Qed.

Lemma run_defined im (calls : list (call T)) : ∀ h l,
  regular h l → m_size l + Z.of_nat (length calls) + BLOCKSIZE l <= 2 ^ 64 →
  (∀ m, 0 <= m < m_size l + Z.of_nat (length calls) →
        mask_defined im (Z.log2 (m + BLOCKSIZE l))) →
  ∃ h' l', run im calls (h, l) = Some (h', l').
Proof.
  induction calls as [| c calls IH]; intros h l Hreg Hfit Hmask.
  - exists h, l. reflexivity.
  - simpl length in *. rewrite Nat2Z.inj_succ in *.
    pose proof Hreg as [_ Hm].
    destruct (run_call_defined im c h l Hreg ltac:(lia) ltac:(apply Hmask; lia))
      as (h1 & l1 & E & Hm1).
    destruct (run_call_regular im c h l h1 l1 Hreg E) as (Hreg1 & _ & HB1).
    destruct (IH h1 l1 Hreg1) as (h' & l' & Hrun).
    { rewrite HB1. lia. }
    { intros m Hmr. rewrite HB1. apply Hmask. lia. }
    exists h', l'. simpl. rewrite E. exact Hrun.
Qed.

(** The size after a call. *)
Lemma run_call_size im (c : call T) h l h' l' (s : list (option T)) :
  regular h l → m_size l + 1 < 2 ^ 64 → m_size l = Z.of_nat (length s) →
  run_call im c (h, l) = Some (h', l') →
  m_size l' = Z.of_nat (length (sequence_step s c)).
Proof.
  intros Hreg Hfit Hlen Hrun.
  assert (Hw : wrap64 (m_size l + 1) = m_size l + 1) by (apply wrap64_small; lia).
  destruct c as [v | |]; simpl in Hrun.
  - destruct (append im h l v) as [[[h1 l1] i1] |] eqn:E; simpl in Hrun; [| discriminate].
    inversion Hrun; subst h1 l1.
    destruct (append_regular im h l v h' l' i1 Hreg E) as (_ & _ & Hm' & _).
    simpl. rewrite length_app. simpl. lia.
  - destruct (createNode h l) as [[[h1 l1] i1] |] eqn:E; simpl in Hrun; [| discriminate].
    inversion Hrun; subst h1 l1.
    destruct (createNode_regular h l h' l' i1 Hreg E) as (_ & _ & Hm' & _).
    simpl. rewrite length_app. simpl. lia.
  - destruct (clear_regular h l h' l' (proj1 (proj1 Hreg)) Hrun) as [_ ->]. reflexivity.
Qed.

Lemma run_size im (calls : list (call T)) : ∀ h l h' l' (s : list (option T)),
  regular h l → m_size l + Z.of_nat (length calls) < 2 ^ 64 →
  m_size l = Z.of_nat (length s) →
  run im calls (h, l) = Some (h', l') →
  m_size l' = Z.of_nat (length (foldl sequence_step s calls)).
Proof.
  induction calls as [| c calls IH]; intros h l h' l' s Hreg Hfit Hlen Hrun; simpl in Hrun.
  - inversion Hrun; subst. exact Hlen.
  - simpl length in Hfit. rewrite Nat2Z.inj_succ in Hfit.
    destruct (run_call im c (h, l)) as [[h1 l1] |] eqn:E; simpl in Hrun; [| discriminate].
    destruct (run_call_regular im c h l h1 l1 Hreg E) as (Hreg1 & _).
    pose proof (run_call_size im c h l h1 l1 s Hreg ltac:(lia) Hlen E) as Hlen1.
    simpl. apply (IH h1 l1 h' l' _ Hreg1); [| exact Hlen1 | exact Hrun].
    pose proof (SequenceFacts.sequence_step_length s c). lia.
Qed.

Lemma sequence_length (calls : list (call T)) : ∀ s : list (option T),
  (length (foldl sequence_step s calls) <= length s + length calls)%nat.
Proof.
  induction calls as [| c calls IH]; intros s; simpl; [lia |].
  pose proof (IH (sequence_step s c)). pose proof (SequenceFacts.sequence_step_length s c).
  lia.
Qed.

(** *** No block more than needed *)

Lemma run_call_tight im (c : call T) h l h' l' :
  regular h l → tight l → m_size l + 1 < 2 ^ 64 →
  run_call im c (h, l) = Some (h', l') → tight l'.
Proof.
  intros Hreg Htight Hfit Hrun. pose proof Hreg as [Hshape Hm].
  assert (Hw : wrap64 (m_size l + 1) = m_size l + 1) by (apply wrap64_small; lia).
  destruct c as [v | |]; simpl in Hrun.
  - destruct (append im h l v) as [[[h1 l1] i1] |] eqn:E; simpl in Hrun; [| discriminate].
    inversion Hrun; subst h1 l1.
    apply append_Some in E as (_ & h2 & r & Hens & _ & _).
    apply (ensure_tight h (reserve l).1 (m_size l) h2 l');
      [apply reserve_shape; exact Hshape | exact Hw | exact Hw | exact Htight | exact Hens].
  - destruct (createNode h l) as [[[h1 l1] i1] |] eqn:E; simpl in Hrun; [| discriminate].
    inversion Hrun; subst h1 l1.
    apply createNode_Some in E as (_ & Hens).
    apply (ensure_tight h (reserve l).1 (m_size l) h' l');
      [apply reserve_shape; exact Hshape | exact Hw | exact Hw | exact Htight | exact Hens].
  - destruct (clear_regular h l h' l' (proj1 Hshape) Hrun) as [_ ->]. left. reflexivity.
Qed.

Lemma run_tight im (calls : list (call T)) : ∀ h l h' l',
  regular h l → tight l → m_size l + Z.of_nat (length calls) < 2 ^ 64 →
  run im calls (h, l) = Some (h', l') → regular h' l' ∧ tight l'.
Proof.
  induction calls as [| c calls IH]; intros h l h' l' Hreg Htight Hfit Hrun; simpl in Hrun.
  - inversion Hrun; subst. split; assumption.
  - simpl length in Hfit. rewrite Nat2Z.inj_succ in Hfit.
    destruct (run_call im c (h, l)) as [[h1 l1] |] eqn:E; simpl in Hrun; [| discriminate].
    destruct (run_call_regular im c h l h1 l1 Hreg E) as (Hreg1 & _).
    pose proof (run_call_tight im c h l h1 l1 Hreg Htight ltac:(lia) E) as Htight1.
    apply (IH h1 l1 h' l' Hreg1 Htight1); [| exact Hrun].
    assert (m_size l1 <= m_size l + 1); [| lia].
    pose proof (run_call_size im c h l h1 l1 (replicate (Z.to_nat (m_size l)) None)
                  Hreg ltac:(lia)) as Hs.
    rewrite length_replicate, Z2Nat.id in Hs by (destruct Hreg; lia).
    rewrite (Hs eq_refl E).
    pose proof (SequenceFacts.sequence_step_length
                  (replicate (Z.to_nat (m_size l)) (@None T)) c) as Hle.
    rewrite length_replicate in Hle. destruct Hreg. lia.
Qed.

(** *** The slot of an index *)

(** The slot that [get] computes does not depend on the [int] arithmetic. *)
Lemma block_position_slot im bits idx slot off :
  0 <= bits → 0 <= idx → idx + 2 ^ bits < 2 ^ 64 →
  block_position im bits (2 ^ bits) idx = Some (slot, off) →
  slot = Z.log2 (idx + 2 ^ bits) - bits.
Proof.
  intros Hbits Hidx Hlt Hpos. unfold block_position in Hpos.
  set (n := idx + 2 ^ bits) in *.
  assert (HB : 0 < 2 ^ bits) by (apply pow2_pos; lia).
  assert (Hlog : bits <= Z.log2 n < 64).
  { split; [apply Z.log2_le_pow2; [lia | unfold n; lia] | apply Z.log2_lt_pow2; lia]. }
  rewrite (wrap64_small n) in Hpos by lia.
  unfold clzll in Hpos. destruct (Z.eqb_spec n 0) as [? | _]; [lia |]. simpl in Hpos.
  replace (63 - (63 - Z.log2 n)) with (Z.log2 n) in Hpos by lia.
  rewrite (wrap64_small (Z.log2 n)) in Hpos by lia.
  destruct (int_shl im 1 (Z.log2 n)) as [one |]; simpl in Hpos; [| discriminate].
  destruct (int_sub im one 1) as [mask |]; simpl in Hpos; [| discriminate].
  inversion Hpos. apply wrap64_small. lia.
Qed.

(** From the capacity on, [get] is undefined. *)
Lemma get_beyond_capacity im h l i :
  regular h l → no_stale h l → container_size l <= i → i + BLOCKSIZE l < 2 ^ 64 →
  get im h l i = None.
Proof.
  intros [Hshape Hm] Hns Hge Hlt.
  pose proof (shape_bounds h l Hshape) as (HBpos & Hpow & _).
  pose proof Hshape as ((_ & Hbits & HB & Hnc & _) & _ & _ & Hcs & _).
  destruct (get im h l i) as [[a off] |] eqn:Hget; [exfalso | reflexivity].
  apply SequenceFacts.get_owned in Hget as (slot & Hpos & Hslot & _); [| exact Hns].
  rewrite HB in Hpos.
  apply block_position_slot in Hpos; [| lia | lia | rewrite <- HB; lia].
  assert (Hlog : BLOCKBITS l + num_containers l <= Z.log2 (i + 2 ^ BLOCKBITS l)).
  { apply Z.log2_le_pow2; [lia |]. rewrite <- Hpow, <- HB. lia. }
  lia.
Qed.

(** *** The blocks of the store *)

Lemma ensure_alive h l n h' l' :
  owns h l → ensure h l n = Some (h', l') →
  (∀ a, is_Some (h_blocks h' !! a) → footprint l' a ∨ is_Some (h_blocks h !! a)) ∧
  (∀ a, footprint l a → footprint l' a).
Proof.
  intros Howns Hrun. unfold ensure in Hrun.
  destruct (must_grow l n); [| inversion Hrun; subst; auto].
  destruct (grow_loop_invariant
              (λ h1 l1,
                 (∀ a, is_Some (h_blocks h1 !! a) → footprint l1 a ∨ is_Some (h_blocks h !! a)) ∧
                 (∀ a, footprint l a → footprint l1 a)) n)
    with (fuel := Z.to_nat (max_conts - num_containers l))
         (h := h) (l := l) (h' := h') (l' := l') as [H1 _].
  - intros h1 l1 h2 l2 [Ha Hf] _ Hstep.
    apply grow_step_Some in Hstep as (Hnc & -> & ->).
    assert (Hkeep : ∀ a, footprint l1 a →
              footprint (mk (BLOCKBITS l1) (BLOCKSIZE l1) (num_containers l1 + 1)
                            (wrap64 (allocsize l1 * 2))
                            (wrap64 (container_size l1 + allocsize l1)) (m_size l1)
                            (<[num_containers l1 := h_next h1]> (blockLookupTable l1))) a).
    { intros a (k & Hk & Ek). exists k. simpl. split; [lia |].
      rewrite lookup_insert_ne by lia. exact Ek. }
    split.
    + intros a Hal. simpl in Hal.
      destruct (decide (a = h_next h1)) as [-> | Hne].
      * left. exists (num_containers l1). simpl. split; [lia | apply lookup_insert_eq].
      * rewrite lookup_insert_ne in Hal by congruence.
        destruct (Ha a Hal) as [Hfp | Hold]; [left; apply Hkeep; exact Hfp | right; exact Hold].
    + intros a Hfp. apply Hkeep, Hf, Hfp.
  - auto.
  - exact Hrun.
  - exact H1.
Qed.

Lemma store_alive h r (v : T) h' a :
  store h r v = Some h' → is_Some (h_blocks h' !! a) → is_Some (h_blocks h !! a).
Proof.
  intros Hst [blk' E]. destruct (store_block_inv h r v h' a blk' Hst E) as (blk & Eb & _).
  eauto.
Qed.

(** A call keeps the account of the store. *)
Lemma run_call_accounted im (c : call T) h0 h l h' l' :
  owns h l → no_stale h l → accounted h0 h l →
  run_call im c (h, l) = Some (h', l') → accounted h0 h' l'.
Proof.
  intros Howns Hns [Hold Hnew] Hrun.
  destruct (run_call_frame im c h l h' l' Howns Hns Hrun) as [(_ & _ & Hkeep) _].
  split.
  { intros a blk E. destruct (Hold a blk E) as [E1 Hnfp]. apply (Hkeep a blk E1 Hnfp). }
  assert (Hfinish : (∀ a, is_Some (h_blocks h' !! a) →
                          footprint l' a ∨ is_Some (h_blocks h !! a)) →
                    (∀ a, footprint l a → footprint l' a ∨ h_blocks h' !! a = None) →
                    ∀ a, is_Some (h_blocks h' !! a) →
                         footprint l' a ∨ is_Some (h_blocks h0 !! a)).
  { intros HA HF a Hal. destruct (HA a Hal) as [Hfp | Hal0]; [left; exact Hfp |].
    destruct (Hnew a Hal0) as [Hfp | H0]; [| right; exact H0].
    destruct (HF a Hfp) as [Hfp' | Hdead]; [left; exact Hfp' |].
    rewrite Hdead in Hal. destruct Hal. discriminate. }
  destruct c as [v | |]; simpl in Hrun.
  - destruct (append im h l v) as [[[h1 l1] i1] |] eqn:E; simpl in Hrun; [| discriminate].
    inversion Hrun; subst h1 l1.
    apply append_Some in E as (_ & h2 & r & Hens & _ & Hst).
    destruct (ensure_alive h (reserve l).1 (m_size l) h2 l' (reserve_owns h l Howns) Hens)
      as [HA HF].
    apply Hfinish.
    + intros a Hal. apply HA. apply (store_alive h2 r v h' a Hst Hal).
    + intros a Hfp. left. apply HF. exact Hfp.
  - destruct (createNode h l) as [[[h1 l1] i1] |] eqn:E; simpl in Hrun; [| discriminate].
    inversion Hrun; subst h1 l1.
    apply createNode_Some in E as (_ & Hens).
    destruct (ensure_alive h (reserve l).1 (m_size l) h' l' (reserve_owns h l Howns) Hens)
      as [HA HF].
    apply Hfinish; [exact HA |]. intros a Hfp. left. apply HF. exact Hfp.
  - unfold clear in Hrun.
    destruct (freeList h l) as [h1 |] eqn:E; simpl in Hrun; [| discriminate].
    inversion Hrun; subst h1 l'.
    destruct (freeList_frame h l h' Howns E) as (_ & Hgone & _ & Hdead).
    apply Hfinish.
    + intros a Hal. right. destruct (h_blocks h !! a) eqn:Ea; [eauto |].
      rewrite (Hdead a Ea) in Hal. destruct Hal. discriminate.
    + intros a Hfp. right. apply Hgone. exact Hfp.
Qed.

Lemma run_accounted im (calls : list (call T)) : ∀ h0 h l h' l',
  owns h l → no_stale h l → accounted h0 h l →
  run im calls (h, l) = Some (h', l') →
  owns h' l' ∧ no_stale h' l' ∧ accounted h0 h' l'.
Proof.
  induction calls as [| c calls IH]; intros h0 h l h' l' Howns Hns Hacc Hrun; simpl in Hrun.
  - inversion Hrun; subst. auto.
  - destruct (run_call im c (h, l)) as [[h1 l1] |] eqn:E; simpl in Hrun; [| discriminate].
    destruct (run_call_owns im c h l h1 l1 Howns E) as (Howns1 & _).
    destruct (run_call_frame im c h l h1 l1 Howns Hns E) as [_ Hns1].
    pose proof (run_call_accounted im c h0 h l h1 l1 Howns Hns Hacc E) as Hacc1.
    apply (IH h0 h1 l1 h' l' Howns1 Hns1 Hacc1 Hrun).
Qed.

(** [freeList] on a list whose blocks are accounted for leaves the store
    it was constructed in. *)
Lemma freeList_accounted h0 h l h' :
  owns h l → accounted h0 h l → freeList h l = Some h' →
  h_blocks h' = h_blocks h0.
Proof.
  intros Howns [Hold Hnew] Hfree.
  destruct (freeList_frame h l h' Howns Hfree) as (_ & Hgone & Hkeep & Hdead).
  apply map_eq. intros a.
  destruct (h_blocks h0 !! a) as [blk |] eqn:E0.
  - destruct (Hold a blk E0) as [E Hnfp]. rewrite (Hkeep a Hnfp). exact E.
  - destruct (h_blocks h' !! a) as [blk' |] eqn:E'; [exfalso | reflexivity].
    destruct (h_blocks h !! a) as [blk |] eqn:E.
    + destruct (Hnew a ltac:(eauto)) as [Hfp | [b Hb]]; [| congruence].
      rewrite (Hgone a Hfp) in E'. discriminate.
    + rewrite (Hdead a E) in E'. discriminate.
Qed.

(** A second [freeList] deletes the blocks again. *)
Lemma freeList_again h l h' :
  owns h l → 0 < num_containers l → freeList h l = Some h' → freeList h' l = None.
Proof.
  intros Howns Hnc Hfree.
  destruct (freeList_frame h l h' Howns Hfree) as (_ & Hgone & _).
  destruct Howns as (_ & _ & _ & Hnc64 & Hlive & _).
  destruct (Hlive 0) as [blk Hblk]; [lia |].
  apply block_at_Some in Hblk as (a & Ea & _).
  unfold freeList. rewrite seqZ_cons by lia. simpl.
  unfold getBlock. simpl. rewrite Ea. simpl.
  rewrite (Hgone a); [reflexivity |]. exists 0. split; [lia | exact Ea].
Qed.

End Runs.
End RunFacts.

(** ** The iterator of [PiggyList] *)

Module IteratorFacts.
Import PiggyList.

Section Iteration.
Context {T : Type}.

Lemma iterator_deref_value im (h : heap T) lists this l k :
  lists !! this = Some l →
  iterator_deref im h lists (Iterator k this) = value_at im h l k.
Proof. intros E. unfold iterator_deref. simpl. rewrite E. reflexivity. Qed.

(** The loop from position [k] to the end visits the elements from [k] on,
    in order. *)
Lemma range_for_values im (h : heap T) lists this l (vs : list T) :
  lists !! this = Some l → Z.of_nat (length vs) < 2 ^ 64 →
  (∀ k, (k < length vs)%nat → value_at im h l (Z.of_nat k) = vs !! k) →
  ∀ fuel k, (k <= length vs)%nat → (length vs - k <= fuel)%nat →
    range_for im h lists fuel (Iterator (Z.of_nat k) this)
              (Iterator (Z.of_nat (length vs)) this)
    = Some (drop k vs).
Proof.
  intros El Hlen Hval.
  induction fuel as [| fuel IH]; intros k Hk Hfuel.
  - assert (k = length vs) by lia. subst k. simpl.
    unfold iterator_ne, iterator_eq. simpl. rewrite Z.eqb_refl, Pos.eqb_refl. simpl.
    rewrite drop_all. reflexivity.
  - simpl. unfold iterator_ne, iterator_eq. simpl. rewrite Pos.eqb_refl, andb_true_r.
    destruct (Z.eqb_spec (Z.of_nat k) (Z.of_nat (length vs))) as [Heq | Hne]; simpl.
    + assert (k = length vs) by lia. subst k. rewrite drop_all. reflexivity.
    + assert (Hlt : (k < length vs)%nat) by lia.
      rewrite (iterator_deref_value im h lists this l _ El), (Hval k Hlt).
      destruct (lookup_lt_is_Some_2 vs k Hlt) as [x Ex]. rewrite Ex. simpl.
      rewrite wrap64_small by lia.
      replace (Z.of_nat k + 1) with (Z.of_nat (S k)) by lia.
      rewrite (IH (S k)) by lia. simpl.
      rewrite (drop_S vs x k Ex). reflexivity.
Qed.

End Iteration.
End IteratorFacts.

(** ** [PiggyList]: runs of calls, values, iteration and destruction *)

Section PiggyListRuns.
Import PiggyList PiggyListFacts SequenceFacts RunFacts IteratorFacts.
Context {T : Type}.
Implicit Types (h : heap T) (l : PiggyList.t).

(** X1 (no undefined behaviour in range).  On a new list, every run of
    [append], [createNode] and [clear] calls, in any order, is defined as
    long as the number of calls plus the base block size fits a [size_t]
    and the mask of [get] is defined for that number (on the abstract
    machine: below [2^31]); after it [size()] is the number of [append]
    and [createNode] calls made since the last [clear]. *)
Theorem calls_defined_in_range im initialbitsize h0 l0 (calls : list (call T)) :
  heap_wf h0 → create initialbitsize = Some l0 →
  Z.of_nat (length calls) + 2 ^ initialbitsize <= 2 ^ 64 →
  mask_defined im (Z.log2 (Z.of_nat (length calls) + 2 ^ initialbitsize)) →
  ∃ h l, run im calls (h0, l0) = Some (h, l) ∧
         size l = Z.of_nat (length (sequence_of calls)).
Proof.
  intros Hwf Hcreate Hfit Hmask.
  destruct (create_regular h0 initialbitsize l0 Hwf Hcreate) as (Hreg0 & Hb & HB & _ & Hm0).
  assert (HBpos : 0 < 2 ^ initialbitsize).
  { destruct Hreg0 as (((_ & Hbits & _) & _) & _). apply pow2_pos. lia. }
  destruct (run_defined im calls h0 l0 Hreg0) as (h & l & Hrun).
  { rewrite Hm0, HB. lia. }
  { intros m Hm. rewrite HB.
    apply (mask_defined_mono im _ _ Hmask). apply Z.log2_le_mono. lia. }
  exists h, l. split; [exact Hrun |].
  apply (run_size im calls h0 l0 h l [] Hreg0); [lia | exact Hm0 | exact Hrun].
Qed.

(** X2 (the list holds the sequence of its calls).  After a run of calls
    on a new list, with the number of calls plus the base block size
    within [2^32]: the value read through [get(i)] is the one the [i]-th
    [append] since the last [clear] stored; an element made by
    [createNode] has no value until one is stored; neither has an index at
    or past [size()]. *)
Theorem values_follow_sequence im initialbitsize h0 l0 (calls : list (call T)) h l :
  heap_wf h0 → create initialbitsize = Some l0 →
  Z.of_nat (length calls) + 2 ^ initialbitsize <= 2 ^ 32 →
  run im calls (h0, l0) = Some (h, l) →
  size l = Z.of_nat (length (sequence_of calls)) ∧
  ∀ i, 0 <= i → i + 2 ^ initialbitsize < 2 ^ 32 →
       value_at im h l i = mjoin (sequence_of calls !! Z.to_nat i).
Proof.
  intros Hwf Hcreate Hfit Hrun.
  destruct (create_models im h0 initialbitsize l0 Hwf Hcreate)
    as (Hreg0 & Hns0 & Hmod0 & HB & _).
  destruct (run_models im calls h0 l0 [] h l Hreg0 Hns0 Hmod0) as (Hreg & _ & Hlen & Hval).
  { rewrite (models_length im h0 l0 [] Hmod0), HB. simpl. lia. }
  { exact Hrun. }
  destruct (run_regular im calls h0 l0 h l Hreg0 Hrun) as (_ & _ & HB').
  split; [exact Hlen |]. intros i Hi Hil. apply Hval; [exact Hi |]. rewrite HB', HB. exact Hil.
Qed.

(** X3 (iteration).  The range-based [for] over a list, from [begin()] to
    [end()], visits the elements in the order of their indices and ends
    after [size()] of them: on a list whose elements all have a value
    (every one was appended), it yields exactly the values appended since
    the last [clear], in order, while the number of calls plus the base
    block size is within [2^32]. *)
Theorem iteration_yields_elements im initialbitsize h0 l0 (calls : list (call T)) h l
    (vs : list T) (lists : gmap positive PiggyList.t) this fuel :
  heap_wf h0 → create initialbitsize = Some l0 →
  Z.of_nat (length calls) + 2 ^ initialbitsize <= 2 ^ 32 →
  run im calls (h0, l0) = Some (h, l) →
  sequence_of calls = Some <$> vs →
  lists !! this = Some l → (length vs <= fuel)%nat →
  elements im h lists this fuel = Some vs.
Proof.
  intros Hwf Hcreate Hfit Hrun Hseq Hthis Hfuel.
  destruct (create_models im h0 initialbitsize l0 Hwf Hcreate)
    as (Hreg0 & Hns0 & Hmod0 & HB & Hbits).
  destruct (run_models im calls h0 l0 [] h l Hreg0 Hns0 Hmod0) as (Hreg & _ & Hlen & Hval).
  { rewrite (models_length im h0 l0 [] Hmod0), HB. simpl. lia. }
  { exact Hrun. }
  destruct (run_regular im calls h0 l0 h l Hreg0 Hrun) as (_ & _ & HB').
  fold (sequence_of calls) in Hlen, Hval. rewrite Hseq in Hlen, Hval.
  rewrite length_fmap in Hlen.
  pose proof (sequence_length calls []) as Hle. fold (sequence_of calls) in Hle.
  rewrite Hseq, length_fmap in Hle. simpl in Hle.
  assert (HBpos : 0 < 2 ^ initialbitsize) by (apply pow2_pos; lia).
  unfold elements, end_. rewrite Hthis. simpl. unfold size. rewrite Hlen.
  change (begin this) with (Iterator (Z.of_nat 0) this).
  rewrite (range_for_values im h lists this l vs Hthis); [reflexivity | lia | | lia | lia].
  intros k Hk. rewrite Hval by (rewrite ?HB', ?HB; lia).
  rewrite Nat2Z.id, list_lookup_fmap. destruct (vs !! k); reflexivity.
Qed.

(** X4 (the increment operators).  Both increment operators advance the
    iterator by one element, but they return the opposite of what their
    form promises: [++it] returns an iterator at the element [it] was at,
    and [it++] returns one at the next element.  So on a list holding the
    values [vs], at position [k], [*(++it)] reads [vs[k]] and [*(it++)]
    reads [vs[k+1]]. *)
Theorem increment_results im initialbitsize h0 l0 (calls : list (call T)) h l
    (vs : list T) (lists : gmap positive PiggyList.t) this (k : nat) x y :
  heap_wf h0 → create initialbitsize = Some l0 →
  Z.of_nat (length calls) + 2 ^ initialbitsize <= 2 ^ 32 →
  run im calls (h0, l0) = Some (h, l) →
  sequence_of calls = Some <$> vs →
  lists !! this = Some l → vs !! k = Some x → vs !! S k = Some y →
  (iterator_prefix_incr (Iterator (Z.of_nat k) this)).1 = Iterator (Z.of_nat (S k)) this ∧
  (iterator_postfix_incr (Iterator (Z.of_nat k) this)).1 = Iterator (Z.of_nat (S k)) this ∧
  iterator_deref im h lists (iterator_prefix_incr (Iterator (Z.of_nat k) this)).2 = Some x ∧
  iterator_deref im h lists (iterator_postfix_incr (Iterator (Z.of_nat k) this)).2 = Some y.
Proof.
  intros Hwf Hcreate Hfit Hrun Hseq Hthis Hx Hy.
  destruct (create_models im h0 initialbitsize l0 Hwf Hcreate)
    as (Hreg0 & Hns0 & Hmod0 & HB & Hbits).
  destruct (run_models im calls h0 l0 [] h l Hreg0 Hns0 Hmod0) as (Hreg & _ & Hlen & Hval).
  { rewrite (models_length im h0 l0 [] Hmod0), HB. simpl. lia. }
  { exact Hrun. }
  destruct (run_regular im calls h0 l0 h l Hreg0 Hrun) as (_ & _ & HB').
  fold (sequence_of calls) in Hlen, Hval. rewrite Hseq in Hlen, Hval.
  pose proof (sequence_length calls []) as Hle. fold (sequence_of calls) in Hle.
  rewrite Hseq, length_fmap in Hle. simpl in Hle.
  pose proof (lookup_lt_Some vs (S k) y Hy) as Hk.
  assert (HBpos : 0 < 2 ^ initialbitsize) by (apply pow2_pos; lia).
  assert (Hnext : wrap64 (Z.of_nat k + 1) = Z.of_nat (S k)) by (rewrite wrap64_small; lia).
  assert (Hread : ∀ (n : nat) v, vs !! n = Some v → value_at im h l (Z.of_nat n) = Some v).
  { intros n v Hn. pose proof (lookup_lt_Some vs n v Hn).
    rewrite Hval by (rewrite ?HB', ?HB; lia).
    rewrite Nat2Z.id, list_lookup_fmap, Hn. reflexivity. }
  unfold iterator_prefix_incr, iterator_postfix_incr. simpl. rewrite Hnext.
  split; [reflexivity |]. split; [reflexivity |].
  rewrite !(iterator_deref_value im h lists this l _ Hthis).
  split; [apply Hread; exact Hx | apply Hread; exact Hy].
Qed.

(** X5 (the destructor frees what the list allocated).  After any run of
    calls on a list constructed in a store, the destructor is defined and
    leaves exactly the blocks the store had when the list was
    constructed: every block the list allocated is deleted, once, and no
    other block is touched. *)
Theorem destructor_frees_allocated_blocks im initialbitsize h0 l0 (calls : list (call T)) h l :
  heap_wf h0 → create initialbitsize = Some l0 →
  run im calls (h0, l0) = Some (h, l) →
  ∃ h', destructor h l = Some h' ∧ h_blocks h' = h_blocks h0.
Proof.
  intros Hwf Hcreate Hrun.
  destruct (create_models im h0 initialbitsize l0 Hwf Hcreate) as (Hreg0 & Hns0 & _).
  destruct (create_regular h0 initialbitsize l0 Hwf Hcreate) as (_ & _ & _ & Hnc0 & _).
  assert (Hacc0 : accounted h0 h0 l0).
  { split; [| auto]. intros a blk E. split; [exact E |]. intros (k & Hk & _). lia. }
  destruct (run_accounted im calls h0 h0 l0 h l (proj1 (proj1 Hreg0)) Hns0 Hacc0 Hrun)
    as (Howns & _ & Hacc).
  destruct (freeList_defined h l Howns) as (h' & Hfree & _).
  exists h'. split; [exact Hfree |].
  apply (freeList_accounted h0 h l h' Howns Hacc Hfree).
Qed.

(** X6 ([freeList] is not repeatable).  [freeList] deletes the blocks but
    leaves [num_containers] and the pointers as they are: on a list that
    has a block, the destructor after an explicit [freeList()] deletes the
    same blocks a second time, which is undefined.  After [clear()], which
    resets the block count, the destructor deletes nothing. *)
Theorem freeList_not_repeatable im h l :
  reachable im h l → 0 < num_containers l →
  ∃ h1 l1,
    freeList h l = Some h1 ∧ destructor h1 l = None ∧
    clear h l = Some (h1, l1) ∧ destructor h1 l1 = Some h1.
Proof.
  intros Hreach Hnc. pose proof (reachable_owns im h l Hreach) as Howns.
  destruct (freeList_defined h l Howns) as (h1 & Hfree & _).
  exists h1. eexists. split; [exact Hfree |].
  split; [apply (freeList_again h l h1 Howns Hnc Hfree) |].
  unfold clear. rewrite Hfree. simpl. split; reflexivity.
Qed.

(** X7 (no block more than needed).  After any run of calls on a new list
    the last block is needed: without it the capacity would not cover the
    [size()] indices given out.  So the capacity is less than twice the
    size plus one base block. *)
Theorem capacity_below_twice_size im initialbitsize h0 l0 (calls : list (call T)) h l :
  heap_wf h0 → create initialbitsize = Some l0 →
  Z.of_nat (length calls) < 2 ^ 64 →
  run im calls (h0, l0) = Some (h, l) →
  (num_containers l = 0 ∨
   2 ^ initialbitsize * (2 ^ (num_containers l - 1) - 1) < size l) ∧
  container_size l < 2 * size l + 2 ^ initialbitsize.
Proof.
  intros Hwf Hcreate Hlen Hrun.
  destruct (create_regular h0 initialbitsize l0 Hwf Hcreate) as (Hreg0 & _ & HB & Hnc0 & Hm0).
  destruct (run_tight im calls h0 l0 h l Hreg0 ltac:(left; exact Hnc0) ltac:(lia) Hrun)
    as [Hreg Htight].
  destruct (run_regular im calls h0 l0 h l Hreg0 Hrun) as (_ & _ & HB').
  pose proof (shape_bounds h l (proj1 Hreg)) as (HBpos & _).
  destruct Hreg as [((_ & _ & _ & Hnc & _) & _ & _ & Hcs & _) Hm].
  unfold tight in Htight. unfold size. rewrite HB', HB in *.
  split; [exact Htight |]. rewrite Hcs.
  destruct Htight as [-> | Ht]; [simpl; lia |].
  destruct (Z.eq_dec (num_containers l) 0) as [-> | Hne]; [simpl; lia |].
  replace (2 ^ num_containers l) with (2 * 2 ^ (num_containers l - 1)).
  - lia.
  - rewrite <- pow2_succ by lia. f_equal. lia.
Qed.

(** X8 ([get] is bounded by the capacity, not by the size).  After any run
    of calls on a new list, [get(i)] is undefined for every index from the
    capacity [container_size] on, and returns a reference for every index
    below the capacity for which its mask is defined, whether or not the
    index is below [size()]. *)
Theorem get_defined_below_capacity im initialbitsize h0 l0 (calls : list (call T)) h l i :
  heap_wf h0 → create initialbitsize = Some l0 →
  run im calls (h0, l0) = Some (h, l) →
  0 <= i → i + 2 ^ initialbitsize < 2 ^ 64 →
  (container_size l <= i → get im h l i = None) ∧
  (i < container_size l → mask_defined im (Z.log2 (i + 2 ^ initialbitsize)) →
   is_Some (get im h l i)).
Proof.
  intros Hwf Hcreate Hrun Hi Hil.
  destruct (create_models im h0 initialbitsize l0 Hwf Hcreate) as (Hreg0 & Hns0 & _ & HB & _).
  destruct (run_regular im calls h0 l0 h l Hreg0 Hrun) as (Hreg & _ & HB').
  assert (Hns : no_stale h l).
  { apply (reachable_no_stale im).
    apply (reachable_run im calls h0 l0 h l); [| exact Hrun].
    apply (reach_create im h0 initialbitsize); assumption. }
  split.
  - intros Hge. apply get_beyond_capacity; [exact Hreg | exact Hns | exact Hge |].
    rewrite HB', HB. exact Hil.
  - intros Hlt Hmask.
    destruct (get_defined im h l i (proj1 Hreg) ltac:(lia)) as (a & blk & off & Hget & _).
    { rewrite HB', HB. exact Hmask. }
    rewrite Hget. eauto.
Qed.

End PiggyListRuns.

Lemma calls_defined_in_range_witness :
  ∃ h l,
    PiggyList.run Strict
      [PiggyList.Append 7; PiggyList.CreateNode; PiggyList.Clear; PiggyList.Append 9]
      (empty_heap, PiggyList.mk 1 2 0 2 0 0 ∅) = Some (h, l) ∧
    PiggyList.size l
    = Z.of_nat (length (PiggyList.sequence_of
                          [PiggyList.Append 7; PiggyList.CreateNode; PiggyList.Clear;
                           PiggyList.Append 9])).
Proof.
  apply (calls_defined_in_range Strict 1 empty_heap).
  - apply empty_heap_wf.
  - reflexivity.
  - simpl. lia.
  - vm_compute. discriminate.
Defined.

Lemma values_follow_sequence_witness :
  ∃ h l,
    PiggyList.run Strict
      [PiggyList.Append 5; PiggyList.Clear; PiggyList.Append 7; PiggyList.CreateNode;
       PiggyList.Append 9]
      (empty_heap, PiggyList.mk 1 2 0 2 0 0 ∅) = Some (h, l) ∧
    PiggyList.size l = 3 ∧
    PiggyList.value_at Strict h l 0 = Some 7 ∧
    PiggyList.value_at Strict h l 1 = None ∧
    PiggyList.value_at Strict h l 2 = Some 9 ∧
    PiggyList.value_at Strict h l 3 = None.
Proof.
  destruct (PiggyList.run Strict _ _) as [[h l] |] eqn:Hrun.
  - exists h, l. split; [reflexivity |].
    eapply (values_follow_sequence Strict 1) in Hrun as [Hsize Hval];
      [| apply empty_heap_wf | reflexivity | simpl; lia].
    split; [exact Hsize |].
    split; [apply (Hval 0); simpl; lia |].
    split; [apply (Hval 1); simpl; lia |].
    split; [apply (Hval 2); simpl; lia | apply (Hval 3); simpl; lia].
  - vm_compute in Hrun. discriminate Hrun.
Defined.

Lemma iteration_yields_elements_witness :
  ∃ h l,
    PiggyList.run Strict
      [PiggyList.Append 5; PiggyList.Clear; PiggyList.Append 7; PiggyList.Append 8;
       PiggyList.Append 9]
      (empty_heap, PiggyList.mk 1 2 0 2 0 0 ∅) = Some (h, l) ∧
    PiggyList.elements Strict h {[ 1%positive := l ]} 1%positive 3 = Some [7; 8; 9].
Proof.
  destruct (PiggyList.run Strict _ _) as [[h l] |] eqn:Hrun.
  - exists h, l. split; [reflexivity |].
    eapply (iteration_yields_elements Strict 1 empty_heap _ _ h l [7; 8; 9]);
      [apply empty_heap_wf | reflexivity | | exact Hrun | reflexivity
       | apply lookup_singleton_eq | simpl; lia].
    simpl. lia.
  - vm_compute in Hrun. discriminate Hrun.
Defined.

Lemma increment_results_witness :
  ∃ h l,
    PiggyList.run Strict (PiggyList.Append <$> [7; 8; 9])
      (empty_heap, PiggyList.mk 1 2 0 2 0 0 ∅) = Some (h, l) ∧
    (PiggyList.iterator_prefix_incr (PiggyList.Iterator (Z.of_nat 1) 1%positive)).1
    = PiggyList.Iterator (Z.of_nat 2) 1%positive ∧
    (PiggyList.iterator_postfix_incr (PiggyList.Iterator (Z.of_nat 1) 1%positive)).1
    = PiggyList.Iterator (Z.of_nat 2) 1%positive ∧
    PiggyList.iterator_deref Strict h {[ 1%positive := l ]}
      (PiggyList.iterator_prefix_incr (PiggyList.Iterator (Z.of_nat 1) 1%positive)).2
    = Some 8 ∧
    PiggyList.iterator_deref Strict h {[ 1%positive := l ]}
      (PiggyList.iterator_postfix_incr (PiggyList.Iterator (Z.of_nat 1) 1%positive)).2
    = Some 9.
Proof.
  destruct (PiggyList.run Strict _ _) as [[h l] |] eqn:Hrun.
  - exists h, l. split; [reflexivity |].
    eapply (increment_results Strict 1 empty_heap _ _ h l [7; 8; 9] _ _ 1%nat 8 9);
      [apply empty_heap_wf | reflexivity | | exact Hrun | reflexivity
       | apply lookup_singleton_eq | reflexivity | reflexivity].
    simpl. lia.
  - vm_compute in Hrun. discriminate Hrun.
Defined.

Lemma destructor_frees_allocated_blocks_witness :
  ∃ h l,
    PiggyList.run Strict
      [PiggyList.Append 7; PiggyList.CreateNode; PiggyList.Append 9; PiggyList.Clear;
       PiggyList.Append 1]
      (empty_heap, PiggyList.mk 1 2 0 2 0 0 ∅) = Some (h, l) ∧
    ∃ h', PiggyList.destructor h l = Some h' ∧ h_blocks h' = h_blocks (@empty_heap Z).
Proof.
  destruct (PiggyList.run Strict _ _) as [[h l] |] eqn:Hrun.
  - exists h, l. split; [reflexivity |].
    apply (destructor_frees_allocated_blocks Strict 1 empty_heap _ _ h l
             empty_heap_wf eq_refl Hrun).
  - vm_compute in Hrun. discriminate Hrun.
Defined.

Lemma freeList_not_repeatable_witness :
  ∃ h l,
    PiggyList.run Strict (PiggyList.Append <$> [10; 11; 12])
      (empty_heap, PiggyList.mk 1 2 0 2 0 0 ∅) = Some (h, l) ∧
    ∃ h1 l1,
      PiggyList.freeList h l = Some h1 ∧ PiggyList.destructor h1 l = None ∧
      PiggyList.clear h l = Some (h1, l1) ∧ PiggyList.destructor h1 l1 = Some h1.
Proof.
  destruct (PiggyList.run Strict _ _) as [[h l] |] eqn:Hrun.
  - exists h, l. split; [reflexivity |].
    assert (Hreach : PiggyList.reachable Strict (T := Z) empty_heap (PiggyList.mk 1 2 0 2 0 0 ∅)).
    { apply (PiggyList.reach_create Strict empty_heap 1); [apply empty_heap_wf | reflexivity]. }
    pose proof (PiggyListFacts.reachable_run Strict _ _ _ _ _ Hreach Hrun) as Hreach'.
    apply (freeList_not_repeatable Strict h l Hreach').
    vm_compute in Hrun. inversion Hrun. simpl. lia.
  - vm_compute in Hrun. discriminate Hrun.
Defined.

Lemma capacity_below_twice_size_witness :
  ∃ h l,
    PiggyList.run Strict (PiggyList.Append <$> [10; 11; 12])
      (empty_heap, PiggyList.mk 1 2 0 2 0 0 ∅) = Some (h, l) ∧
    (PiggyList.num_containers l = 0 ∨
     2 ^ 1 * (2 ^ (PiggyList.num_containers l - 1) - 1) < PiggyList.size l) ∧
    PiggyList.container_size l < 2 * PiggyList.size l + 2 ^ 1.
Proof.
  destruct (PiggyList.run Strict _ _) as [[h l] |] eqn:Hrun.
  - exists h, l. split; [reflexivity |].
    eapply (capacity_below_twice_size Strict 1 empty_heap);
      [apply empty_heap_wf | reflexivity | | exact Hrun].
    simpl. lia.
  - vm_compute in Hrun. discriminate Hrun.
Defined.

Lemma get_defined_below_capacity_witness :
  ∃ h l,
    PiggyList.run Strict (PiggyList.Append <$> [10; 11; 12])
      (empty_heap, PiggyList.mk 1 2 0 2 0 0 ∅) = Some (h, l) ∧
    PiggyList.size l = 3 ∧ PiggyList.container_size l = 6 ∧
    is_Some (PiggyList.get Strict h l 5) ∧ PiggyList.get Strict h l 6 = None.
Proof.
  destruct (PiggyList.run Strict _ _) as [[h l] |] eqn:Hrun.
  - exists h, l. split; [reflexivity |].
    assert (Hl : PiggyList.size l = 3 ∧ PiggyList.container_size l = 6).
    { vm_compute in Hrun. inversion Hrun. split; reflexivity. }
    destruct Hl as [Hs Hc]. split; [exact Hs |]. split; [exact Hc |].
    split.
    + apply (get_defined_below_capacity Strict 1 empty_heap _ _ h l 5
               empty_heap_wf eq_refl Hrun); [lia | simpl; lia | lia | simpl; lia].
    + apply (get_defined_below_capacity Strict 1 empty_heap _ _ h l 6
               empty_heap_wf eq_refl Hrun); [lia | simpl; lia | lia].
  - vm_compute in Hrun. discriminate Hrun.
Defined.

(** ** The values of a [RandomInsertPiggyList] *)

Module RandomInsertValues.
Import RandomInsertPiggyList RandomInsertFacts.

Section Values.
Context {T : Type}.
Implicit Types (h : heap T) (l : t) (blk : block T).

(** What a defined [insertAt] did: it found or allocated the block of the
    slot of its index, and wrote one element of it. *)
Lemma insertAt_Some im h l j (v : T) h' l' :
  wf h l → 0 <= j → j + INITIALBLOCKSIZE l < 2 ^ 64 →
  insertAt im h l j v = Some (h', l') →
  ∃ off a blk,
    let slot := Z.log2 (j + INITIALBLOCKSIZE l) - BLOCKBITS l in
    0 <= slot < maxContainers ∧
    block_position im (BLOCKBITS l) (INITIALBLOCKSIZE l) j = Some (slot, off) ∧
    ((blockLookupTable l !! slot = Some a ∧ h_blocks h !! a = Some blk ∧
      h_next h' = h_next h) ∨
     (blockLookupTable l !! slot = None ∧ a = h_next h ∧
      blk = Block (2 ^ Z.log2 (j + INITIALBLOCKSIZE l)) ∅ ∧
      h_next h' = (h_next h + 1)%positive)) ∧
    blk_len blk = 2 ^ Z.log2 (j + INITIALBLOCKSIZE l) ∧ 0 <= off < blk_len blk ∧
    h_blocks h' = <[a := Block (blk_len blk) (<[off := v]> (blk_data blk))]> (h_blocks h) ∧
    l' = mk (BLOCKBITS l) (INITIALBLOCKSIZE l) (wrap64 (numElements l + 1))
            (<[slot := a]> (blockLookupTable l)).
Proof.
  intros (Hwf & Hbits & HB & Hent & Hinj) Hj Hlt Hrun.
  destruct (insert_slot l j Hbits HB Hj Hlt) as (Hclz & Hslot & Hrange & Hsize).
  set (n := j + INITIALBLOCKSIZE l) in *.
  set (slot := Z.log2 n - BLOCKBITS l) in *.
  assert (Hpslot : ∀ s o, block_position im (BLOCKBITS l) (INITIALBLOCKSIZE l) j = Some (s, o) →
                          s = slot).
  { intros s o Hpos. rewrite HB in Hpos.
    apply RunFacts.block_position_slot in Hpos; [| lia | lia | rewrite <- HB; exact Hlt].
    rewrite <- HB in Hpos. exact Hpos. }
  unfold insertAt in Hrun. fold n in Hrun. rewrite Hclz in Hrun. simpl in Hrun.
  rewrite Hslot in Hrun. rewrite getBlock_in_range in Hrun by exact Hrange. simpl in Hrun.
  destruct (blockLookupTable l !! slot) as [a |] eqn:Ea.
  - destruct (get im h _ j) as [[a' off] |] eqn:Hget; simpl in Hrun; [| discriminate].
    destruct (store h (a', off) v) as [h2 |] eqn:Hst; simpl in Hrun; [| discriminate].
    inversion Hrun; subst h2 l'.
    apply get_inversion in Hget as (slot' & blk & Hpos & _ & Ea' & Eb & Hoff). simpl in *.
    pose proof (Hpslot slot' off Hpos). subst slot'.
    rewrite Ea in Ea'. inversion Ea'; subst a'.
    destruct (Hent slot a Ea) as (_ & blk0 & Eb0 & Hlen). rewrite Eb in Eb0.
    inversion Eb0; subst blk0. rewrite Hsize in Hlen.
    apply store_Some in Hst as (b0 & Eb0' & _ & ->). simpl in *.
    rewrite Eb in Eb0'. inversion Eb0'; subst b0.
    exists off, a, blk. split; [exact Hrange |]. split; [exact Hpos |].
    split; [left; auto |]. split; [exact Hlen |]. split; [exact Hoff |].
    split; [reflexivity |]. rewrite (insert_id _ _ _ Ea). reflexivity.
  - rewrite Hsize in Hrun. simpl in Hrun.
    destruct (get im _ _ j) as [[a' off] |] eqn:Hget; simpl in Hrun; [| discriminate].
    destruct (store _ (a', off) v) as [h2 |] eqn:Hst; simpl in Hrun; [| discriminate].
    inversion Hrun; subst h2 l'.
    apply get_inversion in Hget as (slot' & blk & Hpos & _ & Ea' & Eb & Hoff). simpl in *.
    pose proof (Hpslot slot' off Hpos). subst slot'.
    rewrite lookup_insert_eq in Ea'. inversion Ea'; subst a'.
    rewrite lookup_insert_eq in Eb. inversion Eb; subst blk. simpl in Hoff.
    apply store_Some in Hst as (b0 & Eb0' & _ & ->). simpl in *.
    rewrite lookup_insert_eq in Eb0'. inversion Eb0'; subst b0. simpl.
    exists off, (h_next h), (Block (2 ^ Z.log2 n) ∅). simpl.
    split; [exact Hrange |]. split; [exact Hpos |].
    split; [right; auto |]. split; [reflexivity |]. split; [exact Hoff |].
    split; [apply insert_insert_eq | reflexivity].
Qed.

(** [insertAt] keeps the list well formed. *)
Lemma insertAt_wf im h l j (v : T) h' l' :
  wf h l → 0 <= j → j + INITIALBLOCKSIZE l < 2 ^ 64 →
  insertAt im h l j v = Some (h', l') →
  wf h' l' ∧ BLOCKBITS l' = BLOCKBITS l ∧ INITIALBLOCKSIZE l' = INITIALBLOCKSIZE l ∧
  numElements l' = wrap64 (numElements l + 1).
Proof.
  intros Hwfl Hj Hlt Hrun.
  destruct (insertAt_Some im h l j v h' l' Hwfl Hj Hlt Hrun)
    as (off & a & blk & Hrange & Hpos & Hcase & Hlen & Hoff & Hh' & ->).
  destruct Hwfl as (Hwf & Hbits & HB & Hent & Hinj).
  destruct (insert_slot l j Hbits HB Hj Hlt) as (_ & _ & _ & Hsize).
  set (slot := Z.log2 (j + INITIALBLOCKSIZE l) - BLOCKBITS l) in *.
  assert (Hother : ∀ k a0, k ≠ slot → blockLookupTable l !! k = Some a0 → a0 ≠ a).
  { intros k a0 Hk Ek ->. destruct Hcase as [(Ea & _) | (_ & -> & _)].
    - apply Hk. apply (Hinj k slot a Ek Ea).
    - destruct (Hent k _ Ek) as (_ & b & Eb & _).
      rewrite heap_wf_next_free in Eb by exact Hwf. discriminate. }
  simpl. split; [| auto].
  unfold wf. simpl. split.
  { intros a0 b0 E0. rewrite Hh' in E0.
    destruct (decide (a0 = a)) as [-> | Hne].
    - destruct Hcase as [(_ & Eb & ->) | (_ & -> & _ & ->)]; [apply (Hwf a blk Eb) | lia].
    - rewrite lookup_insert_ne in E0 by congruence. apply Hwf in E0.
      destruct Hcase as [(_ & _ & ->) | (_ & _ & _ & ->)]; lia. }
  split; [exact Hbits |]. split; [exact HB |]. split.
  - intros k a0 Ek. destruct (decide (k = slot)) as [-> | Hne].
    + rewrite lookup_insert_eq in Ek. inversion Ek; subst a0.
      split; [exact Hrange |]. rewrite Hh', lookup_insert_eq.
      eexists. split; [reflexivity |]. simpl. rewrite Hlen, Hsize. reflexivity.
    + rewrite lookup_insert_ne in Ek by congruence.
      destruct (Hent k a0 Ek) as (Hk & b & Eb & Hl). split; [exact Hk |].
      exists b. rewrite Hh', lookup_insert_ne by (apply not_eq_sym, (Hother k a0 Hne Ek)).
      split; assumption.
  - intros k k' a0 Ek Ek'.
    destruct (decide (k = slot)) as [-> | Hne]; destruct (decide (k' = slot)) as [-> | Hne'];
      [reflexivity | | |].
    + rewrite lookup_insert_eq in Ek. rewrite lookup_insert_ne in Ek' by congruence.
      inversion Ek; subst a0. exfalso. apply (Hother k' a Hne' Ek'). reflexivity.
    + rewrite lookup_insert_eq in Ek'. rewrite lookup_insert_ne in Ek by congruence.
      inversion Ek'; subst a0. exfalso. apply (Hother k a Hne Ek). reflexivity.
    + rewrite lookup_insert_ne in Ek by congruence.
      rewrite lookup_insert_ne in Ek' by congruence. apply (Hinj k k' a0 Ek Ek').
Qed.

(** [insertAt] gives its index the value and changes the value of no index
    with another position. *)
Lemma insertAt_value_at im h l j (v : T) h' l' i :
  wf h l → 0 <= j → j + INITIALBLOCKSIZE l < 2 ^ 64 →
  insertAt im h l j v = Some (h', l') →
  value_at im h' l' i
  = if decide (block_position im (BLOCKBITS l) (INITIALBLOCKSIZE l) i
               = block_position im (BLOCKBITS l) (INITIALBLOCKSIZE l) j)
    then Some v else value_at im h l i.
Proof.
  intros Hwfl Hj Hlt Hrun.
  destruct (insertAt_Some im h l j v h' l' Hwfl Hj Hlt Hrun)
    as (off & a & blk & Hrange & Hpos & Hcase & Hlen & Hoff & Hh' & ->).
  destruct Hwfl as (Hwf & Hbits & HB & Hent & Hinj).
  set (slot := Z.log2 (j + INITIALBLOCKSIZE l) - BLOCKBITS l) in *.
  assert (Hother : ∀ k a0, k ≠ slot → blockLookupTable l !! k = Some a0 → a0 ≠ a).
  { intros k a0 Hk Ek ->. destruct Hcase as [(Ea & _) | (_ & -> & _)].
    - apply Hk. apply (Hinj k slot a Ek Ea).
    - destruct (Hent k _ Ek) as (_ & b & Eb & _).
      rewrite heap_wf_next_free in Eb by exact Hwf. discriminate. }
  assert (Hs : (0 <=? slot) && (slot <? maxContainers) = true) by in_range.
  assert (Ho : (0 <=? off) && (off <? blk_len blk) = true) by in_range.
  destruct (decide _) as [Heq | Hne].
  - rewrite Hpos in Heq. unfold value_at, get, getBlock, load. simpl.
    rewrite Heq. simpl. rewrite Hs. simpl. rewrite lookup_insert_eq. simpl.
    rewrite Hh', lookup_insert_eq. simpl. rewrite Ho. simpl.
    rewrite lookup_insert_eq. simpl. rewrite Ho. apply lookup_insert_eq.
  - rewrite Hpos in Hne. unfold value_at, get, getBlock, load. simpl.
    destruct (block_position im (BLOCKBITS l) (INITIALBLOCKSIZE l) i) as [[s o] |] eqn:Hi;
      simpl; [| reflexivity].
    destruct ((0 <=? s) && (s <? maxContainers)) eqn:Hsr; simpl; [| reflexivity].
    destruct (Z.eq_dec s slot) as [-> | Hns].
    + assert (Hoo : o ≠ off) by congruence.
      rewrite lookup_insert_eq. simpl. rewrite Hh', lookup_insert_eq. simpl.
      destruct Hcase as [(Ea & Eb & _) | (Ea & _ & Eblk & _)].
      * rewrite Ea. simpl. rewrite Eb. simpl.
        destruct ((0 <=? o) && (o <? blk_len blk)) eqn:Hor; simpl; [| reflexivity].
        rewrite lookup_insert_eq, Eb. simpl. rewrite Hor.
        apply lookup_insert_ne. congruence.
      * rewrite Ea. simpl.
        destruct ((0 <=? o) && (o <? blk_len blk)) eqn:Hor; simpl; [| reflexivity].
        rewrite lookup_insert_eq. simpl. rewrite Hor.
        rewrite lookup_insert_ne by congruence. rewrite Eblk. apply lookup_empty.
    + rewrite lookup_insert_ne by congruence.
      destruct (blockLookupTable l !! s) as [a0 |] eqn:Ea0; simpl; [| reflexivity].
      pose proof (Hother s a0 Hns Ea0) as Hna.
      rewrite Hh', lookup_insert_ne by congruence.
      destruct (h_blocks h !! a0) as [b0 |] eqn:Eb0; simpl; [| reflexivity].
      destruct ((0 <=? o) && (o <? blk_len b0)); simpl; [| reflexivity].
      rewrite lookup_insert_ne by congruence. rewrite Eb0. reflexivity.
Qed.

(** A run of [insertAt] calls extended by one call. *)
Lemma insert_all_snoc im (calls : list (Z * T)) j v : ∀ s,
  insert_all im (calls ++ [(j, v)]) s
  = s1 ← insert_all im calls s; insertAt im s1.1 s1.2 j v.
Proof.
  induction calls as [| [j0 v0] calls IH]; intros s; simpl.
  - destruct (insertAt im s.1 s.2 j v) as [[h1 l1] |]; reflexivity.
  - destruct (insertAt im s.1 s.2 j0 v0) as [s1 |]; simpl; [apply IH | reflexivity].
Qed.

(** A run of [insertAt] calls keeps the list well formed. *)
Lemma insert_all_wf im (calls : list (Z * T)) : ∀ h l h' l',
  wf h l →
  (∀ index value, (index, value) ∈ calls →
     0 <= index ∧ index + INITIALBLOCKSIZE l < 2 ^ 64) →
  insert_all im calls (h, l) = Some (h', l') →
  wf h' l' ∧ BLOCKBITS l' = BLOCKBITS l ∧ INITIALBLOCKSIZE l' = INITIALBLOCKSIZE l.
Proof.
  induction calls as [| [j v] calls IH]; intros h l h' l' Hwf Hin Hrun; simpl in Hrun.
  - inversion Hrun; subst. auto.
  - destruct (insertAt im h l j v) as [[h1 l1] |] eqn:E; simpl in Hrun; [| discriminate].
    destruct (Hin j v) as [Hj Hlt]; [left |].
    destruct (insertAt_wf im h l j v h1 l1 Hwf Hj Hlt E) as (Hwf1 & Hb1 & HB1 & _).
    destruct (IH h1 l1 h' l' Hwf1) as (Hwf' & Hb' & HB'); [| exact Hrun |].
    { intros i x Hix. rewrite HB1. apply (Hin i x). right. exact Hix. }
    split; [exact Hwf' | split; congruence].
Qed.

(** On a well-formed list a block pointer that [get] follows is one of the
    table. *)
Lemma value_at_empty_table im h l i :
  blockLookupTable l = ∅ → value_at im h l i = None.
Proof.
  intros Htab. unfold value_at, get, getBlock. rewrite Htab.
  destruct (block_position im (BLOCKBITS l) (INITIALBLOCKSIZE l) i) as [[s o] |];
    simpl; [| reflexivity].
  destruct ((0 <=? s) && (s <? maxContainers)); simpl; [| reflexivity].
  rewrite lookup_empty. reflexivity.
Qed.

(** *** [freeList] *)

(** [freeList] deletes every block of the list, nulls every slot, and
    touches nothing else. *)
Lemma freeList_effect h l :
  wf h l →
  ∃ h', freeList h l
        = Some (h', mk (BLOCKBITS l) (INITIALBLOCKSIZE l) (numElements l) ∅) ∧
        heap_wf h' ∧ h_next h' = h_next h ∧
        (∀ a, footprint l a → h_blocks h' !! a = None) ∧
        (∀ a, ¬ footprint l a → h_blocks h' !! a = h_blocks h !! a).
Proof.
  intros (Hwf & Hbits & HB & Hent & Hinj).
  set (P := λ (i : Z) (s : heap T * t),
              heap_wf s.1 ∧ h_next s.1 = h_next h ∧
              BLOCKBITS s.2 = BLOCKBITS l ∧ INITIALBLOCKSIZE s.2 = INITIALBLOCKSIZE l ∧
              numElements s.2 = numElements l ∧
              (∀ k, blockLookupTable s.2 !! k
                    = if decide (k < i) then None else blockLookupTable l !! k) ∧
              (∀ a k, 0 <= k < i → blockLookupTable l !! k = Some a →
                      h_blocks s.1 !! a = None) ∧
              (∀ a, (∀ k, 0 <= k < i → blockLookupTable l !! k ≠ Some a) →
                    h_blocks s.1 !! a = h_blocks h !! a)).
  destruct (for_each_defined P
              (λ i s, p ← getBlock s.2 i;
                      h' ← delete_array p s.1;
                      Some (h', mk (BLOCKBITS s.2) (INITIALBLOCKSIZE s.2) (numElements s.2)
                                   (delete i (blockLookupTable s.2))))
              maxContainers) with (s := (h, l))
    as ([h' l'] & Hrun & Hwf' & Hnext & Hb & HB' & Hn & Htab & Hgone & Hkeep).
  - unfold maxContainers. lia.
  - intros i [hh ll] Hi (Hwfh & Hnh & Hb & HB' & Hn & Htab & Hgone & Hkeep). simpl in *.
    rewrite getBlock_in_range by exact Hi. simpl.
    rewrite Htab, decide_False by lia.
    assert (Htab' : ∀ k, delete i (blockLookupTable ll) !! k
                         = if decide (k < i + 1) then None else blockLookupTable l !! k).
    { intros k. destruct (decide (k = i)) as [-> | Hki].
      - rewrite lookup_delete_eq, decide_True by lia. reflexivity.
      - rewrite lookup_delete_ne, Htab by congruence.
        destruct (decide (k < i)); destruct (decide (k < i + 1)); try reflexivity; lia. }
    destruct (blockLookupTable l !! i) as [a |] eqn:Ea; simpl.
    + destruct (Hent i a Ea) as (_ & blk & Eb & _).
      assert (Hfirst : ∀ k, 0 <= k < i → blockLookupTable l !! k ≠ Some a).
      { intros k Hk Ek. pose proof (Hinj k i a Ek Ea). lia. }
      rewrite (Hkeep a Hfirst), Eb. simpl.
      eexists. split; [reflexivity |]. unfold P. simpl.
      split.
      { intros a0 b0 E0. simpl in E0. apply lookup_delete_Some in E0 as [_ E0].
        apply (Hwfh _ _ E0). }
      split; [exact Hnh |]. split; [exact Hb |]. split; [exact HB' |]. split; [exact Hn |].
      split; [exact Htab' |]. split.
      * intros a0 k Hk Ek. destruct (decide (a0 = a)) as [-> | Hne].
        -- apply lookup_delete_eq.
        -- rewrite lookup_delete_ne by congruence. apply (Hgone a0 k); [| exact Ek].
           destruct (decide (k = i)) as [-> | ?]; [congruence | lia].
      * intros a0 Hno. rewrite lookup_delete_ne.
        -- apply Hkeep. intros k Hk. apply Hno. lia.
        -- intros <-. apply (Hno i); [lia | exact Ea].
    + eexists. split; [reflexivity |]. unfold P. simpl.
      split; [exact Hwfh |]. split; [exact Hnh |]. split; [exact Hb |].
      split; [exact HB' |]. split; [exact Hn |]. split; [exact Htab' |]. split.
      * intros a0 k Hk Ek. apply (Hgone a0 k); [| exact Ek].
        destruct (decide (k = i)) as [-> | ?]; [congruence | lia].
      * intros a0 Hno. apply Hkeep. intros k Hk. apply Hno. lia.
  - unfold P. simpl. split; [exact Hwf |]. repeat (split; [reflexivity |]).
    split; [| split].
    + intros k. destruct (decide (k < 0)) as [Hk |]; [| reflexivity].
      destruct (blockLookupTable l !! k) as [a |] eqn:Ea; [| reflexivity].
      destruct (Hent k a Ea) as (Hr & _). lia.
    + intros a k Hk. lia.
    + reflexivity.
  - simpl in Hwf', Hnext, Hb, HB', Hn, Htab, Hgone, Hkeep. exists h'.
    assert (El : l' = mk (BLOCKBITS l) (INITIALBLOCKSIZE l) (numElements l) ∅).
    { destruct l' as [b B n tbl]. simpl in Hb, HB', Hn, Htab. subst b B n. f_equal.
      apply map_eq. intros k. rewrite Htab, lookup_empty.
      destruct (decide (k < maxContainers)) as [Hk | Hk]; [reflexivity |].
      destruct (blockLookupTable l !! k) as [a |] eqn:Ea; [| reflexivity].
      destruct (Hent k a Ea) as (Hr & _). lia. }
    split; [unfold freeList; rewrite Hrun, El; reflexivity |].
    split; [exact Hwf' |]. split; [exact Hnext |]. split.
    + intros a (k & Ek). destruct (Hent k a Ek) as (Hr & _). apply (Hgone a k Hr Ek).
    + intros a Hnfp. apply Hkeep. intros k _ Ek. apply Hnfp. exists k. exact Ek.
Qed.

(** *** The blocks of the store *)

(** Against the store [h0] in which the list was constructed: every block
    of [h0] is still there, unchanged, and is not a block of the list, and
    every other block of the store is one of the list. *)
Lemma insertAt_blocks im h0 h l j (v : T) h' l' :
  wf h l → 0 <= j → j + INITIALBLOCKSIZE l < 2 ^ 64 →
  (∀ a blk, h_blocks h0 !! a = Some blk → h_blocks h !! a = Some blk ∧ ¬ footprint l a) →
  (∀ a, is_Some (h_blocks h !! a) → footprint l a ∨ is_Some (h_blocks h0 !! a)) →
  insertAt im h l j v = Some (h', l') →
  (∀ a blk, h_blocks h0 !! a = Some blk → h_blocks h' !! a = Some blk ∧ ¬ footprint l' a) ∧
  (∀ a, is_Some (h_blocks h' !! a) → footprint l' a ∨ is_Some (h_blocks h0 !! a)).
Proof.
  intros Hwfl Hj Hlt Hold Hnew Hrun.
  destruct (insertAt_Some im h l j v h' l' Hwfl Hj Hlt Hrun)
    as (off & a & blk & Hrange & Hpos & Hcase & Hlen & Hoff & Hh' & ->).
  destruct Hwfl as (Hwf & Hbits & HB & Hent & Hinj).
  set (slot := Z.log2 (j + INITIALBLOCKSIZE l) - BLOCKBITS l) in *.
  assert (Hfp : ∀ a0, footprint (mk (BLOCKBITS l) (INITIALBLOCKSIZE l)
                                    (wrap64 (numElements l + 1))
                                    (<[slot := a]> (blockLookupTable l))) a0
                      ↔ a0 = a ∨ footprint l a0).
  { intros a0. unfold footprint. simpl. split.
    - intros (k & Ek). destruct (decide (k = slot)) as [-> | Hne].
      + rewrite lookup_insert_eq in Ek. left. congruence.
      + rewrite lookup_insert_ne in Ek by congruence. right. eauto.
    - intros [-> | (k & Ek)].
      + exists slot. apply lookup_insert_eq.
      + destruct (decide (k = slot)) as [-> | Hne].
        * destruct Hcase as [(Ea & _) | (Ea & _)]; [| congruence].
          exists slot. rewrite lookup_insert_eq. congruence.
        * exists k. rewrite lookup_insert_ne by congruence. exact Ek. }
  split.
  - intros a0 b0 E0. destruct (Hold a0 b0 E0) as [E Hnfp].
    assert (Hne : a0 ≠ a).
    { intros ->. destruct Hcase as [(Ea & _) | (_ & -> & _)].
      - apply Hnfp. exists slot. exact Ea.
      - rewrite heap_wf_next_free in E by exact Hwf. discriminate. }
    split; [rewrite Hh', lookup_insert_ne by congruence; exact E |].
    intros Hf. apply Hfp in Hf as [? | Hf]; [congruence | exact (Hnfp Hf)].
  - intros a0 Hal. rewrite Hh' in Hal. destruct (decide (a0 = a)) as [-> | Hne].
    + left. apply Hfp. left. reflexivity.
    + rewrite lookup_insert_ne in Hal by congruence.
      destruct (Hnew a0 Hal) as [Hf | H0]; [left; apply Hfp; right; exact Hf | right; exact H0].
Qed.

End Values.
End RandomInsertValues.

(** ** Two [RandomInsertPiggyList]s in one store *)

Module RandomInsertCopy.
Import RandomInsertPiggyList RandomInsertFacts RandomInsertValues.

Section Copy.
Context {T : Type}.
Implicit Types (h : heap T) (l : t) (blk : block T).

(** The copy constructor on a well-formed list: the copy is well formed,
    its blocks are new, the original is as it was, and every index reads
    the same in both. *)
Lemma copy_effect h other :
  wf h other →
  ∃ h' c,
    copy h other = Some (h', c) ∧ wf h' c ∧ wf h' other ∧
    numElements c = numElements other ∧
    BLOCKBITS c = BLOCKBITS other ∧ INITIALBLOCKSIZE c = INITIALBLOCKSIZE other ∧
    (∀ a, footprint c a → h_blocks h !! a = None) ∧
    (∀ a blk, h_blocks h !! a = Some blk → h_blocks h' !! a = Some blk) ∧
    (∀ im i, value_at im h' c i = value_at im h other i).
Proof.
  intros (Hwf & Hbits & HB & Hent & Hinj).
  assert (Hbs : ul_shl1 (BLOCKBITS other) = Some (INITIALBLOCKSIZE other)).
  { unfold ul_shl1.
    assert (Hc : (0 <=? BLOCKBITS other) && (BLOCKBITS other <? 64) = true) by in_range.
    rewrite Hc, HB. f_equal. apply wrap64_small. apply pow2_range; lia. }
  set (P := λ (i : Z) (s : heap T * gmap Z positive),
              heap_wf s.1 ∧
              (∀ a blk, h_blocks h !! a = Some blk → h_blocks s.1 !! a = Some blk) ∧
              (∀ k src, 0 <= k < i → blockLookupTable other !! k = Some src →
                        is_Some (s.2 !! k)) ∧
              (∀ k a, s.2 !! k = Some a →
                      0 <= k < i ∧ h_blocks h !! a = None ∧
                      ∃ src blk sblk,
                        blockLookupTable other !! k = Some src ∧
                        h_blocks s.1 !! a = Some blk ∧ h_blocks h !! src = Some sblk ∧
                        blk_len blk = blk_len sblk ∧
                        ∀ off, 0 <= off < blk_len blk →
                               blk_data blk !! off = blk_data sblk !! off) ∧
              (∀ k k' a, s.2 !! k = Some a → s.2 !! k' = Some a → k = k')).
  destruct (for_each_defined P (copy_block other (INITIALBLOCKSIZE other)) maxContainers)
    with (s := (h, ∅ : gmap Z positive))
    as ([h' tbl] & Hrun & Hwf' & Hkeep & Hfull & Hnew & Hinj').
  - unfold maxContainers. lia.
  - intros i [hh t0] Hi (Hwfh & Hkeeph & Hfullh & Hnewh & Hinjh). simpl in *.
    unfold copy_block. rewrite getBlock_in_range by exact Hi. simpl.
    destruct (blockLookupTable other !! i) as [src |] eqn:Esrc.
    + destruct (Hent i src Esrc) as (_ & sb & Eb & Hlen).
      set (n := wrap64 (INITIALBLOCKSIZE other * 2 ^ i)) in *.
      pose proof (wrap64_range (INITIALBLOCKSIZE other * 2 ^ i)) as Hn. fold n in Hn.
      destruct (new_array_other n hh src sb Hwfh (Hkeeph _ _ Eb)) as [Hne E1].
      simpl in Hne, E1.
      assert (Hfreshh : h_blocks hh !! h_next hh = None)
        by (apply heap_wf_next_free; exact Hwfh).
      assert (Hfresh : h_blocks h !! h_next hh = None).
      { destruct (h_blocks h !! h_next hh) as [b |] eqn:E; [| reflexivity].
        apply Hkeeph in E. congruence. }
      assert (Hnotp : ∀ k, t0 !! k = Some (h_next hh) → False).
      { intros k Ek. destruct (Hnewh k _ Ek) as (_ & _ & _ & b & _ & _ & E & _). congruence. }
      simpl.
      rewrite (memcpy_defined _ (h_next hh) src n (Block n ∅) sb);
        [| apply lookup_insert_eq | exact E1 | simpl; lia | lia | congruence].
      simpl. eexists. split; [reflexivity |]. unfold P. simpl.
      split.
      { intros a b. simpl. intros Hl. destruct (decide (a = h_next hh)) as [-> | Hna].
        - lia.
        - rewrite !lookup_insert_ne in Hl by congruence. apply Hwfh in Hl. lia. }
      split.
      { intros a b E. assert (a ≠ h_next hh) by (intros ->; congruence).
        rewrite !lookup_insert_ne by congruence. apply Hkeeph. exact E. }
      split.
      { intros k src' Hk Ek. destruct (decide (k = i)) as [-> | Hki].
        - rewrite lookup_insert_eq. eauto.
        - rewrite lookup_insert_ne by congruence. apply (Hfullh k src'); [lia | exact Ek]. }
      split.
      { intros k a Ek. destruct (decide (k = i)) as [-> | Hki].
        - rewrite lookup_insert_eq in Ek. inversion Ek; subst a.
          split; [lia |]. split; [exact Hfresh |].
          exists src, (Block n (copy_cells n (blk_data sb) ∅)), sb. simpl.
          split; [exact Esrc |]. split; [apply lookup_insert_eq |].
          split; [exact Eb |]. split; [congruence |].
          intros off Hoff. rewrite copy_cells_lookup.
          destruct (Z.ltb_spec off n); [reflexivity | lia].
        - rewrite lookup_insert_ne in Ek by congruence.
          destruct (Hnewh k a Ek) as (Hk & Hfr & src' & blk & sblk & E2 & E3 & E4 & E5 & E6).
          split; [lia |]. split; [exact Hfr |]. exists src', blk, sblk.
          split; [exact E2 |]. split; [| split; [exact E4 | split; [exact E5 | exact E6]]].
          assert (a ≠ h_next hh) by (intros ->; congruence).
          rewrite !lookup_insert_ne by congruence. exact E3. }
      intros k k' a Ek Ek'.
      destruct (decide (k = i)) as [-> | Hki]; destruct (decide (k' = i)) as [-> | Hki'];
        [reflexivity | | |].
      * rewrite lookup_insert_eq in Ek. rewrite lookup_insert_ne in Ek' by congruence.
        inversion Ek; subst a. exfalso. apply (Hnotp k' Ek').
      * rewrite lookup_insert_eq in Ek'. rewrite lookup_insert_ne in Ek by congruence.
        inversion Ek'; subst a. exfalso. apply (Hnotp k Ek).
      * rewrite lookup_insert_ne in Ek by congruence.
        rewrite lookup_insert_ne in Ek' by congruence. apply (Hinjh k k' a Ek Ek').
    + exists (hh, t0). split; [reflexivity |]. unfold P. simpl.
      split; [exact Hwfh |]. split; [exact Hkeeph |]. split; [| split; [| exact Hinjh]].
      * intros k src Hk Ek. destruct (decide (k = i)) as [-> | Hki]; [congruence |].
        apply (Hfullh k src); [lia | exact Ek].
      * intros k a Ek. destruct (Hnewh k a Ek) as (Hk & Hrest). split; [lia | exact Hrest].
  - unfold P. simpl. split; [exact Hwf |]. split; [auto |].
    split; [intros k src Hk; lia |].
    split; intros k; intros; rewrite lookup_empty in *; discriminate.
  - simpl in Hwf', Hkeep, Hfull, Hnew, Hinj'.
    exists h', (mk (BLOCKBITS other) (INITIALBLOCKSIZE other) (numElements other) tbl).
    split; [unfold copy; rewrite Hbs; cbn [mbind option_bind]; rewrite Hrun; reflexivity |].
    split.
    { unfold wf. simpl. split; [exact Hwf' |]. split; [exact Hbits |]. split; [exact HB |].
      split; [| exact Hinj'].
      intros k a Ek. destruct (Hnew k a Ek) as (Hk & _ & src & blk & sblk & E2 & E3 & E4 & E5 & _).
      split; [exact Hk |]. exists blk. split; [exact E3 |].
      destruct (Hent k src E2) as (_ & sb & Esb & Hl). rewrite E4 in Esb.
      inversion Esb; subst sb. congruence. }
    split.
    { unfold wf. split; [exact Hwf' |]. split; [exact Hbits |]. split; [exact HB |].
      split; [| exact Hinj].
      intros k a Ek. destruct (Hent k a Ek) as (Hk & blk & Eb & Hl).
      split; [exact Hk |]. exists blk. split; [apply Hkeep; exact Eb | exact Hl]. }
    split; [reflexivity |]. split; [reflexivity |]. split; [reflexivity |]. split.
    { intros a (k & Ek). simpl in Ek. apply (Hnew k a Ek). }
    split; [exact Hkeep |].
    intros im i. unfold value_at, get, getBlock, load. simpl.
    destruct (block_position im (BLOCKBITS other) (INITIALBLOCKSIZE other) i)
      as [[s o] |]; simpl; [| reflexivity].
    destruct ((0 <=? s) && (s <? maxContainers)) eqn:Hs; simpl; [| reflexivity].
    apply andb_prop in Hs as [Hs1 Hs2]. apply Z.leb_le in Hs1. apply Z.ltb_lt in Hs2.
    destruct (blockLookupTable other !! s) as [src |] eqn:Esrc; simpl.
    + destruct (Hfull s src ltac:(lia) Esrc) as [a Ea]. rewrite Ea. simpl.
      destruct (Hnew s a Ea) as (_ & _ & src' & blk & sblk & E2 & E3 & E4 & E5 & E6).
      rewrite Esrc in E2. inversion E2; subst src'.
      rewrite E3, E4. simpl. rewrite E5.
      destruct ((0 <=? o) && (o <? blk_len sblk)) eqn:Ho; simpl; [| reflexivity].
      rewrite E3, E4. simpl. rewrite E5, Ho.
      apply andb_prop in Ho as [Ho1 Ho2]. apply Z.leb_le in Ho1. apply Z.ltb_lt in Ho2.
      apply E6. lia.
    + destruct (tbl !! s) as [a |] eqn:Ea; simpl; [| reflexivity].
      destruct (Hnew s a Ea) as (_ & _ & src' & _ & _ & E2 & _). congruence.
Qed.

(** A call of [insertAt] on one list leaves another list of the same
    store, whose blocks are not blocks of the first, as it is. *)
Lemma insertAt_other im h l l2 j (v : T) h' l' :
  wf h l → wf h l2 → (∀ a, footprint l2 a → ¬ footprint l a) →
  0 <= j → j + INITIALBLOCKSIZE l < 2 ^ 64 →
  insertAt im h l j v = Some (h', l') →
  wf h' l2 ∧ (∀ a, footprint l2 a → ¬ footprint l' a) ∧
  ∀ im' i, value_at im' h' l2 i = value_at im' h l2 i.
Proof.
  intros Hwfl Hwf2 Hdisj Hj Hlt Hrun.
  destruct (insertAt_wf im h l j v h' l' Hwfl Hj Hlt Hrun) as ((Hwfh' & _) & _).
  destruct (insertAt_Some im h l j v h' l' Hwfl Hj Hlt Hrun)
    as (off & a & blk & Hrange & Hpos & Hcase & Hlen & Hoff & Hh' & ->).
  set (slot := Z.log2 (j + INITIALBLOCKSIZE l) - BLOCKBITS l) in *.
  destruct Hwf2 as (Hwf & Hbits2 & HB2 & Hent2 & Hinj2).
  assert (Hne : ∀ k a0, blockLookupTable l2 !! k = Some a0 → a0 ≠ a).
  { intros k a0 Ek ->. destruct Hcase as [(Ea & _) | (_ & -> & _)].
    - apply (Hdisj a); [exists k; exact Ek | exists slot; exact Ea].
    - destruct (Hent2 k _ Ek) as (_ & b & Eb & _).
      rewrite heap_wf_next_free in Eb by exact Hwf. discriminate. }
  assert (Hsame : ∀ k a0, blockLookupTable l2 !! k = Some a0 →
                          h_blocks h' !! a0 = h_blocks h !! a0).
  { intros k a0 Ek. rewrite Hh'. apply lookup_insert_ne.
    apply not_eq_sym, (Hne k a0 Ek). }
  split; [| split].
  - unfold wf. split; [exact Hwfh' |]. split; [exact Hbits2 |]. split; [exact HB2 |].
    split; [| exact Hinj2].
    intros k a0 Ek. destruct (Hent2 k a0 Ek) as (Hk & b & Eb & Hl).
    split; [exact Hk |]. exists b. rewrite (Hsame k a0 Ek). split; assumption.
  - intros a0 (k & Ek) (k' & Ek'). simpl in Ek'.
    destruct (decide (k' = slot)) as [-> | Hk'].
    + rewrite lookup_insert_eq in Ek'. inversion Ek'; subst a0. apply (Hne k a Ek). reflexivity.
    + rewrite lookup_insert_ne in Ek' by congruence.
      apply (Hdisj a0); [exists k; exact Ek | exists k'; exact Ek'].
  - intros im' i. unfold value_at, get, getBlock, load.
    destruct (block_position im' (BLOCKBITS l2) (INITIALBLOCKSIZE l2) i) as [[s o] |];
      simpl; [| reflexivity].
    destruct ((0 <=? s) && (s <? maxContainers)); simpl; [| reflexivity].
    destruct (blockLookupTable l2 !! s) as [a0 |] eqn:Ea0; simpl; [| reflexivity].
    rewrite (Hsame s a0 Ea0).
    destruct (h_blocks h !! a0) as [b0 |] eqn:Eb0; simpl; [| reflexivity].
    destruct ((0 <=? o) && (o <? blk_len b0)); simpl; [| reflexivity].
    rewrite (Hsame s a0 Ea0), Eb0. reflexivity.
Qed.

End Copy.
End RandomInsertCopy.

(** ** [RandomInsertPiggyList]: values, allocation, [clear], destruction and
    copies *)

Module RandomInsertRuns.
Import RandomInsertPiggyList RandomInsertFacts RandomInsertValues.

Section Runs.
Context {T : Type}.
Implicit Types (h : heap T) (l : t).

Lemma create_empty bits l :
  create bits = Some l → l = mk bits (2 ^ bits) 0 ∅ ∧ 0 <= bits < 64.
Proof.
  unfold create. intros Hc.
  destruct (ul_shl1 bits) as [bs |] eqn:E; simpl in Hc; [| discriminate].
  apply PiggyListFacts.ul_shl1_Some in E as [Hbits ->]. inversion Hc. auto.
Qed.

(** A run of [insertAt] calls on a new list: the list stays well formed
    and the blocks of the store are accounted for. *)
Lemma insert_all_blocks im (calls : list (Z * T)) h0 : ∀ h l h' l',
  wf h l →
  (∀ index value, (index, value) ∈ calls →
     0 <= index ∧ index + INITIALBLOCKSIZE l < 2 ^ 64) →
  (∀ a blk, h_blocks h0 !! a = Some blk → h_blocks h !! a = Some blk ∧ ¬ footprint l a) →
  (∀ a, is_Some (h_blocks h !! a) → footprint l a ∨ is_Some (h_blocks h0 !! a)) →
  insert_all im calls (h, l) = Some (h', l') →
  (∀ a blk, h_blocks h0 !! a = Some blk → h_blocks h' !! a = Some blk ∧ ¬ footprint l' a) ∧
  (∀ a, is_Some (h_blocks h' !! a) → footprint l' a ∨ is_Some (h_blocks h0 !! a)).
Proof.
  induction calls as [| [j v] calls IH]; intros h l h' l' Hwf Hin Hold Hnew Hrun;
    simpl in Hrun.
  - inversion Hrun; subst. auto.
  - destruct (insertAt im h l j v) as [[h1 l1] |] eqn:E; simpl in Hrun; [| discriminate].
    destruct (Hin j v) as [Hj Hlt]; [left |].
    destruct (insertAt_wf im h l j v h1 l1 Hwf Hj Hlt E) as (Hwf1 & _ & HB1 & _).
    destruct (insertAt_blocks im h0 h l j v h1 l1 Hwf Hj Hlt Hold Hnew E) as [Hold1 Hnew1].
    apply (IH h1 l1 h' l' Hwf1); try assumption.
    intros i x Hix. rewrite HB1. apply (Hin i x). right. exact Hix.
Qed.

(** The state after a run of [insertAt] calls on a new list. *)
Lemma insert_all_new im bits (h0 : heap T) l0 (calls : list (Z * T)) h l :
  heap_wf h0 → create bits = Some l0 →
  (∀ index value, (index, value) ∈ calls → 0 <= index ∧ index + 2 ^ bits < 2 ^ 64) →
  insert_all im calls (h0, l0) = Some (h, l) →
  wf h l ∧ BLOCKBITS l = bits ∧ INITIALBLOCKSIZE l = 2 ^ bits ∧
  (∀ a blk, h_blocks h0 !! a = Some blk → h_blocks h !! a = Some blk ∧ ¬ footprint l a) ∧
  (∀ a, is_Some (h_blocks h !! a) → footprint l a ∨ is_Some (h_blocks h0 !! a)).
Proof.
  intros Hwf Hcreate Hin Hrun.
  destruct (create_wf h0 bits l0 Hwf Hcreate) as (Hwf0 & Hb0 & HB0 & _).
  destruct (create_empty bits l0 Hcreate) as [El0 _].
  assert (Hin' : ∀ index value, (index, value) ∈ calls →
                   0 <= index ∧ index + INITIALBLOCKSIZE l0 < 2 ^ 64).
  { intros i x Hix. rewrite HB0. apply (Hin i x Hix). }
  destruct (insert_all_wf im calls h0 l0 h l Hwf0 Hin' Hrun) as (Hwfl & Hb & HB).
  split; [exact Hwfl |]. split; [congruence |]. split; [congruence |].
  apply (insert_all_blocks im calls h0 h0 l0 h l Hwf0 Hin'); [| auto | exact Hrun].
  intros a blk E. split; [exact E |]. intros (k & Ek). rewrite El0 in Ek. simpl in Ek.
  rewrite lookup_empty in Ek. discriminate.
Qed.

(** After [freeList] on a list whose blocks are accounted for, the store
    has the blocks it had when the list was constructed. *)
Lemma freeList_restores h0 h l h' l' :
  wf h l →
  (∀ a blk, h_blocks h0 !! a = Some blk → h_blocks h !! a = Some blk ∧ ¬ footprint l a) →
  (∀ a, is_Some (h_blocks h !! a) → footprint l a ∨ is_Some (h_blocks h0 !! a)) →
  freeList h l = Some (h', l') →
  l' = mk (BLOCKBITS l) (INITIALBLOCKSIZE l) (numElements l) ∅ ∧
  h_blocks h' = h_blocks h0 ∧ freeList h' l' = Some (h', l').
Proof.
  intros Hwf Hold Hnew Hfree.
  destruct (freeList_effect h l Hwf) as (h1 & E1 & Hwf1 & Hnext & Hgone & Hkeep).
  rewrite E1 in Hfree. inversion Hfree; subst h1 l'. clear Hfree.
  split; [reflexivity |]. split.
  - apply map_eq. intros a.
    destruct (h_blocks h0 !! a) as [blk |] eqn:E0.
    + destruct (Hold a blk E0) as [E Hnfp]. rewrite (Hkeep a Hnfp). exact E.
    + destruct (h_blocks h' !! a) as [blk' |] eqn:E'; [exfalso | reflexivity].
      destruct (h_blocks h !! a) as [blk |] eqn:E.
      * destruct (Hnew a ltac:(eauto)) as [Hfp | [b Hb]]; [| congruence].
        rewrite (Hgone a Hfp) in E'. discriminate.
      * assert (Hnfp : ¬ footprint l a).
        { intros (k & Ek). destruct Hwf as (_ & _ & _ & Hent & _).
          destruct (Hent k a Ek) as (_ & b & Eb & _). congruence. }
        rewrite (Hkeep a Hnfp) in E'. congruence.
  - set (l1 := mk (BLOCKBITS l) (INITIALBLOCKSIZE l) (numElements l) ∅).
    assert (Hwfl1 : wf h' l1).
    { destruct Hwf as (_ & Hbits & HB & _). unfold wf. simpl.
      split; [exact Hwf1 |]. split; [exact Hbits |]. split; [exact HB |].
      split; intros k; intros; rewrite lookup_empty in *; discriminate. }
    destruct (freeList_effect h' l1 Hwfl1) as (h2 & E2 & _ & Hnext2 & _ & Hkeep2).
    rewrite E2. simpl. f_equal. f_equal.
    destruct h2 as [b2 n2], h' as [b' n']. simpl in *. subst n2. f_equal.
    apply map_eq. intros a. apply Hkeep2.
    intros (k & Ek). simpl in Ek. rewrite lookup_empty in Ek. discriminate.
Qed.

End Runs.
End RandomInsertRuns.

Section RandomInsertProperties.
Import RandomInsertPiggyList RandomInsertFacts RandomInsertValues RandomInsertRuns
  RandomInsertCopy.
Context {T : Type}.
Implicit Types (h : heap T) (l : RandomInsertPiggyList.t).

(** X9 (the list is a map from indices to values).  After any run of
    [insertAt] calls on a new list, with every index inside the range
    where [get] is exact ([index + B < 2^32]): the value read through
    [get(i)] is the value of the last [insertAt] call for [i], and an
    index that no call named has no value (its block was never allocated,
    or the element was never written). *)
Theorem insertions_form_map im initialbitsize (h0 : heap T) l0 (calls : list (Z * T)) h l :
  heap_wf h0 → create initialbitsize = Some l0 →
  (∀ index value, (index, value) ∈ calls →
     0 <= index ∧ index + 2 ^ initialbitsize < 2 ^ 32) →
  insert_all im calls (h0, l0) = Some (h, l) →
  ∀ i, 0 <= i → i + 2 ^ initialbitsize < 2 ^ 32 →
       value_at im h l i = map_of calls !! i.
Proof.
  intros Hwf Hcreate. revert h l.
  induction calls as [| [j v] calls IH] using rev_ind; intros h l Hin Hrun i Hi Hil.
  - simpl in Hrun. inversion Hrun; subst h l.
    destruct (create_empty initialbitsize l0 Hcreate) as [-> _].
    rewrite value_at_empty_table by reflexivity. symmetry. apply lookup_empty.
  - rewrite insert_all_snoc in Hrun.
    destruct (insert_all im calls (h0, l0)) as [[h1 l1] |] eqn:E1; simpl in Hrun;
      [| discriminate].
    assert (Hin1 : ∀ index value, (index, value) ∈ calls →
                     0 <= index ∧ index + 2 ^ initialbitsize < 2 ^ 32).
    { intros k x Hkx. apply (Hin k x). apply elem_of_app. left. exact Hkx. }
    destruct (Hin j v) as [Hj Hjl]; [apply elem_of_app; right; left |].
    destruct (insert_all_new im initialbitsize h0 l0 calls h1 l1 Hwf Hcreate) as
      (Hwf1 & Hb1 & HB1 & _); [| exact E1 |].
    { intros k x Hkx. destruct (Hin1 k x Hkx). split; lia. }
    rewrite (insertAt_value_at im h1 l1 j v h l i Hwf1 Hj ltac:(rewrite HB1; lia) Hrun).
    unfold map_of. rewrite foldl_app. simpl. fold (map_of calls).
    rewrite lookup_insert.
    destruct (insertAt_Some im h1 l1 j v h l Hwf1 Hj ltac:(rewrite HB1; lia) Hrun)
      as (off & _ & _ & _ & Hpos & _).
    rewrite Hb1, HB1 in *.
    destruct (create_empty initialbitsize l0 Hcreate) as [_ Hbits].
    destruct (decide (j = i)) as [-> | Hne].
    + rewrite decide_True by reflexivity. reflexivity.
    + rewrite decide_False.
      * apply (IH h1 l1 Hin1 eq_refl i Hi Hil).
      * intros Heq. apply Hne. symmetry.
        apply (SequenceFacts.block_position_injective im initialbitsize i j);
          try lia; [rewrite Hpos; eauto | exact Heq].
Qed.

(** X10 (blocks are allocated on demand).  After any run of [insertAt]
    calls on a new list, the slots that hold a block are exactly the slots
    of the indices inserted, however far apart they are; each block has
    [B * 2^slot] elements, and one allocation was made for each. *)
Theorem blocks_allocated_on_demand im initialbitsize (h0 : heap T) l0
    (calls : list (Z * T)) h l :
  heap_wf h0 → create initialbitsize = Some l0 →
  (∀ index value, (index, value) ∈ calls →
     0 <= index ∧ index + 2 ^ initialbitsize < 2 ^ 64) →
  insert_all im calls (h0, l0) = Some (h, l) →
  (∀ k, is_Some (blockLookupTable l !! k) ↔
        ∃ index value, (index, value) ∈ calls ∧
                       k = Z.log2 (index + 2 ^ initialbitsize) - initialbitsize) ∧
  (∀ k a, blockLookupTable l !! k = Some a →
          ∃ blk, h_blocks h !! a = Some blk ∧ blk_len blk = 2 ^ initialbitsize * 2 ^ k) ∧
  Z.pos (h_next h) - Z.pos (h_next h0) = Z.of_nat (base.size (blockLookupTable l)).
Proof.
  intros Hwf Hcreate Hin Hrun.
  destruct (create_empty initialbitsize l0 Hcreate) as [El0 Hbits].
  assert (Hslots : (∀ k, is_Some (blockLookupTable l !! k) ↔
                         ∃ index value, (index, value) ∈ calls ∧
                           k = Z.log2 (index + 2 ^ initialbitsize) - initialbitsize) ∧
                   Z.pos (h_next h) - Z.pos (h_next h0)
                   = Z.of_nat (base.size (blockLookupTable l))).
  { revert h l Hin Hrun.
    induction calls as [| [j v] calls IH] using rev_ind; intros h l Hin Hrun.
    - simpl in Hrun. inversion Hrun; subst h l. rewrite El0. simpl. split.
      + intros k. rewrite lookup_empty. split.
        * intros [x Hx]. discriminate.
        * intros (i & x & Hix & _). apply elem_of_nil in Hix. destruct Hix.
      + rewrite map_size_empty. lia.
    - rewrite insert_all_snoc in Hrun.
      destruct (insert_all im calls (h0, l0)) as [[h1 l1] |] eqn:E1; simpl in Hrun;
        [| discriminate].
      assert (Hin1 : ∀ index value, (index, value) ∈ calls →
                       0 <= index ∧ index + 2 ^ initialbitsize < 2 ^ 64).
      { intros k x Hkx. apply (Hin k x). apply elem_of_app. left. exact Hkx. }
      destruct (Hin j v) as [Hj Hjl]; [apply elem_of_app; right; left |].
      destruct (insert_all_new im initialbitsize h0 l0 calls h1 l1 Hwf Hcreate Hin1 E1)
        as (Hwf1 & Hb1 & HB1 & _).
      destruct (IH h1 l1 Hin1 eq_refl) as [IHs IHn].
      destruct (insertAt_Some im h1 l1 j v h l Hwf1 Hj ltac:(rewrite HB1; lia) Hrun)
        as (off & a & blk & _ & _ & Hcase & _ & _ & _ & ->).
      rewrite Hb1, HB1 in *. simpl.
      set (slot := Z.log2 (j + 2 ^ initialbitsize) - initialbitsize) in *.
      split.
      + intros k. destruct (decide (k = slot)) as [-> | Hne].
        * rewrite lookup_insert_eq. split; [| eauto].
          intros _. exists j, v. split; [apply elem_of_app; right; left | reflexivity].
        * rewrite lookup_insert_ne by congruence. rewrite IHs. split.
          -- intros (i & x & Hix & Hk). exists i, x.
             split; [apply elem_of_app; left; exact Hix | exact Hk].
          -- intros (i & x & Hix & Hk). apply elem_of_app in Hix as [Hix | Hix].
             ++ exists i, x. split; assumption.
             ++ apply list_elem_of_singleton in Hix. inversion Hix; subst i x.
                contradiction.
      + destruct Hcase as [(Ea & _ & Hn) | (Ea & _ & _ & Hn)]; rewrite Hn.
        * rewrite (insert_id _ _ _ Ea). exact IHn.
        * rewrite (map_size_insert_None _ _ _ Ea). lia. }
  destruct Hslots as [Hs Hn]. split; [exact Hs |]. split; [| exact Hn].
  intros k a Ek.
  destruct (insert_all_new im initialbitsize h0 l0 calls h l Hwf Hcreate Hin Hrun)
    as ((_ & _ & _ & Hent & _) & Hb & HB & _).
  destruct (Hent k a Ek) as (_ & blk & Eb & Hlen). exists blk. split; [exact Eb |].
  rewrite Hlen, HB. apply wrap64_small.
  destruct (proj1 (Hs k) ltac:(eauto)) as (i & x & Hix & ->).
  destruct (Hin i x Hix) as [Hi Hil].
  assert (HBpos : 0 < 2 ^ initialbitsize) by (apply pow2_pos; lia).
  assert (Hlog : initialbitsize <= Z.log2 (i + 2 ^ initialbitsize) < 64).
  { split; [apply Z.log2_le_pow2; lia | apply Z.log2_lt_pow2; lia]. }
  rewrite <- Z.pow_add_r by lia. apply pow2_range. lia.
Qed.

(** X11 ([clear] restores the new list).  After any run of [insertAt]
    calls on a list constructed in a store, [clear] is defined and leaves
    the list exactly as the constructor made it (size 0, every slot null)
    and the store with exactly the blocks it had then; [get] is then
    undefined for every index. *)
Theorem clear_restores_new_list im initialbitsize (h0 : heap T) l0 (calls : list (Z * T)) h l :
  heap_wf h0 → create initialbitsize = Some l0 →
  (∀ index value, (index, value) ∈ calls →
     0 <= index ∧ index + 2 ^ initialbitsize < 2 ^ 64) →
  insert_all im calls (h0, l0) = Some (h, l) →
  ∃ h', clear h l = Some (h', l0) ∧ size l0 = 0 ∧ blockLookupTable l0 = ∅ ∧
        h_blocks h' = h_blocks h0 ∧ ∀ im' i, get im' h' l0 i = None.
Proof.
  intros Hwf Hcreate Hin Hrun.
  destruct (insert_all_new im initialbitsize h0 l0 calls h l Hwf Hcreate Hin Hrun)
    as (Hwfl & Hb & HB & Hold & Hnew).
  destruct (create_empty initialbitsize l0 Hcreate) as [El0 _].
  destruct (freeList_effect h l Hwfl) as (h' & Hfree & _).
  destruct (freeList_restores h0 h l h' _ Hwfl Hold Hnew Hfree) as (_ & Hblocks & _).
  exists h'. unfold clear. rewrite Hfree. simpl. rewrite Hb, HB, El0. simpl.
  split; [reflexivity |]. split; [reflexivity |]. split; [reflexivity |].
  split; [exact Hblocks |].
  intros im' i. unfold get, getBlock. simpl.
  destruct (block_position im' initialbitsize (2 ^ initialbitsize) i) as [[s o] |];
    simpl; [| reflexivity].
  destruct ((0 <=? s) && (s <? maxContainers)); simpl; [| reflexivity].
  rewrite lookup_empty. reflexivity.
Qed.

(** X12 (the destructor frees what the list allocated; [freeList] is
    repeatable).  After any run of [insertAt] calls on a list constructed
    in a store, the destructor is defined and leaves exactly the blocks
    the store had then.  [freeList] nulls the slots it deletes, so a
    second [freeList], or the destructor after it, deletes nothing. *)
Theorem destructor_frees_inserted_blocks im initialbitsize (h0 : heap T) l0
    (calls : list (Z * T)) h l :
  heap_wf h0 → create initialbitsize = Some l0 →
  (∀ index value, (index, value) ∈ calls →
     0 <= index ∧ index + 2 ^ initialbitsize < 2 ^ 64) →
  insert_all im calls (h0, l0) = Some (h, l) →
  ∃ h1 l1,
    freeList h l = Some (h1, l1) ∧ destructor h l = Some h1 ∧
    h_blocks h1 = h_blocks h0 ∧
    freeList h1 l1 = Some (h1, l1) ∧ destructor h1 l1 = Some h1.
Proof.
  intros Hwf Hcreate Hin Hrun.
  destruct (insert_all_new im initialbitsize h0 l0 calls h l Hwf Hcreate Hin Hrun)
    as (Hwfl & _ & _ & Hold & Hnew).
  destruct (freeList_effect h l Hwfl) as (h1 & Hfree & _).
  destruct (freeList_restores h0 h l h1 _ Hwfl Hold Hnew Hfree) as (_ & Hblocks & Hagain).
  eexists h1, _. split; [exact Hfree |].
  unfold destructor. rewrite Hfree, Hagain. simpl. auto.
Qed.

(** X13 (the copy is deep).  The copy constructor is defined on every list
    made by [insertAt] calls on a new list.  The copy has the size of the
    original and reads the same at every index; the original is unchanged;
    and an [insertAt] on either list afterwards changes no value of the
    other. *)
Theorem copy_is_deep im initialbitsize (h0 : heap T) l0 (calls : list (Z * T)) h other :
  heap_wf h0 → create initialbitsize = Some l0 →
  (∀ index value, (index, value) ∈ calls →
     0 <= index ∧ index + 2 ^ initialbitsize < 2 ^ 64) →
  insert_all im calls (h0, l0) = Some (h, other) →
  ∃ h' c,
    copy h other = Some (h', c) ∧ size c = size other ∧
    (∀ im' i, value_at im' h' c i = value_at im' h other i) ∧
    (∀ im' i, value_at im' h' other i = value_at im' h other i) ∧
    (∀ j v h2 c2, 0 <= j → j + 2 ^ initialbitsize < 2 ^ 64 →
       insertAt im h' c j v = Some (h2, c2) →
       ∀ im' i, value_at im' h2 other i = value_at im' h' other i) ∧
    (∀ j v h2 other2, 0 <= j → j + 2 ^ initialbitsize < 2 ^ 64 →
       insertAt im h' other j v = Some (h2, other2) →
       ∀ im' i, value_at im' h2 c i = value_at im' h' c i).
Proof.
  intros Hwf Hcreate Hin Hrun.
  destruct (insert_all_new im initialbitsize h0 l0 calls h other
              Hwf Hcreate Hin Hrun) as (Hwfo & Hb & HB & _).
  destruct (copy_effect h other Hwfo)
    as (h' & c & Hcopy & Hwfc & Hwfo' & Hn & _ & HBc & Hfresh & Hkeep & Hval).
  rewrite HB in HBc.
  assert (Hold : ∀ a, footprint other a → is_Some (h_blocks h !! a)).
  { intros a (k & Ek). destruct Hwfo as (_ & _ & _ & Hent & _).
    destruct (Hent k a Ek) as (_ & b & Eb & _). eauto. }
  exists h', c. split; [exact Hcopy |]. split; [exact Hn |]. split; [exact Hval |].
  split; [| split].
  - intros im' i. unfold value_at, get, getBlock, load.
    destruct (block_position im' (BLOCKBITS other) (INITIALBLOCKSIZE other) i)
      as [[s o] |]; simpl; [| reflexivity].
    destruct ((0 <=? s) && (s <? maxContainers)); simpl; [| reflexivity].
    destruct (blockLookupTable other !! s) as [a |] eqn:Ea; simpl; [| reflexivity].
    destruct (Hold a) as [b Eb]; [exists s; exact Ea |].
    rewrite (Hkeep a b Eb), Eb. simpl.
    destruct ((0 <=? o) && (o <? blk_len b)); simpl; [| reflexivity].
    rewrite (Hkeep a b Eb), Eb. reflexivity.
  - intros j v h2 c2 Hj Hjl Hins.
    apply (insertAt_other im h' c other j v h2 c2 Hwfc Hwfo'); [| exact Hj | | exact Hins].
    + intros a Hfo Hfc. destruct (Hold a Hfo) as [b Eb]. rewrite (Hfresh a Hfc) in Eb.
      discriminate.
    + rewrite HBc. exact Hjl.
  - intros j v h2 other2 Hj Hjl Hins.
    apply (insertAt_other im h' other c j v h2 other2 Hwfo' Hwfc); [| exact Hj | | exact Hins].
    + intros a Hfc Hfo. destruct (Hold a Hfo) as [b Eb]. rewrite (Hfresh a Hfc) in Eb.
      discriminate.
    + rewrite HB. exact Hjl.
Qed.

End RandomInsertProperties.

(** Closes the range condition of a concrete list of calls. *)
Ltac each_call H :=
  apply list_elem_of_In in H; simpl in H;
  repeat (destruct H as [H | H]; [inversion H; subst; simpl; lia |]);
  destruct H.

Lemma insertions_form_map_witness :
  ∃ h l,
    RandomInsertPiggyList.insert_all Strict [(3, 0); (5, 1); (5, 2); (0, 9)]
      (empty_heap, RandomInsertPiggyList.mk 1 2 0 ∅) = Some (h, l) ∧
    RandomInsertPiggyList.value_at Strict h l 5 = Some 2 ∧
    RandomInsertPiggyList.value_at Strict h l 3 = Some 0 ∧
    RandomInsertPiggyList.value_at Strict h l 0 = Some 9 ∧
    RandomInsertPiggyList.value_at Strict h l 1 = None ∧
    RandomInsertPiggyList.value_at Strict h l 6 = None.
Proof.
  destruct (RandomInsertPiggyList.insert_all Strict _ _) as [[h l] |] eqn:Hrun.
  - exists h, l. split; [reflexivity |].
    assert (Hin : ∀ index value,
              (index, value) ∈ [(3, 0); (5, 1); (5, 2); (0, 9)] →
              0 <= index ∧ index + 2 ^ 1 < 2 ^ 32).
    { intros index value Hin. each_call Hin. }
    pose proof (insertions_form_map Strict 1 empty_heap _ _ h l empty_heap_wf eq_refl
                  Hin Hrun) as Hval.
    split; [rewrite (Hval 5) by (simpl; lia); reflexivity |].
    split; [rewrite (Hval 3) by (simpl; lia); reflexivity |].
    split; [rewrite (Hval 0) by (simpl; lia); reflexivity |].
    split; [rewrite (Hval 1) by (simpl; lia); reflexivity |].
    rewrite (Hval 6) by (simpl; lia). reflexivity.
  - vm_compute in Hrun. discriminate Hrun.
Defined.

Lemma blocks_allocated_on_demand_witness :
  ∃ h l,
    RandomInsertPiggyList.insert_all Strict [(100, 0); (5, 1); (101, 2)]
      (empty_heap, RandomInsertPiggyList.mk 1 2 0 ∅) = Some (h, l) ∧
    (∀ k, is_Some (RandomInsertPiggyList.blockLookupTable l !! k) ↔
          ∃ index value, (index, value) ∈ [(100, 0); (5, 1); (101, 2)] ∧
                         k = Z.log2 (index + 2 ^ 1) - 1) ∧
    (∀ k a, RandomInsertPiggyList.blockLookupTable l !! k = Some a →
            ∃ blk, h_blocks h !! a = Some blk ∧ blk_len blk = 2 ^ 1 * 2 ^ k) ∧
    Z.pos (h_next h) - Z.pos (h_next (@empty_heap Z))
    = Z.of_nat (size (RandomInsertPiggyList.blockLookupTable l)).
Proof.
  destruct (RandomInsertPiggyList.insert_all Strict _ _) as [[h l] |] eqn:Hrun.
  - exists h, l. split; [reflexivity |].
    apply (blocks_allocated_on_demand Strict 1 empty_heap _ _ h l empty_heap_wf eq_refl);
      [| exact Hrun].
    intros index value Hin. each_call Hin.
  - vm_compute in Hrun. discriminate Hrun.
Defined.

Lemma clear_restores_new_list_witness :
  ∃ h l,
    RandomInsertPiggyList.insert_all Strict [(100, 0); (5, 1); (101, 2)]
      (empty_heap, RandomInsertPiggyList.mk 1 2 0 ∅) = Some (h, l) ∧
    ∃ h', RandomInsertPiggyList.clear h l = Some (h', RandomInsertPiggyList.mk 1 2 0 ∅) ∧
          RandomInsertPiggyList.size (RandomInsertPiggyList.mk 1 2 0 ∅) = 0 ∧
          RandomInsertPiggyList.blockLookupTable (RandomInsertPiggyList.mk 1 2 0 ∅) = ∅ ∧
          h_blocks h' = h_blocks (@empty_heap Z) ∧
          ∀ im' i, RandomInsertPiggyList.get im' h' (RandomInsertPiggyList.mk 1 2 0 ∅) i = None.
Proof.
  destruct (RandomInsertPiggyList.insert_all Strict _ _) as [[h l] |] eqn:Hrun.
  - exists h, l. split; [reflexivity |].
    apply (clear_restores_new_list Strict 1 empty_heap _ [(100, 0); (5, 1); (101, 2)] h l
             empty_heap_wf eq_refl);
      [| exact Hrun].
    intros index value Hin. each_call Hin.
  - vm_compute in Hrun. discriminate Hrun.
Defined.

Lemma destructor_frees_inserted_blocks_witness :
  ∃ h l,
    RandomInsertPiggyList.insert_all Strict [(100, 0); (5, 1); (101, 2)]
      (empty_heap, RandomInsertPiggyList.mk 1 2 0 ∅) = Some (h, l) ∧
    ∃ h1 l1,
      RandomInsertPiggyList.freeList h l = Some (h1, l1) ∧
      RandomInsertPiggyList.destructor h l = Some h1 ∧
      h_blocks h1 = h_blocks (@empty_heap Z) ∧
      RandomInsertPiggyList.freeList h1 l1 = Some (h1, l1) ∧
      RandomInsertPiggyList.destructor h1 l1 = Some h1.
Proof.
  destruct (RandomInsertPiggyList.insert_all Strict _ _) as [[h l] |] eqn:Hrun.
  - exists h, l. split; [reflexivity |].
    apply (destructor_frees_inserted_blocks Strict 1 empty_heap _ [(100, 0); (5, 1); (101, 2)] h l
             empty_heap_wf eq_refl); [| exact Hrun].
    intros index value Hin. each_call Hin.
  - vm_compute in Hrun. discriminate Hrun.
Defined.

Lemma copy_is_deep_witness :
  ∃ h other,
    RandomInsertPiggyList.insert_all Strict [(100, 0); (5, 1); (101, 2)]
      (empty_heap, RandomInsertPiggyList.mk 1 2 0 ∅) = Some (h, other) ∧
    ∃ h' c,
      RandomInsertPiggyList.copy h other = Some (h', c) ∧
      RandomInsertPiggyList.size c = RandomInsertPiggyList.size other ∧
      (∀ im' i, RandomInsertPiggyList.value_at im' h' c i
                = RandomInsertPiggyList.value_at im' h other i) ∧
      (∀ im' i, RandomInsertPiggyList.value_at im' h' other i
                = RandomInsertPiggyList.value_at im' h other i) ∧
      (∀ j v h2 c2, 0 <= j → j + 2 ^ 1 < 2 ^ 64 →
         RandomInsertPiggyList.insertAt Strict h' c j v = Some (h2, c2) →
         ∀ im' i, RandomInsertPiggyList.value_at im' h2 other i
                  = RandomInsertPiggyList.value_at im' h' other i) ∧
      (∀ j v h2 other2, 0 <= j → j + 2 ^ 1 < 2 ^ 64 →
         RandomInsertPiggyList.insertAt Strict h' other j v = Some (h2, other2) →
         ∀ im' i, RandomInsertPiggyList.value_at im' h2 c i
                  = RandomInsertPiggyList.value_at im' h' c i).
Proof.
  destruct (RandomInsertPiggyList.insert_all Strict _ _) as [[h other] |] eqn:Hrun.
  - exists h, other. split; [reflexivity |].
    apply (copy_is_deep Strict 1 empty_heap _ [(100, 0); (5, 1); (101, 2)] h other
             empty_heap_wf eq_refl);
      [| exact Hrun].
    intros index value Hin. each_call Hin.
  - vm_compute in Hrun. discriminate Hrun.
Defined.

(** ** Concurrent calls on a [PiggyList] *)

Module ConcurrentRuns.
Import PiggyList PiggyListFacts Concurrent ConcurrentFacts SequenceFacts.

Section Runs.
Context {T : Type}.
Implicit Types (sh : shared T) (th : thread T) (ths : list (thread T)).

(** *** The lock *)

Lemma filter_insert_length {A : Type} (f : A → bool) (l : list A) k x y :
  l !! k = Some x →
  (length (List.filter f (<[k := y]> l)) + (if f x then 1 else 0)
   = length (List.filter f l) + (if f y then 1 else 0))%nat.
Proof.
  revert k. induction l as [| a l IH]; intros [| k] Hk; simpl in *; try discriminate.
  - inversion Hk; subst. destruct (f x), (f y); simpl; lia.
  - specialize (IH k Hk). destruct (f a); simpl; lia.
Qed.

Lemma filter_length_lookup {A : Type} (f : A → bool) (l : list A) k x :
  l !! k = Some x → f x = true → (0 < length (List.filter f l))%nat.
Proof.
  revert k. induction l as [| a l IH]; intros [| k] Hk Hf; simpl in *; try discriminate.
  - inversion Hk; subst. rewrite Hf. simpl. lia.
  - specialize (IH k Hk Hf). destruct (f a); simpl; lia.
Qed.

Lemma filter_lookup_length {A : Type} (f : A → bool) (l : list A) :
  (0 < length (List.filter f l))%nat → ∃ k x, l !! k = Some x ∧ f x = true.
Proof.
  induction l as [| a l IH]; simpl; [lia |]. intros Hlen.
  destruct (f a) eqn:Hf.
  - exists 0%nat, a. split; [reflexivity | exact Hf].
  - destruct (IH Hlen) as (k & x & Hk & Hx). exists (S k), x. split; assumption.
Qed.

(** A step takes the lock, releases it, or leaves it alone. *)
Lemma thread_next_lock im sh th sh' th' :
  thread_next im sh th = Some (sh', th') →
  (holds_lock th' = holds_lock th ∧ sl_locked sh' = sl_locked sh) ∨
  (holds_lock th = false ∧ holds_lock th' = true ∧
   sl_locked sh = false ∧ sl_locked sh' = true) ∨
  (holds_lock th = true ∧ holds_lock th' = false ∧ sl_locked sh' = false).
Proof.
  intros H. destruct th as [o | o i | o i | o i | [v |] i | i]; simpl in H.
  - left. inversion H; subst. simpl. auto.
  - left. inversion H; subst. destruct (must_grow (sh_list sh') i); simpl; auto.
  - destruct (sl_locked sh) eqn:Hl; inversion H; subst; simpl.
    + left. rewrite Hl. auto.
    + right. left. auto.
  - destruct (must_grow (sh_list sh) i).
    + destruct (grow_step (sh_heap sh) (sh_list sh)) as [[h1 l1] |]; simpl in H;
        [| discriminate].
      inversion H; subst. simpl. left. auto.
    + inversion H; subst. simpl. right. right. auto.
  - left. destruct (get im (sh_heap sh) (sh_list sh) i) as [r |]; simpl in H; [| discriminate].
    destruct (store (sh_heap sh) r v) as [h1 |]; simpl in H; [| discriminate].
    inversion H; subst. simpl. auto.
  - left. inversion H; subst. simpl. auto.
  - discriminate.
Qed.

Lemma lock_invariant im (c c' : shared T * list (thread T)) :
  lock_holders c.2 = (if sl_locked c.1 then 1 else 0)%nat →
  rtc (step im) c c' →
  lock_holders c'.2 = (if sl_locked c'.1 then 1 else 0)%nat.
Proof.
  intros Hinv Hrun. revert Hinv.
  induction Hrun as [c | c c1 c' Hstep _ IH]; intros Hinv; [exact Hinv |].
  apply IH. destruct Hstep as [sh ths k th sh' th' Hk Hnext]. simpl in *.
  pose proof (filter_insert_length holds_lock ths k th th' Hk) as Hcount.
  unfold lock_holders in *.
  destruct (thread_next_lock im sh th sh' th' Hnext)
    as [(E1 & E2) | [(E1 & E2 & E3 & E4) | (E1 & E2 & E3)]].
  - rewrite E1, E2 in *. destruct (holds_lock th); lia.
  - rewrite E1, E2 in Hcount. rewrite E3 in Hinv. rewrite E4. lia.
  - rewrite E1, E2 in Hcount. rewrite E3.
    pose proof (filter_length_lookup holds_lock ths k th Hk E1).
    destruct (sl_locked sh); lia.
Qed.

(** *** The indices of the threads *)

Lemma omap_lookup_NoDup {A B : Type} (f : A → option B) (l : list A) k k' x x' b :
  NoDup (omap f l) → l !! k = Some x → l !! k' = Some x' →
  f x = Some b → f x' = Some b → k = k'.
Proof.
  revert k k'.
  induction l as [| a l IH]; intros k k' Hnd Hk Hk' Hx Hx'; [discriminate |].
  assert (Hin : ∀ (n : nat) y, l !! n = Some y → f y = Some b → b ∈ omap f l).
  { intros n y Hn Hy. apply list_elem_of_omap. exists y.
    split; [apply list_elem_of_lookup; eauto | exact Hy]. }
  change (omap f (a :: l))
    with (match f a with Some y => y :: omap f l | None => omap f l end) in Hnd.
  destruct k as [| k], k' as [| k']; simpl in Hk, Hk'.
  - reflexivity.
  - exfalso. inversion Hk; subst a. rewrite Hx in Hnd.
    inversion Hnd as [| ? ? Hn _]; subst. apply Hn. apply (Hin k' x' Hk' Hx').
  - exfalso. inversion Hk'; subst a. rewrite Hx' in Hnd.
    inversion Hnd as [| ? ? Hn _]; subst. apply Hn. apply (Hin k x Hk Hx).
  - f_equal. apply (IH k k'); try assumption.
    destruct (f a); [inversion Hnd as [| ? ? _ Hnd']; subst; exact Hnd' | exact Hnd].
Qed.

(** At every moment, every thread of the run is there, the indices given
    out are below the number of calls, and no two threads have the same. *)
Lemma indices_facts im bits (h : heap T) l (ops : list (op T))
    (c : shared T * list (thread T)) :
  create bits = Some l → Z.of_nat (length ops) < 2 ^ 64 →
  rtc (step im) (Shared h l false, Ready <$> ops) c →
  length c.2 = length ops ∧
  (∀ k th i, c.2 !! k = Some th → reserved_index th = Some i →
             0 <= i < Z.of_nat (length ops)) ∧
  (∀ k k' th th' i, c.2 !! k = Some th → c.2 !! k' = Some th' →
                    reserved_index th = Some i → reserved_index th' = Some i → k = k').
Proof.
  intros Hcreate Hlen Hrun.
  assert (Hm0 : m_size l = 0).
  { unfold create in Hcreate. destruct (ul_shl1 bits); simpl in Hcreate; [| discriminate].
    inversion Hcreate; subst. reflexivity. }
  assert (Hnone : omap reserved_index (Ready <$> ops) = []).
  { clear. induction ops as [| o ops IH]; simpl; [reflexivity | exact IH]. }
  destruct (indices_invariant im 0 (length ops) (Shared h l false, Ready <$> ops) c)
    as (Hlen' & _ & Hperm).
  { lia. }
  { lia. }
  { simpl. apply length_fmap. }
  { simpl. rewrite Hnone. simpl. lia. }
  { simpl. rewrite Hnone. reflexivity. }
  { exact Hrun. }
  split; [exact Hlen' |]. split.
  - intros k th i Hk Hi.
    assert (Hin : i ∈ omap reserved_index c.2).
    { apply list_elem_of_omap. exists th. split; [apply list_elem_of_lookup; eauto | exact Hi]. }
    rewrite Hperm in Hin. apply elem_of_seqZ in Hin.
    pose proof (omap_length_le reserved_index c.2). lia.
  - intros k k' th th' i Hk Hk' Hi Hi'.
    apply (omap_lookup_NoDup reserved_index c.2 k k' th th' i); try assumption.
    rewrite Hperm. apply NoDup_seqZ.
Qed.


(** *** One step *)

(** A grow step is possible, and keeps the shape, while the capacity does
    not cover an index inside the table's range. *)
Lemma growth_has_room (h : heap T) l i :
  shape h l → 0 <= i → i + 1 + BLOCKSIZE l <= 2 ^ 64 → must_grow l i = true →
  BLOCKBITS l + num_containers l < 64.
Proof.
  intros Hshape Hi Hfit Hg. apply must_grow_true in Hg.
  pose proof (shape_bounds h l Hshape) as (HBpos & Hpow & _).
  destruct Hshape as ((_ & Hbits & HB & Hnc & _) & Hsum & _ & Hcs & _).
  rewrite wrap64_small in Hg by lia.
  destruct (Z_lt_le_dec (BLOCKBITS l + num_containers l) 64) as [? | Hfull];
    [assumption | exfalso].
  assert (E64 : BLOCKBITS l + num_containers l = 64) by lia.
  rewrite E64 in Hpow. lia.
Qed.

Lemma grow_step_capacity (h : heap T) l h' l' :
  shape h l → shape h' l' → grow_step h l = Some (h', l') →
  container_size l <= container_size l'.
Proof.
  intros Hs Hs' Hstep.
  pose proof (shape_bounds h l Hs) as (HBpos & _).
  destruct Hs as ((_ & _ & _ & Hnc & _) & _ & _ & Hcs & _).
  destruct Hs' as (_ & _ & _ & Hcs' & _).
  apply grow_step_Some in Hstep as (_ & _ & ->). simpl in *.
  rewrite Hcs'. rewrite Hcs. rewrite pow2_succ by lia.
  pose proof (pow2_pos (num_containers l)). nia.
Qed.

(** What one step of a thread does to the shared list. *)
Lemma thread_next_effect im bits sh th sh' th' :
  shape (sh_heap sh) (sh_list sh) → no_stale (sh_heap sh) (sh_list sh) →
  BLOCKBITS (sh_list sh) = bits →
  (∀ i, reserved_index th = Some i → 0 <= i ∧ i + 1 + 2 ^ bits <= 2 ^ 32) →
  thread_next im sh th = Some (sh', th') →
  shape (sh_heap sh') (sh_list sh') ∧ no_stale (sh_heap sh') (sh_list sh') ∧
  BLOCKBITS (sh_list sh') = bits ∧
  (∀ o, pending_op th' = Some o → pending_op th = Some o) ∧
  container_size (sh_list sh) <= container_size (sh_list sh') ∧
  (∀ o i, th' = Ensured o i → wrap64 (i + 1) <= container_size (sh_list sh')) ∧
  (∀ j, 0 <= j → j + 2 ^ bits < 2 ^ 32 →
        (∀ i, reserved_index th = Some i → j ≠ i) →
        value_at im (sh_heap sh') (sh_list sh') j
        = value_at im (sh_heap sh) (sh_list sh) j) ∧
  (∀ i v, th' = Returned i → pending_op th = Some (OpAppend v) →
          value_at im (sh_heap sh') (sh_list sh') i = Some v).
Proof.
  intros Hshape Hns Hb Hidx Hnext.
  pose proof Hshape as (Howns & _). pose proof Howns as (_ & Hbits & HB & _).
  rewrite Hb in HB, Hbits.
  destruct th as [o | o i | o i | o i | [v |] i | i]; simpl in Hnext.
  - inversion Hnext; subst sh' th'. simpl.
    split; [exact Hshape |]. split; [exact Hns |]. split; [exact Hb |].
    split; [intros o' E; inversion E; reflexivity |]. split; [lia |].
    split; [intros o' i E; discriminate |].
    split; [intros j _ _ _; reflexivity | intros i v E; discriminate].
  - inversion Hnext; subst sh' th'.
    split; [exact Hshape |]. split; [exact Hns |]. split; [exact Hb |].
    split; [intros o' E; destruct (must_grow (sh_list sh) i); inversion E; reflexivity |].
    split; [lia |]. split.
    + intros o' i' E. destruct (must_grow (sh_list sh) i) eqn:Hg; inversion E; subst.
      apply must_grow_false. exact Hg.
    + split; [intros j _ _ _; reflexivity |].
      intros i' v E. destruct (must_grow (sh_list sh) i); discriminate.
  - assert (Hsame : sh_heap sh' = sh_heap sh ∧ sh_list sh' = sh_list sh ∧
                    (th' = Spinning o i ∨ th' = Growing o i)).
    { destruct (sl_locked sh); inversion Hnext; subst; simpl; auto. }
    destruct Hsame as (-> & -> & Hth').
    split; [exact Hshape |]. split; [exact Hns |]. split; [exact Hb |].
    split; [intros o' E; destruct Hth' as [-> | ->]; inversion E; reflexivity |].
    split; [lia |].
    split; [intros o' i' E; destruct Hth' as [-> | ->]; discriminate |].
    split; [intros j _ _ _; reflexivity |].
    intros i' v E. destruct Hth' as [-> | ->]; discriminate.
  - destruct (Hidx i eq_refl) as [Hi Hil].
    destruct (must_grow (sh_list sh) i) eqn:Hg.
    + destruct (grow_step (sh_heap sh) (sh_list sh)) as [[h1 l1] |] eqn:E; simpl in Hnext;
        [| discriminate].
      inversion Hnext; subst sh' th'. simpl.
      assert (Hroom : BLOCKBITS (sh_list sh) + num_containers (sh_list sh) < 64).
      { apply (growth_has_room (sh_heap sh) (sh_list sh) i); try assumption.
        rewrite HB. lia. }
      pose proof (grow_step_shape _ _ _ _ Hshape Hroom E) as Hshape1.
      destruct (grow_step_frame _ _ _ _ Howns Hns E) as [_ Hns1].
      split; [exact Hshape1 |]. split; [exact Hns1 |].
      split; [apply grow_step_Some in E as (_ & _ & ->); exact Hb |].
      split; [intros o' E'; inversion E'; reflexivity |].
      split; [apply (grow_step_capacity _ _ _ _ Hshape Hshape1 E) |].
      split; [intros o' i' E'; discriminate |].
      split; [| intros i' v E'; discriminate].
      intros j _ _ _. apply (grow_step_value_at im _ _ _ _ j Hns E).
    + inversion Hnext; subst sh' th'. simpl.
      split; [exact Hshape |]. split; [exact Hns |]. split; [exact Hb |].
      split; [intros o' E'; inversion E'; reflexivity |]. split; [lia |].
      split; [intros o' i' E'; inversion E'; subst; apply must_grow_false; exact Hg |].
      split; [intros j _ _ _; reflexivity | intros i' v' E'; discriminate].
  - destruct (Hidx i eq_refl) as [Hi Hil].
    destruct (get im (sh_heap sh) (sh_list sh) i) as [r |] eqn:Hget; simpl in Hnext;
      [| discriminate].
    destruct (store (sh_heap sh) r v) as [h1 |] eqn:Hst; simpl in Hnext; [| discriminate].
    inversion Hnext; subst sh' th'. simpl.
    assert (Hfp : footprint (sh_list sh) r.1).
    { destruct r as [a off]. apply get_owned in Hget as (slot & _ & Hslot & Ea); [| exact Hns].
      exists slot. split; assumption. }
    destruct (store_frame _ _ _ _ _ Hst Hfp Hns) as [_ Hns1].
    pose proof (λ j, store_value_at im _ _ i r v h1 j Howns Hns Hget Hst) as Hval.
    split; [apply (store_shape (sh_heap sh) _ r v); assumption |]. split; [exact Hns1 |].
    split; [exact Hb |]. split; [intros o' E; discriminate |]. split; [lia |].
    split; [intros o' i' E; discriminate |].
    split.
    + intros j Hj Hjl Hne. rewrite (Hval j).
      rewrite decide_False; [reflexivity |].
      intros Heq. apply (Hne i eq_refl).
      rewrite Hb, HB in Heq.
      apply (block_position_injective im bits j i); try lia; [| exact Heq].
      destruct r as [a off]. apply get_Some in Hget as (slot & _ & Hpos & _).
      rewrite Hb, HB in Hpos. rewrite Hpos. eauto.
    + intros i' v' E Hop. inversion E; subst i'. inversion Hop; subst v'.
      rewrite (Hval i). rewrite decide_True by reflexivity. reflexivity.
  - inversion Hnext; subst sh' th'.
    split; [exact Hshape |]. split; [exact Hns |]. split; [exact Hb |].
    split; [intros o' E; discriminate |]. split; [lia |].
    split; [intros o' i' E; discriminate |].
    split; [intros j _ _ _; reflexivity | intros i' v E Hop; discriminate].
  - discriminate.
Qed.

End Runs.
End ConcurrentRuns.

Module ConcurrentInvariant.
Import PiggyList PiggyListFacts Concurrent ConcurrentFacts SequenceFacts ConcurrentRuns.

Section Invariant.
Context {T : Type}.
Implicit Types (sh : shared T) (th : thread T) (ths : list (thread T)).

(** *** Every step keeps the elements *)

Lemma coherent_step im bits (ops : list (op T)) (c c' : shared T * list (thread T)) :
  Z.of_nat (length ops) + 2 ^ bits <= 2 ^ 32 →
  (∀ k th i, c.2 !! k = Some th → reserved_index th = Some i →
             0 <= i < Z.of_nat (length ops)) →
  (∀ k k' th th' i, c.2 !! k = Some th → c.2 !! k' = Some th' →
                    reserved_index th = Some i → reserved_index th' = Some i → k = k') →
  coherent im bits ops c → step im c c' → coherent im bits ops c'.
Proof.
  intros Hfit Hrange Hinj (Hshape & Hns & Hb & Hpend & Hens & Hret) Hstep.
  destruct Hstep as [sh ths k th sh' th' Hk Hnext]. simpl in *.
  destruct (thread_next_effect im bits sh th sh' th' Hshape Hns Hb)
    as (S1 & S2 & S3 & S4 & S5 & S6 & S7 & S8).
  { intros i Hi. specialize (Hrange k th i Hk Hi). lia. }
  { exact Hnext. }
  unfold coherent; simpl.
  split; [exact S1 |]. split; [exact S2 |]. split; [exact S3 |]. split; [| split].
  - intros k0 th0 o Hk0 Hop.
    apply list_lookup_insert_Some in Hk0 as [(Ek & Eth & _) | (Hne & Hk0)].
    + subst k0 th0. apply (Hpend k th o Hk). apply S4. exact Hop.
    + apply (Hpend k0 th0 o Hk0 Hop).
  - intros k0 o i Hk0.
    apply list_lookup_insert_Some in Hk0 as [(Ek & Eth & _) | (Hne & Hk0)].
    + apply (S6 o i Eth).
    + specialize (Hens k0 o i Hk0). lia.
  - intros k0 i v Hk0 Hop.
    apply list_lookup_insert_Some in Hk0 as [(Ek & Eth & _) | (Hne & Hk0)].
    + subst k0. apply (S8 i v Eth).
      destruct (pending_op th) as [o |] eqn:Eo.
      * rewrite (Hpend k th o Hk Eo) in Hop. exact Hop.
      * destruct th; simpl in Eo, Hnext; discriminate.
    + pose proof (Hrange k0 (Returned i) i Hk0 eq_refl) as Hi.
      rewrite S7; [apply (Hret k0 i v Hk0 Hop) | lia | lia |].
      intros i' Hi' ->. apply Hne.
      apply (Hinj k k0 th (Returned i') i' Hk Hk0 Hi' eq_refl).
Qed.

Lemma coherent_init im bits (h : heap T) l (ops : list (op T)) :
  heap_wf h → create bits = Some l →
  coherent im bits ops (Shared h l false, Ready <$> ops).
Proof.
  intros Hwf Hcreate.
  destruct (create_regular h bits l Hwf Hcreate) as (Hreg & Hb & _).
  destruct (create_models im h bits l Hwf Hcreate) as (_ & Hns & _).
  unfold coherent; simpl.
  split; [exact (proj1 Hreg) |]. split; [exact Hns |]. split; [exact Hb |].
  split; [| split].
  - intros k th o Hk Hop. rewrite list_lookup_fmap in Hk.
    destruct (ops !! k) as [o' |]; simpl in Hk; [| discriminate].
    inversion Hk; subst th. simpl in Hop. exact Hop.
  - intros k o i Hk. rewrite list_lookup_fmap in Hk.
    destruct (ops !! k); simpl in Hk; discriminate.
  - intros k i v Hk. rewrite list_lookup_fmap in Hk.
    destruct (ops !! k); simpl in Hk; discriminate.
Qed.

Lemma create_size_bound (h : heap T) bits l (n : Z) :
  heap_wf h → create bits = Some l → n + 2 ^ bits <= 2 ^ 32 →
  0 <= bits ∧ 0 < 2 ^ bits ∧ n < 2 ^ 64.
Proof.
  intros Hwf Hcreate Hfit.
  destruct (create_models Strict h bits l Hwf Hcreate) as (_ & _ & _ & _ & Hbits).
  pose proof (pow2_pos bits (proj1 Hbits)).
  assert (2 ^ 32 < 2 ^ 64) by (apply pow2_lt_mono; lia).
  lia.
Qed.

Lemma reachable_coherent im bits (h : heap T) l (ops : list (op T))
    (c : shared T * list (thread T)) :
  heap_wf h → create bits = Some l →
  Z.of_nat (length ops) + 2 ^ bits <= 2 ^ 32 →
  rtc (step im) (Shared h l false, Ready <$> ops) c →
  coherent im bits ops c.
Proof.
  intros Hwf Hcreate Hfit Hrun.
  destruct (create_size_bound h bits l _ Hwf Hcreate Hfit) as (_ & _ & Hlen).
  assert (Hgen : ∀ c0 c1 : shared T * list (thread T),
            rtc (step im) c0 c1 →
            rtc (step im) (Shared h l false, Ready <$> ops) c0 →
            coherent im bits ops c0 → coherent im bits ops c1).
  { intros c0 c1 H01. induction H01 as [c0 | c0 c1 c2 Hstep _ IH]; intros H0 Hc0;
      [exact Hc0 |].
    destruct (indices_facts im bits h l ops c0 Hcreate Hlen H0) as (_ & Hrange & Hinj).
    apply IH.
    - eapply rtc_r; eassumption.
    - apply (coherent_step im bits ops c0 c1 Hfit Hrange Hinj Hc0 Hstep). }
  apply (Hgen _ _ Hrun); [apply rtc_refl | apply coherent_init; assumption].
Qed.

(** *** Every thread has a next step *)

Lemma thread_next_defined im bits sh th :
  shape (sh_heap sh) (sh_list sh) → BLOCKBITS (sh_list sh) = bits →
  (∀ i, reserved_index th = Some i → 0 <= i ∧ i + 1 + 2 ^ bits <= 2 ^ 32) →
  (∀ o i, th = Ensured o i → wrap64 (i + 1) <= container_size (sh_list sh)) →
  (∀ i, reserved_index th = Some i → mask_defined im (Z.log2 (i + 2 ^ bits))) →
  returned_index th = None →
  is_Some (thread_next im sh th).
Proof.
  intros Hshape Hb Hidx Hens Hmask Hnot.
  pose proof Hshape as ((_ & Hbits & HB & Hnc & _) & _). rewrite Hb in HB, Hbits.
  destruct th as [o | o i | o i | o i | [v |] i | i]; simpl; try (eexists; reflexivity).
  - destruct (sl_locked sh); eexists; reflexivity.
  - destruct (Hidx i eq_refl) as [Hi Hil].
    destruct (must_grow (sh_list sh) i) eqn:Hg; [| eexists; reflexivity].
    assert (Hroom : BLOCKBITS (sh_list sh) + num_containers (sh_list sh) < 64).
    { apply (growth_has_room (sh_heap sh) (sh_list sh) i); try assumption.
      rewrite HB. lia. }
    destruct (grow_step_defined (sh_heap sh) (sh_list sh)) as [[h1 l1] E].
    { unfold max_conts. lia. }
    rewrite E. simpl. eexists. reflexivity.
  - destruct (Hidx i eq_refl) as [Hi Hil].
    specialize (Hens _ _ eq_refl). rewrite wrap64_small in Hens by lia.
    destruct (get_defined im (sh_heap sh) (sh_list sh) i Hshape)
      as (a & blk & off & Hget & _ & _ & _ & Eb & Hoff).
    { lia. }
    { rewrite HB. apply Hmask. reflexivity. }
    rewrite Hget. simpl.
    rewrite (store_defined (sh_heap sh) (a, off) v blk Eb Hoff). simpl.
    eexists. reflexivity.
  - discriminate.
Qed.

(** *** The work left *)

Lemma steps_left_insert ths k th th' :
  ths !! k = Some th →
  (foldr (λ th n, steps_left th + n) 0 (<[k := th']> ths) + steps_left th
   = foldr (λ th n, steps_left th + n) 0 ths + steps_left th')%nat.
Proof.
  revert k. induction ths as [| a ths IH]; intros [| k] Hk; simpl in *; try discriminate.
  - inversion Hk; subst. lia.
  - specialize (IH k Hk). lia.
Qed.

Lemma steps_left_returned ths :
  foldr (λ th n, (steps_left th + n)%nat) 0%nat ths = 0%nat →
  Forall (λ th, is_Some (returned_index th)) ths.
Proof.
  induction ths as [| a ths IH]; simpl; intros H; [constructor |].
  constructor; [| apply IH; lia].
  destruct a; simpl in H; try lia. eexists. reflexivity.
Qed.

(** A step that is not a wait for the lock takes from the work left. *)
Lemma thread_next_work im sh ths k th sh' th' :
  ths !! k = Some th → thread_next im sh th = Some (sh', th') →
  (∀ o i, th = Spinning o i → sl_locked sh = false) →
  (work_left (sh', <[k := th']> ths) < work_left (sh, ths))%nat.
Proof.
  intros Hk Hnext Hwait. unfold work_left. simpl.
  pose proof (steps_left_insert ths k th th' Hk) as Hsum.
  destruct th as [o | o i | o i | o i | [v |] i | i]; simpl in Hnext.
  - inversion Hnext; subst. simpl in *. lia.
  - inversion Hnext; subst. destruct (must_grow (sh_list sh') i); simpl in *; lia.
  - rewrite (Hwait o i eq_refl) in Hnext. inversion Hnext; subst. simpl in *. lia.
  - destruct (must_grow (sh_list sh) i).
    + destruct (grow_step (sh_heap sh) (sh_list sh)) as [[h1 l1] |] eqn:E; simpl in Hnext;
        [| discriminate].
      inversion Hnext; subst. apply grow_step_Some in E as (Hnc & _ & ->).
      simpl in *. unfold max_conts in *. lia.
    + inversion Hnext; subst. simpl in *. lia.
  - destruct (get im (sh_heap sh) (sh_list sh) i) as [r |]; simpl in Hnext; [| discriminate].
    destruct (store (sh_heap sh) r v) as [h1 |]; simpl in Hnext; [| discriminate].
    inversion Hnext; subst. simpl in *. lia.
  - inversion Hnext; subst. simpl in *. lia.
  - discriminate.
Qed.

(** What a reachable state gives for the next step of each thread. *)
Lemma reachable_defined im bits (h : heap T) l (ops : list (op T)) sh ths :
  heap_wf h → create bits = Some l →
  Z.of_nat (length ops) + 2 ^ bits <= 2 ^ 32 →
  mask_defined im (Z.log2 (Z.of_nat (length ops) + 2 ^ bits)) →
  rtc (step im) (Shared h l false, Ready <$> ops) (sh, ths) →
  ∀ k th, ths !! k = Some th → returned_index th = None →
          is_Some (thread_next im sh th).
Proof.
  intros Hwf Hcreate Hfit Hmask Hrun k th Hk Hnot.
  destruct (create_size_bound h bits l _ Hwf Hcreate Hfit) as (Hbits & Hpow & Hlen).
  destruct (reachable_coherent im bits h l ops _ Hwf Hcreate Hfit Hrun)
    as (Hshape & _ & Hb & _ & Hens & _).
  destruct (indices_facts im bits h l ops _ Hcreate Hlen Hrun) as (_ & Hrange & _).
  simpl in *.
  apply (thread_next_defined im bits sh th Hshape Hb).
  - intros i Hi. specialize (Hrange k th i Hk Hi). lia.
  - intros o i ->. apply (Hens k o i Hk).
  - intros i Hi. specialize (Hrange k th i Hk Hi).
    destruct im; simpl in *; [| exact I].
    etransitivity; [| exact Hmask]. apply Z.log2_le_mono. lia.
  - exact Hnot.
Qed.

(** In a reachable state in which a call has not returned, some thread
    has a step that takes from the work left. *)
Lemma reachable_progress im bits (h : heap T) l (ops : list (op T)) sh ths :
  heap_wf h → create bits = Some l →
  Z.of_nat (length ops) + 2 ^ bits <= 2 ^ 32 →
  mask_defined im (Z.log2 (Z.of_nat (length ops) + 2 ^ bits)) →
  rtc (step im) (Shared h l false, Ready <$> ops) (sh, ths) →
  ¬ Forall (λ th, is_Some (returned_index th)) ths →
  ∃ c', step im (sh, ths) c' ∧ (work_left c' < work_left (sh, ths))%nat.
Proof.
  intros Hwf Hcreate Hfit Hmask Hrun Hnot.
  pose proof (reachable_defined im bits h l ops sh ths Hwf Hcreate Hfit Hmask Hrun) as Hdef.
  assert (Hlock : lock_holders ths = (if sl_locked sh then 1 else 0)%nat).
  { apply (lock_invariant im (Shared h l false, Ready <$> ops) (sh, ths)); [| exact Hrun].
    simpl. unfold lock_holders. clear. induction ops as [| o ops IH]; [reflexivity | exact IH]. }
  assert (Hpick : ∃ k th, ths !! k = Some th ∧ returned_index th = None ∧
                          ∀ o i, th = Spinning o i → sl_locked sh = false).
  { destruct (sl_locked sh) eqn:Hl.
    - destruct (filter_lookup_length holds_lock ths) as (k & th & Hk & Hth).
      { unfold lock_holders in Hlock. lia. }
      exists k, th. split; [exact Hk |].
      destruct th; simpl in Hth; try discriminate.
      split; [reflexivity | intros o' i' E; discriminate].
    - apply not_Forall_Exists in Hnot; [| intros th; apply _].
      apply Exists_exists in Hnot as (th & Hin & Hth).
      apply list_elem_of_In, list_elem_of_lookup in Hin as [k Hk].
      exists k, th. split; [exact Hk |]. split; [| intros; reflexivity].
      destruct (returned_index th) eqn:E; [| reflexivity].
      exfalso. apply Hth. rewrite E. eexists. reflexivity. }
  destruct Hpick as (k & th & Hk & Hth & Hwait).
  destruct (Hdef k th Hk Hth) as [[sh' th'] Hnext].
  exists (sh', <[k := th']> ths). split.
  - apply (step_thread im sh ths k th sh' th' Hk Hnext).
  - apply (thread_next_work im sh ths k th sh' th' Hk Hnext Hwait).
Qed.

Lemma reachable_completes im bits (h : heap T) l (ops : list (op T)) (n : nat) :
  heap_wf h → create bits = Some l →
  Z.of_nat (length ops) + 2 ^ bits <= 2 ^ 32 →
  mask_defined im (Z.log2 (Z.of_nat (length ops) + 2 ^ bits)) →
  ∀ c : shared T * list (thread T),
    (work_left c <= n)%nat →
    rtc (step im) (Shared h l false, Ready <$> ops) c →
    ∃ c', rtc (step im) c c' ∧ Forall (λ th, is_Some (returned_index th)) c'.2.
Proof.
  intros Hwf Hcreate Hfit Hmask.
  induction n as [| n IH]; intros [sh ths] Hwork Hrun.
  - exists (sh, ths). split; [apply rtc_refl |]. simpl.
    apply steps_left_returned. unfold work_left in Hwork. simpl in Hwork. lia.
  - destruct (decide (Forall (λ th, is_Some (returned_index th)) ths)) as [Hall | Hnot].
    + exists (sh, ths). split; [apply rtc_refl | exact Hall].
    + destruct (reachable_progress im bits h l ops sh ths Hwf Hcreate Hfit Hmask Hrun Hnot)
        as (c1 & Hstep & Hless).
      destruct (IH c1) as (c' & Hrun' & Hall').
      { lia. }
      { eapply rtc_r; eassumption. }
      exists c'. split; [| exact Hall'].
      eapply rtc_l; eassumption.
Qed.

End Invariant.
End ConcurrentInvariant.

Section ConcurrentProperties.
Import PiggyList PiggyListFacts Concurrent ConcurrentFacts.
Import ConcurrentRuns ConcurrentInvariant.
Context {T : Type}.



(** X16 (no deadlock).  In every state that an interleaving of the calls
    can reach (same range as above), while a call has not returned some
    thread has a step that lowers a bound ([work_left]) on the steps left
    that are not waits for the lock: the thread that holds the lock, or any
    running thread when the lock is free.  So the run has a continuation
    at whose end every call has returned. *)
Theorem concurrent_calls_complete im initialbitsize (h : heap T) l
    (ops : list (op T)) (sh : shared T) (ths : list (thread T)) :
  heap_wf h → create initialbitsize = Some l →
  Z.of_nat (length ops) + 2 ^ initialbitsize <= 2 ^ 32 →
  mask_defined im (Z.log2 (Z.of_nat (length ops) + 2 ^ initialbitsize)) →
  rtc (step im) (Shared h l false, Ready <$> ops) (sh, ths) →
  (¬ Forall (λ th, is_Some (returned_index th)) ths →
   ∃ c', step im (sh, ths) c' ∧ (work_left c' < work_left (sh, ths))%nat) ∧
  ∃ sh' ths', rtc (step im) (sh, ths) (sh', ths') ∧
              Forall (λ th, is_Some (returned_index th)) ths'.
Proof.
  intros Hwf Hcreate Hfit Hmask Hrun. split.
  - apply (reachable_progress im initialbitsize h l ops sh ths); assumption.
  - destruct (reachable_completes im initialbitsize h l ops (work_left (sh, ths))
                Hwf Hcreate Hfit Hmask (sh, ths)) as ([sh' ths'] & Hrun' & Hall).
    { lia. }
    { exact Hrun. }
    exists sh', ths'. split; [exact Hrun' | exact Hall].
Qed.

End ConcurrentProperties.



Lemma concurrent_calls_complete_witness :
  ∃ sh ths,
    Concurrent.run_schedule Strict [0; 1; 1; 0; 2; 1; 0; 2; 2; 1]%nat
      (Concurrent.Shared empty_heap (PiggyList.mk 1 2 0 2 0 0 ∅) false,
       Concurrent.Ready <$> [Concurrent.OpAppend 7; Concurrent.OpAppend 9;
                             Concurrent.OpAppend 11])
    = Some (sh, ths) ∧
    Concurrent.sl_locked sh = true ∧
    ∃ sh' ths', rtc (Concurrent.step Strict) (sh, ths) (sh', ths') ∧
                Forall (λ th, is_Some (Concurrent.returned_index th)) ths'.
Proof.
  destruct (Concurrent.run_schedule Strict _ _) as [[sh ths] |] eqn:Hrun.
  - exists sh, ths. split; [reflexivity |].
    pose proof (ConcurrentFacts.run_schedule_steps Strict _ _ _ Hrun) as Hsteps.
    split; [vm_compute in Hrun; inversion Hrun; reflexivity |].
    apply (concurrent_calls_complete Strict 1 empty_heap (PiggyList.mk 1 2 0 2 0 0 ∅)
             [Concurrent.OpAppend 7; Concurrent.OpAppend 9; Concurrent.OpAppend 11] sh ths
             empty_heap_wf eq_refl).
    + simpl. lia.
    + vm_compute. discriminate.
    + exact Hsteps.
  - vm_compute in Hrun. discriminate Hrun.
Defined.

(** ** The count of leading zeros on MSVC *)

Section LeadingZeros.

Lemma find_none_bits (positions : list Z) : List.find (Z.testbit 0) positions = None.
Proof.
  induction positions as [| p positions IH]; simpl; [reflexivity |].
  rewrite Z.bits_0. exact IH.
Qed.

Lemma highest_bit_below value n :
  0 <= n → 0 <= value < 2 ^ (n + 1) → Z.testbit value n = false → value < 2 ^ n.
Proof.
  intros Hn Hv Hbit. destruct (Z_lt_le_dec value (2 ^ n)) as [? | Hge]; [assumption |].
  exfalso. assert (Hpos : 0 < value) by (pose proof (pow2_pos n Hn); lia).
  assert (Hlog : Z.log2 value = n).
  { apply Z.log2_unique; [lia |]. rewrite <- Z.add_1_r. lia. }
  pose proof (Z.bit_log2 value Hpos) as Htrue. rewrite Hlog in Htrue. congruence.
Qed.

Lemma scan_finds_highest_bit value (n : nat) :
  0 < value < 2 ^ Z.of_nat n →
  List.find (Z.testbit value) (List.rev (seqZ 0 (Z.of_nat n))) = Some (Z.log2 value).
Proof.
  induction n as [| n IH]; intros Hv.
  - simpl in Hv. lia.
  - rewrite Nat2Z.inj_succ, <- Z.add_1_r in *.
    rewrite seqZ_app by lia.
    replace (seqZ (0 + Z.of_nat n) 1) with [Z.of_nat n]
      by (unfold seqZ; simpl; f_equal; lia).
    rewrite List.rev_app_distr. simpl.
    destruct (Z.testbit value (Z.of_nat n)) eqn:Hbit.
    + f_equal. symmetry. apply Z.log2_unique; [lia |].
      split; [| rewrite <- Z.add_1_r; lia].
      destruct (Z_lt_le_dec value (2 ^ Z.of_nat n)) as [Hlt | ?]; [| assumption].
      rewrite Z.bits_above_log2 in Hbit; [discriminate | lia |].
      apply Z.log2_lt_pow2; lia.
    + apply IH. split; [lia |]. apply highest_bit_below; [lia | lia | exact Hbit].
Qed.

(** X17 (leading zeros on MSVC).  The [__builtin_clzll] that the header
    defines for MSVC counts the leading zero bits of every 64-bit value:
    the value is below [2^(64 - result)] and, unless it is 0, at least
    [2^(63 - result)].  It returns what the compiler builtin returns on
    every value for which that one is defined, and 64 for 0, where the
    builtin has no defined result. *)
Theorem msvc_clzll_counts_leading_zeros value :
  0 <= value < 2 ^ 64 →
  0 <= msvc_clzll value <= 64 ∧
  value < 2 ^ (64 - msvc_clzll value) ∧
  (value ≠ 0 → 2 ^ (63 - msvc_clzll value) <= value ∧
               clzll value = Some (msvc_clzll value)) ∧
  (value = 0 → msvc_clzll value = 64 ∧ clzll value = None).
Proof.
  intros Hv. unfold msvc_clzll, clzll.
  destruct (Z.eqb_spec value 0) as [-> | Hne].
  - unfold BitScanReverse64. rewrite find_none_bits. simpl. repeat split; lia.
  - assert (E : BitScanReverse64 value = Some (Z.log2 value)).
    { apply (scan_finds_highest_bit value 64). simpl. lia. }
    rewrite E.
    assert (Hpos : 0 < value) by lia.
    pose proof (Z.log2_spec value Hpos) as [Hlo Hhi].
    assert (Hlog : 0 <= Z.log2 value < 64).
    { split; [apply Z.log2_nonneg |]. apply Z.log2_lt_pow2; lia. }
    replace (64 - (63 - Z.log2 value)) with (Z.succ (Z.log2 value)) by lia.
    replace (63 - (63 - Z.log2 value)) with (Z.log2 value) by lia.
    repeat split; try lia; try reflexivity.
Qed.

End LeadingZeros.

Lemma msvc_clzll_counts_leading_zeros_witness :
  msvc_clzll 40 = 58 ∧ 40 < 2 ^ (64 - msvc_clzll 40) ∧
  2 ^ (63 - msvc_clzll 40) <= 40 ∧ clzll 40 = Some (msvc_clzll 40).
Proof.
  split; [reflexivity |].
  destruct (msvc_clzll_counts_leading_zeros 40 ltac:(lia)) as (_ & Hlt & Hpos & _).
  split; [exact Hlt |]. apply Hpos. lia.
Defined.

(** ** The copy constructor of [PiggyList] *)

Module CopyFacts.
Import PiggyList PiggyListFacts SequenceFacts RunFacts.

Section Copies.
Context {T : Type}.
Implicit Types (h : heap T) (l : t).

(** The loop that a completed copy constructor ran. *)
Lemma copy_loop assertions h other h' c :
  copy assertions h other = Copied h' c →
  ∃ bs tbl cS,
    for_each (copy_block other) (seqZ 0 (num_containers other)) (h, ∅, bs)
    = Some (h', tbl, cS) ∧
    c = mk (BLOCKBITS other) bs (num_containers other) bs
           (container_size other) (m_size other) tbl.
Proof.
  unfold copy. intros Hcopy.
  destruct (ul_shl1 (BLOCKBITS other)) as [bs |]; [| discriminate].
  destruct (for_each (copy_block other) (seqZ 0 (num_containers other)) (h, ∅, bs))
    as [[[hh t0] c0] |] eqn:Hloop; [| discriminate].
  destruct (assertions && negb (Z.shiftr c0 1 =? container_size other)); [discriminate |].
  inversion Hcopy; subst. eauto.
Qed.

(** Every block of the store after the copy loop is a block of the new
    table or was there before. *)
Lemma copy_loop_accounted h other bs n s' :
  for_each (copy_block other) (seqZ 0 n) (h, ∅, bs) = Some s' → 0 <= n →
  ∀ a, is_Some (h_blocks s'.1.1 !! a) →
       (∃ k, 0 <= k < n ∧ s'.1.2 !! k = Some a) ∨ is_Some (h_blocks h !! a).
Proof.
  intros Hrun Hn.
  apply (for_each_invariant
           (λ (i : Z) (s : heap T * gmap Z positive * Z),
              ∀ a, is_Some (h_blocks s.1.1 !! a) →
                   (∃ k, 0 <= k < i ∧ s.1.2 !! k = Some a) ∨ is_Some (h_blocks h !! a))
           (copy_block other) n Hn) with (s := (h, ∅, bs)); [| | exact Hrun].
  - intros i [[hh tbl] cS] s2 Hi Hinv Hstep.
    apply copy_block_Some in Hstep as (_ & src & h2 & _ & Hcp & ->). simpl in *.
    intros a Ha. destruct (decide (a = h_next hh)) as [-> | Hne].
    + left. exists i. split; [lia |]. apply lookup_insert_eq.
    + rewrite (memcpy_other _ _ _ _ _ a Hcp Hne) in Ha. simpl in Ha.
      rewrite lookup_insert_ne in Ha by congruence.
      destruct (Hinv a Ha) as [(k & Hk & Ek) | Hold]; [| right; exact Hold].
      left. exists k. split; [lia |]. rewrite lookup_insert_ne by lia. exact Ek.
  - simpl. intros a Ha. right. exact Ha.
Qed.

(** The blocks of a copy are accounted for against the store in which it
    was made. *)
Lemma copy_accounted assertions h other h' c :
  owns h other → copy assertions h other = Copied h' c → accounted h h' c.
Proof.
  intros Howns Hcopy.
  destruct (copy_copied assertions h other h' c Howns Hcopy)
    as (tbl & cS & (_ & _ & Hkeep & _ & _ & Hnew) & Ec & _).
  destruct (copy_loop assertions h other h' c Hcopy) as (bs & tbl' & cS' & Hloop & Ec').
  assert (tbl' = tbl) by (rewrite Ec in Ec'; inversion Ec'; reflexivity). subst tbl'.
  split.
  - intros a blk E. split; [apply Hkeep; exact E |].
    intros (k & _ & Ek). rewrite Ec in Ek. simpl in Ek.
    destruct (Hnew k a Ek) as (_ & Hfresh & _). congruence.
  - intros a Ha.
    destruct (copy_loop_accounted h other bs (num_containers other) (h', tbl, cS') Hloop
                ltac:(destruct Howns as (_ & _ & _ & Hnc & _); lia) a Ha)
      as [(k & Hk & Ek) | Hold]; [| right; exact Hold].
    left. exists k. rewrite Ec. simpl. split; assumption.
Qed.

(** A completed copy reads as the original at every index, and the
    original still reads as before. *)
Lemma copy_value_at assertions h other h' c :
  shape h other → no_stale h other → copy assertions h other = Copied h' c →
  (∀ im i, value_at im h' c i = value_at im h other i) ∧
  (∀ im i, value_at im h' other i = value_at im h other i).
Proof.
  intros Hshape Hns Hcopy.
  pose proof Hshape as (Howns & Hsum & _ & _ & Hlen).
  pose proof Howns as (Hwf & Hbits & HB & Hnc & _).
  destruct (copy_copied assertions h other h' c Howns Hcopy)
    as (tbl & cS & (_ & _ & Hkeep & Hfull & _ & Hnew) & Ec & _).
  destruct (copy_loop assertions h other h' c Hcopy) as (bs & tbl' & cS' & Hloop & _).
  destruct (copy_loop_frame h other bs (num_containers other) (h', tbl', cS') Hwf Hloop
              ltac:(lia)) as [_ Hdead].
  simpl in Hdead. split.
  - intros im i. subst c. unfold value_at, get, getBlock. simpl.
    destruct (block_position im (BLOCKBITS other) (BLOCKSIZE other) i) as [[s o] |];
      simpl; [| reflexivity].
    destruct ((0 <=? s) && (s <? max_conts)); simpl; [| reflexivity].
    destruct (tbl !! s) as [a' |] eqn:Ea'; simpl.
    + destruct (Hnew s a' Ea') as (Hs & _ & src & blk & sblk & E1 & E2 & E3 & E4 & _ & E6).
      rewrite E1. simpl. rewrite E2, E3. simpl.
      assert (El : blk_len blk = blk_len sblk).
      { rewrite E4, (Hlen s sblk Hs).
        - apply wrap64_small. rewrite HB, <- Z.pow_add_r by lia. apply pow2_range. lia.
        - apply block_at_Some. exists src. split; assumption. }
      rewrite El.
      destruct ((0 <=? o) && (o <? blk_len sblk)) eqn:Hc; simpl; [| reflexivity].
      unfold load. simpl. rewrite E2, E3. simpl. rewrite El, Hc.
      apply E6. rewrite El. apply andb_prop in Hc as [H1 H2].
      apply Z.leb_le in H1. apply Z.ltb_lt in H2. lia.
    + destruct (blockLookupTable other !! s) as [a |] eqn:Ea; simpl; [| reflexivity].
      destruct (Hns s a Ea) as [_ [Hin | Hgone]].
      * destruct (Hfull s Hin) as [x Ex]. congruence.
      * rewrite Hgone. reflexivity.
  - intros im i. unfold value_at, get, getBlock, load.
    destruct (block_position im (BLOCKBITS other) (BLOCKSIZE other) i) as [[s o] |];
      simpl; [| reflexivity].
    destruct ((0 <=? s) && (s <? max_conts)); simpl; [| reflexivity].
    destruct (blockLookupTable other !! s) as [a |] eqn:Ea; simpl; [| reflexivity].
    destruct (h_blocks h !! a) as [blk |] eqn:Eb.
    + rewrite (Hkeep a blk Eb). simpl.
      destruct ((0 <=? o) && (o <? blk_len blk)); simpl; [| reflexivity].
      rewrite (Hkeep a blk Eb), Eb. reflexivity.
    + destruct (Hns s a Ea) as [Hlt _]. rewrite (Hdead a Hlt Eb). reflexivity.
Qed.

(** The value read at an index, from what [get] and [load] give. *)
Lemma value_at_kept im h l h2 l2 :
  (∀ i, get im h2 l2 i = get im h l i) →
  (∀ i r, get im h l i = Some r → load h2 r = load h r) →
  ∀ i, value_at im h2 l2 i = value_at im h l i.
Proof.
  intros Hget Hload i. unfold value_at. rewrite Hget.
  destruct (get im h l i) as [r |] eqn:E; simpl; [| reflexivity].
  apply (Hload i r E).
Qed.

(** Which lists pass the assertion of the copy constructor. *)
Lemma copy_with_assertions h other :
  regular h other →
  ∃ h' tbl,
    copy true h other
    = if Z.shiftr (wrap64 (BLOCKSIZE other * 2 ^ num_containers other)) 1
         =? container_size other
      then Copied h' (mk (BLOCKBITS other) (BLOCKSIZE other) (num_containers other)
                         (BLOCKSIZE other) (container_size other) (m_size other) tbl)
      else AssertionFailed.
Proof.
  intros Hreg. destruct (copy_loop_defined h other Hreg) as (h' & tbl & Hloop & _).
  destruct Hreg as [((_ & Hbits & HB & _) & _) _].
  exists h', tbl. unfold copy, ul_shl1.
  assert (Hc : (0 <=? BLOCKBITS other) && (BLOCKBITS other <? 64) = true).
  { in_range. }
  rewrite Hc, wrap64_small, <- HB, Hloop.
  2: { apply pow2_range; lia. }
  simpl. destruct (Z.shiftr _ 1 =? container_size other); reflexivity.
Qed.

(** The number of blocks of a list in which no block is more than
    needed, from its size. *)
Lemma tight_blocks h l :
  regular h l → tight l →
  (num_containers l = 0 ↔ m_size l = 0) ∧
  (num_containers l = 1 ↔ 1 <= m_size l <= BLOCKSIZE l).
Proof.
  intros [Hshape Hm] Htight.
  pose proof (shape_bounds h l Hshape) as (HBpos & _).
  destruct Hshape as ((_ & _ & _ & Hnc & _) & _ & _ & Hcs & _).
  rewrite Hcs in Hm.
  destruct (decide (num_containers l = 0)) as [E0 | N0].
  - rewrite E0 in *. simpl in Hm. split; split; intros; lia.
  - destruct Htight as [? | Htight]; [contradiction |].
    destruct (decide (num_containers l = 1)) as [E1 | N1].
    + rewrite E1 in *. simpl in Hm, Htight. split; split; intros; lia.
    + assert (Hp : 2 <= 2 ^ (num_containers l - 1)).
      { change 2 with (2 ^ 1) at 1. apply pow2_le_mono. lia. }
      split; split; intros; try lia; nia.
Qed.

End Copies.
End CopyFacts.

Section PiggyListCopies.
Import PiggyList PiggyListFacts SequenceFacts RunFacts CopyFacts.
Context {T : Type}.
Implicit Types (h : heap T) (l : PiggyList.t).

(** X18 (which lists can be copied with assertions on).  After any run of
    calls on a new list of base block size [B = 2^initialbitsize], the
    copy constructor compiled with its assertion completes exactly when
    the list has between 1 and [B] elements, so that it has one block
    (and [2 * B] fits a [size_t]), or is empty with [B = 1]; on every
    other list it stops at the assertion. *)
Theorem copy_assertion_outcome im initialbitsize h0 l0 (calls : list (call T)) h l :
  heap_wf h0 → create initialbitsize = Some l0 →
  Z.of_nat (length calls) < 2 ^ 64 →
  run im calls (h0, l0) = Some (h, l) →
  ((1 <= size l <= 2 ^ initialbitsize ∧ initialbitsize < 63) ∨
   (size l = 0 ∧ initialbitsize = 0) →
   ∃ h' c, copy true h l = Copied h' c) ∧
  (¬ ((1 <= size l <= 2 ^ initialbitsize ∧ initialbitsize < 63) ∨
      (size l = 0 ∧ initialbitsize = 0)) →
   copy true h l = AssertionFailed).
Proof.
  intros Hwf Hcreate Hlen Hrun.
  destruct (create_regular h0 initialbitsize l0 Hwf Hcreate)
    as (Hreg0 & Hb0 & HB0 & Hnc0 & Hm0).
  destruct (run_tight im calls h0 l0 h l Hreg0 ltac:(left; exact Hnc0) ltac:(lia) Hrun)
    as [Hreg Htight].
  destruct (run_regular im calls h0 l0 h l Hreg0 Hrun) as (_ & Hb & HB).
  rewrite Hb0 in Hb. rewrite HB0 in HB.
  destruct (tight_blocks h l Hreg Htight) as [H0 H1]. rewrite HB in H1.
  destruct (copy_with_assertions h l Hreg) as (h' & tbl & Hcopy).
  pose proof Hreg as [((_ & Hbits & _ & Hnc & _) & Hsum & _ & Hcs & _) _].
  rewrite Hb in Hbits, Hsum. rewrite HB in Hcs, Hcopy.
  assert (HBpos : 0 < 2 ^ initialbitsize) by (apply pow2_pos; lia).
  assert (Hiff : Z.shiftr (wrap64 (2 ^ initialbitsize * 2 ^ num_containers l)) 1
                 = container_size l
                 ↔ (num_containers l = 1 ∧ initialbitsize < 63) ∨
                   (num_containers l = 0 ∧ initialbitsize = 0)).
  { rewrite Z.shiftr_div_pow2 by lia. change (2 ^ 1) with 2. rewrite Hcs.
    destruct (decide (num_containers l = 0)) as [E0 | N0].
    - rewrite E0. change (2 ^ 0) with 1. rewrite Z.mul_1_r, Z.sub_diag, Z.mul_0_r.
      rewrite wrap64_small by (split; [lia | apply pow2_range; lia]).
      destruct (decide (initialbitsize = 0)) as [-> | Nb].
      + split; [intros _; right; split; reflexivity | intros _; reflexivity].
      + split; [| intros [[? _] | [_ ?]]; lia].
        intros Hdiv. exfalso.
        assert (E : 2 ^ initialbitsize = 2 ^ (initialbitsize - 1) * 2).
        { rewrite Z.mul_comm, <- pow2_succ by lia. f_equal. lia. }
        rewrite E, Z.div_mul in Hdiv by lia.
        pose proof (pow2_pos (initialbitsize - 1)). lia.
    - destruct (decide (num_containers l = 1)) as [E1 | N1].
      + rewrite E1. change (2 ^ 1) with 2.
        destruct (Z_lt_le_dec initialbitsize 63) as [Hlt | Hge].
        * rewrite wrap64_small.
          -- rewrite Z.div_mul by lia. split; [intros _; left; split; [reflexivity | lia] | lia].
          -- rewrite Z.mul_comm, <- pow2_succ by lia. split; [lia |]. apply pow2_range. lia.
        * assert (initialbitsize = 63) as -> by lia.
          change (wrap64 (2 ^ 63 * 2) / 2) with 0.
          split; [lia | intros [[_ ?] | [? _]]; lia].
      + split; [| intros [[? _] | [? _]]; lia].
        intros Hdiv. exfalso.
        pose proof (copy_asserts_on_two_blocks h l Hreg ltac:(lia)) as Hfail.
        rewrite Hcopy in Hfail.
        rewrite Z.shiftr_div_pow2 in Hfail by lia. change (2 ^ 1) with 2 in Hfail.
        rewrite Hcs in Hfail. rewrite Hdiv, Z.eqb_refl in Hfail. discriminate. }
  unfold size.
  assert (Hcond : (num_containers l = 1 ∧ initialbitsize < 63) ∨
                  (num_containers l = 0 ∧ initialbitsize = 0)
                  ↔ (1 <= m_size l <= 2 ^ initialbitsize ∧ initialbitsize < 63) ∨
                    (m_size l = 0 ∧ initialbitsize = 0)).
  { rewrite H0, H1. reflexivity. }
  rewrite <- Hcond, <- Hiff.
  destruct (Z.eqb_spec (Z.shiftr (wrap64 (2 ^ initialbitsize * 2 ^ num_containers l)) 1)
              (container_size l)) as [Heq | Hne].
  - split; [intros _; eauto | intros Hn; contradiction].
  - split; [intros He; contradiction | intros _; exact Hcopy].
Qed.

(** X19 (the copy without assertions is deep).  After any run of calls on
    a new list, the copy constructor compiled without its assertion is
    defined.  The copy has the size of the original and reads the same at
    every index; the original reads as before; a later call on either list
    changes no value of the other; and the destructor of the copy deletes
    the blocks of the copy only, leaving the store as it was before the
    copy was made. *)
Theorem copy_without_assertions_is_deep im initialbitsize h0 l0 (calls : list (call T))
    h l :
  heap_wf h0 → create initialbitsize = Some l0 →
  run im calls (h0, l0) = Some (h, l) →
  ∃ h' c,
    copy false h l = Copied h' c ∧ size c = size l ∧
    (∀ im' i, value_at im' h' c i = value_at im' h l i) ∧
    (∀ im' i, value_at im' h' l i = value_at im' h l i) ∧
    (∀ call h2 c2, run_call im call (h', c) = Some (h2, c2) →
                   ∀ i, value_at im h2 l i = value_at im h' l i) ∧
    (∀ call h2 l2, run_call im call (h', l) = Some (h2, l2) →
                   ∀ i, value_at im h2 c i = value_at im h' c i) ∧
    ∃ h2, destructor h' c = Some h2 ∧ h_blocks h2 = h_blocks h.
Proof.
  intros Hwf Hcreate Hrun.
  destruct (create_regular h0 initialbitsize l0 Hwf Hcreate) as (Hreg0 & _).
  destruct (run_regular im calls h0 l0 h l Hreg0 Hrun) as (Hreg & _).
  assert (Hreach : reachable im h l).
  { apply (reachable_run im calls h0 l0 h l); [| exact Hrun].
    apply (reach_create im h0 initialbitsize); assumption. }
  pose proof (reachable_no_stale im h l Hreach) as Hns.
  destruct (copy_defined h l Hreg) as (h' & c & Hcopy).
  destruct (copy_value_at false h l h' c (proj1 Hreg) Hns Hcopy) as [Hval Hkeep].
  pose proof (copy_owns false h l h' c (proj1 (proj1 Hreg)) Hcopy) as Hownsc.
  pose proof (copy_accounted false h l h' c (proj1 (proj1 Hreg)) Hcopy) as Hacc.
  exists h', c. split; [exact Hcopy |]. split.
  { destruct (copy_loop false h l h' c Hcopy) as (bs & tbl & cS & _ & ->). reflexivity. }
  split; [exact Hval |]. split; [exact Hkeep |]. split; [| split].
  - intros call h2 c2 Hcall.
    destruct (copy_independent false im h l h' c call h2 Hreach Hcopy) as [Hc _].
    destruct (Hc c2 Hcall) as (Hget & Hload & _).
    apply value_at_kept; assumption.
  - intros call h2 l2 Hcall.
    destruct (copy_independent false im h l h' c call h2 Hreach Hcopy) as [_ Hl].
    destruct (Hl l2 Hcall) as (Hget & Hload & _).
    apply value_at_kept; assumption.
  - destruct (freeList_defined h' c Hownsc) as (h2 & Hfree & _).
    exists h2. split; [exact Hfree |].
    apply (freeList_accounted h h' c h2 Hownsc Hacc Hfree).
Qed.

End PiggyListCopies.

Lemma copy_assertion_outcome_witness :
  ∃ h l,
    PiggyList.run Strict [PiggyList.Append 10; PiggyList.Append 11]
      (empty_heap, PiggyList.mk 1 2 0 2 0 0 ∅) = Some (h, l) ∧
    PiggyList.size l = 2 ∧
    ∃ h' c, PiggyList.copy true h l = PiggyList.Copied h' c.
Proof.
  destruct (PiggyList.run Strict _ _) as [[h l] |] eqn:Hrun.
  - exists h, l. split; [reflexivity |].
    assert (Hsize : PiggyList.size l = 2).
    { vm_compute in Hrun. inversion Hrun. reflexivity. }
    split; [exact Hsize |].
    eapply (copy_assertion_outcome Strict 1 empty_heap);
      [apply empty_heap_wf | reflexivity | | exact Hrun |].
    + simpl. lia.
    + left. rewrite Hsize. simpl. lia.
  - vm_compute in Hrun. discriminate Hrun.
Defined.

Lemma copy_without_assertions_is_deep_witness :
  ∃ h l,
    PiggyList.run Strict [PiggyList.Append 10; PiggyList.Append 11; PiggyList.Append 12]
      (empty_heap, PiggyList.mk 1 2 0 2 0 0 ∅) = Some (h, l) ∧
    ∃ h' c,
      PiggyList.copy false h l = PiggyList.Copied h' c ∧
      PiggyList.size c = PiggyList.size l ∧
      (∀ im' i, PiggyList.value_at im' h' c i = PiggyList.value_at im' h l i) ∧
      ∃ h2, PiggyList.destructor h' c = Some h2 ∧ h_blocks h2 = h_blocks h.
Proof.
  destruct (PiggyList.run Strict _ _) as [[h l] |] eqn:Hrun.
  - exists h, l. split; [reflexivity |].
    destruct (copy_without_assertions_is_deep Strict 1 empty_heap _ _ h l
                empty_heap_wf eq_refl Hrun)
      as (h' & c & Hcopy & Hsize & Hval & _ & _ & _ & Hdel).
    exists h', c. auto.
  - vm_compute in Hrun. discriminate Hrun.
Defined.

(** ** Concurrent calls on a [RandomInsertPiggyList] *)

Module ConcurrentInsertFacts.
Import RandomInsertPiggyList RandomInsertFacts RandomInsertValues ConcurrentInsert.

Section Steps.
Context {T : Type}.
Implicit Types (h : heap T) (l : t) (sh : shared T) (th : thread T).

Lemma insert_schedule_steps im schedule : ∀ c c' : shared T * list (thread T),
  run_schedule im schedule c = Some c' → rtc (step im) c c'.
Proof.
  induction schedule as [| k rest IH]; intros [sh ths] c' Hrun; simpl in Hrun.
  - inversion Hrun; subst. apply rtc_refl.
  - destruct (ths !! k) as [th |] eqn:Ek; simpl in Hrun; [| discriminate].
    destruct (thread_next im sh th) as [[sh' th'] |] eqn:En; simpl in Hrun; [| discriminate].
    eapply rtc_l; [| apply IH; exact Hrun].
    apply (step_thread im sh ths k th sh' th' Ek En).
Qed.

(** *** The block of an index *)

Lemma slot_of_range bits i :
  0 <= bits < 64 → 0 <= i → i + 2 ^ bits < 2 ^ 64 →
  0 <= slot_of bits i < maxContainers.
Proof.
  intros Hbits Hi Hlt. unfold slot_of, maxContainers.
  assert (HB : 0 < 2 ^ bits) by (apply pow2_pos; lia).
  assert (bits <= Z.log2 (i + 2 ^ bits)) by (apply Z.log2_le_pow2; lia).
  assert (Z.log2 (i + 2 ^ bits) < 64) by (apply Z.log2_lt_pow2; lia).
  lia.
Qed.

(** The first load of the block pointer. *)
Lemma first_check im bits sh i (v : T) :
  wf (sh_heap sh) (sh_list sh) → BLOCKBITS (sh_list sh) = bits →
  0 <= i → i + 2 ^ bits < 2 ^ 64 →
  thread_next im sh (Ready i v)
  = Some (sh, match blockLookupTable (sh_list sh) !! slot_of bits i with
              | None => Waiting i v (slot_of bits i)
              | Some _ => Present i v
              end).
Proof.
  intros (_ & Hbits & HB & _) Hb Hi Hlt.
  destruct (insert_slot (sh_list sh) i Hbits HB Hi ltac:(rewrite HB, Hb; exact Hlt))
    as (Hclz & Hslot & Hrange & _).
  simpl. rewrite Hclz. simpl. rewrite Hslot.
  rewrite getBlock_in_range by exact Hrange. simpl.
  unfold slot_of. rewrite HB, Hb. reflexivity.
Qed.

(** *** The allocation of a block *)

Lemma allocate_wf h l blockNum :
  wf h l → 0 <= blockNum < maxContainers → blockLookupTable l !! blockNum = None →
  wf (new_array (wrap64 (INITIALBLOCKSIZE l * 2 ^ blockNum)) h).2
     (mk (BLOCKBITS l) (INITIALBLOCKSIZE l) (numElements l)
         (<[blockNum := h_next h]> (blockLookupTable l))).
Proof.
  intros (Hwf & Hbits & HB & Hent & Hinj) Hrange Hnone.
  assert (Hfresh : ∀ k, blockLookupTable l !! k = Some (h_next h) → False).
  { intros k Ek. destruct (Hent k _ Ek) as (_ & blk & Eb & _).
    rewrite heap_wf_next_free in Eb by exact Hwf. discriminate. }
  unfold wf. simpl. split; [apply (new_array_wf _ h Hwf) |].
  split; [exact Hbits |]. split; [exact HB |]. split.
  - intros i a Ei. destruct (decide (i = blockNum)) as [-> | Hne].
    + rewrite lookup_insert_eq in Ei. inversion Ei; subst a. split; [exact Hrange |].
      eexists. split; [apply lookup_insert_eq | reflexivity].
    + rewrite lookup_insert_ne in Ei by congruence.
      destruct (Hent i a Ei) as (Hi & blk & Eb & Hl). split; [exact Hi |].
      exists blk. split; [| exact Hl].
      rewrite lookup_insert_ne; [exact Eb |]. intros <-. apply (Hfresh i Ei).
  - intros i j a Ei Ej.
    destruct (decide (i = blockNum)) as [-> | Hi];
      destruct (decide (j = blockNum)) as [-> | Hj]; [reflexivity | | |].
    + rewrite lookup_insert_eq in Ei. rewrite lookup_insert_ne in Ej by congruence.
      inversion Ei; subst. exfalso. apply (Hfresh j Ej).
    + rewrite lookup_insert_eq in Ej. rewrite lookup_insert_ne in Ei by congruence.
      inversion Ej; subst. exfalso. apply (Hfresh i Ei).
    + rewrite lookup_insert_ne in Ei by congruence.
      rewrite lookup_insert_ne in Ej by congruence. apply (Hinj i j a Ei Ej).
Qed.

(** A new block holds no value: the allocation changes what no index
    reads. *)
Lemma allocate_value_at im h l blockNum n j :
  wf h l → blockLookupTable l !! blockNum = None →
  value_at im (new_array n h).2
           (mk (BLOCKBITS l) (INITIALBLOCKSIZE l) (numElements l)
               (<[blockNum := h_next h]> (blockLookupTable l))) j
  = value_at im h l j.
Proof.
  intros (Hwf & _ & _ & Hent & _) Hnone.
  unfold value_at, get, getBlock, load. simpl.
  destruct (block_position im (BLOCKBITS l) (INITIALBLOCKSIZE l) j) as [[s o] |];
    simpl; [| reflexivity].
  destruct ((0 <=? s) && (s <? maxContainers)); simpl; [| reflexivity].
  destruct (decide (s = blockNum)) as [-> | Hne].
  - rewrite lookup_insert_eq, Hnone. simpl. rewrite lookup_insert_eq. simpl.
    destruct ((0 <=? o) && (o <? n)) eqn:Hc; simpl; [| reflexivity].
    rewrite lookup_insert_eq. simpl. rewrite Hc. apply lookup_empty.
  - rewrite lookup_insert_ne by congruence.
    destruct (blockLookupTable l !! s) as [a |] eqn:Ea; simpl; [| reflexivity].
    destruct (Hent s a Ea) as (_ & blk & Eb & _).
    assert (a ≠ h_next h).
    { intros ->. rewrite heap_wf_next_free in Eb by exact Hwf. discriminate. }
    rewrite lookup_insert_ne by congruence. rewrite Eb. simpl.
    destruct ((0 <=? o) && (o <? blk_len blk)); simpl; [| reflexivity].
    rewrite lookup_insert_ne by congruence. rewrite Eb. reflexivity.
Qed.

Lemma allocate_footprint l blockNum (a0 a : positive) :
  blockLookupTable l !! blockNum = None →
  footprint (mk (BLOCKBITS l) (INITIALBLOCKSIZE l) (numElements l)
                (<[blockNum := a0]> (blockLookupTable l))) a
  ↔ a = a0 ∨ footprint l a.
Proof.
  intros Hnone. unfold footprint. simpl. split.
  - intros (k & Ek). destruct (decide (k = blockNum)) as [-> | Hne].
    + rewrite lookup_insert_eq in Ek. inversion Ek. left. reflexivity.
    + rewrite lookup_insert_ne in Ek by congruence. right. eauto.
  - intros [-> | (k & Ek)].
    + exists blockNum. apply lookup_insert_eq.
    + exists k. rewrite lookup_insert_ne; [exact Ek |]. intros <-. congruence.
Qed.

(** *** The assignment *)

Lemma assign_wf h l r (v : T) h' : wf h l → store h r v = Some h' → wf h' l.
Proof.
  intros (Hwf & Hbits & HB & Hent & Hinj) Hst.
  unfold wf. split; [apply (store_wf h r v h' Hwf Hst) |].
  split; [exact Hbits |]. split; [exact HB |]. split; [| exact Hinj].
  intros i a Ei. destruct (Hent i a Ei) as (Hi & blk & Eb & Hl). split; [exact Hi |].
  destruct (store_block h r v h' a blk Hst Eb) as (blk' & Eb' & Hl').
  exists blk'. split; [exact Eb' | congruence].
Qed.

Lemma assign_get im h l r (v : T) h' j :
  store h r v = Some h' → get im h' l j = get im h l j.
Proof.
  intros Hst. apply store_Some in Hst as (b0 & Eb0 & _ & ->).
  unfold get.
  destruct (block_position im (BLOCKBITS l) (INITIALBLOCKSIZE l) j) as [[slot ind] |];
    simpl; [| reflexivity].
  destruct (getBlock l slot) as [[a |] |]; simpl; try reflexivity.
  destruct (decide (a = r.1)) as [-> | Hne].
  - rewrite lookup_insert_eq, Eb0. reflexivity.
  - rewrite lookup_insert_ne by congruence. reflexivity.
Qed.

(** The assignment through the reference of index [i] gives [i] its value
    and changes the value of no index with another position. *)
Lemma assign_value_at im h l i r (v : T) h' j :
  wf h l → get im h l i = Some r → store h r v = Some h' →
  value_at im h' l j
  = if decide (block_position im (BLOCKBITS l) (INITIALBLOCKSIZE l) j
               = block_position im (BLOCKBITS l) (INITIALBLOCKSIZE l) i)
    then Some v else value_at im h l j.
Proof.
  intros (_ & _ & _ & _ & Hinj) Hget Hst. unfold value_at.
  rewrite (assign_get im h l r v h' j Hst).
  destruct (decide _) as [Heq | Hne].
  - assert (E : get im h l j = get im h l i) by (unfold get; rewrite Heq; reflexivity).
    rewrite E, Hget. simpl. apply (load_store_same h r v h' Hst).
  - destruct (get im h l j) as [r' |] eqn:Hget'; simpl; [| reflexivity].
    apply (load_store_other h r v h' r' Hst).
    intros ->. apply Hne. destruct r as [a off].
    destruct (get_inversion im h l j a off Hget') as (s1 & b1 & P1 & _ & E1 & _).
    destruct (get_inversion im h l i a off Hget) as (s2 & b2 & P2 & _ & E2 & _).
    rewrite (Hinj s1 s2 a E1 E2) in P1. congruence.
Qed.

(** The assignment is defined once the block is there. *)
Lemma assign_defined im bits h l i (v : T) :
  wf h l → BLOCKBITS l = bits → 0 <= i → i + 2 ^ bits < 2 ^ 64 →
  mask_defined im (Z.log2 (i + 2 ^ bits)) →
  is_Some (blockLookupTable l !! slot_of bits i) →
  ∃ r h', get im h l i = Some r ∧ store h r v = Some h'.
Proof.
  intros (Hwf & Hbits & HB & Hent & _) Hb Hi Hlt Hmask [a Ea].
  rewrite Hb in HB, Hbits.
  destruct (block_position_defined im bits i) as (j & Hpos & Hj & _);
    [lia | lia | lia | exact Hmask |].
  pose proof (mod_pow2_below (i + 2 ^ bits) j (Z.log2 (i + 2 ^ bits)) Hj) as Hoff.
  destruct (Hent _ a Ea) as (Hrange & blk & Eb & Hlen).
  assert (Hl : blk_len blk = 2 ^ Z.log2 (i + 2 ^ bits)).
  { rewrite Hlen, HB. unfold slot_of.
    assert (HBpos : 0 < 2 ^ bits) by (apply pow2_pos; lia).
    assert (bits <= Z.log2 (i + 2 ^ bits)) by (apply Z.log2_le_pow2; lia).
    assert (Z.log2 (i + 2 ^ bits) < 64) by (apply Z.log2_lt_pow2; lia).
    rewrite <- Z.pow_add_r by lia.
    replace (bits + (Z.log2 (i + 2 ^ bits) - bits)) with (Z.log2 (i + 2 ^ bits)) by lia.
    apply wrap64_small. apply pow2_range. lia. }
  exists (a, (i + 2 ^ bits) mod 2 ^ j).
  assert (Hget : get im h l i = Some (a, (i + 2 ^ bits) mod 2 ^ j)).
  { apply (get_in_block im h l i (slot_of bits i) _ a blk); try assumption; [| lia].
    rewrite Hb, HB. exact Hpos. }
  rewrite (store_defined h (a, (i + 2 ^ bits) mod 2 ^ j) v blk Eb) by (simpl; lia).
  eexists. split; [exact Hget | reflexivity].
Qed.

End Steps.
End ConcurrentInsertFacts.

Module ConcurrentInsertInvariant.
Import RandomInsertPiggyList RandomInsertFacts RandomInsertValues.
Import ConcurrentInsert ConcurrentInsertFacts.

Section Invariant.
Context {T : Type}.
Implicit Types (h : heap T) (l : t) (sh : shared T) (th : thread T)
  (ths : list (thread T)) (calls : list (Z * T)).

(** *** The lock *)

Lemma insert_next_lock im sh th sh' th' :
  thread_next im sh th = Some (sh', th') →
  (holds_lock th' = holds_lock th ∧ sl_locked sh' = sl_locked sh) ∨
  (holds_lock th = false ∧ holds_lock th' = true ∧
   sl_locked sh = false ∧ sl_locked sh' = true) ∨
  (holds_lock th = true ∧ holds_lock th' = false ∧ sl_locked sh' = false).
Proof.
  intros H. destruct th as [i v | i v bn | i v bn | i v | i v | i v |]; simpl in H.
  - left. destruct (clzll _) as [lz |]; simpl in H; [| discriminate].
    destruct (getBlock _ _) as [[a |] |]; simpl in H; inversion H; subst; auto.
  - destruct (sl_locked sh) eqn:Hl; inversion H; subst; simpl.
    + left. rewrite Hl. auto.
    + right. left. auto.
  - left. destruct (getBlock _ _) as [[a |] |]; simpl in H; inversion H; subst; auto.
  - right. right. inversion H; subst. auto.
  - left. destruct (get im _ _ i) as [r |]; simpl in H; [| discriminate].
    destruct (store _ r v) as [h1 |]; simpl in H; [| discriminate].
    inversion H; subst. auto.
  - left. inversion H; subst. auto.
  - discriminate.
Qed.

Lemma insert_lock_invariant im (c c' : shared T * list (thread T)) :
  lock_holders c.2 = (if sl_locked c.1 then 1 else 0)%nat →
  rtc (step im) c c' →
  lock_holders c'.2 = (if sl_locked c'.1 then 1 else 0)%nat.
Proof.
  intros Hinv Hrun. revert Hinv.
  induction Hrun as [c | c c1 c' Hstep _ IH]; intros Hinv; [exact Hinv |].
  apply IH. destruct Hstep as [sh ths k th sh' th' Hk Hnext]. simpl in *.
  pose proof (ConcurrentRuns.filter_insert_length holds_lock ths k th th' Hk) as Hcount.
  unfold lock_holders in *.
  destruct (insert_next_lock im sh th sh' th' Hnext)
    as [(E1 & E2) | [(E1 & E2 & E3 & E4) | (E1 & E2 & E3)]].
  - rewrite E1, E2 in *. destruct (holds_lock th); lia.
  - rewrite E1, E2 in Hcount. rewrite E3 in Hinv. rewrite E4. lia.
  - rewrite E1, E2 in Hcount. rewrite E3.
    pose proof (ConcurrentRuns.filter_length_lookup holds_lock ths k th Hk E1).
    destruct (sl_locked sh); lia.
Qed.

(** *** The store and the table *)

(** What a step does to the table, to the store and to the values. *)
Lemma insert_next_store im bits h0 calls sh k th sh' th' :
  store_ok bits h0 calls sh → thread_ok im bits calls sh k th →
  (∀ i v, calls !! k = Some (i, v) → 0 <= i ∧ i + 2 ^ bits < 2 ^ 32) →
  thread_next im sh th = Some (sh', th') →
  store_ok bits h0 calls sh' ∧
  (∀ slot, is_Some (blockLookupTable (sh_list sh) !! slot) →
           is_Some (blockLookupTable (sh_list sh') !! slot)) ∧
  (∀ j, 0 <= j → j + 2 ^ bits < 2 ^ 32 →
        (has_assigned th = false → has_assigned th' = true →
         ∀ v, calls !! k = Some (j, v) → False) →
        value_at im (sh_heap sh') (sh_list sh') j
        = value_at im (sh_heap sh) (sh_list sh) j) ∧
  numElements (sh_list sh')
  = (if has_returned th' then wrap64 (numElements (sh_list sh) + 1)
     else numElements (sh_list sh)) ∧
  has_returned th = false ∧
  (has_assigned th = true → has_assigned th' = true).
Proof.
  intros Hok (Hcall & Hslot & _) Hrange Hnext.
  pose proof Hok as (Hwf & Hb & Hold & Hnew & Hcount & Hslots).
  pose proof Hwf as (Hhwf & Hbits & HB & Hent & Hinj). rewrite Hb in Hbits, HB.
  assert (Hsame : ∀ lk, sh_heap sh' = sh_heap sh → sh_list sh' = sh_list sh →
            has_returned th' = false → has_returned th = false →
            lk = tt →
            has_assigned th = false →
            store_ok bits h0 calls sh' ∧
            (∀ slot, is_Some (blockLookupTable (sh_list sh) !! slot) →
                     is_Some (blockLookupTable (sh_list sh') !! slot)) ∧
            (∀ j, 0 <= j → j + 2 ^ bits < 2 ^ 32 →
                  (has_assigned th = false → has_assigned th' = true →
                   ∀ v, calls !! k = Some (j, v) → False) →
                  value_at im (sh_heap sh') (sh_list sh') j
                  = value_at im (sh_heap sh) (sh_list sh) j) ∧
            numElements (sh_list sh')
            = (if has_returned th' then wrap64 (numElements (sh_list sh) + 1)
               else numElements (sh_list sh)) ∧
            has_returned th = false ∧
            (has_assigned th = true → has_assigned th' = true)).
  { intros _ Eh El Er Er0 _ Ea. unfold store_ok. rewrite Eh, El, Er.
    split; [exact Hok |]. split; [auto |]. split; [auto |].
    split; [reflexivity |]. split; [exact Er0 | congruence]. }
  destruct th as [i v | i v bn | i v bn | i v | i v | i v |]; simpl in Hnext.
  - destruct (clzll _) as [lz |]; simpl in Hnext; [| discriminate].
    destruct (getBlock _ _) as [[a |] |]; simpl in Hnext; inversion Hnext; subst;
      apply (Hsame tt); reflexivity.
  - destruct (sl_locked sh); inversion Hnext; subst; apply (Hsame tt); reflexivity.
  - destruct (getBlock (sh_list sh) bn) as [[a |] |] eqn:Hgb; simpl in Hnext;
      [| | discriminate].
    + inversion Hnext; subst. apply (Hsame tt); reflexivity.
    + inversion Hnext; subst sh' th'. simpl. clear Hsame.
      assert (Hbn : 0 <= bn < maxContainers ∧ blockLookupTable (sh_list sh) !! bn = None).
      { unfold getBlock in Hgb.
        destruct ((0 <=? bn) && (bn <? maxContainers)) eqn:Hc; [| discriminate].
        apply andb_prop in Hc as [H1 H2]. apply Z.leb_le in H1. apply Z.ltb_lt in H2.
        inversion Hgb as [E]. split; [lia | reflexivity]. }
      destruct Hbn as [Hbn Hnone].
      pose proof (heap_wf_next_free _ Hhwf) as Hfree.
      split; [| split; [| split; [| split; [reflexivity | split; [reflexivity | auto]]]]].
      * unfold store_ok. simpl.
        split; [apply (allocate_wf _ _ bn Hwf Hbn Hnone) |]. split; [exact Hb |].
        split; [| split; [| split]].
        -- intros a blk E. destruct (Hold a blk E) as [Ea Hnfp].
           split.
           ++ rewrite lookup_insert_ne; [exact Ea |]. intros <-. congruence.
           ++ intros Hfp. apply (allocate_footprint _ bn _ a Hnone) in Hfp as [-> | Hfp];
                [congruence | contradiction].
        -- intros a Ha. destruct (decide (a = h_next (sh_heap sh))) as [-> | Hne].
           ++ left. apply (allocate_footprint _ bn _ _ Hnone). left. reflexivity.
           ++ rewrite lookup_insert_ne in Ha by congruence.
              destruct (Hnew a Ha) as [Hfp | Hin]; [| right; exact Hin].
              left. apply (allocate_footprint _ bn _ _ Hnone). right. exact Hfp.
        -- rewrite (map_size_insert_None _ _ _ Hnone). lia.
        -- intros slot Hs. destruct (decide (slot = bn)) as [-> | Hne].
           ++ pose proof (Hcall _ eq_refl) as Hk.
              exists i, v. split; [apply list_elem_of_lookup; eauto |].
              apply (Hslot i bn eq_refl).
           ++ rewrite lookup_insert_ne in Hs by congruence. apply (Hslots slot Hs).
      * intros slot [a Ea]. destruct (decide (slot = bn)) as [-> | Hne].
        -- rewrite lookup_insert_eq. eauto.
        -- rewrite lookup_insert_ne by congruence. eauto.
      * intros j _ _ _. apply (allocate_value_at im _ _ bn _ j Hwf Hnone).
  - inversion Hnext; subst. apply (Hsame tt); reflexivity.
  - destruct (get im (sh_heap sh) (sh_list sh) i) as [r |] eqn:Hget; simpl in Hnext;
      [| discriminate].
    destruct (store (sh_heap sh) r v) as [h1 |] eqn:Hst; simpl in Hnext; [| discriminate].
    inversion Hnext; subst sh' th'. simpl. clear Hsame.
    destruct r as [a off].
    destruct (get_inversion im _ _ i a off Hget) as (s & blk & Hpos & Hs & Ea & Eb & Hoff).
    pose proof (Hcall _ eq_refl) as Hk. destruct (Hrange i v Hk) as [Hi Hil].
    split; [| split; [| split; [| split; [reflexivity | split; [reflexivity | auto]]]]].
    + unfold store_ok. simpl.
      split; [apply (assign_wf _ _ (a, off) v h1 Hwf Hst) |]. split; [exact Hb |].
      split; [| split; [| split]].
      * intros a0 blk0 E. destruct (Hold a0 blk0 E) as [Ea0 Hnfp]. split; [| exact Hnfp].
        rewrite (PiggyListFacts.store_other_block _ (a, off) v h1 a0 Hst); [exact Ea0 |].
        simpl. intros ->. apply Hnfp. exists s. exact Ea.
      * intros a0 [blk' Ha0].
        destruct (store_block_inv _ (a, off) v h1 a0 blk' Hst Ha0) as (blk0 & E0 & _).
        apply Hnew. eauto.
      * rewrite (PiggyListFacts.store_next _ (a, off) v h1 Hst). exact Hcount.
      * exact Hslots.
    + auto.
    + intros j Hj Hjl Hne.
      rewrite (assign_value_at im _ _ i (a, off) v h1 j Hwf Hget Hst).
      rewrite decide_False; [reflexivity |].
      rewrite Hb, HB. intros Heq. apply (Hne eq_refl eq_refl v).
      assert (j = i); [| subst; exact Hk].
      apply (SequenceFacts.block_position_injective im bits j i); try lia; [| exact Heq].
      rewrite Hb, HB in Hpos. rewrite Hpos. eauto.
  - inversion Hnext; subst sh' th'. simpl. clear Hsame.
    split; [exact Hok |]. split; [auto |].
    split; [| split; [reflexivity | split; [reflexivity | auto]]].
    intros j _ _ _. reflexivity.
  - discriminate.
Qed.

(** *** The threads *)

(** The thread that took the step. *)
Lemma thread_ok_next im bits h0 calls sh k th sh' th' :
  store_ok bits h0 calls sh → thread_ok im bits calls sh k th →
  (∀ i v, calls !! k = Some (i, v) → 0 <= i ∧ i + 2 ^ bits < 2 ^ 32) →
  thread_next im sh th = Some (sh', th') →
  thread_ok im bits calls sh' k th'.
Proof.
  intros Hok Hth Hrange Hnext.
  pose proof Hok as (Hwf & Hb & _).
  pose proof Hth as (Hcall & Hslot & Hpast & Hval).
  assert (H32 : 2 ^ 32 < 2 ^ 64) by (apply pow2_lt_mono; lia).
  destruct th as [i v | i v bn | i v bn | i v | i v | i v |].
  - pose proof (Hcall _ eq_refl) as Hk. destruct (Hrange i v Hk) as [Hi Hil].
    rewrite (first_check im bits sh i v Hwf Hb Hi ltac:(lia)) in Hnext.
    inversion Hnext; subst sh' th'.
    destruct (blockLookupTable (sh_list sh) !! slot_of bits i) as [a |] eqn:Ea.
    + split; [intros c E; inversion E; subst; exact Hk |].
      split; [intros i' bn' E; discriminate |].
      split; [| intros i' v' E; discriminate].
      intros i' v' _ Hk'. rewrite Hk in Hk'. inversion Hk'; subst. rewrite Ea. eauto.
    + split; [intros c E; inversion E; subst; exact Hk |].
      split; [intros i' bn' E; inversion E; reflexivity |].
      split; intros i' v' E; discriminate.
  - simpl in Hnext. destruct (sl_locked sh); inversion Hnext; subst sh' th';
      (split; [exact Hcall |]; split; [exact Hslot |];
       split; intros i' v' E; discriminate).
  - pose proof (Hcall _ eq_refl) as Hk. pose proof (Hslot i bn eq_refl) as Hbn.
    simpl in Hnext.
    destruct (getBlock (sh_list sh) bn) as [[a |] |] eqn:Hgb; simpl in Hnext;
      [| | discriminate]; inversion Hnext; subst sh' th'; simpl.
    + split; [intros c E; inversion E; subst; exact Hk |].
      split; [intros i' bn' E; discriminate |].
      split; [| intros i' v' E; discriminate].
      intros i' v' _ Hk'. rewrite Hk in Hk'. inversion Hk'; subst i' v'.
      unfold getBlock in Hgb.
      destruct ((0 <=? bn) && (bn <? maxContainers)); [| discriminate].
      inversion Hgb as [E]. rewrite <- Hbn, E. eauto.
    + split; [intros c E; inversion E; subst; exact Hk |].
      split; [intros i' bn' E; discriminate |].
      split; [| intros i' v' E; discriminate].
      intros i' v' _ Hk'. rewrite Hk in Hk'. inversion Hk'; subst i' v'.
      simpl. rewrite <- Hbn, lookup_insert_eq. eauto.
  - simpl in Hnext. inversion Hnext; subst sh' th'. simpl.
    split; [exact Hcall |]. split; [intros i' bn' E; discriminate |].
    split; [| intros i' v' E; discriminate].
    intros i' v' _ Hk'. apply (Hpast i' v' eq_refl Hk').
  - pose proof (Hcall _ eq_refl) as Hk. simpl in Hnext.
    destruct (get im (sh_heap sh) (sh_list sh) i) as [r |] eqn:Hget; simpl in Hnext;
      [| discriminate].
    destruct (store (sh_heap sh) r v) as [h1 |] eqn:Hst; simpl in Hnext; [| discriminate].
    inversion Hnext; subst sh' th'. simpl.
    split; [exact Hcall |]. split; [intros i' bn' E; discriminate |].
    split.
    + intros i' v' _ Hk'. apply (Hpast i' v' eq_refl Hk').
    + intros i' v' _ Hk'. rewrite Hk in Hk'. inversion Hk'; subst i' v'. simpl.
      rewrite (assign_value_at im _ _ i r v h1 i Hwf Hget Hst).
      rewrite decide_True by reflexivity. reflexivity.
  - simpl in Hnext. inversion Hnext; subst sh' th'. simpl.
    split; [intros c E; discriminate |]. split; [intros i' bn' E; discriminate |].
    split; [intros i' v' E; discriminate |].
    intros i' v' _ Hk'. apply (Hval i' v' eq_refl Hk').
  - discriminate.
Qed.

(** The other threads. *)
Lemma thread_ok_other im bits h0 calls sh k th sh' th' k0 th0 :
  store_ok bits h0 calls sh → thread_ok im bits calls sh k th →
  (∀ n i v, calls !! n = Some (i, v) → 0 <= i ∧ i + 2 ^ bits < 2 ^ 32) →
  (∀ n n' i v v', calls !! n = Some (i, v) → calls !! n' = Some (i, v') → n = n') →
  thread_next im sh th = Some (sh', th') →
  k0 ≠ k → thread_ok im bits calls sh k0 th0 → thread_ok im bits calls sh' k0 th0.
Proof.
  intros Hok Hth Hrange Hdistinct Hnext Hne (Hcall & Hslot & Hpast & Hval).
  destruct (insert_next_store im bits h0 calls sh k th sh' th' Hok Hth (Hrange k) Hnext)
    as (_ & Hmono & Hkeep & _).
  split; [exact Hcall |]. split; [exact Hslot |]. split.
  - intros i v Hp Hk0. apply Hmono. apply (Hpast i v Hp Hk0).
  - intros i v Ha Hk0. destruct (Hrange k0 i v Hk0) as [Hi Hil].
    rewrite Hkeep; [apply (Hval i v Ha Hk0) | lia | lia |].
    intros _ _ v' Hk. apply Hne. apply (Hdistinct k0 k i v v' Hk0 Hk).
Qed.

(** *** The invariant *)

Lemma consistent_step im bits h0 calls (c c' : shared T * list (thread T)) :
  (∀ n i v, calls !! n = Some (i, v) → 0 <= i ∧ i + 2 ^ bits < 2 ^ 32) →
  (∀ n n' i v v', calls !! n = Some (i, v) → calls !! n' = Some (i, v') → n = n') →
  Z.of_nat (length calls) < 2 ^ 64 →
  consistent im bits h0 calls c ∧ length c.2 = length calls →
  step im c c' →
  consistent im bits h0 calls c' ∧ length c'.2 = length calls.
Proof.
  intros Hrange Hdistinct Hlen [(Hok & Hths & Hcount) Hl] Hstep.
  destruct Hstep as [sh ths k th sh' th' Hk Hnext]. simpl in *.
  pose proof (Hths k th Hk) as Hth.
  destruct (insert_next_store im bits h0 calls sh k th sh' th' Hok Hth (Hrange k) Hnext)
    as (Hok' & _ & _ & Hnum & Hnot & _).
  split; [| rewrite length_insert; exact Hl].
  split; [exact Hok' |]. split.
  - intros k0 th0 Hk0.
    apply list_lookup_insert_Some in Hk0 as [(Ek & Eth & _) | (Hne & Hk0)].
    + subst k0 th0.
      apply (thread_ok_next im bits h0 calls sh k th sh' th' Hok Hth (Hrange k) Hnext).
    + apply (thread_ok_other im bits h0 calls sh k th sh' th' k0 th0 Hok Hth
               Hrange Hdistinct Hnext ltac:(congruence) (Hths k0 th0 Hk0)).
  - pose proof (ConcurrentRuns.filter_insert_length has_returned ths k th th' Hk) as Hf.
    rewrite Hnot in Hf. simpl. rewrite Hnum.
    destruct (has_returned th'); [| lia].
    pose proof (List.filter_length_le has_returned (<[k := th']> ths)) as Hle.
    rewrite length_insert in Hle.
    rewrite Hcount, wrap64_small by lia. lia.
Qed.

Lemma start_lookup calls (k : nat) th :
  start calls !! k = Some th →
  ∃ i v, calls !! k = Some (i, v) ∧ th = Ready i v.
Proof.
  unfold start. rewrite list_lookup_fmap.
  destruct (calls !! k) as [[i v] |]; simpl; [| discriminate].
  intros E. inversion E. eauto.
Qed.

Lemma consistent_start im bits h0 l0 calls :
  heap_wf h0 → create bits = Some l0 →
  consistent im bits h0 calls (Shared h0 l0 false, start calls) ∧
  length (start calls) = length calls.
Proof.
  intros Hwf Hcreate.
  destruct (create_wf h0 bits l0 Hwf Hcreate) as (Hwf0 & Hb0 & HB0 & Hn0).
  assert (El0 : blockLookupTable l0 = ∅).
  { unfold create in Hcreate. destruct (ul_shl1 bits); simpl in Hcreate; [| discriminate].
    inversion Hcreate; subst. reflexivity. }
  split; [| apply length_fmap].
  split; [| split].
  - unfold store_ok. simpl. split; [exact Hwf0 |]. split; [exact Hb0 |].
    rewrite El0. split; [| split; [| split]].
    + intros a blk E. split; [exact E |]. intros (k & Ek). rewrite El0 in Ek.
      rewrite lookup_empty in Ek. discriminate.
    + auto.
    + rewrite map_size_empty. lia.
    + intros slot [a Ea]. rewrite lookup_empty in Ea. discriminate.
  - simpl. intros k th Hk. destruct (start_lookup calls k th Hk) as (i & v & Ek & ->).
    split; [intros c E; inversion E; subst; exact Ek |].
    split; [intros i' bn E; discriminate |].
    split; intros i' v' E; discriminate.
  - simpl. rewrite Hn0. unfold start. clear.
    induction calls as [| c calls IH]; simpl; [reflexivity | exact IH].
Qed.

Lemma insert_reachable im bits h0 l0 calls (c : shared T * list (thread T)) :
  heap_wf h0 → create bits = Some l0 →
  (∀ n i v, calls !! n = Some (i, v) → 0 <= i ∧ i + 2 ^ bits < 2 ^ 32) →
  (∀ n n' i v v', calls !! n = Some (i, v) → calls !! n' = Some (i, v') → n = n') →
  Z.of_nat (length calls) < 2 ^ 64 →
  rtc (step im) (Shared h0 l0 false, start calls) c →
  consistent im bits h0 calls c ∧ length c.2 = length calls.
Proof.
  intros Hwf Hcreate Hrange Hdistinct Hlen Hrun.
  assert (Hgen : ∀ c0 c1 : shared T * list (thread T),
            rtc (step im) c0 c1 →
            consistent im bits h0 calls c0 ∧ length c0.2 = length calls →
            consistent im bits h0 calls c1 ∧ length c1.2 = length calls).
  { intros c0 c1 H01. induction H01 as [c0 | c0 c1 c2 Hstep _ IH]; intros Hc0;
      [exact Hc0 |].
    apply IH.
    apply (consistent_step im bits h0 calls c0 c1 Hrange Hdistinct Hlen Hc0 Hstep). }
  apply (Hgen _ _ Hrun). apply (consistent_start im bits h0 l0 calls Hwf Hcreate).
Qed.


(** *** Every thread has a next step *)

Lemma insert_next_defined im bits h0 calls sh k th :
  store_ok bits h0 calls sh → thread_ok im bits calls sh k th →
  (∀ i v, calls !! k = Some (i, v) →
          0 <= i ∧ i + 2 ^ bits < 2 ^ 32 ∧ mask_defined im (Z.log2 (i + 2 ^ bits))) →
  has_returned th = false →
  is_Some (thread_next im sh th).
Proof.
  intros Hok (Hcall & Hslot & Hpast & _) Hrange Hnot.
  pose proof Hok as (Hwf & Hb & _).
  pose proof Hwf as (_ & Hbits & _). rewrite Hb in Hbits.
  assert (H32 : 2 ^ 32 < 2 ^ 64) by (apply pow2_lt_mono; lia).
  destruct th as [i v | i v bn | i v bn | i v | i v | i v |].
  - destruct (Hrange i v (Hcall _ eq_refl)) as (Hi & Hil & _).
    rewrite (first_check im bits sh i v Hwf Hb Hi ltac:(lia)). eauto.
  - simpl. destruct (sl_locked sh); eauto.
  - destruct (Hrange i v (Hcall _ eq_refl)) as (Hi & Hil & _).
    simpl. rewrite (Hslot i bn eq_refl).
    rewrite getBlock_in_range by (apply slot_of_range; lia). simpl.
    destruct (blockLookupTable (sh_list sh) !! slot_of bits i); eauto.
  - simpl. eauto.
  - pose proof (Hcall _ eq_refl) as Hk.
    destruct (Hrange i v Hk) as (Hi & Hil & Hmask).
    destruct (assign_defined im bits (sh_heap sh) (sh_list sh) i v Hwf Hb Hi ltac:(lia)
                Hmask (Hpast i v eq_refl Hk)) as (r & h1 & Hget & Hst).
    simpl. rewrite Hget. simpl. rewrite Hst. simpl. eauto.
  - simpl. eauto.
  - discriminate.
Qed.

(** *** The work left *)

Lemma insert_steps_left ths k th th' :
  ths !! k = Some th →
  (work_left (<[k := th']> ths) + steps_left th = work_left ths + steps_left th')%nat.
Proof.
  unfold work_left. revert k.
  induction ths as [| a ths IH]; intros [| k] Hk; simpl in *; try discriminate.
  - inversion Hk; subst. lia.
  - specialize (IH k Hk). lia.
Qed.

Lemma work_left_none ths :
  work_left ths = 0%nat → Forall (λ th, has_returned th = true) ths.
Proof.
  unfold work_left. induction ths as [| a ths IH]; simpl; intros H; [constructor |].
  constructor; [| apply IH; lia].
  destruct a; simpl in H; try lia. reflexivity.
Qed.

(** A step that is not a wait for the lock takes from the work left. *)
Lemma insert_next_work im sh ths k th sh' th' :
  ths !! k = Some th → thread_next im sh th = Some (sh', th') →
  (∀ i v bn, th = Waiting i v bn → sl_locked sh = false) →
  (work_left (<[k := th']> ths) < work_left ths)%nat.
Proof.
  intros Hk Hnext Hwait.
  pose proof (insert_steps_left ths k th th' Hk) as Hsum.
  destruct th as [i v | i v bn | i v bn | i v | i v | i v |]; simpl in Hnext.
  - destruct (clzll _) as [lz |]; simpl in Hnext; [| discriminate].
    destruct (getBlock _ _) as [[a |] |]; simpl in Hnext; inversion Hnext; subst;
      simpl in *; lia.
  - rewrite (Hwait i v bn eq_refl) in Hnext. inversion Hnext; subst. simpl in *. lia.
  - destruct (getBlock _ _) as [[a |] |]; simpl in Hnext; inversion Hnext; subst;
      simpl in *; lia.
  - inversion Hnext; subst. simpl in *. lia.
  - destruct (get im _ _ i) as [r |]; simpl in Hnext; [| discriminate].
    destruct (store _ r v) as [h1 |]; simpl in Hnext; [| discriminate].
    inversion Hnext; subst. simpl in *. lia.
  - inversion Hnext; subst. simpl in *. lia.
  - discriminate.
Qed.

Lemma start_unlocked calls : lock_holders (start calls) = 0%nat.
Proof.
  unfold lock_holders, start. induction calls as [| c calls IH]; [reflexivity | exact IH].
Qed.

(** In a reachable state in which a call has not returned, some thread
    has a step that takes from the work left. *)
Lemma insert_progress im bits h0 l0 calls sh ths :
  heap_wf h0 → create bits = Some l0 →
  (∀ n i v, calls !! n = Some (i, v) →
            0 <= i ∧ i + 2 ^ bits < 2 ^ 32 ∧ mask_defined im (Z.log2 (i + 2 ^ bits))) →
  (∀ n n' i v v', calls !! n = Some (i, v) → calls !! n' = Some (i, v') → n = n') →
  Z.of_nat (length calls) < 2 ^ 64 →
  rtc (step im) (Shared h0 l0 false, start calls) (sh, ths) →
  ¬ Forall (λ th, has_returned th = true) ths →
  ∃ c', step im (sh, ths) c' ∧ (work_left c'.2 < work_left ths)%nat.
Proof.
  intros Hwf Hcreate Hrange Hdistinct Hlen Hrun Hnot.
  destruct (insert_reachable im bits h0 l0 calls (sh, ths) Hwf Hcreate) as [(Hok & Hths & _) _];
    [intros n i v Hn; destruct (Hrange n i v Hn) as (? & ? & _); auto
    | exact Hdistinct | exact Hlen | exact Hrun |].
  simpl in *.
  assert (Hlock : lock_holders ths = (if sl_locked sh then 1 else 0)%nat).
  { apply (insert_lock_invariant im (Shared h0 l0 false, start calls) (sh, ths));
      [| exact Hrun]. simpl. apply start_unlocked. }
  assert (Hpick : ∃ k th, ths !! k = Some th ∧ has_returned th = false ∧
                          ∀ i v bn, th = Waiting i v bn → sl_locked sh = false).
  { destruct (sl_locked sh) eqn:Hl.
    - destruct (ConcurrentRuns.filter_lookup_length holds_lock ths) as (k & th & Hk & Hth).
      { unfold lock_holders in Hlock. lia. }
      exists k, th. split; [exact Hk |].
      destruct th; simpl in Hth; try discriminate;
        (split; [reflexivity | intros i' v' bn' E; discriminate]).
    - apply not_Forall_Exists in Hnot; [| intros th; apply _].
      apply Exists_exists in Hnot as (th & Hin & Hth).
      apply list_elem_of_In, list_elem_of_lookup in Hin as [k Hk].
      exists k, th. split; [exact Hk |]. split; [| intros; reflexivity].
      destruct (has_returned th) eqn:E; [| reflexivity].
      exfalso. apply Hth. exact E. }
  destruct Hpick as (k & th & Hk & Hth & Hwait).
  destruct (insert_next_defined im bits h0 calls sh k th Hok (Hths k th Hk) (Hrange k) Hth)
    as [[sh' th'] Hnext].
  exists (sh', <[k := th']> ths). split.
  - apply (step_thread im sh ths k th sh' th' Hk Hnext).
  - apply (insert_next_work im sh ths k th sh' th' Hk Hnext Hwait).
Qed.

Lemma insert_completes im bits h0 l0 calls (n : nat) :
  heap_wf h0 → create bits = Some l0 →
  (∀ n i v, calls !! n = Some (i, v) →
            0 <= i ∧ i + 2 ^ bits < 2 ^ 32 ∧ mask_defined im (Z.log2 (i + 2 ^ bits))) →
  (∀ n n' i v v', calls !! n = Some (i, v) → calls !! n' = Some (i, v') → n = n') →
  Z.of_nat (length calls) < 2 ^ 64 →
  ∀ c : shared T * list (thread T),
    (work_left c.2 <= n)%nat →
    rtc (step im) (Shared h0 l0 false, start calls) c →
    ∃ c', rtc (step im) c c' ∧ Forall (λ th, has_returned th = true) c'.2.
Proof.
  intros Hwf Hcreate Hrange Hdistinct Hlen.
  induction n as [| n IH]; intros [sh ths] Hwork Hrun.
  - exists (sh, ths). split; [apply rtc_refl |]. simpl in *.
    apply work_left_none. lia.
  - destruct (decide (Forall (λ th, has_returned th = true) ths)) as [Hall | Hnot].
    + exists (sh, ths). split; [apply rtc_refl | exact Hall].
    + destruct (insert_progress im bits h0 l0 calls sh ths Hwf Hcreate Hrange Hdistinct
                  Hlen Hrun Hnot) as (c1 & Hstep & Hless).
      destruct (IH c1) as (c' & Hrun' & Hall').
      { simpl in Hwork. lia. }
      { eapply rtc_r; eassumption. }
      exists c'. split; [| exact Hall'].
      eapply rtc_l; eassumption.
Qed.

End Invariant.
End ConcurrentInsertInvariant.

Module ConcurrentInsertRuns.
Import RandomInsertPiggyList RandomInsertFacts RandomInsertValues.
Import ConcurrentInsert ConcurrentInsertFacts ConcurrentInsertInvariant.

Section Calls.
Context {T : Type}.
Implicit Types (calls : list (Z * T)).

Lemma calls_lookup_range (P : Z → Prop) calls :
  (∀ index value, (index, value) ∈ calls → P index) →
  ∀ (n : nat) i v, calls !! n = Some (i, v) → P i.
Proof. intros H n i v Hn. apply (H i v). apply list_elem_of_lookup. eauto. Qed.

Lemma calls_lookup_distinct calls :
  NoDup (calls.*1) →
  ∀ (n n' : nat) i v v', calls !! n = Some (i, v) → calls !! n' = Some (i, v') → n = n'.
Proof.
  intros Hnd n n' i v v' Hn Hn'.
  apply (NoDup_lookup (calls.*1) n n' i Hnd); rewrite list_lookup_fmap.
  - rewrite Hn. reflexivity.
  - rewrite Hn'. reflexivity.
Qed.

(** Distinct indices below [2^32]: there are fewer than [2^64] calls. *)
Lemma calls_length bits calls :
  (∀ index value, (index, value) ∈ calls → 0 <= index ∧ index + 2 ^ bits < 2 ^ 32) →
  0 <= bits → NoDup (calls.*1) → Z.of_nat (length calls) < 2 ^ 64.
Proof.
  intros Hrange Hbits Hnd.
  assert (Hsub : calls.*1 ⊆+ seqZ 0 (2 ^ 32)).
  { apply NoDup_submseteq; [exact Hnd |]. intros i Hi.
    apply list_elem_of_fmap in Hi as ([i' v] & -> & Hin). simpl.
    destruct (Hrange i' v Hin) as [H0 Hlt].
    pose proof (pow2_pos bits Hbits). apply elem_of_seqZ. lia. }
  apply submseteq_length in Hsub. rewrite length_fmap, length_seqZ in Hsub.
  assert (2 ^ 32 < 2 ^ 64) by (apply pow2_lt_mono; lia).
  lia.
Qed.


Lemma create_bits (h0 : heap T) bits l0 :
  heap_wf h0 → create bits = Some l0 → 0 <= bits < 64.
Proof.
  intros Hwf Hcreate.
  destruct (create_wf h0 bits l0 Hwf Hcreate) as ((_ & Hbits & _) & Hb & _).
  rewrite Hb in Hbits. exact Hbits.
Qed.


End Calls.
End ConcurrentInsertRuns.

Section ConcurrentInsertProperties.
Import RandomInsertPiggyList RandomInsertFacts RandomInsertValues RandomInsertRuns.
Import ConcurrentInsert ConcurrentInsertFacts ConcurrentInsertInvariant ConcurrentInsertRuns.
Context {T : Type}.




(** X23 (no deadlock).  In every state that an interleaving of such calls
    can reach, while a call has not returned some thread has a step that
    lowers a bound ([work_left]) on the steps left that are not waits for
    the lock: the thread that holds the lock, or any running thread when
    the lock is free.  So the run has a continuation at whose end every
    call has returned. *)
Theorem concurrent_inserts_complete im initialbitsize (h0 : heap T) l0
    (calls : list (Z * T)) (sh : shared T) (ths : list (thread T)) :
  heap_wf h0 → create initialbitsize = Some l0 →
  (∀ index value, (index, value) ∈ calls →
     0 <= index ∧ index + 2 ^ initialbitsize < 2 ^ 32 ∧
     mask_defined im (Z.log2 (index + 2 ^ initialbitsize))) →
  NoDup (calls.*1) →
  rtc (step im) (Shared h0 l0 false, start calls) (sh, ths) →
  (¬ Forall (λ th, has_returned th = true) ths →
   ∃ sh' ths', step im (sh, ths) (sh', ths') ∧ (work_left ths' < work_left ths)%nat) ∧
  ∃ sh' ths', rtc (step im) (sh, ths) (sh', ths') ∧
              Forall (λ th, has_returned th = true) ths'.
Proof.
  intros Hwf Hcreate Hin Hnd Hrun.
  pose proof (create_bits h0 initialbitsize l0 Hwf Hcreate) as Hbits.
  assert (Hin' : ∀ index value, (index, value) ∈ calls →
                   0 <= index ∧ index + 2 ^ initialbitsize < 2 ^ 32).
  { intros i v Hiv. destruct (Hin i v Hiv) as (? & ? & _). auto. }
  pose proof (calls_lookup_range _ calls Hin) as Hmask.
  pose proof (calls_lookup_distinct calls Hnd) as Hdistinct.
  pose proof (calls_length initialbitsize calls Hin' ltac:(lia) Hnd) as Hlen.
  split.
  - intros Hnot.
    destruct (insert_progress im initialbitsize h0 l0 calls sh ths Hwf Hcreate Hmask
                Hdistinct Hlen Hrun Hnot) as ([sh' ths'] & Hstep & Hless).
    exists sh', ths'. split; [exact Hstep | exact Hless].
  - destruct (insert_completes im initialbitsize h0 l0 calls (work_left ths) Hwf Hcreate
                Hmask Hdistinct Hlen (sh, ths)) as ([sh' ths'] & Hrun' & Hall).
    { simpl. lia. }
    { exact Hrun. }
    exists sh', ths'. split; [exact Hrun' | exact Hall].
Qed.

End ConcurrentInsertProperties.

Ltac not_in_list H :=
  repeat (apply elem_of_cons in H as [H | H]; [discriminate H |]);
  apply elem_of_nil in H; exact H.

Ltac distinct_indices :=
  simpl;
  repeat (apply NoDup_cons_2; [let H := fresh "H" in intros H; not_in_list H |]);
  apply NoDup_nil_2.





Lemma concurrent_inserts_complete_witness :
  ∃ sh ths,
    ConcurrentInsert.run_schedule Strict [0; 2; 0; 2; 0]%nat
      (ConcurrentInsert.Shared empty_heap (RandomInsertPiggyList.mk 1 2 0 ∅) false,
       ConcurrentInsert.start [(0, 7); (5, 9); (1, 8)])
    = Some (sh, ths) ∧
    ConcurrentInsert.sl_locked sh = true ∧
    ∃ sh' ths', rtc (ConcurrentInsert.step Strict) (sh, ths) (sh', ths') ∧
                Forall (λ th, ConcurrentInsert.has_returned th = true) ths'.
Proof.
  destruct (ConcurrentInsert.run_schedule Strict _ _) as [[sh ths] |] eqn:Hrun.
  - exists sh, ths. split; [reflexivity |].
    pose proof (ConcurrentInsertFacts.insert_schedule_steps Strict _ _ _ Hrun) as Hsteps.
    split; [vm_compute in Hrun; inversion Hrun; reflexivity |].
    apply (concurrent_inserts_complete Strict 1 empty_heap
             (RandomInsertPiggyList.mk 1 2 0 ∅) [(0, 7); (5, 9); (1, 8)] sh ths
             empty_heap_wf eq_refl).
    + intros i v Hiv. repeat (apply elem_of_cons in Hiv as [Hiv | Hiv];
        [inversion Hiv; subst; simpl; repeat split; try lia; vm_compute; discriminate |]).
      apply elem_of_nil in Hiv. destruct Hiv.
    + distinct_indices.
    + exact Hsteps.
  - vm_compute in Hrun. discriminate Hrun.
Defined.
